(** * cora.signal: correlation functions and large-scale-structure fields

    A shallow embedding of [cora/signal/corrfunc.py] and
    [cora/signal/lss.py].

    Conventions of the embedding.
    - A Python/NumPy float is a real number ([R]): arithmetic is exact.
      Rounding and overflow are outside the model.
    - A division whose divisor is zero has no real value.  A Python scalar
      division raises [ZeroDivisionError]; NumPy answers [inf] or [nan].
      Both are explicit outcomes of the model ([Raise ZeroDivisionError],
      [Raise NonFinite]) so that a theorem about a returned value is a
      theorem about a finite float.  [Raise NonFinite] marks a run in which
      NumPy computes an [inf] or a [nan], also where Python itself would
      carry on with it.
    - A one-dimensional array is a [list R], a two-dimensional one a list
      of rows.  Exceptions are values of [exn] carried by [result].
    - Functions of libraries outside the repository (SciPy quadrature
      rules, the Hankel transforms, HEALPix, the particle-mesh kernels of
      [cora.util.pmesh]) are section variables. *)

From Stdlib Require Import String.
From Stdlib Require Import Reals Lra Lia List ZArith Bool Sorted.
From Stdlib Require Import Psatz.
Import ListNotations.

Open Scope R_scope.

(** ** Python outcomes *)

Module Py.

Inductive exn : Type :=
| ZeroDivisionError
| IndexError
| TypeError
| AssertionError
| KeyError
| NotImplementedError
| ValueError (msg : string)
| NonFinite.

Inductive result (A : Type) : Type :=
| Ok (a : A)
| Raise (e : exn).

Arguments Ok {A} a.
Arguments Raise {A} e.

Definition bind {A B : Type} (m : result A) (k : A -> result B) : result B :=
  match m with
  | Ok a => k a
  | Raise e => Raise e
  end.

Definition is_ok {A : Type} (m : result A) : bool :=
  match m with Ok _ => true | Raise _ => false end.

(** [mapM f l] runs [f] over [l] left to right and stops at the first
    exception. *)
Fixpoint mapM {A B : Type} (f : A -> result B) (l : list A) : result (list B) :=
  match l with
  | [] => Ok []
  | x :: xs =>
      bind (f x) (fun y => bind (mapM f xs) (fun ys => Ok (y :: ys)))
  end.

(** [seq[i]] for a Python list: a negative index counts from the end. *)
Definition index {A : Type} (l : list A) (i : Z) : result A :=
  let n := Z.of_nat (length l) in
  let j := if (i <? 0)%Z then (i + n)%Z else i in
  if ((j <? 0) || (n <=? j))%Z then Raise IndexError
  else match nth_error l (Z.to_nat j) with
       | Some a => Ok a
       | None => Raise IndexError
       end.

End Py.

Import Py.

Declare Scope py_scope.
Delimit Scope py_scope with py.
Notation "x <- m ;; k" := (Py.bind m (fun x => k))
  (at level 61, m at next level, right associativity) : py_scope.
Open Scope py_scope.

(** ** State and exceptions

    [SE.t St A] is a computation over a mutable store [St] that returns an [A]
    or raises: the store it leaves is known in both cases. *)

Module SE.

Definition t (St A : Type) : Type := St -> St * result A.

Definition ret {St A : Type} (a : A) : t St A := fun s => (s, Ok a).

Definition bind {St A B : Type} (m : t St A) (k : A -> t St B) : t St B :=
  fun s =>
    match m s with
    | (s', Ok a) => k a s'
    | (s', Raise e) => (s', Raise e)
    end.

Definition lift {St A : Type} (r : result A) : t St A := fun s => (s, r).

Definition get {St : Type} : t St St := fun s => (s, Ok s).

Definition modify {St : Type} (f : St -> St) : t St unit := fun s => (f s, Ok tt).

(** [for ii in range(n): body(ii)]. *)
Fixpoint for_range {St : Type} (start n : nat) (body : nat -> t St unit) : t St unit :=
  match n with
  | O => ret tt
  | S n' => bind (body start) (fun _ => for_range (S start) n' body)
  end.

End SE.

Declare Scope se_scope.
Delimit Scope se_scope with se.
Notation "x <~ m ;; k" := (SE.bind m (fun x => k))
  (at level 61, m at next level, right associativity) : se_scope.
Notation "m ;;; k" := (SE.bind m (fun _ => k))
  (at level 61, right associativity) : se_scope.
Open Scope se_scope.

(** ** Floats *)

Module Float.

(** [x / y] for two Python floats. *)
Definition div (x y : R) : result R :=
  if Req_dec_T y 0 then Raise ZeroDivisionError else Ok (x / y).

(** [x / y] inside a NumPy expression: a zero divisor gives [inf] or [nan]. *)
Definition np_div (x y : R) : result R :=
  if Req_dec_T y 0 then Raise NonFinite else Ok (x / y).

(** [t ** n] for a float [t] and an int [n]. *)
Definition pow (t : R) (n : Z) : result R :=
  if Req_dec_T t 0 then
    if (n <? 0)%Z then Raise ZeroDivisionError else Ok (powerRZ t n)
  else Ok (powerRZ t n).

(** [int(x)]: truncation towards zero. *)
Definition int (x : R) : Z :=
  if Rle_dec 0 x then Int_part x else (- Int_part (- x))%Z.

End Float.

(** The union type [FloatArrayLike]: a float or an array of floats, with the
    three operations [richardson] applies to its estimates. *)
Class FloatArrayLike (A : Type) : Type := {
  fal_scale : R -> A -> A;             (* [c * x] *)
  fal_sub : A -> A -> result A;        (* [x - y], broadcasting *)
  fal_div : A -> R -> result A         (* [x / c] *)
}.

#[export] Instance FloatArrayLike_float : FloatArrayLike R := {
  fal_scale c x := c * x;
  fal_sub x y := Ok (x - y);
  fal_div x c := Float.div x c
}.

(** Elementwise subtraction of two arrays; arrays of different lengths do
    not broadcast (lengths 1 aside, which the callers never produce). *)
Fixpoint array_sub (x y : list R) : result (list R) :=
  match x, y with
  | [], [] => Ok []
  | a :: x', b :: y' => r <- array_sub x' y' ;; Ok ((a - b) :: r)
  | _, _ => Raise (ValueError "operands could not be broadcast together")
  end.

#[export] Instance FloatArrayLike_array : FloatArrayLike (list R) := {
  fal_scale c x := map (Rmult c) x;
  fal_sub := array_sub;
  fal_div x c := mapM (fun a => Float.np_div a c) x
}.

(** ** NumPy *)

Module Np.

(** [np.sum] of a one-dimensional array. *)
Definition sum (l : list R) : R := fold_right Rplus 0 l.

(** [np.dot] of two one-dimensional arrays, as a weighted sum. *)
Fixpoint dot (w y : list R) : R :=
  match w, y with
  | a :: w', b :: y' => a * b + dot w' y'
  | _, _ => 0
  end.

(** [np.mean]: the mean of an empty array is [nan]. *)
Definition mean (l : list R) : result R :=
  Float.np_div (sum l) (INR (length l)).

(** [np.var] with [ddof = 0]: the mean of the squared deviations. *)
Definition var (l : list R) : result R :=
  m <- mean l ;;
  mean (map (fun x => (x - m) * (x - m)) l).

(** [a[i] = v] on a list, nothing out of range. *)
Fixpoint set_nth {A : Type} (i : nat) (v : A) (l : list A) : list A :=
  match l, i with
  | [], _ => []
  | _ :: l', O => v :: l'
  | x :: l', S i' => x :: set_nth i' v l'
  end.

(** [np.arange(M)] as indices. *)
Definition arange (M : Z) : list nat := seq 0 (Z.to_nat M).

(** [np.linspace(start, stop, num, endpoint)]. *)
Definition linspace (start stop : R) (num : Z) (endpoint : bool)
  : result (list R) :=
  if (num <? 0)%Z then
    Raise (ValueError "Number of samples must be non-negative.")
  else
    let n := Z.to_nat num in
    let div := if endpoint then (n - 1)%nat else n in
    let delta := stop - start in
    let y :=
      map (fun i =>
             if (0 <? div)%nat then start + INR i * (delta / INR div)
             else start + INR i * delta)
          (seq 0 n) in
    Ok (if endpoint && (1 <? n)%nat then removelast y ++ [stop] else y).

(** [np.logspace(start, stop, num, endpoint)] in base 10. *)
Definition logspace (start stop : R) (num : Z) (endpoint : bool)
  : result (list R) :=
  y <- linspace start stop num endpoint ;;
  Ok (map (Rpower 10) y).

(** Consecutive pieces of [l] of the given sizes. *)
Fixpoint pieces {A : Type} (sizes : list nat) (l : list A) : list (list A) :=
  match sizes with
  | [] => []
  | s :: sizes' => firstn s l :: pieces sizes' (skipn s l)
  end.

(** [np.array_split(ary, Nsections)] for an integer number of sections:
    the first [Ntotal % Nsections] pieces have one more element. *)
Definition array_split {A : Type} (ary : list A) (Nsections : Z)
  : result (list (list A)) :=
  if (Nsections <=? 0)%Z then
    Raise (ValueError "number sections must be larger than 0.")
  else
    let k := Z.to_nat Nsections in
    let Neach := (length ary / k)%nat in
    let extras := (length ary mod k)%nat in
    Ok (pieces (repeat (S Neach) extras ++ repeat Neach (k - extras)) ary).

(** [np.sort] of a one-dimensional array. *)
Fixpoint insert_sorted (x : R) (l : list R) : list R :=
  match l with
  | [] => [x]
  | y :: l' => if Rle_dec x y then x :: l else y :: insert_sorted x l'
  end.

Definition sort (l : list R) : list R := fold_right insert_sorted [] l.

(** [np.sinc(x) = sin(pi x) / (pi x)], and 1 at 0. *)
Definition sinc (x : R) : R :=
  if Req_dec_T x 0 then 1 else sin (PI * x) / (PI * x).

(** [np.log10(x) >= lo] and [np.log10(x) <= hi]: [log10] of a non-positive
    number is [-inf] or [nan], and fails the first comparison. *)
Definition log10_between (lo hi x : R) : bool :=
  if Rlt_dec 0 x then
    if Rle_dec lo (ln x / ln 10) then
      if Rle_dec (ln x / ln 10) hi then true else false
    else false
  else false.

(** [a[mask]] for a boolean mask of the length of [a]. *)
Fixpoint select {A : Type} (mask : list bool) (a : list A) : result (list A) :=
  match mask, a with
  | [], [] => Ok []
  | b :: mask', x :: a' =>
      r <- select mask' a' ;; Ok (if b then x :: r else r)
  | _, _ => Raise IndexError
  end.

(** [np.allclose(a, b)] with the default tolerances. *)
Definition rtol : R := 1 / 100000.
Definition atol : R := 1 / 100000000.

Definition isclose (a b : R) : bool :=
  if Rle_dec (Rabs (a - b)) (atol + rtol * Rabs b) then true else false.

Fixpoint allclose (a b : list R) : result bool :=
  match a, b with
  | [], [] => Ok true
  | x :: a', y :: b' => r <- allclose a' b' ;; Ok (isclose x y && r)
  | _, _ => Raise (ValueError "operands could not be broadcast together")
  end.

(** [a[start::step]]. *)
Fixpoint every {A : Type} (step : nat) (fuel : nat) (l : list A) : list A :=
  match fuel with
  | O => []
  | S fuel' =>
      match l with
      | [] => []
      | x :: _ => x :: every step fuel' (skipn step l)
      end
  end.

Definition stride {A : Type} (start step : nat) (l : list A) : list A :=
  every step (length l) (skipn start l).

End Np.

(** ** corrfunc.py *)

Module Corrfunc.

Section Richardson.

Context {A : Type} `{FloatArrayLike A}.

(** What [richardson] returns: the whole table or its apex. *)
Inductive richardson_ret : Type :=
| Table (table : list (list A))
| Apex (a : A).

(** The inner loop [for col_ind in range(1, row_ind + 1)]: [todo] columns
    are left and [col_ind] is the next one. *)
Fixpoint richardson_cols (t : R) (base_pow : Z) (table : list (list A))
    (row_ind : nat) (todo : nat) (col_ind : nat) (newrow : list A)
  : result (list A) :=
  match todo with
  | O => Ok newrow
  | S todo' =>
      let n := (Z.of_nat col_ind * base_pow)%Z in
      tn <- Float.pow t n ;;
      a <- index newrow (Z.of_nat col_ind - 1) ;;
      prev <- index table (Z.of_nat row_ind - 1) ;;
      b <- index prev (Z.of_nat col_ind - 1) ;;
      d <- fal_sub (fal_scale tn a) b ;;
      r <- fal_div d (tn - 1) ;;
      richardson_cols t base_pow table row_ind todo' (S col_ind) (newrow ++ [r])
  end.

(** The outer loop [for row_ind in range(k)]. *)
Fixpoint richardson_rows (estimates : list A) (t : R) (base_pow : Z)
    (todo : nat) (row_ind : nat) (table : list (list A))
  : result (list (list A)) :=
  match todo with
  | O => Ok table
  | S todo' =>
      e <- index estimates (Z.of_nat row_ind) ;;
      newrow <- richardson_cols t base_pow table row_ind row_ind 1 [e] ;;
      richardson_rows estimates t base_pow todo' (S row_ind) (table ++ [newrow])
  end.

Definition richardson (estimates : list A) (t : R) (base_pow : Z)
    (return_table : bool) : result richardson_ret :=
  let k := length estimates in
  table <- richardson_rows estimates t base_pow k 0 [] ;;
  if return_table then Ok (Table table)
  else
    last_row <- index table (Z.of_nat k - 1) ;;
    apex <- index last_row (Z.of_nat k - 1) ;;
    Ok (Apex apex).

End Richardson.

(** *** Quadrature and transforms of SciPy, hankl and hankel

    [romb_weights n] are the weights of SciPy's Romberg rule on [n]
    equally spaced samples: [si.romb(y, dx)] is the fixed linear
    combination [dx * sum_i w_i y_i] of its samples, and is refused unless
    [n = 2^k + 1].  [P2xi k pk] is [hankl.P2xi(k, pk, 0, lowring=False)]
    (the radii and the real part of the transform), [hankel_transform h f r]
    is [hankel.SymmetricFourierTransform(ndim=3, N=pi/h, h=h).transform(f, r,
    ret_err=False)], [roots_legendre M] is [ss.roots_legendre(M, mu=True)]
    (nodes, weights, sum of weights) and [lpn lmax v] is [ss.lpn(lmax, v)[0]]
    (the Legendre polynomials of degree 0 to [lmax] at [v]). *)

Section Transforms.

Variable romb_weights : nat -> list R.
Variable P2xi : list R -> list R -> result (list R * list R).
Variable hankel_transform : R -> (R -> R) -> list R -> result (list R).
Variable roots_legendre : Z -> result (list R * list R * R).
Variable lpn : Z -> R -> result (list R).

Definition romb_samples_ok (n : nat) : bool :=
  existsb (fun k => Nat.eqb (2 ^ k + 1) n) (seq 0 n).

Definition romb (y : list R) (dx : R) : result R :=
  if romb_samples_ok (length y) then Ok (dx * Np.dot (romb_weights (length y)) y)
  else Raise (ValueError "Number of samples must be one plus a non-negative power of 2.").

(** Direct integration of [psfunc] between [10^log_k0] and [10^log_k1] for
    every radius of [r]. *)
Definition _corr_direct (psfunc : R -> R) (log_k0 log_k1 : R) (r : list R)
    (k : Z) : result (list R) :=
  if (k <? 0)%Z then Raise (ValueError "negative shift count") else
  ka <- Np.logspace log_k0 log_k1 (Z.shiftl 1 k + 1) true ;;
  ka1 <- index ka 1 ;;
  ka0 <- index ka 0 ;;
  ratio <- Float.np_div ka1 ka0 ;;
  let dlk := ln ratio in
  mapM (fun ri =>
          let integrand :=
            map (fun kj => psfunc kj * kj ^ 3 / (2 * PI ^ 2)
                           * Np.sinc (kj * ri / PI)) ka in
          v <- romb integrand 1 ;;
          Ok (v * dlk)) r.

Definition _corr_hankel (func : R -> R) (logrmin logrmax : R)
    (samples_per_decade : Z) (h : R) : result (list R * list R) :=
  _ <- Float.div PI h ;;
  r <- Np.logspace logrmin logrmax
         (Float.int ((logrmax - logrmin) * IZR samples_per_decade) + 1) true ;;
  F <- hankel_transform h func r ;;
  Ok (r, map (fun f => f / (2 * PI) ^ 3) F).

(** The closure [_work(ii)]: the transform on a grid upsampled by [2**ii],
    decimated back with [r[(u - 1)::u]]. *)
Definition _work (func : R -> R) (rlow rhigh : R) (n : Z) (ii : nat)
  : result (list R * list R) :=
  let u := (2 ^ ii)%nat in
  k <- Np.logspace (- rhigh) (- rlow) (n * Z.of_nat u) false ;;
  rx <- P2xi k (map func k) ;;
  let (r, xi) := rx in
  Ok (Np.stride (u - 1) u r, Np.stride (u - 1) u xi).

(** [for r in rs[1:]: assert np.allclose(r, rs[0])]. *)
Fixpoint assert_same_radii (rs0 : list R) (rs : list (list R)) : result unit :=
  match rs with
  | [] => Ok tt
  | r :: rs' =>
      c <- Np.allclose r rs0 ;;
      if c then assert_same_radii rs0 rs' else Raise AssertionError
  end.

Definition _corr_hankl_richardson (func : R -> R) (logrmin logrmax : R)
    (samples_per_decade : Z) (richardson_n : Z) (pad_low pad_high : R)
  : result (list R * list R) :=
  let rlow := logrmin - pad_low in
  let rhigh := logrmax + pad_high in
  let n := Float.int (IZR samples_per_decade * (rhigh - rlow)) in
  works <- mapM (_work func rlow rhigh n) (seq 0 (Z.to_nat richardson_n)) ;;
  match works with
  | [] => Raise (ValueError "not enough values to unpack")
  | (rs0, _) :: rest =>
      _ <- assert_same_radii rs0 (map fst rest) ;;
      let mask := map (Np.log10_between logrmin logrmax) rs0 in
      r <- Np.select mask rs0 ;;
      estimates <- mapM (Np.select mask) (map snd works) ;;
      ret <- richardson estimates 2 1 false ;;
      match ret with
      | Apex xi => Ok (r, xi)
      | Table _ => Raise TypeError
      end
  end.

(** The keyword arguments [ps_to_corr] forwards to the large-r transform. *)
Record kwargs : Type := {
  kw_richardson_n : option Z;
  kw_pad_low : option R;
  kw_pad_high : option R;
  kw_h : option R
}.

Definition no_kwargs : kwargs :=
  {| kw_richardson_n := None; kw_pad_low := None; kw_pad_high := None;
     kw_h := None |}.

Definition get_default {A : Type} (d : A) (o : option A) : A :=
  match o with Some a => a | None => d end.

Definition ps_to_corr (psfunc : R -> R) (minlogr maxlogr switchlogr : R)
    (samples_per_decade : Z) (fftlog : bool) (kw : kwargs)
  : result (list R * list R) :=
  rlow <- Np.logspace minlogr switchlogr
            (Float.int ((switchlogr - minlogr) * IZR samples_per_decade)) false ;;
  high <-
    (if fftlog then
       match kw_h kw with
       | Some _ => Raise TypeError
       | None =>
           _corr_hankl_richardson psfunc switchlogr maxlogr samples_per_decade
             (get_default 6%Z (kw_richardson_n kw))
             (get_default 2 (kw_pad_low kw))
             (get_default 1 (kw_pad_high kw))
       end
     else
       match kw_richardson_n kw, kw_pad_low kw, kw_pad_high kw with
       | None, None, None =>
           _corr_hankel psfunc switchlogr maxlogr samples_per_decade
             (get_default (1 / 100000) (kw_h kw))
       | _, _, _ => Raise TypeError
       end) ;;
  let (rhigh, Fhigh) := high in
  let rlow := 0 :: rlow in
  Flow <- _corr_direct psfunc (-5) 3 rlow 16 ;;
  Ok (rlow ++ rhigh, Flow ++ Fhigh).

(** [legendre_array(lmax, mu)]: row [l], column [i] is [P_l(mu_i)]. *)
Definition legendre_array (lmax : Z) (mu : list R) : result (list (list R)) :=
  if (lmax + 1 <? 0)%Z then
    Raise (ValueError "negative dimensions are not allowed")
  else
    let nl := Z.to_nat (lmax + 1) in
    cols <- mapM (fun v =>
                    p <- lpn lmax v ;;
                    if Nat.eqb (length p) nl then Ok p
                    else Raise (ValueError "could not broadcast input array"))
                 mu ;;
    Ok (map (fun l => map (fun col => nth l col 0) cols) (seq 0 nl)).

(** The cosine rule in its stable form,
    [((x1 - x2) ** 2 + 2 * x1 * x2 * (1 - ms)) ** 0.5]. *)
Definition separation (x1 x2 ms : R) : result R :=
  let s := (x1 - x2) ^ 2 + 2 * x1 * x2 * (1 - ms) in
  if Rlt_dec s 0 then Raise NonFinite else Ok (sqrt s).

(** [corr(rc)] for one node [ms]: a matrix over the extended distances. *)
Definition corr_matrix (corr : R -> R) (xa : list R) (ms : R)
  : result (list (list R)) :=
  mapM (fun x1 => mapM (fun x2 => rc <- separation x1 x2 ms ;; Ok (corr rc)) xa) xa.

(** The radial integration of one matrix: [corr1.reshape(xlen, xint, xlen,
    xint)], Romberg along the last axis, then along the second, and the
    normalisation by [(2 * xhalf) ** 2]. *)
Definition integrate_bins (xlen xint : nat) (xspace xhalf : R)
    (c : list (list R)) : result (list (list R)) :=
  mapM (fun i =>
    mapM (fun j =>
      inner <- mapM (fun a =>
                 romb (map (fun b => nth (j * xint + b) (nth (i * xint + a) c []) 0)
                           (seq 0 xint)) xspace)
               (seq 0 xint) ;;
      v <- romb inner xspace ;;
      Float.np_div v ((2 * xhalf) ^ 2))
    (seq 0 xlen))
  (seq 0 xlen).

(** The extended distances and, when [xromb > 0], the integration data
    [(xint, xspace, xhalf)]. *)
Definition extended_distances (xarray : list R) (xromb : Z) (xwidth : option R)
  : result (list R * option (nat * R * R)) :=
  if (0 <? xromb)%Z then
    xhalf <- match xwidth with
             | None =>
                 let xsort := Np.sort xarray in
                 x1 <- index xsort 1 ;;
                 x0 <- index xsort 0 ;;
                 Ok (Rabs (x1 - x0) / 2)
             | Some wd => Ok (wd / 2)
             end ;;
    let xint := (2 ^ xromb + 1)%Z in
    let xspace := 2 * xhalf / IZR (2 ^ xromb) in
    lin <- Np.linspace (- xhalf) xhalf xint true ;;
    Ok (flat_map (fun x => map (fun d => x + d) lin) xarray,
        Some (Z.to_nat xint, xspace, xhalf))
  else Ok (xarray, None).

(** One pass of the loop over the groups of nodes: the planes of the group
    [msec]. *)
Definition corr_group (corr : R -> R) (mu : list R) (xlen : nat) (xa : list R)
    (integ : option (nat * R * R)) (msec : list nat)
  : result (list (list (list R))) :=
  mapM (fun m =>
          ms <- index mu (Z.of_nat m) ;;
          corr1 <- corr_matrix corr xa ms ;;
          match integ with
          | Some (xint, xspace, xhalf) =>
              integrate_bins xlen xint xspace xhalf corr1
          | None => Ok corr1
          end) msec.

(** [corr_array[msec, :, :] = corr1]. *)
Fixpoint assign_planes {A : Type} (msec : list nat) (planes : list A)
    (corr_array : list A) : list A :=
  match msec, planes with
  | m :: msec', p :: planes' =>
      assign_planes msec' planes' (Np.set_nth m p corr_array)
  | _, _ => corr_array
  end.

Fixpoint fill_groups {A : Type} (group : list nat -> result (list A))
    (groups : list (list nat)) (corr_array : list A) : result (list A) :=
  match groups with
  | [] => Ok corr_array
  | msec :: groups' =>
      planes <- group msec ;;
      fill_groups group groups' (assign_planes msec planes corr_array)
  end.

Definition corr_to_clarray (corr : R -> R) (lmax : Z) (xarray : list R)
    (xromb : Z) (xwidth : option R) (q : Z)
  : result (list (list (list R))) :=
  let M := (q * lmax)%Z in
  rl <- roots_legendre M ;;
  let '(mu, w, wsum) := rl in
  let xlen := length xarray in
  if (M <? 0)%Z then Raise (ValueError "negative dimensions are not allowed")
  else
    let zeros := repeat (repeat (repeat 0 xlen) xlen) (Z.to_nat M) in
    ext <- extended_distances xarray xromb xwidth ;;
    let (xa, integ) := ext in
    groups <- Np.array_split (Np.arange M) (M / 50) ;;
    corr_array <- fill_groups (corr_group corr mu xlen xa integ) groups zeros ;;
    lm <- legendre_array lmax mu ;;
    scale <- mapM (fun wm => Float.np_div (wm * 4 * PI) wsum) w ;;
    if negb (Nat.eqb (length scale) (length mu)) then
      Raise (ValueError "operands could not be broadcast together")
    else if negb (Nat.eqb (length mu) (Z.to_nat M)) then
      Raise (ValueError "shapes not aligned")
    else
      let lm := map (fun row => map (fun p => fst p * snd p) (combine row scale)) lm in
      Ok (map (fun row =>
                 map (fun i =>
                        map (fun j =>
                               Np.dot row
                                 (map (fun plane => nth j (nth i plane []) 0)
                                      corr_array))
                            (seq 0 xlen))
                     (seq 0 xlen))
              lm).

End Transforms.

End Corrfunc.

(** ** lss.py: numerical helpers *)

Module Lss.

(** [FloatArrayLike] arguments given either as one float or as an array. *)
Inductive float_or_array : Type :=
| Scalar (x : R)
| Array (a : list R).

(** [a[start:start + len(vals)] = vals]. *)
Fixpoint set_slice {A : Type} (start : nat) (vals : list A) (l : list A) : list A :=
  match vals with
  | [] => l
  | v :: vals' => set_slice (S start) vals' (Np.set_nth start v l)
  end.

(** Estimate the widths of contiguous bins from their centres. *)
Definition _calculate_width (centres : list R) : result (list R) :=
  let n := length centres in
  let widths := repeat 0 n in
  (* widths[1:-1] = (centres[2:] - centres[:-2]) / 2.0 *)
  let interior :=
    map (fun p => (fst p - snd p) / 2) (combine (skipn 2 centres) centres) in
  let widths := set_slice 1 interior widths in
  (* widths[0] = 2 * (centres[1] - (widths[1] / 2.0) - centres[0]) *)
  c1 <- index centres 1 ;;
  w1 <- index widths 1 ;;
  c0 <- index centres 0 ;;
  let widths := Np.set_nth 0 (2 * (c1 - w1 / 2 - c0)) widths in
  (* widths[-1] = 2 * (centres[-1] - (widths[-2] / 2.0) - centres[-2]) *)
  cl <- index centres (-1) ;;
  wl <- index widths (-2) ;;
  cp <- index centres (-2) ;;
  let widths := Np.set_nth (n - 1) (2 * (cl - wl / 2 - cp)) widths in
  Ok (map Rabs widths).

(** An array operand of an expression over [n] bins: it has [n] entries, or
    one that is repeated. *)
Definition broadcast (n : nat) (a : list R) : result (list R) :=
  if Nat.eqb (length a) n then Ok a
  else match a with
       | [x] => Ok (repeat x n)
       | _ => Raise (ValueError "operands could not be broadcast together")
       end.

(** [if not isinstance(v, np.ndarray): v = np.ones_like(chi) * v]. *)
Definition as_array (chi : list R) (v : float_or_array) : result (list R) :=
  match v with
  | Scalar x => Ok (map (fun _ => 1 * x) chi)
  | Array a => broadcast (length chi) a
  end.

(** The closure [sinhc(x) = np.sinh(x) / x]. *)
Definition sinhc (x : R) : result R := Float.np_div (sinh x) x.

(** [np.fill_diagonal(K, val)] for an array [val]: entry [i] of the
    diagonal receives entry [i] of the flattened [val], which is repeated
    when it is too short. *)
Definition fill_diagonal (K : list (list R)) (val : list (list R))
  : list (list R) :=
  let flat := concat val in
  map (fun p =>
         let i := fst p in
         Np.set_nth i (nth (i mod length flat) flat 0) (snd p))
      (combine (seq 0 (length K)) K).

(** [K /= np.sum(K, axis=1)[:, np.newaxis]]. *)
Definition normalise_rows (K : list (list R)) : result (list (list R)) :=
  mapM (fun row => mapM (fun x => Float.np_div x (Np.sum row)) row) K.

(** [K /= D[np.newaxis, :]]. *)
Definition divide_columns (K : list (list R)) (D : list R)
  : result (list (list R)) :=
  mapM (fun row => mapM (fun p => Float.np_div (fst p) (snd p)) (combine row D)) K.

(** [K *= D[:, np.newaxis]]. *)
Definition multiply_rows (K : list (list R)) (D : list R) : list (list R) :=
  map (fun p => map (fun x => x * snd p) (fst p)) (combine K D).

(** The unnormalised exponential kernel,
    [np.exp(-ar * chi_sep) * sinhc(ar * dchi / 2.0)]. *)
Definition raw_kernel (a dchi chi : list R) : result (list (list R)) :=
  mapM (fun p =>
          let (ai, chi_i) := (p : R * R) in
          mapM (fun q =>
                  let (dchi_j, chi_j) := (q : R * R) in
                  s <- sinhc (ai * dchi_j / 2) ;;
                  Ok (exp (- ai * Rabs (chi_i - chi_j)) * s))
               (combine dchi chi))
       (combine a chi).

(** The zero-lag values, [np.exp(-ar * dchi / 4) * sinhc(ar * dchi / 4)]. *)
Definition zero_lag (a dchi : list R) : result (list (list R)) :=
  mapM (fun ai =>
          mapM (fun dchi_j =>
                  s <- sinhc (ai * dchi_j / 4) ;;
                  Ok (exp (- ai * dchi_j / 4) * s))
               dchi)
       a.

Definition exponential_FoG_kernel (chi : list R) (sigmaP D : float_or_array)
  : result (list (list R)) :=
  sigmaP <- as_array chi sigmaP ;;
  D <- as_array chi D ;;
  a <- mapM (fun s => Float.np_div (sqrt 2) s) sigmaP ;;
  dchi <- _calculate_width chi ;;
  K <- raw_kernel a dchi chi ;;
  diag <- zero_lag a dchi ;;
  let K := fill_diagonal K diag in
  K <- normalise_rows K ;;
  K <- divide_columns K D ;;
  Ok (multiply_rows K D).

(** [field.var(axis=axis, keepdims=True)] of a two-dimensional array:
    shape (1, 1) without an axis, (1, m) along axis 0, (n, 1) along axis 1. *)
Definition column {A : Type} (d : A) (j : nat) (field : list (list A)) : list A :=
  map (fun row => nth j row d) field.

Definition var_keepdims (field : list (list R)) (axis : option Z)
  : result (list (list R)) :=
  match axis with
  | None => v <- Np.var (concat field) ;; Ok [[v]]
  | Some 0%Z =>
      vs <- mapM (fun j => Np.var (column 0 j field))
                 (seq 0 (length (hd [] field))) ;;
      Ok [vs]
  | Some 1%Z => mapM (fun row => v <- Np.var row ;; Ok [v]) field
  | Some _ => Raise (ValueError "axis is out of bounds for array of dimension 2")
  end.

(** Entry [(i, j)] of an operand broadcast against a two-dimensional array. *)
Definition broadcast_get (v : list (list R)) (i j : nat) : R :=
  let row := nth (if Nat.eqb (length v) 1 then 0%nat else i) v [] in
  nth (if Nat.eqb (length row) 1 then 0%nat else j) row 0.

Definition shape2 {A : Type} (a : list (list A)) : nat * nat :=
  (length a, length (hd [] a)).

Definition shape2_eqb (s t : nat * nat) : bool :=
  Nat.eqb (fst s) (fst t) && Nat.eqb (snd s) (snd t).

(** Transform to a lognormal field.  The value returned is the final
    content of [out] (a fresh array when [out] is [None]). *)
Definition lognormal_transform (field : list (list R))
    (out : option (list (list R))) (axis : option Z)
  : result (list (list R)) :=
  _ <- match out with
       | None => Ok tt
       | Some o =>
           if shape2_eqb (shape2 field) (shape2 o) then Ok tt
           else Raise (ValueError "Given output array is incompatible.")
       end ;;
  (* out[:] = field *)
  let out := field in
  var <- var_keepdims field axis ;;
  (* out -= var / 2.0 ; np.exp(out, out=out) ; out -= 1 *)
  Ok (map (fun p =>
             let i := fst p in
             map (fun q => exp (snd q - broadcast_get var i (fst q) / 2) - 1)
                 (combine (seq 0 (length (snd p))) (snd p)))
          (combine (seq 0 (length out)) out)).

End Lss.

(** ** lss.py: the Zel'dovich mass assignment *)

Module Za.

(** An [np.ndarray] of any number of dimensions: its shape and its data in
    row-major order. *)
Record ndarray : Type := {
  nd_shape : list nat;
  nd_data : list R
}.

Definition of_rows (rows : list (list R)) : ndarray :=
  {| nd_shape := [length rows; length (hd [] rows)]; nd_data := concat rows |}.

Definition of_vector (v : list R) : ndarray :=
  {| nd_shape := [length v]; nd_data := v |}.

Definition of_cube (c : list (list (list R))) : ndarray :=
  {| nd_shape := [length c; length (hd [] c); length (hd [] (hd [] c))];
     nd_data := concat (map (@concat R) c) |}.

(** The rows of a two-dimensional array of [npix] columns. *)
Fixpoint rows_of (fuel npix : nat) (data : list R) : list (list R) :=
  match fuel with
  | O => []
  | S fuel' => firstn npix data :: rows_of fuel' npix (skipn npix data)
  end.

Definition to_rows (a : ndarray) : list (list R) :=
  match nd_shape a with
  | [n; m] => rows_of n m (nd_data a)
  | _ => []
  end.

(** [_assert_shape(arr, shape, name)].  The messages of the source end with
    the two shapes, which are left out here. *)
Definition wrong_ndim (name : string) : exn :=
  ValueError ("Array " ++ name ++ " has wrong number of dimensions").

Definition wrong_shape (name : string) : exn :=
  ValueError ("Array " ++ name ++ " has the wrong shape").

Definition _assert_shape (arr : ndarray) (shape : list nat) (name : string)
  : result unit :=
  if negb (Nat.eqb (length (nd_shape arr)) (length shape)) then
    Raise (wrong_ndim name)
  else if list_eq_dec Nat.eq_dec (nd_shape arr) shape then Ok tt
  else Raise (wrong_shape name).

(** [nchi, npix = delta_bias.shape]. *)
Definition unpack2 (shape : list nat) : result (nat * nat) :=
  match shape with
  | [nchi; npix] => Ok (nchi, npix)
  | _ => Raise (ValueError "wrong number of values to unpack")
  end.

(** [healpy.npix2nside]: refused unless [npix = 12 * nside ** 2]. *)
Definition npix2nside (npix : nat) : result nat :=
  let nside := Nat.sqrt (npix / 12) in
  if Nat.eqb (12 * nside * nside) npix then Ok nside
  else Raise (ValueError "Wrong pixel number (it is not 12*nside**2)").

(** The bins of [chi] extended by a cell at each end. *)
Definition extend_chi (chi : list R) : result (list R) :=
  let chi_ext := repeat 0 (length chi + 2) in
  let chi_ext := Lss.set_slice 1 chi chi_ext in
  c0 <- index chi 0 ;;
  c1 <- index chi 1 ;;
  let chi_ext := Np.set_nth 0 (c0 - (c1 - c0)) chi_ext in
  cl <- index chi (-1) ;;
  cp <- index chi (-2) ;;
  Ok (Np.set_nth (length chi + 1) (cl + (cl - cp)) chi_ext).

(** [np.diff]. *)
Definition diff (l : list R) : list R :=
  map (fun p => fst p - snd p) (combine (skipn 1 l) l).

Section MassAssignment.

(** The body of the loop over the slices, which HEALPix and the kernels of
    [cora.util.pmesh] compute: the slice [ii] of the displaced field is
    binned into [out].  For the grid scheme the arguments are [nside],
    [psi], [delta_bias], [chi], [chi_ext], [ii]; for the SPH scheme
    [nside], [psi], [delta_bias], [delta_m], [chi], [sigma_chi], [ii]. *)
Variable grid_slice :
  nat -> ndarray -> ndarray -> ndarray -> list R -> nat -> ndarray -> ndarray.
Variable sph_slice :
  nat -> ndarray -> ndarray -> ndarray -> ndarray -> R -> nat -> ndarray -> ndarray.

(** [out[:] -= 1.0]. *)
Definition subtract_one (out : ndarray) : ndarray :=
  {| nd_shape := nd_shape out; nd_data := map (fun x => x - 1) (nd_data out) |}.

(** Both functions run over the store [out], which they modify in place. *)
Definition za_density_grid (psi delta_bias delta_m chi : ndarray)
  : SE.t ndarray unit :=
  shp <~ SE.lift (unpack2 (nd_shape delta_bias)) ;;
  let (nchi, npix) := (shp : nat * nat) in
  (* Validate all the array shapes *)
  SE.lift (_assert_shape psi [3%nat; nchi; npix] "psi") ;;;
  SE.lift (_assert_shape delta_m [nchi; npix] "delta_m") ;;;
  SE.lift (_assert_shape chi [nchi] "chi") ;;;
  out <~ SE.get ;;
  SE.lift (_assert_shape out [nchi; npix] "out") ;;;
  nside <~ SE.lift (npix2nside npix) ;;
  chi_ext <~ SE.lift (extend_chi (nd_data chi)) ;;
  SE.for_range 0 nchi
    (fun ii => SE.modify (grid_slice nside psi delta_bias chi chi_ext ii)) ;;;
  SE.modify subtract_one.

Definition za_density_sph (psi delta_bias delta_m chi : ndarray)
  : SE.t ndarray unit :=
  shp <~ SE.lift (unpack2 (nd_shape delta_bias)) ;;
  let (nchi, npix) := (shp : nat * nat) in
  nside <~ SE.lift (npix2nside npix) ;;
  (* Validate all the array shapes *)
  SE.lift (_assert_shape psi [3%nat; nchi; npix] "psi") ;;;
  SE.lift (_assert_shape delta_m [nchi; npix] "delta_m") ;;;
  SE.lift (_assert_shape chi [nchi] "chi") ;;;
  out <~ SE.get ;;
  SE.lift (_assert_shape out [nchi; npix] "out") ;;;
  (* Set the nominal smoothing scales at mean density *)
  m <~ SE.lift (Np.mean (map Rabs (diff (nd_data chi)))) ;;
  let sigma_chi := m / 2 in
  SE.for_range 0 nchi
    (fun ii => SE.modify (sph_slice nside psi delta_bias delta_m chi sigma_chi ii)) ;;;
  SE.modify subtract_one.

End MassAssignment.

End Za.

(** ** lss.py: the field containers and the pipeline tasks *)

Module Tasks.

(** Modelled from the spec: the containers [InitialLSS] and [BiasedLSS] of
    [lsscontainers.py], which is not among the sources.  An [InitialLSS]
    holds two co-located fields, [delta] and [phi], each of shape
    (radial slices, pixels); a [BiasedLSS] holds a [delta] of the same
    shape; every field carries its axis metadata: the resolution [nside],
    the radial coordinates [chi], the redshifts and the pixels.  The record
    has the attributes the tasks read, [phi] being empty in a [BiasedLSS],
    with the two attributes [lightcone] and [fixed_redshift] the tasks pass
    on. *)
Record Container : Type := {
  delta : list (list R);
  phi : list (list R);
  chi : list R;
  redshift_label : option (list R);
  pixel : list nat;
  nside : nat;
  lightcone : bool;
  fixed_redshift : option R
}.

Definition with_delta (c : Container) (d : list (list R)) : Container :=
  {| delta := d; phi := phi c; chi := chi c;
     redshift_label := redshift_label c; pixel := pixel c; nside := nside c;
     lightcone := lightcone c; fixed_redshift := fixed_redshift c |}.

(** Objects live in a store and are known by their reference: two names of
    one object are one reference. *)
Definition heap : Type := list Container.
Definition ref : Type := nat.

Definition deref (r : ref) : SE.t heap Container :=
  fun h => (h, match nth_error h r with
               | Some c => Ok c
               | None => Raise KeyError
               end).

Definition alloc (c : Container) : SE.t heap ref :=
  fun h => (h ++ [c], Ok (length h)).

(** [obj.delta[:] = d]. *)
Definition set_delta (r : ref) (d : list (list R)) : SE.t heap unit :=
  SE.modify (fun h =>
               match nth_error h r with
               | Some c => Np.set_nth r (with_delta c d) h
               | None => h
               end).

(** Modelled from the spec: the property [field.redshift] of the
    containers, the redshift array the field carries. *)
Definition redshift (c : Container) : result (list R) :=
  match redshift_label c with
  | Some z => Ok z
  | None => Raise KeyError
  end.

Definition zeros2 (n m : nat) : list (list R) := repeat (repeat 0 m) n.

(** Modelled from the spec: the constructor
    [BiasedLSS(lightcone=lc, fixed_redshift=fz, axes_from=f, attrs_from=f)]
    of [lsscontainers.py], a new instance that copies the axis metadata of
    its input and has a dataset of its own. *)
Definition BiasedLSS (lc : bool) (fz : option R) (f : Container) : Container :=
  {| delta := zeros2 (length (chi f)) (length (pixel f)); phi := [];
     chi := chi f; redshift_label := redshift_label f; pixel := pixel f;
     nside := nside f; lightcone := lc; fixed_redshift := fz |}.

(** *** Array expressions *)

Definition zip_with (f : R -> R -> R) (a b : list R) : list R :=
  map (fun p => f (fst p) (snd p)) (combine a b).

(** [a * b] for two one-dimensional arrays. *)
Definition mul (a b : list R) : result (list R) :=
  if Nat.eqb (length a) (length b) then Ok (zip_with Rmult a b)
  else match a, b with
       | [x], _ => Ok (map (Rmult x) b)
       | _, [y] => Ok (map (fun x => x * y) a)
       | _, _ => Raise (ValueError "operands could not be broadcast together")
       end.

(** [v[:, np.newaxis] * m]. *)
Definition scale_rows (v : list R) (m : list (list R)) : result (list (list R)) :=
  v <- Lss.broadcast (length m) v ;;
  Ok (map (fun p => map (Rmult (fst p)) (snd p)) (combine v m)).

(** [a + b] for two arrays of one shape. *)
Fixpoint add2 (a b : list (list R)) : result (list (list R)) :=
  match a, b with
  | [], [] => Ok []
  | x :: a', y :: b' =>
      if Nat.eqb (length x) (length y) then
        r <- add2 a' b' ;; Ok (zip_with Rplus x y :: r)
      else Raise (ValueError "operands could not be broadcast together")
  | _, _ => Raise (ValueError "operands could not be broadcast together")
  end.

(** [obj.delta[:] += term]. *)
Definition add_to_delta (r : ref) (term : list (list R)) : SE.t heap unit :=
  c <~ deref r ;;
  d <~ SE.lift (add2 (delta c) term) ;;
  set_delta r d.

(** [try: body except NotImplementedError: pass]. *)
Definition except_NotImplementedError {St : Type} (body : SE.t St unit)
  : SE.t St unit :=
  fun s =>
    match body s with
    | (s', Raise NotImplementedError) => (s', Ok tt)
    | r => r
    end.

(** [np.matmul(K, d)]. *)
Definition matmul (K d : list (list R)) : result (list (list R)) :=
  mapM (fun row =>
          if Nat.eqb (length row) (length d) then
            Ok (map (fun j => Np.dot row (Lss.column 0 j d))
                    (seq 0 (length (hd [] d))))
          else Raise (ValueError "matmul: mismatch in its core dimension"))
       K.

(** [x ** -0.5]. *)
Definition inv_sqrt (x : R) : result R :=
  if Rlt_dec 0 x then Ok (/ sqrt x) else Raise NonFinite.

Section Pipeline.

(** The cosmology of the fields, the derivatives of [lssutil], the HEALPix
    geometry, the loop bodies of the mass assignment, the model of the
    Fingers-of-God scale and the draw of the task's random generator. *)
Variable growth_factor : R -> R.
Variable growth_rate : R -> R.
Variable gradient : list (list R) -> list R -> list (list (list R)).
Variable diff2 : list (list R) -> list R -> list (list R).
Variable ang_theta : nat -> list R.
Variable nside2pixarea : nat -> R.
Variable grid_slice :
  nat -> Za.ndarray -> Za.ndarray -> Za.ndarray -> list R -> nat
  -> Za.ndarray -> Za.ndarray.
Variable sph_slice :
  nat -> Za.ndarray -> Za.ndarray -> Za.ndarray -> Za.ndarray -> R -> nat
  -> Za.ndarray -> Za.ndarray.
Variable _sigma_P : R -> R.
Variable rng_normal : list R -> nat * nat -> list (list R).

(** [c.growth_factor(z) / c.growth_factor(0)]. *)
Definition growth (z : list R) : result (list R) :=
  mapM (fun zi => Float.np_div (growth_factor zi) (growth_factor 0)) z.

(** *** GenerateBiasedFieldBase *)

Record BiasTask : Type := {
  bias_lightcone : bool;
  bias_redshift : option R;
  bias_lognormal : bool;
  _bias_1 : list R -> result (list R);
  _bias_2 : list R -> result (list R)
}.

(** The methods of the base class. *)
Definition not_overridden (z : list R) : result (list R) :=
  Raise NotImplementedError.

(** The redshift of each slice: the labels of the field on the lightcone,
    the fixed epoch of the task otherwise. *)
Definition bias_z (self : BiasTask) (f : Container) : result (list R) :=
  if bias_lightcone self then redshift f
  else match bias_redshift self with
       | Some z0 => Ok (map (fun _ => z0 * 1) (chi f))
       | None => Raise TypeError
       end.

Definition square (x : R) : R := x * x.

Definition GenerateBiasedFieldBase_process (self : BiasTask) (f_ref : ref)
  : SE.t heap ref :=
  f <~ deref f_ref ;;
  biased_field <~ alloc (BiasedLSS (bias_lightcone self) (bias_redshift self) f) ;;
  set_delta biased_field (zeros2 (length (chi f)) (length (pixel f))) ;;;
  z <~ SE.lift (bias_z self f) ;;
  D <~ SE.lift (growth z) ;;
  (* Apply any first order bias *)
  except_NotImplementedError
    (b1 <~ SE.lift (_bias_1 self z) ;;
     let lshape := length (delta f) in
     Db1 <~ SE.lift (mul D b1) ;;
     term <~ SE.lift (scale_rows (firstn lshape Db1) (delta f)) ;;
     add_to_delta biased_field term) ;;;
  (* Apply any second order bias *)
  except_NotImplementedError
    (b2 <~ SE.lift (_bias_2 self z) ;;
     d2m <~ SE.lift (mapM (fun row => Np.mean (map square row)) (delta f)) ;;
     D2b2 <~ SE.lift (mul (map (fun d => d ^ 2) D) b2) ;;
     term <~ SE.lift
       (scale_rows D2b2
          (map (fun p => map (fun x => square x - snd p) (fst p))
               (combine (delta f) d2m))) ;;
     add_to_delta biased_field term) ;;;
  (if bias_lognormal self then
     b <~ deref biased_field ;;
     d <~ SE.lift (Lss.lognormal_transform (delta b) (Some (delta b))
                     (if bias_lightcone self then Some 1%Z else None)) ;;
     set_delta biased_field d
   else SE.ret tt) ;;;
  SE.ret biased_field.

(** *** DynamicsBase *)

Definition _validate_fields (initial_field biased_field : Container)
  : result unit :=
  if list_eq_dec Req_dec_T (chi initial_field) (chi biased_field) then
    if list_eq_dec Nat.eq_dec (pixel biased_field) (pixel initial_field) then Ok tt
    else Raise (ValueError "Angular axes do not match between initial and biased fields.")
  else Raise (ValueError "Radial axes do not match between initial and biased fields.").

(** [_get_props]: the NSIDE of the map axis, the radial coordinate and the
    redshift of each slice. *)
Definition _get_props (biased_field : Container) : result (nat * list R * list R) :=
  nside <- Za.npix2nside (length (hd [] (delta biased_field))) ;;
  za <- (if lightcone biased_field then
           match redshift_label biased_field with
           | None => Raise (ValueError "Incoming biased field does not have a redshift label.")
           | Some z => Ok z
           end
         else
           match fixed_redshift biased_field with
           | Some z0 => Ok (map (fun _ => 1 * z0) (chi biased_field))
           | None => Raise TypeError
           end) ;;
  Ok (nside, chi biased_field, za).

(** *** ZeldovichDynamics *)

(** Apply [f] to the rows of the components [lo <= c < hi] of a cube. *)
Definition on_components (lo hi : nat)
    (f : list (list R) -> result (list (list R))) (cube : list (list (list R)))
  : result (list (list (list R))) :=
  mapM (fun p =>
          if ((lo <=? fst p) && (fst p <? hi))%nat then f (snd p) else Ok (snd p))
       (combine (seq 0 (length cube)) cube).

(** [m /= v[:, np.newaxis]] and [m /= v[np.newaxis, :]]. *)
Definition divide_rows (v : list R) (m : list (list R)) : result (list (list R)) :=
  v <- Lss.broadcast (length m) v ;;
  mapM (fun p => mapM (fun x => Float.np_div x (fst p)) (snd p)) (combine v m).

Definition divide_cols (v : list R) (m : list (list R)) : result (list (list R)) :=
  mapM (fun row =>
          v <- Lss.broadcast (length row) v ;;
          mapM (fun p => Float.np_div (fst p) (snd p)) (combine row v))
       m.

Definition displacement (redshift_space : bool) (phi : list (list R))
    (chi D za theta : list R) : result Za.ndarray :=
  let vpsi := gradient phi chi in
  (* vpsi *= D[np.newaxis, :, np.newaxis] *)
  vpsi <- on_components 0 (length vpsi) (scale_rows D) vpsi ;;
  (* vpsi[1:3] /= chi[np.newaxis, :, np.newaxis] *)
  vpsi <- on_components 1 3 (divide_rows chi) vpsi ;;
  (* vpsi[2] /= np.sin(theta[np.newaxis, :]) *)
  vpsi <- on_components 2 3 (divide_cols (map sin theta)) vpsi ;;
  vpsi <- (if redshift_space then
             let fr := map growth_rate za in
             on_components 0 1 (scale_rows (map (fun f => 1 + f) fr)) vpsi
           else Ok vpsi) ;;
  Ok (Za.of_cube vpsi).

Record ZeldovichTask : Type := {
  za_redshift_space : bool;
  sph : bool
}.

Definition ZeldovichDynamics_process (self : ZeldovichTask)
    (initial_ref biased_ref : ref) : SE.t heap ref :=
  initial_field <~ deref initial_ref ;;
  biased_field <~ deref biased_ref ;;
  SE.lift (_validate_fields initial_field biased_field) ;;;
  props <~ SE.lift (_get_props biased_field) ;;
  let '(nside, chi, za) := props in
  D <~ SE.lift (growth za) ;;
  vpsi <~ SE.lift (displacement (za_redshift_space self) (phi initial_field)
                     chi D za (ang_theta nside)) ;;
  (* Create the final field container *)
  final_field <~ alloc (BiasedLSS (lightcone biased_field)
                          (fixed_redshift biased_field) biased_field) ;;
  set_delta final_field
    (zeros2 (length (Tasks.chi biased_field)) (length (pixel biased_field))) ;;;
  delta_m <~ SE.lift (scale_rows D (delta initial_field)) ;;
  let delta_bias := delta biased_field in
  final <~ deref final_field ;;
  let za_density :=
    if sph self then Za.za_density_sph sph_slice else Za.za_density_grid grid_slice in
  let run := za_density vpsi (Za.of_rows delta_bias) (Za.of_rows delta_m)
               (Za.of_vector chi) (Za.of_rows (delta final)) in
  (* the mass assignment writes into [final_field.delta] *)
  set_delta final_field (Za.to_rows (fst run)) ;;;
  SE.lift (snd run) ;;;
  SE.ret final_field.

(** *** LinearDynamics *)

Definition LinearDynamics_process (redshift_space : bool)
    (initial_ref biased_ref : ref) : SE.t heap ref :=
  initial_field <~ deref initial_ref ;;
  biased_field <~ deref biased_ref ;;
  SE.lift (_validate_fields initial_field biased_field) ;;;
  props <~ SE.lift (_get_props biased_field) ;;
  let '(_, chi, za) := props in
  (* Create the final field container *)
  final_field <~ alloc (BiasedLSS (lightcone biased_field)
                          (fixed_redshift biased_field) biased_field) ;;
  D <~ SE.lift (growth za) ;;
  (* Copy over biased field *)
  set_delta final_field (delta biased_field) ;;;
  (* Add in standard linear term *)
  let lshape := length (delta biased_field) in
  term <~ SE.lift (scale_rows (firstn lshape D) (delta initial_field)) ;;
  add_to_delta final_field term ;;;
  (if redshift_space then
     let fr := map growth_rate za in
     let vterm := diff2 (phi initial_field) (firstn lshape chi) in
     Dfr <~ SE.lift (mul D fr) ;;
     vterm <~ SE.lift (scale_rows (firstn lshape (map Ropp Dfr)) vterm) ;;
     add_to_delta final_field vterm
   else SE.ret tt) ;;;
  SE.ret final_field.

(** *** FingersOfGod *)

Definition FingersOfGod_process (alpha_FoG : R) (field_ref : ref)
  : SE.t heap ref :=
  (* Just return the input if FoGs are effectively turned off *)
  if Req_dec_T alpha_FoG 0 then SE.ret field_ref
  else
    field <~ deref field_ref ;;
    z <~ SE.lift (redshift field) ;;
    let D := map growth_factor z in
    let sigmaP := map _sigma_P z in
    K <~ SE.lift (Lss.exponential_FoG_kernel (chi field)
                    (Lss.Array (map (Rmult alpha_FoG) sigmaP)) (Lss.Array D)) ;;
    smoothed_field <~ alloc (BiasedLSS (lightcone field) (fixed_redshift field) field) ;;
    (* Apply the smoothing kernel and directly assign into output field *)
    d <~ SE.lift (matmul K (delta field)) ;;
    set_delta smoothed_field d ;;;
    SE.ret smoothed_field.

(** *** AddCorrelatedShotNoise *)

Definition AddCorrelatedShotNoise_process (_n_eff_z : list R) (input_ref : ref)
  : SE.t heap ref :=
  input_field <~ deref input_ref ;;
  let pixarea := nside2pixarea (nside input_field) in
  width <~ SE.lift (Lss._calculate_width (chi input_field)) ;;
  let volume :=
    zip_with Rmult (map (fun x => pixarea * x ^ 2) (chi input_field)) width in
  vn <~ SE.lift (mul volume _n_eff_z) ;;
  std <~ SE.lift (mapM inv_sqrt vn) ;;
  let shot_noise := rng_normal std (Lss.shape2 (delta input_field)) in
  add_to_delta input_ref shot_noise ;;;
  SE.ret input_ref.

End Pipeline.

End Tasks.

(** ** lss.py: the bias models *)

Module Bias.

Import Tasks.

(** [GenerateBiasedFieldBase]: neither bias order is implemented. *)
Definition GenerateBiasedFieldBase (lc : bool) (fixed : option R)
    (lognormal : bool) : BiasTask :=
  {| bias_lightcone := lc; bias_redshift := fixed; bias_lognormal := lognormal;
     _bias_1 := not_overridden; _bias_2 := not_overridden |}.

(** [GenerateConstantBias]: [_bias_1] is [np.ones_like(z) * self.bias_L],
    [_bias_2] is the one of the base class. *)
Definition GenerateConstantBias (lc : bool) (fixed : option R)
    (lognormal : bool) (bias_L : R) : BiasTask :=
  {| bias_lightcone := lc; bias_redshift := fixed; bias_lognormal := lognormal;
     _bias_1 := fun z => Ok (map (fun _ => 1 * bias_L) z);
     _bias_2 := not_overridden |}.

(** [GeneratePolynomialBias._bias_1], for the model [_bias] chosen by
    [setup]: [bias = self._bias(z)], then
    [self.alpha_b * bias + self.alpha_b - 1.0]. *)
Definition polynomial_bias_1 (alpha_b : R) (_bias : list R -> result (list R))
    (z : list R) : result (list R) :=
  bias <- _bias z ;;
  Ok (map (fun b => alpha_b * b + alpha_b - 1) bias).

Definition GeneratePolynomialBias (lc : bool) (fixed : option R)
    (lognormal : bool) (alpha_b : R) (_bias : list R -> result (list R))
  : BiasTask :=
  {| bias_lightcone := lc; bias_redshift := fixed; bias_lognormal := lognormal;
     _bias_1 := polynomial_bias_1 alpha_b _bias;
     _bias_2 := not_overridden |}.

(** [_crop_low(x, cut)]: [mask = x < cut; x[mask] = cut], on the array [x]
    that it changes in place. *)
Definition _crop_low (x : list R) (cut : R) : list R :=
  map (fun v => if Rlt_dec v cut then cut else v) x.

End Bias.

(** ** lss.py: the weights inside the mass assignment *)

Module Weights.

(** [np.digitize(x, bins)] for one value: with increasing bins the index
    [i] such that [bins[i-1] <= x < bins[i]], with decreasing bins the one
    such that [bins[i-1] > x >= bins[i]]; bins that are neither are
    refused. *)
Fixpoint nondecreasing (l : list R) : bool :=
  match l with
  | a :: (b :: _) as l' => (if Rle_dec a b then true else false) && nondecreasing l'
  | _ => true
  end.

Fixpoint nonincreasing (l : list R) : bool :=
  match l with
  | a :: (b :: _) as l' => (if Rle_dec b a then true else false) && nonincreasing l'
  | _ => true
  end.

Definition count {A : Type} (f : A -> bool) (l : list A) : nat :=
  length (filter f l).

Definition digitize (x : R) (bins : list R) : result Z :=
  if nondecreasing bins then
    Ok (Z.of_nat (count (fun b => if Rle_dec b x then true else false) bins))
  else if nonincreasing bins then
    Ok (Z.of_nat (count (fun b => if Rlt_dec x b then true else false) bins))
  else Raise (ValueError "bins must be monotonically increasing or decreasing").

(** The radial part of the loop body of [za_density_grid], for one
    displaced position [new_chi]: the two slices [i0], [i1] that receive the
    mass and their weights [w0], [w1], a weight of -1 marking a slice
    outside the grid. *)
Definition radial_weights (chi_ext : list R) (nchi : nat) (new_chi : R)
  : result ((Z * R) * (Z * R)) :=
  chi_ext_ind <- digitize new_chi chi_ext ;;
  chi0 <- index chi_ext ((chi_ext_ind - 1) mod (Z.of_nat nchi + 2)) ;;
  chi1 <- index chi_ext (chi_ext_ind mod (Z.of_nat nchi + 2)) ;;
  let dchi := chi1 - chi0 in
  q0 <- Float.np_div (chi1 - new_chi) dchi ;;
  q1 <- Float.np_div (new_chi - chi0) dchi ;;
  let i0 := (chi_ext_ind - 2)%Z in
  let i1 := (chi_ext_ind - 1)%Z in
  let outside := fun i : Z => ((i <? 0) || (Z.of_nat nchi <=? i))%Z in
  let w0 := if outside i0 then -1 else Rabs q0 in
  let w1 := if outside i1 then -1 else Rabs q1 in
  Ok ((i0, w0), (i1, w1)).

(** [np.clip(a, lo, hi)] for one value. *)
Definition clip (a lo hi : R) : R := Rmin (Rmax a lo) hi.

(** The change of size of a particle in [za_density_sph],
    [np.clip(1 + delta_m[ii], 0.1, 3.0) ** (-1.0 / 3)], for one pixel. *)
Definition scaling (delta_m : R) : R :=
  Rpower (clip (1 + delta_m) (1 / 10) 3) (- 1 / 3).

End Weights.

(** ** lss.py: the covariance of the initial fields *)

Module Initial.

Import Corrfunc.

(** [np.zeros((a, b, c))]. *)
Definition zeros3 (a b c : nat) : list (list (list R)) :=
  repeat (repeat (repeat 0 c) b) a.

(** Broadcasting: an axis of a block fits a slice of [n] entries when it
    has [n] entries, or a single one, which is repeated. *)
Definition fits (n len : nat) : bool := Nat.eqb len n || Nat.eqb len 1.

Definition pick {A : Type} (i : nat) (x : list A) (d : A) : A :=
  nth (if Nat.eqb (length x) 1 then 0%nat else i) x d.

(** [cla[:, r0:r0 + n, c0:c0 + n] = block] for a three-dimensional block
    and a slice that lies inside [cla]. *)
Definition set_block (r0 c0 n : nat) (block cla : list (list (list R)))
  : result (list (list (list R))) :=
  if fits (length cla) (length block)
     && forallb (fun p => fits n (length p)
                          && forallb (fun row => fits n (length row)) p) block
  then
    Ok (map (fun l =>
               let bp := pick l block [] in
               let cp := nth l cla [] in
               map (fun i =>
                      if ((r0 <=? i) && (i <? r0 + n))%nat then
                        Lss.set_slice c0
                          (map (fun j => pick j (pick (i - r0) bp []) 0) (seq 0 n))
                          (nth i cp [])
                      else nth i cp [])
                   (seq 0 (length cp)))
            (seq 0 (length cla)))
  else Raise (ValueError "could not broadcast input array").

Section Covariance.

Variable romb_weights : nat -> list R.
Variable roots_legendre : Z -> result (list R * list R * R).
Variable lpn : Z -> R -> result (list R).

(** [self.cosmology.comoving_distance], of the cosmology module outside
    this package, which works redshift by redshift. *)
Variable comoving_distance : R -> R.

(** The lines of [GenerateInitialLSS.process] from the distances [xa] to
    the extended covariance [cla] that is handed to [skysim.mkfullsky]:
    the three arrays of [corr_to_clarray] and their four blocks. *)
Definition initial_covariance (corr0 corr2 corr4 : R -> R) (nside : Z)
    (redshift : list R) (xromb leg_q : Z)
  : result (list (list (list R))) :=
  let xa := map comoving_distance redshift in
  let lmax := (3 * nside - 1)%Z in
  cla0 <- corr_to_clarray romb_weights roots_legendre lpn corr0 lmax xa xromb
            None leg_q ;;
  cla2 <- corr_to_clarray romb_weights roots_legendre lpn corr2 lmax xa xromb
            None leg_q ;;
  cla4 <- corr_to_clarray romb_weights roots_legendre lpn corr4 lmax xa xromb
            None leg_q ;;
  let nz := length redshift in
  if (lmax + 1 <? 0)%Z then
    Raise (ValueError "negative dimensions are not allowed")
  else
    let cla := zeros3 (Z.to_nat (lmax + 1)) (2 * nz) (2 * nz) in
    cla <- set_block 0 0 nz cla4 cla ;;
    cla <- set_block 0 nz nz cla2 cla ;;
    cla <- set_block nz 0 nz cla2 cla ;;
    set_block nz nz nz cla0 cla.

End Covariance.

End Initial.

(** ** Instances used to apply the statements

    Stand-ins for the functions of the external libraries, a field of one
    shell and one pixel, and a bias task. *)

Module Examples.

Import Tasks.

Definition unit_weights (n : nat) : list R := repeat 1 n.

Definition flat_nodes (M : Z) : result (list R * list R * R) :=
  Ok (repeat 0 (Z.to_nat M), repeat 1 (Z.to_nat M), 1).

Definition flat_lpn (lmax : Z) (v : R) : result (list R) :=
  Ok (repeat 1 (Z.to_nat (lmax + 1))).

Definition same_grid (k pk : list R) : result (list R * list R) := Ok (k, pk).

(** A transform on the grid FFTLog pairs with the wavenumbers: their
    reciprocals, last first. *)
Definition reciprocal_grid (k pk : list R) : result (list R * list R) :=
  Ok (rev (map Rinv k), rev pk).

Definition sampled (h : R) (f : R -> R) (r : list R) : result (list R) :=
  Ok (map f r).

(** The growth factor of a matter-dominated universe, [1 / (1 + z)]. *)
Definition matter_growth (z : R) : R := / (1 + z).

Definition one_pixel : Container :=
  {| delta := [[1]]; phi := [[0]]; chi := [1]; redshift_label := Some [1];
     pixel := [0%nat]; nside := 1; lightcone := true; fixed_redshift := None |}.

Definition unit_bias (lc : bool) (fixed : option R) : BiasTask :=
  {| bias_lightcone := lc; bias_redshift := fixed; bias_lognormal := false;
     _bias_1 := fun z => Ok (map (fun _ => 1) z);
     _bias_2 := fun z => Ok (map (fun _ => 0) z) |}.

(** The widths of three equally spaced bins, as [_calculate_width]
    computes them. *)
Definition example_widths : list R :=
  [Rabs (2 * (1 - (2 - 0) / 2 / 2 - 0)); Rabs ((2 - 0) / 2);
   Rabs (2 * (2 - (2 - 0) / 2 / 2 - 1))].

(** Three shells at the distances 0, 1, 2 and the redshifts 0, 1, 2, with
    one pixel whose value is the growth factor of the shell. *)
Definition three_shells : Container :=
  {| delta := map (fun zi => map (Rmult (matter_growth zi)) [1]) [0; 1; 2];
     phi := [[0]; [0]; [0]]; chi := [0; 1; 2]; redshift_label := Some [0; 1; 2];
     pixel := [0%nat]; nside := 1; lightcone := true; fixed_redshift := None |}.

(** One shell of twelve pixels (the coarsest HEALPix map), every pixel of
    value [d]. *)
Definition twelve_pixels (d : R) : Container :=
  {| delta := [repeat d 12]; phi := [repeat 0 12]; chi := [1];
     redshift_label := Some [1]; pixel := seq 0 12; nside := 1;
     lightcone := true; fixed_redshift := None |}.

End Examples.

(** ** Vocabulary of the statements

    The properties the statements below are phrased with: shapes,
    symmetry, monotonicity, the contract of the shape checks, and what
    it means for a pipeline stage to return a new object. *)

Module Spec.

Import Corrfunc Lss Za Tasks.

(** *** Arrays *)

(** A matrix read with [nth] is symmetric. *)
Definition symmetric (m : list (list R)) : Prop :=
  forall i j : nat, nth j (nth i m []) 0 = nth i (nth j m []) 0.

(** A strictly increasing array. *)
Definition increasing (l : list R) : Prop := StronglySorted Rlt l.

(** A two-dimensional array of [n] rows and [m] columns. *)
Definition has_shape (n m : nat) (a : list (list R)) : Prop :=
  length a = n /\ Forall (fun row => length row = m) a.

(** Two arrays of one shape. *)
Definition same_shape (a b : list (list R)) : Prop :=
  Forall2 (fun x y => length x = length y) a b.

(** The field is zero everywhere. *)
Definition all_zero (field : list (list R)) : Prop :=
  Forall (Forall (fun x => x = 0)) field.

(** A row of positive weights over all the bins. *)
Definition weights (n : nat) (row : list R) : Prop :=
  Forall (Rlt 0) row /\ length row = n.

(** The variance [np.var] returns for a non-empty array. *)
Definition variance (l : list R) : R :=
  let m := Np.sum l / INR (length l) in
  Np.sum (map (fun x => (x - m) * (x - m)) l) / INR (length l).

(** The entries over which the variance behind entry [(i, j)] is taken:
    the whole array without an axis, column [j] along axis 0, row [i]
    along axis 1. *)
Definition lane (field : list (list R)) (axis : option Z) (i j : nat) : list R :=
  match axis with
  | None => concat field
  | Some 0%Z => column 0 j field
  | Some _ => nth i field []
  end.

(** *** Correlation functions *)

(** Entry [(i, j)] of the integrated plane: the rule along the second axis
    of the rule along the last one. *)
Definition double_rule (romb_weights : nat -> list R) (xint : nat) (xspace xhalf : R) (c : list (list R))
    (i j : nat) : R :=
  xspace
  * Np.dot (romb_weights xint)
      (map (fun a =>
              xspace
              * Np.dot (romb_weights xint)
                  (map (fun b => nth (j * xint + b) (nth (i * xint + a) c []) 0)
                       (seq 0 xint)))
           (seq 0 xint))
  / (2 * xhalf) ^ 2.

(** The integration data are usable: a number of samples SciPy accepts and
    a bin that has a width. *)
Definition integ_ok (integ : option (nat * R * R)) : Prop :=
  match integ with
  | Some (xint, _, xhalf) => romb_samples_ok xint = true /\ xhalf <> 0
  | None => True
  end.

(** The radii hankl returns for an increasing grid of positive wavenumbers
    are increasing. *)
Definition P2xi_increasing
    (P2xi : list R -> list R -> result (list R * list R)) : Prop :=
  forall k pk r xi,
    Forall (Rlt 0) k -> increasing k -> P2xi k pk = Ok (r, xi) -> increasing r.

(** The radii hankl returns are those that belong to the wavenumbers in
    reverse order: [r = g(k[::-1])] for a pointwise [g] (FFTLog pairs the
    input [x] with [1 / x]). *)
Definition P2xi_reversed (g : R -> R)
    (P2xi : list R -> list R -> result (list R * list R)) : Prop :=
  forall k pk r xi, P2xi k pk = Ok (r, xi) -> r = rev (map g k).

(** The radii every upsampling factor leaves after the decimation: the
    images of [n] wavenumbers equally spaced in the logarithm, last first. *)
Definition coarse_radii (g : R -> R) (rlow rhigh : R) (n : nat) : list R :=
  map (fun m =>
         g (Rpower 10 (- rhigh
                       + INR (n - 1 - m) * ((- rlow - - rhigh) / INR n))))
      (seq 0 n).

(** The last row of a table of [row_ind] rows: [row_ind] arrays of [c]
    entries. *)
Definition last_row_ok (c row_ind : nat) (table : list (list (list R))) : Prop :=
  row_ind = 0%nat
  \/ ((row_ind - 1 < length table)%nat
      /\ length (nth (row_ind - 1) table []) = row_ind
      /\ Forall (fun a => length a = c) (nth (row_ind - 1) table [])).

(** The transform of hankl returns, with as many values as it was given
    wavenumbers. *)
Definition P2xi_total
    (P2xi : list R -> list R -> result (list R * list R)) : Prop :=
  forall k pk, length pk = length k ->
    exists r xi, P2xi k pk = Ok (r, xi) /\ length xi = length k.

(** *** Mass assignment *)

(** The shapes the two functions require, [(nchi, npix)] being the shape of
    [delta_bias]. *)
Definition conforming (psi delta_m chi out : ndarray) (nchi npix : nat) : Prop :=
  nd_shape psi = [3%nat; nchi; npix] /\ nd_shape delta_m = [nchi; npix]
  /\ nd_shape chi = [nchi] /\ nd_shape out = [nchi; npix].

(** A shape-mismatch error, which names an array. *)
Definition is_shape_error (e : exn) : Prop :=
  exists name, e = wrong_ndim name \/ e = wrong_shape name.

(** A shape-mismatch error that names an array whose shape is wrong. *)
Definition names_offender (e : exn) (psi delta_m chi out : ndarray)
    (nchi npix : nat) : Prop :=
  exists name,
    (e = wrong_ndim name \/ e = wrong_shape name)
    /\ ((name = "psi"%string /\ nd_shape psi <> [3%nat; nchi; npix])
        \/ (name = "delta_m"%string /\ nd_shape delta_m <> [nchi; npix])
        \/ (name = "chi"%string /\ nd_shape chi <> [nchi])
        \/ (name = "out"%string /\ nd_shape out <> [nchi; npix])).

(** The four checks in the order of the source, run on the store [out]. *)
Definition validate (psi delta_m chi : ndarray) (nchi npix : nat)
  : SE.t ndarray unit :=
  SE.lift (_assert_shape psi [3%nat; nchi; npix] "psi") ;;;
  SE.lift (_assert_shape delta_m [nchi; npix] "delta_m") ;;;
  SE.lift (_assert_shape chi [nchi] "chi") ;;;
  out <~ SE.get ;;
  SE.lift (_assert_shape out [nchi; npix] "out").

(** *** Containers in the store

    [frame n m]: run on a store of [n + 1] objects, [m] leaves the first
    [n] as they are and creates none.  [fresh n m]: moreover the reference
    [m] returns is the one of object [n]. *)

Definition frame {A : Type} (n : nat) (m : SE.t heap A) : Prop :=
  forall h, length h = S n ->
            length (fst (m h)) = S n /\ firstn n (fst (m h)) = firstn n h.

Definition fresh (n : nat) (m : SE.t heap ref) : Prop :=
  frame n m /\ forall h r, length h = S n -> snd (m h) = Ok r -> r = n.

(** What the claim asks of a stage run on the store [h] with the inputs
    [inputs]: when it returns, the object returned did not exist before,
    it is none of the inputs, and every input is as it was. *)
Definition returns_new_instance (h : heap) (inputs : list ref)
    (run : heap * result ref) : Prop :=
  forall r', snd run = Ok r' ->
    nth_error h r' = None
    /\ (exists c', nth_error (fst run) r' = Some c')
    /\ forall r, In r inputs ->
         r' <> r /\ (exists c, nth_error h r = Some c)
         /\ nth_error (fst run) r = nth_error h r.

(** *** Bias *)

(** An [InitialLSS] whose axes and dataset agree: one redshift and one
    distance per shell, one entry per pixel, at least one pixel. *)
Definition well_formed (f : Container) (z : list R) : Prop :=
  length z = length (delta f) /\ length (chi f) = length (delta f)
  /\ Forall (fun row => length row = length (pixel f)) (delta f)
  /\ (0 < length (pixel f))%nat.

(** The biased field in the words of the specification: for shell [i] of
    growth factor [D = growth_factor(z_i) / growth_factor(0)],
    [D b1 delta + D^2 b2 (delta^2 - <delta^2>)], the mean being taken over
    the pixels of the shell. *)
Definition biased_delta_spec (growth_factor : R -> R) (z b1 b2 : list R)
    (delta_L : list (list R)) : list (list R) :=
  map (fun i =>
         let D := growth_factor (nth i z 0) / growth_factor 0 in
         let row := nth i delta_L [] in
         let mean2 := Np.sum (map square row) / INR (length row) in
         map (fun x => D * nth i b1 0 * x + D ^ 2 * nth i b2 0 * (x * x - mean2))
             row)
      (seq 0 (length delta_L)).

(** The dataset the two bias terms leave, computed as the source does:
    zeros, plus the first-order term, plus the second-order term. *)
Definition biased_delta_code (D b1 b2 : list R) (delta_L : list (list R))
    (npix : nat) : list (list R) :=
  let term1 :=
    map (fun p => map (Rmult (fst p)) (snd p))
        (combine (zip_with Rmult D b1) delta_L) in
  let delta1 :=
    map (fun p => zip_with Rplus (fst p) (snd p))
        (combine (zeros2 (length delta_L) npix) term1) in
  let d2m := map (fun row => Np.sum (map square row) / INR (length row)) delta_L in
  let term2 :=
    map (fun p => map (Rmult (fst p)) (snd p))
        (combine (zip_with Rmult (map (fun d => d ^ 2) D) b2)
           (map (fun p => map (fun x => square x - snd p) (fst p))
                (combine delta_L d2m))) in
  map (fun p => zip_with Rplus (fst p) (snd p)) (combine delta1 term2).

End Spec.

(** ** Vocabulary of the further statements *)

Module Series.

Import Corrfunc.

(** The Richardson table as a recurrence: column 0 holds the estimates [e],
    and entry [(i, j)], [j >= 1], cancels the power [j * base_pow] between
    the entries [(i, j - 1)] and [(i - 1, j - 1)]. *)
Fixpoint richardson_entry (e : nat -> R) (t : R) (base_pow : Z) (i j : nat) : R :=
  match j with
  | O => e i
  | S j' =>
      let tn := powerRZ t (Z.of_nat (S j') * base_pow) in
      (tn * richardson_entry e t base_pow i j'
       - richardson_entry e t base_pow (i - 1) j') / (tn - 1)
  end.

(** Row [i] of the table has the entries [(i, 0)] to [(i, i)]. *)
Definition richardson_row (e : nat -> R) (t : R) (base_pow : Z) (i : nat)
  : list R :=
  map (richardson_entry e t base_pow i) (seq 0 (S i)).

Definition richardson_table (e : nat -> R) (t : R) (base_pow : Z) (k : nat)
  : list (list R) :=
  map (richardson_row e t base_pow) (seq 0 k).

(** An estimate with the error series
    [f(h) = L + a_1 h^p + a_2 h^(2 p) + ... + a_m h^(m p)]. *)
Definition error_series (L : R) (a : list R) (p : Z) (h : R) : R :=
  L + Np.sum (map (fun q => nth q a 0 * powerRZ h (Z.of_nat (S q) * p))
                  (seq 0 (length a))).

(** The coefficient of the term [h^((q + 1) p)] that is left in column [j]
    of the table. *)
Fixpoint remaining (a : list R) (t : R) (p : Z) (j q : nat) : R :=
  match j with
  | O => nth q a 0
  | S j' =>
      remaining a t p j' q
      * ((powerRZ t (Z.of_nat (S j') * p) - powerRZ t (Z.of_nat (S q) * p))
         / (powerRZ t (Z.of_nat (S j') * p) - 1))
  end.

(** The radii hankl returns are those of its grid of wavenumbers, whatever
    the values of the power spectrum on it. *)
Definition P2xi_radii_of_grid
    (P2xi : list R -> list R -> result (list R * list R)) : Prop :=
  forall k pk pk' r xi r' xi',
    P2xi k pk = Ok (r, xi) -> P2xi k pk' = Ok (r', xi') -> r = r'.

End Series.

(** ** The Gauss-Legendre sum of the angular covariance *)

Module Quadrature.

(** The separation of two points at the distances [x1] and [x2] seen
    under an angle of cosine [ms]. *)
Definition chord (x1 x2 ms : R) : R :=
  sqrt ((x1 - x2) ^ 2 + 2 * x1 * x2 * (1 - ms)).

(** The sum over the nodes [mu_m] of
    [P_l(mu_m) * (w_m * 4 pi / wsum) * corr(chord(x_i, x_j, mu_m))], [P v]
    being the Legendre polynomials at [v]. *)
Definition gauss_legendre_cl (corr : R -> R) (P : R -> list R)
    (mu w : list R) (wsum : R) (xarray : list R) (l i j : nat) : R :=
  Np.sum (map (fun m =>
                 nth l (P (nth m mu 0)) 0 * (nth m w 0 * 4 * PI / wsum)
                 * corr (chord (nth i xarray 0) (nth j xarray 0) (nth m mu 0)))
              (seq 0 (length mu))).

End Quadrature.

(** ** Three-dimensional arrays *)

Module Blocks.

(** An array of [a] planes of [b] rows and [c] columns. *)
Definition shape3 (a b c : nat) (x : list (list (list R))) : Prop :=
  length x = a /\ Forall (Spec.has_shape b c) x.

(** Entry [(l, i, j)] of an array. *)
Definition entry (x : list (list (list R))) (l i j : nat) : R :=
  nth j (nth i (nth l x []) []) 0.

End Blocks.

(** * Floats and Richardson extrapolation *)

Import Corrfunc.

Module FloatFacts.

Lemma div_ok (x y : R) : y <> 0 -> Float.div x y = Ok (x / y).
Proof.
  intros Hy. unfold Float.div. destruct (Req_dec_T y 0); [contradiction | reflexivity].
Qed.

Lemma np_div_ok (x y : R) : y <> 0 -> Float.np_div x y = Ok (x / y).
Proof.
  intros Hy. unfold Float.np_div.
  destruct (Req_dec_T y 0); [contradiction | reflexivity].
Qed.

Lemma np_div_inv (x y q : R) : Float.np_div x y = Ok q -> y <> 0 /\ q = x / y.
Proof.
  unfold Float.np_div. destruct (Req_dec_T y 0); [discriminate |].
  intros H. injection H as <-. split; [assumption | reflexivity].
Qed.


Lemma pow_ok (t : R) (n : Z) : t <> 0 -> Float.pow t n = Ok (powerRZ t n).
Proof.
  intros Ht. unfold Float.pow. destruct (Req_dec_T t 0); [contradiction | reflexivity].
Qed.

Lemma powerRZ_gt_1 (t : R) (p : Z) : 1 < t -> (0 < p)%Z -> 1 < powerRZ t p.
Proof.
  intros Ht Hp. destruct p as [| n | n]; try lia.
  cbn. apply Rlt_pow_R1; [assumption | lia].
Qed.

Lemma powerRZ_neq_1 (t : R) (p : Z) : 1 < t -> p <> 0%Z -> powerRZ t p <> 1.
Proof.
  intros Ht Hp. destruct (Z.lt_trichotomy p 0) as [Hn | [H0 | Hpos]].
  - assert (H : 1 < powerRZ t (- p)) by (apply powerRZ_gt_1; [assumption | lia]).
    rewrite powerRZ_neg' in H.
    intros E. rewrite E in H. rewrite Rinv_1 in H. lra.
  - contradiction.
  - apply Rgt_not_eq. apply powerRZ_gt_1; assumption.
Qed.

End FloatFacts.

Module RichardsonFacts.

Import FloatFacts.

(** One pass of the inner loop on floats, all its reads in range and its
    divisor not zero. *)
Lemma richardson_cols_step (t : R) (base_pow : Z) (table : list (list R))
    (row_ind todo col_ind : nat) (newrow prev : list R) (a b : R) :
  t <> 0 ->
  index newrow (Z.of_nat col_ind - 1) = Ok a ->
  index table (Z.of_nat row_ind - 1) = Ok prev ->
  index prev (Z.of_nat col_ind - 1) = Ok b ->
  powerRZ t (Z.of_nat col_ind * base_pow) <> 1 ->
  richardson_cols t base_pow table row_ind (S todo) col_ind newrow
  = richardson_cols t base_pow table row_ind todo (S col_ind)
      (newrow ++ [(powerRZ t (Z.of_nat col_ind * base_pow) * a - b)
                  / (powerRZ t (Z.of_nat col_ind * base_pow) - 1)]).
Proof.
  intros Ht Ha Hprev Hb Hne.
  cbn [richardson_cols]. rewrite pow_ok by assumption.
  cbn [bind]. rewrite Ha. cbn [bind]. rewrite Hprev. cbn [bind].
  rewrite Hb. cbn [bind fal_sub fal_scale fal_div FloatArrayLike_float].
  rewrite div_ok by lra. reflexivity.
Qed.

(** The error term of the synthetic series is cancelled by one step. *)
Lemma cancel_leading_power (L c h0 t : R) (p : Z) (i : nat) :
  1 < t -> p <> 0%Z ->
  (powerRZ t p * (L + c * powerRZ (h0 / t ^ S i) p)
   - (L + c * powerRZ (h0 / t ^ i) p)) / (powerRZ t p - 1) = L.
Proof.
  intros Ht Hp.
  assert (Hne : powerRZ t p <> 1) by (apply powerRZ_neq_1; assumption).
  assert (Ht0 : t <> 0) by lra.
  assert (Hti : t ^ i <> 0) by (apply pow_nonzero; assumption).
  assert (E : powerRZ (h0 / t ^ S i) p * powerRZ t p = powerRZ (h0 / t ^ i) p).
  { rewrite <- powerRZ_mult. f_equal. simpl. field. split; assumption. }
  field_simplify_eq; [| lra].
  rewrite <- E. ring.
Qed.

Lemma keep_limit (L x : R) : x <> 1 -> (x * L - L) / (x - 1) = L.
Proof. intros H. field. lra. Qed.

(** C3.  The synthetic series [e_i = L + c (h0 / t^i)^p], [i = 0, 1, 2],
    has a single error term of power [p].  With [base_pow = p] and [t > 1]
    the table of [richardson] is [[e0]; [e1; L]; [e2; L; L]] and, without
    [return_table], the value returned is its apex [L]. *)
Theorem richardson_apex_exact (L c h0 t : R) (p : Z) :
  0 < h0 -> 1 < t -> p <> 0%Z ->
  let e := fun i : nat => L + c * powerRZ (h0 / t ^ i) p in
  richardson [e 0%nat; e 1%nat; e 2%nat] t p true
    = Ok (Table [[e 0%nat]; [e 1%nat; L]; [e 2%nat; L; L]])
  /\ richardson [e 0%nat; e 1%nat; e 2%nat] t p false = Ok (Apex L).
Proof.
  intros Hh Ht Hp e.
  assert (Ht0 : t <> 0) by lra.
  assert (H1 : powerRZ t (Z.of_nat 1 * p) <> 1).
  { apply powerRZ_neq_1; [assumption | lia]. }
  assert (H2 : powerRZ t (Z.of_nat 2 * p) <> 1).
  { apply powerRZ_neq_1; [assumption | lia]. }
  assert (Hrows : richardson_rows [e 0%nat; e 1%nat; e 2%nat] t p 3 0 []
                  = Ok [[e 0%nat]; [e 1%nat; L]; [e 2%nat; L; L]]).
  { cbn [richardson_rows].
    change (index [e 0%nat; e 1%nat; e 2%nat] (Z.of_nat 0)) with (Ok (e 0%nat)).
    cbn [bind]. change (richardson_cols t p [] 0 0 1 [e 0%nat]) with (Ok [e 0%nat]).
    cbn [bind app].
    change (index [e 0%nat; e 1%nat; e 2%nat] (Z.of_nat 1)) with (Ok (e 1%nat)).
    cbn [bind].
    rewrite (richardson_cols_step t p [[e 0%nat]] 1 0 1 [e 1%nat] [e 0%nat]
               (e 1%nat) (e 0%nat) Ht0 eq_refl eq_refl eq_refl H1).
    replace (Z.of_nat 1 * p)%Z with p in * by lia.
    unfold e at 3 4. rewrite cancel_leading_power by assumption.
    change (richardson_cols t p [[e 0%nat]] 1 0 2 ([e 1%nat] ++ [L]))
      with (Ok [e 1%nat; L]).
    cbn [bind app].
    change (index [e 0%nat; e 1%nat; e 2%nat] (Z.of_nat 2)) with (Ok (e 2%nat)).
    cbn [bind].
    rewrite (richardson_cols_step t p [[e 0%nat]; [e 1%nat; L]] 2 1 1 [e 2%nat]
               [e 1%nat; L] (e 2%nat) (e 1%nat) Ht0 eq_refl eq_refl eq_refl).
    2:{ replace (Z.of_nat 1 * p)%Z with p by lia. assumption. }
    replace (Z.of_nat 1 * p)%Z with p by lia.
    unfold e at 4 5. rewrite cancel_leading_power by assumption.
    cbn [app].
    rewrite (richardson_cols_step t p [[e 0%nat]; [e 1%nat; L]] 2 0 2 [e 2%nat; L]
               [e 1%nat; L] L L Ht0 eq_refl eq_refl eq_refl H2).
    rewrite keep_limit by assumption.
    reflexivity. }
  unfold richardson. cbn [length]. rewrite Hrows. cbn [bind]. split; reflexivity.
Qed.

Lemma richardson_apex_exact_witness :
  richardson [1 + 1 * powerRZ (1 / 2 ^ 0) 1; 1 + 1 * powerRZ (1 / 2 ^ 1) 1;
              1 + 1 * powerRZ (1 / 2 ^ 2) 1] 2 1 false = Ok (Apex 1).
Proof.
  exact (proj2 (richardson_apex_exact 1 1 1 2 1
                  ltac:(lra) ltac:(lra) ltac:(discriminate))).
Defined.

End RichardsonFacts.

(** * Facts about the outcomes and the arrays *)

Module PyFacts.

Lemma mapM_ok_map {A B : Type} (f : A -> result B) (g : A -> B) (l : list A) :
  (forall x, In x l -> f x = Ok (g x)) -> mapM f l = Ok (map g l).
Proof.
  induction l as [| x l IH]; intros H; cbn [mapM map].
  - reflexivity.
  - rewrite (H x (or_introl eq_refl)). cbn [bind].
    rewrite IH by (intros y Hy; apply H; right; exact Hy). reflexivity.
Qed.

Lemma mapM_inv {A B : Type} (f : A -> result B) (l : list A) (l' : list B) :
  mapM f l = Ok l' -> Forall2 (fun x y => f x = Ok y) l l'.
Proof.
  revert l'. induction l as [| x l IH]; intros l' H; cbn [mapM] in H.
  - injection H as <-. constructor.
  - destruct (f x) as [y |] eqn:Ey; [| discriminate]. cbn [bind] in H.
    destruct (mapM f l) as [ys |] eqn:Eys; [| discriminate]. cbn [bind] in H.
    injection H as <-. constructor; [exact Ey | apply IH; reflexivity].
Qed.

Lemma mapM_length {A B : Type} (f : A -> result B) (l : list A) (l' : list B) :
  mapM f l = Ok l' -> length l' = length l.
Proof.
  intros H. apply mapM_inv in H. symmetry. eapply Forall2_length; exact H.
Qed.

Lemma Forall2_nth {A B : Type} (P : A -> B -> Prop) (l : list A) (l' : list B)
    (i : nat) (d : A) (d' : B) :
  Forall2 P l l' -> (i < length l)%nat -> P (nth i l d) (nth i l' d').
Proof.
  intros H. revert i. induction H as [| x y l l' Hxy _ IH]; intros i Hi.
  - cbn in Hi. lia.
  - destruct i as [| i]; cbn; [exact Hxy | apply IH; cbn in Hi; lia].
Qed.

Lemma Forall2_In_l {A B : Type} (P : A -> B -> Prop) (l : list A) (l' : list B)
    (x : A) :
  Forall2 P l l' -> In x l -> exists y, In y l' /\ P x y.
Proof.
  intros H. induction H as [| a b l l' Hab _ IH]; intros Hx.
  - contradiction.
  - destruct Hx as [<- | Hx].
    + exists b. split; [left; reflexivity | exact Hab].
    + destruct (IH Hx) as [y [Hy Hxy]]. exists y. split; [right; exact Hy | exact Hxy].
Qed.

Lemma mapM_nth {A B : Type} (f : A -> result B) (l : list A) (l' : list B)
    (i : nat) (d : A) (d' : B) :
  mapM f l = Ok l' -> (i < length l)%nat -> f (nth i l d) = Ok (nth i l' d').
Proof.
  intros H Hi. apply mapM_inv in H.
  exact (Forall2_nth (fun x y => f x = Ok y) l l' i d d' H Hi).
Qed.

Lemma mapM_Forall {A B : Type} (f : A -> result B) (P : B -> Prop)
    (l : list A) (l' : list B) :
  mapM f l = Ok l' -> (forall x y, In x l -> f x = Ok y -> P y) -> Forall P l'.
Proof.
  intros H. apply mapM_inv in H.
  induction H as [| x y l l' Hxy _ IH]; intros HP; constructor.
  - apply (HP x y); [left; reflexivity | exact Hxy].
  - apply IH. intros x0 y0 Hin. apply HP. right. exact Hin.
Qed.

Lemma mapM_exists {A B : Type} (f : A -> result B) (l : list A) :
  (forall x, In x l -> exists y, f x = Ok y) -> exists l', mapM f l = Ok l'.
Proof.
  induction l as [| x l IH]; intros H; cbn [mapM].
  - exists []. reflexivity.
  - destruct (H x (or_introl eq_refl)) as [y Ey]. rewrite Ey. cbn [bind].
    destruct IH as [ys Eys]; [intros z Hz; apply H; right; exact Hz |].
    rewrite Eys. cbn [bind]. exists (y :: ys). reflexivity.
Qed.

Lemma mapM_ext {A B : Type} (f g : A -> result B) (l : list A) :
  (forall x, In x l -> f x = g x) -> mapM f l = mapM g l.
Proof.
  induction l as [| x l IH]; intros H; cbn [mapM].
  - reflexivity.
  - rewrite (H x (or_introl eq_refl)).
    rewrite IH by (intros y Hy; apply H; right; exact Hy). reflexivity.
Qed.

Lemma index_nat {A : Type} (l : list A) (i : nat) (d : A) :
  (i < length l)%nat -> index l (Z.of_nat i) = Ok (nth i l d).
Proof.
  intros Hi. unfold index.
  destruct (Z.of_nat i <? 0)%Z eqn:E; [apply Z.ltb_lt in E; lia |].
  rewrite E. cbn [orb].
  destruct (Z.of_nat (length l) <=? Z.of_nat i)%Z eqn:E2;
    [apply Z.leb_le in E2; lia |].
  rewrite Nat2Z.id.
  rewrite (nth_error_nth' l d Hi). reflexivity.
Qed.

Lemma index_inv {A : Type} (l : list A) (i : Z) (a : A) :
  index l i = Ok a -> l <> [].
Proof.
  unfold index. intros H E. subst l. cbn in H.
  destruct (i <? 0)%Z; cbn in H.
  - rewrite Z.add_0_r in H. destruct (i <? 0)%Z eqn:E1; cbn in H; [discriminate |].
    destruct (0 <=? i)%Z; cbn in H; [discriminate |].
    destruct (Z.to_nat i); discriminate.
  - destruct (i <? 0)%Z eqn:E1; cbn in H; [discriminate |].
    destruct (0 <=? i)%Z; cbn in H; [discriminate |].
    destruct (Z.to_nat i); discriminate.
Qed.

(** [seq[i]] raises nothing but [IndexError]. *)
Lemma index_error {A : Type} (l : list A) (i : Z) (e : exn) :
  index l i = Raise e -> e = IndexError.
Proof.
  unfold index. destruct (_ || _)%bool; [intros H; injection H as <-; reflexivity |].
  destruct (nth_error _ _); [discriminate |]. intros H; injection H as <-; reflexivity.
Qed.

(** An exception of [mapM] is the exception of one of its calls. *)
Lemma mapM_raise {A B : Type} (f : A -> result B) (l : list A) (e : exn) :
  mapM f l = Raise e -> exists x, In x l /\ f x = Raise e.
Proof.
  induction l as [| x l IH]; cbn [mapM]; [discriminate |].
  destruct (f x) as [y |] eqn:Ex; cbn [bind].
  - destruct (mapM f l) as [ys |]; cbn [bind]; [discriminate |].
    intros H. destruct (IH H) as [x' [Hin Hx']].
    exists x'. split; [right; exact Hin | exact Hx'].
  - intros H. injection H as <-. exists x. split; [left; reflexivity | exact Ex].
Qed.

End PyFacts.

Module ArrayFacts.

Lemma nth_map_seq {A : Type} (f : nat -> A) (n i : nat) (d : A) :
  nth i (map f (seq 0 n)) d = if (i <? n)%nat then f i else d.
Proof.
  destruct (i <? n)%nat eqn:E.
  - apply Nat.ltb_lt in E.
    rewrite (nth_indep _ d (f 0%nat)) by (rewrite length_map, length_seq; exact E).
    rewrite map_nth. rewrite seq_nth by exact E. reflexivity.
  - apply Nat.ltb_ge in E. apply nth_overflow.
    rewrite length_map, length_seq. exact E.
Qed.

Lemma nth_map_lt {A B : Type} (f : A -> B) (l : list A) (i : nat) (d : B) (d' : A) :
  (i < length l)%nat -> nth i (map f l) d = f (nth i l d').
Proof.
  intros Hi. rewrite (nth_indep _ d (f d')) by (rewrite length_map; exact Hi).
  apply map_nth.
Qed.

Lemma sum_nil : Np.sum [] = 0.
Proof. reflexivity. Qed.

Lemma sum_cons (x : R) (l : list R) : Np.sum (x :: l) = x + Np.sum l.
Proof. reflexivity. Qed.

Lemma sum_app (a b : list R) : Np.sum (a ++ b) = Np.sum a + Np.sum b.
Proof.
  induction a as [| x a IH]; cbn [app].
  - rewrite sum_nil. ring.
  - rewrite !sum_cons, IH. ring.
Qed.

Lemma sum_map_plus {A : Type} (f g : A -> R) (l : list A) :
  Np.sum (map (fun x => f x + g x) l) = Np.sum (map f l) + Np.sum (map g l).
Proof.
  induction l as [| x l IH]; cbn [map].
  - rewrite sum_nil. ring.
  - rewrite !sum_cons, IH. ring.
Qed.

Lemma sum_map_scale {A : Type} (c : R) (f : A -> R) (l : list A) :
  Np.sum (map (fun x => c * f x) l) = c * Np.sum (map f l).
Proof.
  induction l as [| x l IH]; cbn [map].
  - rewrite sum_nil. ring.
  - rewrite !sum_cons, IH. ring.
Qed.

Lemma sum_map_zero {A : Type} (l : list A) : Np.sum (map (fun _ => 0) l) = 0.
Proof.
  induction l as [| x l IH]; cbn [map].
  - reflexivity.
  - rewrite sum_cons, IH. ring.
Qed.

Lemma sum_map_ext {A : Type} (f g : A -> R) (l : list A) :
  (forall x, In x l -> f x = g x) -> Np.sum (map f l) = Np.sum (map g l).
Proof.
  intros H. f_equal. apply map_ext_in. exact H.
Qed.

(** The two orders of a double sum over two lists. *)
Lemma sum_swap {A B : Type} (h : A -> B -> R) (P : list A) (Q : list B) :
  Np.sum (map (fun p => Np.sum (map (fun q => h p q) Q)) P)
  = Np.sum (map (fun q => Np.sum (map (fun p => h p q) P)) Q).
Proof.
  induction P as [| p P IH]; cbn [map].
  - rewrite sum_nil. symmetry. apply sum_map_zero.
  - rewrite sum_cons, IH, <- sum_map_plus.
    apply sum_map_ext. intros q _. rewrite sum_cons. reflexivity.
Qed.

(** [np.dot] against a mapped array is a sum over the paired weights. *)
Lemma dot_map {A : Type} (w : list R) (F : A -> R) (s : list A) :
  Np.dot w (map F s)
  = Np.sum (map (fun p => fst p * F (snd p)) (combine w s)).
Proof.
  revert s. induction w as [| a w IH]; intros [| x s];
    cbn [Np.dot map combine fst snd]; try reflexivity.
  rewrite sum_cons, IH. reflexivity.
Qed.

Lemma dot_ext {A : Type} (w : list R) (F G : A -> R) (s : list A) :
  (forall x, In x s -> F x = G x) -> Np.dot w (map F s) = Np.dot w (map G s).
Proof.
  intros H. f_equal. apply map_ext_in. exact H.
Qed.

(** A quadrature rule applied along two axes does not depend on their
    order. *)
Lemma dot_dot_swap {A : Type} (w : list R) (c : R) (G : A -> A -> R) (s : list A) :
  Np.dot w (map (fun a => c * Np.dot w (map (fun b => G a b) s)) s)
  = Np.dot w (map (fun a => c * Np.dot w (map (fun b => G b a) s)) s).
Proof.
  rewrite !dot_map.
  transitivity
    (Np.sum (map (fun p => Np.sum (map (fun q =>
       fst p * (c * (fst q * G (snd p) (snd q)))) (combine w s))) (combine w s))).
  { apply sum_map_ext. intros p _. rewrite dot_map.
    rewrite <- sum_map_scale. rewrite <- sum_map_scale.
    apply sum_map_ext. intros q _. reflexivity. }
  rewrite sum_swap.
  apply sum_map_ext. intros p _. rewrite dot_map.
  rewrite <- (sum_map_scale c). rewrite <- sum_map_scale.
  apply sum_map_ext. intros q _. ring.
Qed.

Lemma concat_Forall {A : Type} (P : A -> Prop) (ll : list (list A)) :
  Forall (Forall P) ll -> Forall P (concat ll).
Proof.
  intros H. induction H as [| l ll Hl _ IH]; cbn [concat].
  - constructor.
  - apply Forall_app. split; assumption.
Qed.

Lemma set_nth_length {A : Type} (i : nat) (v : A) (l : list A) :
  length (Np.set_nth i v l) = length l.
Proof.
  revert i. induction l as [| x l IH]; intros [| i]; cbn; try reflexivity.
  rewrite IH. reflexivity.
Qed.

Lemma set_nth_Forall {A : Type} (P : A -> Prop) (i : nat) (v : A) (l : list A) :
  P v -> Forall P l -> Forall P (Np.set_nth i v l).
Proof.
  intros Hv H. revert i. induction H as [| x l Hx Hl IH]; intros [| i]; cbn.
  - constructor.
  - constructor.
  - constructor; assumption.
  - constructor; [assumption | apply IH].
Qed.

Lemma nth_set_nth {A : Type} (i j : nat) (v d : A) (l : list A) :
  nth j (Np.set_nth i v l) d
  = if ((i =? j) && (i <? length l))%nat then v else nth j l d.
Proof.
  revert i j. induction l as [| x l IH]; intros [| i] [| j]; cbn; try reflexivity.
  - rewrite andb_false_r. reflexivity.
  - rewrite IH. reflexivity.
Qed.

Lemma nth_error_set_nth_other {A : Type} (i j : nat) (v : A) (l : list A) :
  i <> j -> nth_error (Np.set_nth i v l) j = nth_error l j.
Proof.
  revert i j. induction l as [| x l IH]; intros [| i] [| j] H; cbn;
    try reflexivity; try contradiction.
  apply IH. congruence.
Qed.

End ArrayFacts.

(** ** The state monad *)

Module StateFacts.

Lemma bind_run {St A B : Type} (m : SE.t St A) (k : A -> SE.t St B) (s : St) :
  SE.bind m k s
  = match m s with
    | (s', Ok a) => k a s'
    | (s', Raise e) => (s', Raise e)
    end.
Proof. reflexivity. Qed.

(** A loop of [SE.modify] never raises. *)
Lemma for_range_modify {St : Type} (f : nat -> St -> St) (start n : nat) (s : St) :
  snd (SE.for_range start n (fun ii => SE.modify (f ii)) s) = Ok tt.
Proof.
  revert start s. induction n as [| n IH]; intros start s; cbn; [reflexivity |].
  apply IH.
Qed.

End StateFacts.

(** * The angular covariance array *)

Module ClArrayFacts.

Import Spec.
Import PyFacts ArrayFacts.

Section ClArray.

Variable romb_weights : nat -> list R.
Variable roots_legendre : Z -> result (list R * list R * R).
Variable lpn : Z -> R -> result (list R).

Local Abbreviation double_rule := (Spec.double_rule romb_weights).

Local Abbreviation romb := (romb romb_weights).
Local Abbreviation integrate_bins := (integrate_bins romb_weights).
Local Abbreviation corr_group := (corr_group romb_weights).
Local Abbreviation corr_to_clarray := (corr_to_clarray romb_weights roots_legendre lpn).

(** The separation of two shells does not depend on their order. *)
Lemma separation_comm (x1 x2 ms : R) : separation x1 x2 ms = separation x2 x1 ms.
Proof.
  unfold separation.
  replace ((x2 - x1) ^ 2 + 2 * x2 * x1 * (1 - ms))
    with ((x1 - x2) ^ 2 + 2 * x1 * x2 * (1 - ms)) by ring.
  reflexivity.
Qed.

Lemma zeros_symmetric (n : nat) : symmetric (repeat (repeat 0 n) n).
Proof.
  intros i j.
  assert (H : forall a b : nat, nth b (nth a (repeat (repeat 0 n) n) []) 0 = 0).
  { intros a b. destruct (Nat.lt_ge_cases a n) as [Ha | Ha].
    - rewrite (nth_indep _ [] (repeat 0 n)) by (rewrite repeat_length; exact Ha).
      rewrite nth_repeat. destruct (Nat.lt_ge_cases b n) as [Hb | Hb].
      + rewrite nth_repeat. reflexivity.
      + apply nth_overflow. rewrite repeat_length. exact Hb.
    - rewrite (nth_overflow _ []) by (rewrite repeat_length; exact Ha).
      destruct b; reflexivity. }
  rewrite !H. reflexivity.
Qed.

(** Entry [(p, q)] of [corr(rc)]. *)
Lemma corr_matrix_entry (corr : R -> R) (xa : list R) (ms : R)
    (c : list (list R)) (p q : nat) :
  corr_matrix corr xa ms = Ok c ->
  (p < length xa)%nat -> (q < length xa)%nat ->
  exists rc, separation (nth p xa 0) (nth q xa 0) ms = Ok rc
             /\ nth q (nth p c []) 0 = corr rc.
Proof.
  intros H Hp Hq. unfold corr_matrix in H.
  pose proof (mapM_nth _ _ _ p 0 [] H Hp) as Hrow. cbv beta in Hrow.
  pose proof (mapM_nth _ _ _ q 0 0 Hrow Hq) as Hent. cbv beta in Hent.
  destruct (separation (nth p xa 0) (nth q xa 0) ms) as [rc |]; [| discriminate].
  cbn [bind] in Hent. injection Hent as Hent.
  exists rc. split; [reflexivity | symmetry; exact Hent].
Qed.

Lemma corr_matrix_shape (corr : R -> R) (xa : list R) (ms : R)
    (c : list (list R)) :
  corr_matrix corr xa ms = Ok c ->
  length c = length xa /\ forall p, (p < length xa)%nat ->
                                    length (nth p c []) = length xa.
Proof.
  intros H. unfold corr_matrix in H. split.
  - exact (mapM_length _ _ _ H).
  - intros p Hp. pose proof (mapM_nth _ _ _ p 0 [] H Hp) as Hrow.
    exact (mapM_length _ _ _ Hrow).
Qed.

Lemma corr_matrix_symmetric (corr : R -> R) (xa : list R) (ms : R)
    (c : list (list R)) :
  corr_matrix corr xa ms = Ok c -> symmetric c.
Proof.
  intros H p q.
  destruct (corr_matrix_shape corr xa ms c H) as [Hlen Hrows].
  destruct (Nat.lt_ge_cases p (length xa)) as [Hp | Hp];
    destruct (Nat.lt_ge_cases q (length xa)) as [Hq | Hq].
  - destruct (corr_matrix_entry corr xa ms c p q H Hp Hq) as [rc [E1 V1]].
    destruct (corr_matrix_entry corr xa ms c q p H Hq Hp) as [rc' [E2 V2]].
    rewrite separation_comm in E2. rewrite E1 in E2. injection E2 as <-.
    rewrite V1, V2. reflexivity.
  - rewrite (nth_overflow (nth p c [])) by (rewrite Hrows by exact Hp; exact Hq).
    rewrite (nth_overflow c) by (rewrite Hlen; exact Hq).
    destruct p; reflexivity.
  - rewrite (nth_overflow c) by (rewrite Hlen; exact Hp).
    rewrite (nth_overflow (nth q c [])) by (rewrite Hrows by exact Hq; exact Hp).
    destruct q; reflexivity.
  - rewrite !(nth_overflow c) by (rewrite Hlen; assumption).
    destruct p, q; reflexivity.
Qed.

(** What [romb] returns when it returns. *)
Lemma romb_inv (y : list R) (dx v : R) :
  romb y dx = Ok v -> v = dx * Np.dot (romb_weights (length y)) y.
Proof.
  unfold Corrfunc.romb. destruct (romb_samples_ok (length y)); [| discriminate].
  intros H. injection H as <-. reflexivity.
Qed.

Lemma double_rule_symmetric (xint : nat) (xspace xhalf : R)
    (c : list (list R)) (i j : nat) :
  symmetric c ->
  double_rule xint xspace xhalf c i j = double_rule xint xspace xhalf c j i.
Proof.
  intros Hc. unfold Spec.double_rule. f_equal. f_equal.
  rewrite (dot_dot_swap (romb_weights xint) xspace
             (fun a b => nth (j * xint + b) (nth (i * xint + a) c []) 0)).
  apply dot_ext. intros a _. f_equal. apply dot_ext. intros b _. apply Hc.
Qed.

Lemma integrate_bins_entry (xlen xint : nat) (xspace xhalf : R)
    (c plane : list (list R)) (i j : nat) :
  integrate_bins xlen xint xspace xhalf c = Ok plane ->
  (i < xlen)%nat -> (j < xlen)%nat ->
  nth j (nth i plane []) 0 = double_rule xint xspace xhalf c i j.
Proof.
  intros H Hi Hj. unfold Corrfunc.integrate_bins in H.
  assert (Hi' : (i < length (seq 0 xlen))%nat) by (rewrite length_seq; exact Hi).
  assert (Hj' : (j < length (seq 0 xlen))%nat) by (rewrite length_seq; exact Hj).
  pose proof (mapM_nth _ _ _ i 0%nat [] H Hi') as Hrow. cbv beta in Hrow.
  pose proof (mapM_nth _ _ _ j 0%nat 0 Hrow Hj') as Hent. cbv beta in Hent.
  rewrite !seq_nth in Hent by assumption. cbn [Nat.add] in Hent.
  destruct (mapM _ (seq 0 xint)) as [inner |] eqn:Einner; [| discriminate].
  cbn [bind] in Hent.
  destruct (romb inner xspace) as [v |] eqn:Ev; [| discriminate].
  cbn [bind] in Hent.
  apply FloatFacts.np_div_inv in Hent. destruct Hent as [_ Hent].
  rewrite Hent. apply romb_inv in Ev. subst v.
  pose proof (mapM_length _ _ _ Einner) as Hlen. rewrite length_seq in Hlen.
  unfold Spec.double_rule. f_equal. f_equal. rewrite Hlen. f_equal.
  apply nth_ext with (d := 0) (d' := 0).
  - rewrite length_map, length_seq. exact Hlen.
  - intros a Ha. rewrite Hlen in Ha.
    assert (Ha' : (a < length (seq 0 xint))%nat) by (rewrite length_seq; exact Ha).
    pose proof (mapM_nth _ _ _ a 0%nat 0 Einner Ha') as Hv. cbv beta in Hv.
    rewrite seq_nth in Hv by exact Ha. cbn [Nat.add] in Hv.
    apply romb_inv in Hv. rewrite Hv.
    rewrite length_map, length_seq.
    rewrite nth_map_seq. apply Nat.ltb_lt in Ha. rewrite Ha. reflexivity.
Qed.

Lemma integrate_bins_shape (xlen xint : nat) (xspace xhalf : R)
    (c plane : list (list R)) :
  integrate_bins xlen xint xspace xhalf c = Ok plane ->
  length plane = xlen /\ forall i, (i < xlen)%nat -> length (nth i plane []) = xlen.
Proof.
  intros H. unfold Corrfunc.integrate_bins in H. split.
  - rewrite (mapM_length _ _ _ H). apply length_seq.
  - intros i Hi.
    assert (Hi' : (i < length (seq 0 xlen))%nat) by (rewrite length_seq; exact Hi).
    pose proof (mapM_nth _ _ _ i 0%nat [] H Hi') as Hrow.
    rewrite (mapM_length _ _ _ Hrow). apply length_seq.
Qed.

Lemma integrate_bins_symmetric (xlen xint : nat) (xspace xhalf : R)
    (c plane : list (list R)) :
  symmetric c -> integrate_bins xlen xint xspace xhalf c = Ok plane ->
  symmetric plane.
Proof.
  intros Hc H i j.
  destruct (integrate_bins_shape _ _ _ _ _ _ H) as [Hlen Hrows].
  destruct (Nat.lt_ge_cases i xlen) as [Hi | Hi];
    destruct (Nat.lt_ge_cases j xlen) as [Hj | Hj].
  - rewrite (integrate_bins_entry _ _ _ _ _ _ i j H Hi Hj).
    rewrite (integrate_bins_entry _ _ _ _ _ _ j i H Hj Hi).
    apply double_rule_symmetric. exact Hc.
  - rewrite (nth_overflow (nth i plane [])) by (rewrite Hrows by exact Hi; exact Hj).
    rewrite (nth_overflow plane) by (rewrite Hlen; exact Hj).
    destruct i; reflexivity.
  - rewrite (nth_overflow plane) by (rewrite Hlen; exact Hi).
    rewrite (nth_overflow (nth j plane [])) by (rewrite Hrows by exact Hj; exact Hi).
    destruct j; reflexivity.
  - rewrite !(nth_overflow plane) by (rewrite Hlen; assumption).
    destruct i, j; reflexivity.
Qed.

(** Every plane of a group is symmetric. *)
Lemma corr_group_symmetric (corr : R -> R) (mu : list R) (xlen : nat)
    (xa : list R) (integ : option (nat * R * R)) (msec : list nat)
    (planes : list (list (list R))) :
  corr_group corr mu xlen xa integ msec = Ok planes -> Forall symmetric planes.
Proof.
  intros H. unfold Corrfunc.corr_group in H.
  apply (mapM_Forall _ symmetric _ _ H). intros m plane _ Hm.
  destruct (index mu (Z.of_nat m)) as [ms |]; [| discriminate]. cbn [bind] in Hm.
  destruct (corr_matrix corr xa ms) as [corr1 |] eqn:Ec; [| discriminate].
  cbn [bind] in Hm. apply corr_matrix_symmetric in Ec.
  destruct integ as [[[xint xspace] xhalf] |].
  - eapply integrate_bins_symmetric; eassumption.
  - injection Hm as <-. exact Ec.
Qed.

Lemma assign_planes_Forall {A : Type} (P : A -> Prop) (msec : list nat)
    (planes corr_array : list A) :
  Forall P planes -> Forall P corr_array ->
  Forall P (assign_planes msec planes corr_array).
Proof.
  revert planes corr_array.
  induction msec as [| m msec IH]; intros planes corr_array Hp Hc; cbn.
  - exact Hc.
  - destruct planes as [| p planes]; [exact Hc |].
    inversion Hp; subst. apply IH; [assumption |].
    apply set_nth_Forall; assumption.
Qed.

Lemma fill_groups_Forall {A : Type} (P : A -> Prop)
    (group : list nat -> result (list A)) (groups : list (list nat))
    (corr_array out : list A) :
  (forall msec planes, group msec = Ok planes -> Forall P planes) ->
  Forall P corr_array ->
  fill_groups group groups corr_array = Ok out -> Forall P out.
Proof.
  intros Hg. revert corr_array.
  induction groups as [| msec groups IH]; intros corr_array Hc H; cbn in H.
  - injection H as <-. exact Hc.
  - destruct (group msec) as [planes |] eqn:Eg; [| discriminate]. cbn [bind] in H.
    apply (IH _ (assign_planes_Forall P msec planes corr_array (Hg _ _ Eg) Hc) H).
Qed.

(** *** When the array is returned *)

Lemma separation_ok (x1 x2 ms : R) :
  -1 <= ms <= 1 -> exists rc, separation x1 x2 ms = Ok rc.
Proof.
  intros Hms. unfold separation.
  destruct (Rlt_dec _ 0) as [Hneg |]; [| eexists; reflexivity].
  exfalso. destruct (Rle_lt_dec 0 (x1 * x2)) as [Hpos | Hprod].
  - assert (0 <= (x1 - x2) ^ 2) by (apply pow2_ge_0).
    assert (0 <= x1 * x2 * (1 - ms)) by (apply Rmult_le_pos; lra).
    lra.
  - assert (0 <= (x1 + x2) ^ 2) by (apply pow2_ge_0).
    assert (0 <= (- (x1 * x2)) * (1 + ms)) by (apply Rmult_le_pos; lra).
    assert (E : (x1 - x2) ^ 2 + 2 * x1 * x2 * (1 - ms)
                = (x1 + x2) ^ 2 + 2 * (- (x1 * x2) * (1 + ms))) by ring.
    lra.
Qed.

Lemma corr_matrix_ok (corr : R -> R) (xa : list R) (ms : R) :
  -1 <= ms <= 1 -> exists c, corr_matrix corr xa ms = Ok c.
Proof.
  intros Hms. unfold corr_matrix.
  apply mapM_exists. intros x1 _. apply mapM_exists. intros x2 _.
  destruct (separation_ok x1 x2 ms Hms) as [rc E]. rewrite E. cbn [bind].
  eexists; reflexivity.
Qed.

Lemma romb_ok (y : list R) (dx : R) :
  romb_samples_ok (length y) = true -> exists v, romb y dx = Ok v.
Proof.
  intros H. unfold Corrfunc.romb. rewrite H. eexists; reflexivity.
Qed.

Lemma integrate_bins_ok (xlen xint : nat) (xspace xhalf : R) (c : list (list R)) :
  romb_samples_ok xint = true -> xhalf <> 0 ->
  exists plane, integrate_bins xlen xint xspace xhalf c = Ok plane.
Proof.
  intros Hn Hh. unfold Corrfunc.integrate_bins.
  apply mapM_exists. intros i _. apply mapM_exists. intros j _.
  destruct (mapM_exists
              (fun a => romb (map (fun b => nth (j * xint + b)
                                              (nth (i * xint + a) c []) 0)
                                  (seq 0 xint)) xspace)
              (seq 0 xint)) as [inner Einner].
  { intros a _. apply romb_ok. rewrite length_map, length_seq. exact Hn. }
  rewrite Einner. cbn [bind].
  destruct (romb_ok inner xspace) as [v Ev].
  { rewrite (mapM_length _ _ _ Einner), length_seq. exact Hn. }
  rewrite Ev. cbn [bind]. rewrite FloatFacts.np_div_ok.
  - eexists; reflexivity.
  - apply pow_nonzero. lra.
Qed.

Lemma corr_group_ok (corr : R -> R) (mu : list R) (xlen : nat) (xa : list R)
    (integ : option (nat * R * R)) (msec : list nat) :
  Forall (fun m => -1 <= m <= 1) mu -> integ_ok integ ->
  (forall m, In m msec -> (m < length mu)%nat) ->
  exists planes, corr_group corr mu xlen xa integ msec = Ok planes.
Proof.
  intros Hmu Hinteg Hm. unfold Corrfunc.corr_group.
  apply mapM_exists. intros m Hin.
  rewrite (index_nat mu m 0 (Hm m Hin)). cbn [bind].
  assert (Hms : -1 <= nth m mu 0 <= 1).
  { rewrite Forall_forall in Hmu. apply Hmu. apply nth_In. apply Hm. exact Hin. }
  destruct (corr_matrix_ok corr xa _ Hms) as [c Ec]. rewrite Ec. cbn [bind].
  destruct integ as [[[xint xspace] xhalf] |].
  - destruct Hinteg as [Hn Hh]. apply integrate_bins_ok; assumption.
  - eexists; reflexivity.
Qed.

Lemma pieces_In {A : Type} (sizes : list nat) (l g : list A) (x : A) :
  In g (Np.pieces sizes l) -> In x g -> In x l.
Proof.
  revert l. induction sizes as [| s sizes IH]; intros l Hg Hx; cbn in Hg.
  - contradiction.
  - destruct Hg as [<- | Hg].
    + rewrite <- (firstn_skipn s l). apply in_or_app. left. exact Hx.
    + rewrite <- (firstn_skipn s l). apply in_or_app. right.
      apply (IH _ Hg Hx).
Qed.

Lemma fill_groups_ok {A : Type} (group : list nat -> result (list A))
    (groups : list (list nat)) (corr_array : list A) :
  (forall msec, In msec groups -> exists planes, group msec = Ok planes) ->
  exists out, fill_groups group groups corr_array = Ok out.
Proof.
  revert corr_array. induction groups as [| msec groups IH];
    intros corr_array H; cbn [fill_groups].
  - eexists; reflexivity.
  - destruct (H msec (or_introl eq_refl)) as [planes E]. rewrite E. cbn [bind].
    apply IH. intros g Hg. apply H. right. exact Hg.
Qed.

(** With at least 50 nodes inside [-1, 1], weights of a non-zero sum,
    Legendre polynomials up to [lmax] and usable integration data, the
    array is returned. *)
Lemma corr_to_clarray_returns (corr : R -> R) (lmax : Z) (xarray : list R)
    (xromb : Z) (xwidth : option R) (q : Z) (mu w : list R) (wsum : R)
    (xa : list R) (integ : option (nat * R * R)) :
  roots_legendre (q * lmax) = Ok (mu, w, wsum) ->
  length mu = Z.to_nat (q * lmax) -> length w = length mu -> wsum <> 0 ->
  Forall (fun m => -1 <= m <= 1) mu ->
  (forall v, In v mu ->
             exists p, lpn lmax v = Ok p /\ length p = Z.to_nat (lmax + 1)) ->
  (50 <= q * lmax)%Z -> (0 <= lmax + 1)%Z ->
  extended_distances xarray xromb xwidth = Ok (xa, integ) -> integ_ok integ ->
  exists clxx, corr_to_clarray corr lmax xarray xromb xwidth q = Ok clxx.
Proof.
  intros Hrl Hmu Hw Hwsum Hnodes Hlpn HM Hl Hext Hinteg.
  unfold Corrfunc.corr_to_clarray. rewrite Hrl. cbn [bind].
  destruct (q * lmax <? 0)%Z eqn:E; [apply Z.ltb_lt in E; lia |].
  rewrite Hext. cbn [bind].
  unfold Np.array_split at 1.
  destruct (q * lmax / 50 <=? 0)%Z eqn:Ediv.
  { apply Z.leb_le in Ediv.
    assert (1 <= q * lmax / 50)%Z by (apply Z.div_le_lower_bound; lia). lia. }
  cbn [bind].
  match goal with
  | |- context [fill_groups ?g ?gs ?z] =>
      destruct (fill_groups_ok g gs z) as [corr_array Efill]
  end.
  { intros msec Hin. apply corr_group_ok; try assumption.
    intros m Hm. pose proof (pieces_In _ _ _ _ Hin Hm) as Hm'.
    unfold Np.arange in Hm'. apply in_seq in Hm'. lia. }
  rewrite Efill. cbn [bind].
  unfold legendre_array.
  destruct (lmax + 1 <? 0)%Z eqn:E1; [apply Z.ltb_lt in E1; lia |].
  match goal with
  | |- context [mapM ?f mu] => destruct (mapM_exists f mu) as [cols Ecols]
  end.
  { intros v Hv. destruct (Hlpn v Hv) as [p [Ep Lp]]. rewrite Ep. cbn [bind].
    rewrite Lp, Nat.eqb_refl. eexists; reflexivity. }
  rewrite Ecols. cbn [bind].
  rewrite (mapM_ok_map _ (fun wm => wm * 4 * PI / wsum))
    by (intros wm _; apply FloatFacts.np_div_ok; exact Hwsum).
  cbn [bind]. rewrite length_map, Hw, Nat.eqb_refl. cbn [negb].
  rewrite Hmu, Nat.eqb_refl. cbn [negb].
  eexists; reflexivity.
Qed.

(** Fewer than 50 nodes make no group. *)
Lemma no_group (M : Z) : (M < 50)%Z -> (M / 50 <=? 0)%Z = true.
Proof.
  intros H. apply Z.leb_le.
  assert (M / 50 < 1)%Z by (apply Z.div_lt_upper_bound; lia). lia.
Qed.

(** C10.  With fewer than 50 quadrature nodes ([q * lmax < 50])
    [corr_to_clarray] raises and returns no array, whatever the correlation
    function and the distances; when the nodes and the extended distances
    were computed, the exception is the one of the split of the nodes into
    [M // 50 = 0] groups. *)
Theorem corr_to_clarray_needs_50_nodes (corr : R -> R) (lmax : Z)
    (xarray : list R) (xromb : Z) (xwidth : option R) (q : Z) :
  (q * lmax < 50)%Z ->
  (exists e, corr_to_clarray corr lmax xarray xromb xwidth q = Raise e)
  /\ (forall rl ext,
        roots_legendre (q * lmax) = Ok rl -> (0 <= q * lmax)%Z ->
        extended_distances xarray xromb xwidth = Ok ext ->
        corr_to_clarray corr lmax xarray xromb xwidth q
        = Raise (ValueError "number sections must be larger than 0.")).
Proof.
  intros HM. pose proof (no_group _ HM) as Hsplit. split.
  - unfold Corrfunc.corr_to_clarray.
    destruct (roots_legendre (q * lmax)) as [[[mu w] wsum] | e]; cbn [bind];
      [| exists e; reflexivity].
    destruct (q * lmax <? 0)%Z; [eexists; reflexivity |].
    destruct (extended_distances xarray xromb xwidth) as [[xa integ] | e];
      cbn [bind]; [| exists e; reflexivity].
    unfold Np.array_split. rewrite Hsplit. cbn [bind]. eexists; reflexivity.
  - intros [[mu w] wsum] [xa integ] Hrl HM0 Hext.
    unfold Corrfunc.corr_to_clarray. rewrite Hrl. cbn [bind].
    destruct (q * lmax <? 0)%Z eqn:E; [apply Z.ltb_lt in E; lia |].
    rewrite Hext. cbn [bind].
    unfold Np.array_split. rewrite Hsplit. reflexivity.
Qed.

(** C4.  Whenever [corr_to_clarray] returns, the array has [lmax + 1]
    slices and every slice is symmetric:
    [clxx[l, i, j] = clxx[l, j, i]] for all [l], [i] and [j]. *)
Theorem corr_to_clarray_symmetric (corr : R -> R) (lmax : Z)
    (xarray : list R) (xromb : Z) (xwidth : option R) (q : Z)
    (clxx : list (list (list R))) :
  corr_to_clarray corr lmax xarray xromb xwidth q = Ok clxx ->
  length clxx = Z.to_nat (lmax + 1)
  /\ forall l i j : nat,
       nth j (nth i (nth l clxx []) []) 0 = nth i (nth j (nth l clxx []) []) 0.
Proof.
  unfold Corrfunc.corr_to_clarray.
  destruct (roots_legendre (q * lmax)) as [[[mu w] wsum] |]; [| discriminate].
  cbn [bind].
  destruct (q * lmax <? 0)%Z; [discriminate |].
  destruct (extended_distances xarray xromb xwidth) as [[xa integ] |];
    [| discriminate].
  cbn [bind].
  destruct (Np.array_split _ _) as [groups |]; [| discriminate]. cbn [bind].
  destruct (fill_groups _ groups _) as [corr_array |] eqn:Efill; [| discriminate].
  cbn [bind].
  destruct (legendre_array lpn lmax mu) as [lm |] eqn:Elm; [| discriminate].
  cbn [bind].
  destruct (mapM _ w) as [scale |]; [| discriminate]. cbn [bind].
  destruct (negb (length scale =? length mu)%nat); [discriminate |].
  destruct (negb (length mu =? Z.to_nat (q * lmax))%nat); [discriminate |].
  intros H. injection H as <-.
  assert (Hsym : Forall symmetric corr_array).
  { apply (fill_groups_Forall symmetric _ _ _ _
             (corr_group_symmetric corr mu (length xarray) xa integ)
             ltac:(apply Forall_forall; intros p Hp;
                   apply repeat_spec in Hp; subst p; apply zeros_symmetric)
             Efill). }
  split.
  - rewrite !length_map. unfold legendre_array in Elm.
    destruct (lmax + 1 <? 0)%Z; [discriminate |].
    destruct (mapM _ mu); [| discriminate]. cbn [bind] in Elm.
    injection Elm as <-. rewrite length_map, length_seq. reflexivity.
  - intros l i j.
    set (F := fun (row : list R) (i j : nat) =>
                Np.dot row (map (fun plane : list (list R) =>
                                   nth j (nth i plane []) 0) corr_array)).
    assert (HF : forall row a b, F row a b = F row b a).
    { intros row a b. unfold F. apply dot_ext. intros plane Hin.
      rewrite Forall_forall in Hsym. apply (Hsym plane Hin). }
    set (rows := map _ lm).
    assert (Hnth : forall a b,
               nth b (nth a (nth l (map (fun row =>
                  map (fun i0 => map (fun j0 => F row i0 j0) (seq 0 (length xarray)))
                      (seq 0 (length xarray))) rows) []) []) 0
               = if (l <? length rows)%nat then
                   if (a <? length xarray)%nat then
                     if (b <? length xarray)%nat then F (nth l rows []) a b else 0
                   else 0
                 else 0).
    { intros a b. destruct (l <? length rows)%nat eqn:El.
      - apply Nat.ltb_lt in El.
        rewrite (nth_map_lt _ rows l [] [] El). rewrite nth_map_seq.
        destruct (a <? length xarray)%nat.
        + rewrite nth_map_seq. reflexivity.
        + destruct b; reflexivity.
      - apply Nat.ltb_ge in El.
        rewrite (nth_overflow (map _ rows)) by (rewrite length_map; exact El).
        destruct a, b; reflexivity. }
    change (nth j (nth i (nth l (map (fun row =>
                  map (fun i0 => map (fun j0 => F row i0 j0) (seq 0 (length xarray)))
                      (seq 0 (length xarray))) rows) []) []) 0
            = nth i (nth j (nth l (map (fun row =>
                  map (fun i0 => map (fun j0 => F row i0 j0) (seq 0 (length xarray)))
                      (seq 0 (length xarray))) rows) []) []) 0).
    rewrite !Hnth.
    destruct (l <? length rows)%nat; [| reflexivity].
    destruct (i <? length xarray)%nat, (j <? length xarray)%nat;
      try reflexivity.
    apply HF.
Qed.

End ClArray.

Import Examples.

(** The array of a linear correlation function on two distances, each bin
    integrated over three samples, with 50 flat nodes: it is returned, and
    it is symmetric. *)
Lemma corr_to_clarray_symmetric_witness :
  exists clxx,
    corr_to_clarray unit_weights flat_nodes flat_lpn (fun r => r) 25 [1; 2] 1
      (Some 2) 2 = Ok clxx
    /\ length clxx = Z.to_nat (25 + 1)
    /\ forall l i j : nat,
         nth j (nth i (nth l clxx []) []) 0 = nth i (nth j (nth l clxx []) []) 0.
Proof.
  assert (H : exists clxx,
             corr_to_clarray unit_weights flat_nodes flat_lpn (fun r => r) 25
               [1; 2] 1 (Some 2) 2 = Ok clxx).
  { eapply (corr_to_clarray_returns unit_weights flat_nodes flat_lpn
              (fun r => r) 25 [1; 2] 1 (Some 2) 2
              (repeat 0 (Z.to_nat 50)) (repeat 1 (Z.to_nat 50)) 1).
    - reflexivity.
    - apply repeat_length.
    - rewrite !repeat_length. reflexivity.
    - lra.
    - apply Forall_forall. intros m Hm. apply repeat_spec in Hm. subst m. lra.
    - intros v _. eexists. split; [reflexivity | apply repeat_length].
    - lia.
    - lia.
    - reflexivity.
    - split; [reflexivity | lra]. }
  destruct H as [clxx E].
  exists clxx. split; [exact E |].
  exact (corr_to_clarray_symmetric unit_weights flat_nodes flat_lpn
           (fun r => r) 25 [1; 2] 1 (Some 2) 2 clxx E).
Defined.

(** With [q = 2] and [lmax = 24] there are 48 nodes, and the call raises. *)
Lemma corr_to_clarray_needs_50_nodes_witness :
  (2 * 24 < 50)%Z
  /\ exists e,
       corr_to_clarray unit_weights flat_nodes flat_lpn (fun r => r) 24 [1; 2] 1
         (Some 2) 2 = Raise e.
Proof.
  split; [reflexivity |].
  exact (proj1 (corr_to_clarray_needs_50_nodes unit_weights flat_nodes flat_lpn
                  (fun r => r) 24 [1; 2] 1 (Some 2) 2 eq_refl)).
Defined.

End ClArrayFacts.

(** * The radii of the correlation function *)

Module SortedFacts.

Import Spec.

Lemma increasing_app (a b : list R) :
  increasing a -> increasing b ->
  (forall x y, In x a -> In y b -> x < y) -> increasing (a ++ b).
Proof.
  unfold increasing. intros Ha Hb Hab. induction Ha as [| x a Ha IH Hx]; cbn [app].
  - exact Hb.
  - constructor.
    + apply IH. intros u v Hu Hv. apply Hab; [right; exact Hu | exact Hv].
    + apply Forall_app. split; [exact Hx |].
      apply Forall_forall. intros v Hv. apply Hab; [left; reflexivity | exact Hv].
Qed.

Lemma sorted_map {A B : Type} (R1 : A -> A -> Prop) (R2 : B -> B -> Prop)
    (f : A -> B) (l : list A) :
  (forall x y, R1 x y -> R2 (f x) (f y)) ->
  StronglySorted R1 l -> StronglySorted R2 (map f l).
Proof.
  intros Hf H. induction H as [| x l Hl IH Hx]; cbn [map]; constructor.
  - exact IH.
  - apply Forall_forall. intros y Hy. apply in_map_iff in Hy.
    destruct Hy as [z [<- Hz]]. apply Hf. rewrite Forall_forall in Hx.
    apply Hx. exact Hz.
Qed.

Lemma sorted_seq (a n : nat) : StronglySorted lt (seq a n).
Proof.
  revert a. induction n as [| n IH]; intros a; cbn [seq]; constructor.
  - apply IH.
  - apply Forall_forall. intros y Hy. apply in_seq in Hy. lia.
Qed.

Lemma sorted_skipn {A : Type} (R1 : A -> A -> Prop) (n : nat) (l : list A) :
  StronglySorted R1 l -> StronglySorted R1 (skipn n l).
Proof.
  revert l. induction n as [| n IH]; intros l H; [exact H |].
  destruct l as [| x l]; [constructor |]. cbn [skipn]. apply IH.
  inversion H; assumption.
Qed.

Lemma In_skipn {A : Type} (n : nat) (l : list A) (x : A) :
  In x (skipn n l) -> In x l.
Proof.
  intros H. rewrite <- (firstn_skipn n l). apply in_or_app. right. exact H.
Qed.

(** [a[mask]] keeps the order, and keeps the entries the mask accepts. *)
Lemma select_In (P : R -> bool) (a r : list R) :
  Np.select (map P a) a = Ok r -> forall x, In x r -> In x a /\ P x = true.
Proof.
  revert r. induction a as [| y a IH]; intros r H x Hx; cbn in H.
  - injection H as <-. contradiction.
  - destruct (Np.select (map P a) a) as [r' |]; [| discriminate]. cbn [bind] in H.
    injection H as <-. destruct (P y) eqn:Ey.
    + destruct Hx as [<- | Hx]; [split; [left; reflexivity | exact Ey] |].
      destruct (IH r' eq_refl x Hx) as [Hin HP]. split; [right; exact Hin | exact HP].
    + destruct (IH r' eq_refl x Hx) as [Hin HP]. split; [right; exact Hin | exact HP].
Qed.

Lemma select_increasing (P : R -> bool) (a r : list R) :
  Np.select (map P a) a = Ok r -> increasing a -> increasing r.
Proof.
  unfold increasing. revert r. induction a as [| y a IH]; intros r H Ha; cbn in H.
  - injection H as <-. constructor.
  - destruct (Np.select (map P a) a) as [r' |] eqn:E; [| discriminate].
    cbn [bind] in H. injection H as <-.
    inversion Ha as [| ? ? Hsa Hya]; subst.
    specialize (IH r' eq_refl Hsa).
    destruct (P y); [| exact IH]. constructor; [exact IH |].
    apply Forall_forall. intros x Hx.
    destruct (select_In P a r' E x Hx) as [Hin _].
    rewrite Forall_forall in Hya. apply Hya. exact Hin.
Qed.

(** [a[start::step]] keeps the order when the step is positive. *)
Lemma every_In {A : Type} (step fuel : nat) (l : list A) (x : A) :
  In x (Np.every step fuel l) -> In x l.
Proof.
  revert l. induction fuel as [| fuel IH]; intros l H; cbn in H; [contradiction |].
  destruct l as [| y l]; [contradiction |].
  destruct H as [<- | H]; [left; reflexivity |].
  apply (In_skipn step). apply IH. exact H.
Qed.

Lemma every_increasing (step fuel : nat) (l : list R) :
  (1 <= step)%nat -> increasing l -> increasing (Np.every step fuel l).
Proof.
  unfold increasing. intros Hs. revert l.
  induction fuel as [| fuel IH]; intros l Hl; cbn; [constructor |].
  destruct l as [| y l]; [constructor |]. constructor.
  - apply IH. apply sorted_skipn. exact Hl.
  - apply Forall_forall. intros x Hx. apply every_In in Hx.
    destruct step as [| step]; [lia |]. cbn [skipn] in Hx. apply In_skipn in Hx.
    inversion Hl as [| ? ? _ Hy]; subst. rewrite Forall_forall in Hy.
    apply Hy. exact Hx.
Qed.

Lemma stride_increasing (start step : nat) (l : list R) :
  (1 <= step)%nat -> increasing l -> increasing (Np.stride start step l).
Proof.
  intros Hs Hl. unfold Np.stride. apply every_increasing; [exact Hs |].
  apply sorted_skipn. exact Hl.
Qed.

Lemma stride_In {A : Type} (start step : nat) (l : list A) (x : A) :
  In x (Np.stride start step l) -> In x l.
Proof.
  unfold Np.stride. intros H. apply every_In in H. apply (In_skipn start). exact H.
Qed.

(** *** [np.linspace] and [np.logspace] *)

Lemma ramp_increasing (start step : R) (n : nat) :
  0 < step -> increasing (map (fun i => start + INR i * step) (seq 0 n)).
Proof.
  intros Hs. apply (sorted_map lt Rlt); [| apply sorted_seq].
  intros i j Hij. apply lt_INR in Hij. nra.
Qed.

Lemma ramp_bounds (start stop : R) (n m : nat) (v : R) :
  start < stop -> (0 < m)%nat -> (n <= m)%nat ->
  In v (map (fun i => start + INR i * ((stop - start) / INR m)) (seq 0 n)) ->
  start <= v < stop.
Proof.
  intros Hd Hm Hn Hv. apply in_map_iff in Hv. destruct Hv as [i [<- Hi]].
  apply in_seq in Hi.
  assert (Hm' : 0 < INR m) by (apply lt_0_INR; exact Hm).
  assert (Hi' : 0 <= INR i) by (apply pos_INR).
  assert (Him : INR i < INR m) by (apply lt_INR; lia).
  assert (Hstep : 0 < (stop - start) / INR m) by (apply Rdiv_lt_0_compat; lra).
  assert (E : INR m * ((stop - start) / INR m) = stop - start) by (field; lra).
  split; nra.
Qed.

(** The values of [np.linspace(start, stop, num, endpoint=False)]. *)
Lemma linspace_open (start stop : R) (num : Z) (y : list R) :
  start < stop -> Np.linspace start stop num false = Ok y ->
  increasing y /\ forall v, In v y -> start <= v < stop.
Proof.
  intros Hd H. unfold Np.linspace in H.
  destruct (num <? 0)%Z; [discriminate |]. cbn [andb] in H. injection H as <-.
  set (n := Z.to_nat num).
  destruct n as [| n'] eqn:En; [split; [constructor | intros v []] |].
  assert (E : map (fun i => if (0 <? S n')%nat
                            then start + INR i * ((stop - start) / INR (S n'))
                            else start + INR i * (stop - start)) (seq 0 (S n'))
              = map (fun i => start + INR i * ((stop - start) / INR (S n')))
                    (seq 0 (S n'))) by reflexivity.
  rewrite E. split.
  - apply ramp_increasing. apply Rdiv_lt_0_compat; [lra |]. apply lt_0_INR. lia.
  - intros v Hv. apply (ramp_bounds start stop (S n') (S n')); [lra | lia | lia | exact Hv].
Qed.

Lemma removelast_map_seq {A : Type} (f : nat -> A) (n : nat) :
  removelast (map f (seq 0 (S n))) = map f (seq 0 n).
Proof.
  rewrite seq_S. rewrite map_app. cbn [map]. apply removelast_last.
Qed.

(** The values of [np.linspace(start, stop, num)], end point included. *)
Lemma linspace_closed (start stop : R) (num : Z) (y : list R) :
  start < stop -> Np.linspace start stop num true = Ok y ->
  increasing y /\ forall v, In v y -> start <= v <= stop.
Proof.
  intros Hd H. unfold Np.linspace in H.
  destruct (num <? 0)%Z; [discriminate |]. cbn [andb] in H. injection H as <-.
  set (n := Z.to_nat num).
  destruct n as [| [| n']] eqn:En.
  - split; [constructor | intros v []].
  - cbn. split.
    + constructor; [constructor | constructor].
    + intros v [<- | []]. lra.
  - assert (E1 : (1 <? S (S n'))%nat = true) by reflexivity. rewrite E1.
    assert (E2 : (S (S n') - 1)%nat = S n') by lia. rewrite E2.
    rewrite removelast_map_seq.
    assert (E : map (fun i => if (0 <? S n')%nat
                              then start + INR i * ((stop - start) / INR (S n'))
                              else start + INR i * (stop - start)) (seq 0 (S n'))
                = map (fun i => start + INR i * ((stop - start) / INR (S n')))
                      (seq 0 (S n'))) by reflexivity.
    rewrite E. split.
    + apply increasing_app.
      * apply ramp_increasing. apply Rdiv_lt_0_compat; [lra |]. apply lt_0_INR. lia.
      * constructor; [constructor | constructor].
      * intros x z Hx [<- | []].
        apply (ramp_bounds start stop (S n') (S n')); [lra | lia | lia | exact Hx].
    + intros v Hv. apply in_app_or in Hv. destruct Hv as [Hv | [<- | []]]; [| lra].
      pose proof (ramp_bounds start stop (S n') (S n') v Hd ltac:(lia) ltac:(lia) Hv).
      lra.
Qed.

Lemma Rpower_10_lt (x y : R) : x < y -> Rpower 10 x < Rpower 10 y.
Proof. intros H. apply Rpower_lt; lra. Qed.

Lemma Rpower_10_le (x y : R) : x <= y -> Rpower 10 x <= Rpower 10 y.
Proof.
  intros [H | ->]; [left; apply Rpower_10_lt; exact H | right; reflexivity].
Qed.

Lemma Rpower_10_pos (x : R) : 0 < Rpower 10 x.
Proof. unfold Rpower. apply exp_pos. Qed.

Lemma logspace_open (start stop : R) (num : Z) (y : list R) :
  start < stop -> Np.logspace start stop num false = Ok y ->
  increasing y
  /\ forall v, In v y -> Rpower 10 start <= v < Rpower 10 stop.
Proof.
  intros Hd H. unfold Np.logspace in H.
  destruct (Np.linspace start stop num false) as [l |] eqn:El; [| discriminate].
  cbn [bind] in H. injection H as <-.
  destruct (linspace_open _ _ _ _ Hd El) as [Hs Hb]. split.
  - apply (sorted_map Rlt Rlt); [apply Rpower_10_lt | exact Hs].
  - intros v Hv. apply in_map_iff in Hv. destruct Hv as [x [<- Hx]].
    destruct (Hb x Hx). split; [apply Rpower_10_le | apply Rpower_10_lt]; assumption.
Qed.

Lemma logspace_closed (start stop : R) (num : Z) (y : list R) :
  start < stop -> Np.logspace start stop num true = Ok y ->
  increasing y
  /\ forall v, In v y -> Rpower 10 start <= v <= Rpower 10 stop.
Proof.
  intros Hd H. unfold Np.logspace in H.
  destruct (Np.linspace start stop num true) as [l |] eqn:El; [| discriminate].
  cbn [bind] in H. injection H as <-.
  destruct (linspace_closed _ _ _ _ Hd El) as [Hs Hb]. split.
  - apply (sorted_map Rlt Rlt); [apply Rpower_10_lt | exact Hs].
  - intros v Hv. apply in_map_iff in Hv. destruct Hv as [x [<- Hx]].
    destruct (Hb x Hx). split; apply Rpower_10_le; assumption.
Qed.

(** An entry the mask [log10(r) >= lo & log10(r) <= hi] accepts. *)
Lemma log10_between_lower (lo hi x : R) :
  Np.log10_between lo hi x = true -> Rpower 10 lo <= x.
Proof.
  unfold Np.log10_between.
  destruct (Rlt_dec 0 x) as [Hx |]; [| discriminate].
  destruct (Rle_dec lo (ln x / ln 10)) as [Hlo |]; [| discriminate].
  intros _.
  assert (Hln : 0 < ln 10) by (rewrite <- ln_1; apply ln_increasing; lra).
  assert (Hle : lo * ln 10 <= ln x).
  { apply (Rmult_le_compat_r (ln 10)) in Hlo; [| lra].
    replace (ln x / ln 10 * ln 10) with (ln x) in Hlo by (field; lra). exact Hlo. }
  unfold Rpower. rewrite <- (exp_ln x Hx).
  destruct Hle as [Hlt | ->]; [left; apply exp_increasing; exact Hlt | right; reflexivity].
Qed.

Lemma int_nonneg (x : R) : 0 <= x -> (0 <= Float.int x)%Z.
Proof.
  intros Hx. unfold Float.int. destruct (Rle_dec 0 x); [| contradiction].
  destruct (base_Int_part x) as [_ H].
  assert (H' : -1 < IZR (Int_part x)) by lra.
  apply lt_IZR in H'. lia.
Qed.

Lemma linspace_ok (start stop : R) (num : Z) (endpoint : bool) :
  (0 <= num)%Z ->
  exists y, Np.linspace start stop num endpoint = Ok y /\ length y = Z.to_nat num.
Proof.
  intros Hn. unfold Np.linspace.
  destruct (num <? 0)%Z eqn:E; [apply Z.ltb_lt in E; lia |].
  eexists. split; [reflexivity |].
  destruct (endpoint && (1 <? Z.to_nat num)%nat) eqn:Eb.
  - apply andb_prop in Eb. destruct Eb as [_ Eb]. apply Nat.ltb_lt in Eb.
    rewrite length_app. cbn [length].
    rewrite removelast_firstn_len, length_firstn, length_map, length_seq. lia.
  - rewrite length_map, length_seq. reflexivity.
Qed.

Lemma logspace_ok (start stop : R) (num : Z) (endpoint : bool) :
  (0 <= num)%Z ->
  exists y, Np.logspace start stop num endpoint = Ok y
            /\ length y = Z.to_nat num /\ Forall (Rlt 0) y.
Proof.
  intros Hn. unfold Np.logspace.
  destruct (linspace_ok start stop num endpoint Hn) as [l [El Ll]].
  rewrite El. cbn [bind]. eexists. split; [reflexivity |]. split.
  - rewrite length_map. exact Ll.
  - apply Forall_forall. intros v Hv. apply in_map_iff in Hv.
    destruct Hv as [x [<- _]]. apply Rpower_10_pos.
Qed.

End SortedFacts.

(** ** The upsampled grids of [_corr_hankl_richardson] *)

Module ResamplingFacts.

Import Spec Examples.
Import FloatFacts PyFacts ArrayFacts SortedFacts.

(** [a[(u - 1)::u]] on the samples of a function: [m + 1] of them out of
    [m * u + 1]. *)
Lemma every_samples {A : Type} (h : nat -> A) (u : nat) :
  (1 <= u)%nat ->
  forall (m s fuel : nat), (m + 1 <= fuel)%nat ->
    Np.every u fuel (map h (seq s (m * u + 1)))
    = map (fun i => h (s + i * u)%nat) (seq 0 (m + 1)).
Proof.
  intros Hu. induction m as [| m IH]; intros s fuel Hf.
  - destruct fuel as [| fuel]; [lia |]. cbn [Nat.mul Nat.add seq map Np.every].
    rewrite Nat.add_0_r. f_equal.
    destruct u as [| u]; [lia |]. cbn [skipn]. rewrite skipn_nil.
    destruct fuel; reflexivity.
  - destruct fuel as [| fuel]; [lia |].
    replace (S m * u + 1)%nat with (S (u + m * u)) by lia.
    replace (S m + 1)%nat with (S (m + 1)) by lia.
    cbn [seq map Np.every]. rewrite Nat.add_0_r. f_equal.
    change (h s :: map h (seq (S s) (u + m * u)))
      with (map h (seq s (S (u + m * u)))).
    rewrite skipn_map, skipn_seq.
    replace (S (u + m * u) - u)%nat with (m * u + 1)%nat by lia.
    rewrite (IH (s + u)%nat fuel) by lia.
    rewrite <- seq_shift, map_map. apply map_ext. intros i. f_equal. lia.
Qed.

(** The decimation of a reversed array of [n * u] samples keeps the samples
    of index [u * (n - 1 - m)], for [m] from 0 to [n - 1]. *)
Lemma stride_rev_samples {A : Type} (h : nat -> A) (n u : nat) :
  (1 <= u)%nat ->
  Np.stride (u - 1) u (rev (map h (seq 0 (n * u))))
  = map (fun m => h (u * (n - 1 - m))%nat) (seq 0 n).
Proof.
  intros Hu.
  assert (Hrev : forall N, rev (map h (seq 0 N))
                           = map (fun j => h (N - 1 - j)%nat) (seq 0 N)).
  { intros N. apply (nth_ext _ _ (h 0%nat) (h 0%nat)).
    - rewrite length_rev, !length_map. reflexivity.
    - intros i Hi. rewrite length_rev, length_map, length_seq in Hi.
      rewrite rev_nth by (rewrite length_map, length_seq; exact Hi).
      rewrite length_map, length_seq.
      rewrite !nth_map_seq.
      destruct (N - S i <? N)%nat eqn:E1; [| apply Nat.ltb_ge in E1; lia].
      destruct (i <? N)%nat eqn:E2; [| apply Nat.ltb_ge in E2; lia].
      f_equal. lia. }
  rewrite Hrev. unfold Np.stride. rewrite length_map, length_seq.
  destruct n as [| n]; [reflexivity |].
  rewrite skipn_map, skipn_seq.
  replace (S n * u - (u - 1))%nat with (n * u + 1)%nat by lia.
  rewrite (every_samples _ u Hu n) by nia.
  replace (n + 1)%nat with (S n) by lia.
  apply map_ext_in. intros m Hm. apply in_seq in Hm. f_equal. nia.
Qed.

(** *** Exceptions of the steps after the check

    None of the mask, the selection and the extrapolation raises an
    [AssertionError]. *)

Lemma select_raise {A : Type} (mask : list bool) (a : list A) (e : exn) :
  Np.select mask a = Raise e -> e = IndexError.
Proof.
  revert a. induction mask as [| b mask IH]; intros [| x a]; cbn [Np.select];
    try discriminate; try (intros H; injection H as <-; reflexivity).
  destruct (Np.select mask a) eqn:E; cbn [bind]; [discriminate |].
  intros H. injection H as <-. exact (IH a E).
Qed.

Lemma array_sub_raise (x y : list R) (e : exn) :
  array_sub x y = Raise e -> e <> AssertionError.
Proof.
  revert y. induction x as [| a x IH]; intros [| b y]; cbn [array_sub];
    try discriminate; try (intros H; injection H as <-; discriminate).
  destruct (array_sub x y) eqn:E; cbn [bind]; [discriminate |].
  intros H. injection H as <-. exact (IH y E).
Qed.

Lemma array_div_raise (x : list R) (c : R) (e : exn) :
  mapM (fun a => Float.np_div a c) x = Raise e -> e <> AssertionError.
Proof.
  intros H. destruct (mapM_raise _ _ _ H) as [a [_ Ha]].
  unfold Float.np_div in Ha. destruct (Req_dec_T c 0); [| discriminate].
  injection Ha as <-. discriminate.
Qed.

Lemma pow_raise (t : R) (n : Z) (e : exn) :
  Float.pow t n = Raise e -> e <> AssertionError.
Proof.
  unfold Float.pow. destruct (Req_dec_T t 0); [| discriminate].
  destruct (n <? 0)%Z; [| discriminate]. intros H. injection H as <-. discriminate.
Qed.

Lemma richardson_cols_raise (t : R) (base_pow : Z) (table : list (list (list R)))
    (row_ind todo col_ind : nat) (newrow : list (list R)) (e : exn) :
  richardson_cols t base_pow table row_ind todo col_ind newrow = Raise e ->
  e <> AssertionError.
Proof.
  revert col_ind newrow. induction todo as [| todo IH]; intros col_ind newrow;
    cbn [richardson_cols]; [discriminate |].
  destruct (Float.pow t _) as [tn |] eqn:Ep; cbn [bind];
    [| intros H; injection H as <-; exact (pow_raise _ _ _ Ep)].
  destruct (index newrow _) as [a |] eqn:Ea; cbn [bind];
    [| intros H; injection H as <-; rewrite (index_error _ _ _ Ea); discriminate].
  destruct (index table _) as [prev |] eqn:Et; cbn [bind];
    [| intros H; injection H as <-; rewrite (index_error _ _ _ Et); discriminate].
  destruct (index prev _) as [b |] eqn:Eb; cbn [bind];
    [| intros H; injection H as <-; rewrite (index_error _ _ _ Eb); discriminate].
  cbn [fal_sub fal_div fal_scale FloatArrayLike_array].
  destruct (array_sub _ b) as [d |] eqn:Ed; cbn [bind];
    [| intros H; injection H as <-; exact (array_sub_raise _ _ _ Ed)].
  destruct (mapM _ d) as [r |] eqn:Er; cbn [bind];
    [| intros H; injection H as <-; exact (array_div_raise _ _ _ Er)].
  apply IH.
Qed.

Lemma richardson_rows_raise (estimates : list (list R)) (t : R) (base_pow : Z)
    (todo row_ind : nat) (table : list (list (list R))) (e : exn) :
  richardson_rows estimates t base_pow todo row_ind table = Raise e ->
  e <> AssertionError.
Proof.
  revert row_ind table. induction todo as [| todo IH]; intros row_ind table;
    cbn [richardson_rows]; [discriminate |].
  destruct (index estimates _) as [e0 |] eqn:Ee; cbn [bind];
    [| intros H; injection H as <-; rewrite (index_error _ _ _ Ee); discriminate].
  destruct (richardson_cols _ _ _ _ _ _ _) as [newrow |] eqn:Ec; cbn [bind];
    [| intros H; injection H as <-; exact (richardson_cols_raise _ _ _ _ _ _ _ _ Ec)].
  apply IH.
Qed.

Lemma richardson_raise (estimates : list (list R)) (t : R) (base_pow : Z)
    (return_table : bool) (e : exn) :
  richardson estimates t base_pow return_table = Raise e -> e <> AssertionError.
Proof.
  unfold richardson.
  destruct (richardson_rows _ _ _ _ _ _) as [table |] eqn:Er; cbn [bind];
    [| intros H; injection H as <-; exact (richardson_rows_raise _ _ _ _ _ _ _ Er)].
  destruct return_table; [discriminate |].
  destruct (index table _) as [last_row |] eqn:El; cbn [bind];
    [| intros H; injection H as <-; rewrite (index_error _ _ _ El); discriminate].
  destruct (index last_row _) as [apex |] eqn:Ea; cbn [bind];
    [discriminate |].
  intros H; injection H as <-; rewrite (index_error _ _ _ Ea); discriminate.
Qed.

(** *** The extrapolation of arrays returns

    On arrays of one length, for a ratio above 1 and a positive power,
    every row of the table is computed. *)

Lemma every_length {A : Type} (u : nat) :
  (1 <= u)%nat ->
  forall (m : nat) (l : list A) (fuel : nat),
    length l = (m * u + 1)%nat -> (m + 1 <= fuel)%nat ->
    length (Np.every u fuel l) = (m + 1)%nat.
Proof.
  intros Hu. induction m as [| m IH]; intros l fuel Hl Hf.
  - destruct fuel as [| fuel]; [lia |].
    destruct l as [| x [| y l]]; cbn in Hl; try lia.
    cbn [Np.every]. destruct u as [| u]; [lia |].
    cbn [skipn]. rewrite skipn_nil. destruct fuel; reflexivity.
  - destruct fuel as [| fuel]; [lia |].
    destruct l as [| x l]; [cbn in Hl; lia |].
    cbn [Np.every length].
    rewrite (IH (skipn u (x :: l)) fuel); [lia | | lia].
    rewrite length_skipn. cbn [length] in *. lia.
Qed.

Lemma stride_length {A : Type} (l : list A) (n u : nat) :
  (1 <= u)%nat -> length l = (n * u)%nat ->
  length (Np.stride (u - 1) u l) = n.
Proof.
  intros Hu Hl. unfold Np.stride. destruct n as [| n].
  - destruct l; [reflexivity | discriminate].
  - rewrite (every_length u Hu n); [lia | | nia].
    rewrite length_skipn. nia.
Qed.

Lemma select_ok {A : Type} (mask : list bool) (a : list A) :
  length mask = length a ->
  exists r, Np.select mask a = Ok r
            /\ length r = length (filter (fun b => b) mask).
Proof.
  revert a. induction mask as [| b mask IH]; intros [| x a] H; try discriminate.
  - exists []. split; reflexivity.
  - injection H as H. destruct (IH a H) as [r [E L]].
    cbn [Np.select]. rewrite E. cbn [bind]. eexists. split; [reflexivity |].
    destruct b; cbn [filter length]; rewrite L; reflexivity.
Qed.

Lemma array_sub_ok (x y : list R) :
  length x = length y ->
  exists d, array_sub x y = Ok d /\ length d = length x.
Proof.
  revert y. induction x as [| a x IH]; intros [| b y] H; try discriminate.
  - exists []. split; reflexivity.
  - injection H as H. destruct (IH y H) as [d [E L]].
    cbn [array_sub]. rewrite E. cbn [bind]. eexists. split; [reflexivity |].
    cbn [length]. rewrite L. reflexivity.
Qed.

Lemma array_div_ok (x : list R) (c : R) :
  c <> 0 ->
  exists r, mapM (fun a => Float.np_div a c) x = Ok r /\ length r = length x.
Proof.
  intros Hc. exists (map (fun a => a / c) x). split; [| apply length_map].
  apply mapM_ok_map. intros a _. apply np_div_ok. exact Hc.
Qed.

Lemma richardson_cols_ok (t : R) (base_pow : Z) (c : nat)
    (table : list (list (list R))) (row_ind : nat) :
  1 < t -> (0 < base_pow)%Z -> last_row_ok c row_ind table ->
  forall (todo col_ind : nat) (newrow : list (list R)),
    (1 <= col_ind)%nat -> (col_ind + todo = row_ind + 1)%nat ->
    length newrow = col_ind -> Forall (fun a => length a = c) newrow ->
    exists nr, richardson_cols t base_pow table row_ind todo col_ind newrow = Ok nr
               /\ length nr = (row_ind + 1)%nat
               /\ Forall (fun a => length a = c) nr.
Proof.
  intros Ht Hp Hlast. induction todo as [| todo IH]; intros col_ind newrow H1 Hsum Hlen Hall.
  - exists newrow. split; [reflexivity |]. split; [lia | exact Hall].
  - destruct Hlast as [H0 | [Htab [Hprev Hprevc]]]; [lia |].
    cbn [richardson_cols].
    rewrite pow_ok by lra. cbn [bind].
    replace (Z.of_nat col_ind - 1)%Z with (Z.of_nat (col_ind - 1)) by lia.
    rewrite (index_nat newrow (col_ind - 1) []) by lia. cbn [bind].
    replace (Z.of_nat row_ind - 1)%Z with (Z.of_nat (row_ind - 1)) by lia.
    rewrite (index_nat table (row_ind - 1) []) by exact Htab. cbn [bind].
    rewrite (index_nat (nth (row_ind - 1) table []) (col_ind - 1) []) by lia.
    cbn [bind fal_sub fal_div fal_scale FloatArrayLike_array].
    assert (La : length (nth (col_ind - 1) newrow []) = c).
    { apply (proj1 (Forall_forall _ _) Hall). apply nth_In. lia. }
    assert (Lb : length (nth (col_ind - 1) (nth (row_ind - 1) table []) []) = c).
    { apply (proj1 (Forall_forall _ _) Hprevc). apply nth_In. lia. }
    destruct (array_sub_ok
                (map (Rmult (powerRZ t (Z.of_nat col_ind * base_pow)))
                     (nth (col_ind - 1) newrow []))
                (nth (col_ind - 1) (nth (row_ind - 1) table []) []))
      as [d [Ed Ld]].
    { rewrite length_map. lia. }
    rewrite Ed. cbn [bind].
    assert (Htn : 1 < powerRZ t (Z.of_nat col_ind * base_pow))
      by (apply powerRZ_gt_1; [exact Ht | nia]).
    destruct (array_div_ok d (powerRZ t (Z.of_nat col_ind * base_pow) - 1))
      as [r [Er Lr]]; [lra |].
    rewrite Er. cbn [bind].
    apply IH; [lia | lia | rewrite length_app; cbn [length]; lia |].
    apply Forall_app. split; [exact Hall |].
    constructor; [| constructor]. rewrite Lr, Ld, length_map. exact La.
Qed.

Lemma richardson_rows_ok (estimates : list (list R)) (t : R) (base_pow : Z)
    (c : nat) :
  1 < t -> (0 < base_pow)%Z -> Forall (fun a => length a = c) estimates ->
  forall (todo row_ind : nat) (table : list (list (list R))),
    (row_ind + todo = length estimates)%nat -> length table = row_ind ->
    last_row_ok c row_ind table ->
    exists table',
      richardson_rows estimates t base_pow todo row_ind table = Ok table'
      /\ length table' = length estimates
      /\ last_row_ok c (length estimates) table'.
Proof.
  intros Ht Hp Hest. induction todo as [| todo IH]; intros row_ind table Hsum Hlen Hlast.
  - exists table. split; [reflexivity |].
    replace (length estimates) with row_ind by lia. split; assumption.
  - cbn [richardson_rows].
    rewrite (index_nat estimates row_ind []) by lia. cbn [bind].
    destruct (richardson_cols_ok t base_pow c table row_ind Ht Hp Hlast
                row_ind 1%nat [nth row_ind estimates []])
      as [nr [Enr [Lnr Cnr]]]; [lia | lia | reflexivity | |].
    { constructor; [| constructor].
      apply (proj1 (Forall_forall _ _) Hest). apply nth_In. lia. }
    rewrite Enr. cbn [bind].
    apply IH; [lia | rewrite length_app; cbn [length]; lia |].
    right. replace (S row_ind - 1)%nat with row_ind by lia.
    rewrite length_app. cbn [length].
    rewrite app_nth2 by lia. rewrite Hlen, Nat.sub_diag. cbn [nth].
    split; [lia |]. split; [lia | exact Cnr].
Qed.

Lemma richardson_arrays_ok (estimates : list (list R)) (t : R) (base_pow : Z)
    (c : nat) :
  1 < t -> (0 < base_pow)%Z -> estimates <> [] ->
  Forall (fun a => length a = c) estimates ->
  exists apex, richardson estimates t base_pow false = Ok (Apex apex)
               /\ length apex = c.
Proof.
  intros Ht Hp Hne Hest. unfold richardson.
  destruct (richardson_rows_ok estimates t base_pow c Ht Hp Hest
              (length estimates) 0%nat [] ltac:(lia) eq_refl (or_introl eq_refl))
    as [table [Et [Lt Hlast]]].
  rewrite Et. cbn [bind].
  assert (Hk : (0 < length estimates)%nat).
  { destruct estimates; [contradiction | cbn; lia]. }
  destruct Hlast as [H0 | [Htab [Hrow Hrowc]]]; [lia |].
  replace (Z.of_nat (length estimates) - 1)%Z
    with (Z.of_nat (length estimates - 1)) by lia.
  rewrite (index_nat table (length estimates - 1) []) by exact Htab.
  cbn [bind].
  rewrite (index_nat (nth (length estimates - 1) table []) (length estimates - 1) [])
    by lia.
  cbn [bind]. eexists. split; [reflexivity |].
  apply (proj1 (Forall_forall _ _) Hrowc). apply nth_In. lia.
Qed.

Section Resampling.

Variable P2xi : list R -> list R -> result (list R * list R).

Local Abbreviation _work := (_work P2xi).
Local Abbreviation _corr_hankl_richardson := (_corr_hankl_richardson P2xi).

(** For a library that pairs the wavenumbers, last first, with their radii,
    the radii [_work(ii)] leaves are the same for every [ii]. *)
Lemma work_radii (g : R -> R) (func : R -> R) (rlow rhigh : R) (n : Z) (ii : nat)
    (r xi : list R) :
  P2xi_reversed g P2xi ->
  _work func rlow rhigh n ii = Ok (r, xi) ->
  r = coarse_radii g rlow rhigh (Z.to_nat n).
Proof.
  intros HP H. unfold Corrfunc._work in H.
  assert (Hu : (1 <= 2 ^ ii)%nat).
  { pose proof (Nat.pow_nonzero 2 ii). lia. }
  set (u := (2 ^ ii)%nat) in *.
  unfold Np.logspace, Np.linspace in H.
  destruct (n * Z.of_nat u <? 0)%Z eqn:Eneg; [discriminate |].
  apply Z.ltb_ge in Eneg.
  assert (Hn : (0 <= n)%Z) by nia.
  cbn [bind andb] in H.
  replace (Z.to_nat (n * Z.of_nat u)) with (Z.to_nat n * u)%nat in H
    by (rewrite Z2Nat.inj_mul, Nat2Z.id by lia; reflexivity).
  set (N := Z.to_nat n) in *.
  rewrite map_map in H.
  match type of H with
  | context [P2xi ?k ?pk] =>
      destruct (P2xi k pk) as [[r' xi'] |] eqn:EP; [| discriminate]
  end.
  cbn [bind] in H. injection H as Hr _. subst r.
  rewrite (HP _ _ _ _ EP), map_map.
  rewrite stride_rev_samples by exact Hu.
  unfold coarse_radii. apply map_ext_in. intros m Hm. apply in_seq in Hm.
  assert (HN : (0 < N)%nat) by lia.
  assert (HNu : (0 < N * u)%nat) by nia.
  destruct (0 <? N * u)%nat eqn:E; [| apply Nat.ltb_ge in E; lia].
  f_equal. f_equal. f_equal.
  rewrite !mult_INR.
  assert (INR N <> 0) by (apply not_0_INR; lia).
  assert (INR u <> 0) by (apply not_0_INR; lia).
  field. split; assumption.
Qed.

(** An array is close to itself. *)
Lemma allclose_refl (a : list R) : Np.allclose a a = Ok true.
Proof.
  induction a as [| x a IH]; [reflexivity |].
  cbn [Np.allclose]. rewrite IH. cbn [bind]. unfold Np.isclose.
  destruct (Rle_dec _ _) as [| C]; [reflexivity |].
  exfalso. apply C. replace (x - x) with 0 by ring. rewrite Rabs_R0.
  pose proof (Rabs_pos x). unfold Np.atol, Np.rtol. nra.
Qed.

(** The check passes on radii that all equal the first ones. *)
Lemma assert_same_radii_ok (rs0 : list R) (rs : list (list R)) :
  Forall (fun r => r = rs0) rs -> assert_same_radii rs0 rs = Ok tt.
Proof.
  induction 1 as [| r rs Hr _ IH]; [reflexivity |].
  cbn [assert_same_radii]. rewrite Hr, allclose_refl. cbn [bind]. exact IH.
Qed.

(** C7.  For a library that pairs the wavenumbers, last first, with their
    radii ([P2xi_reversed g P2xi], the convention of FFTLog with
    [g k = 1 / k]), whatever the power spectrum, the bounds, the padding,
    the number of samples per decade and [richardson_n]: once the
    transforms at the upsampling factors [2^0 .. 2^(richardson_n - 1)]
    have returned, the decimated radii of every factor equal those of the
    first one element for element, and the check
    [assert np.allclose(r, rs[0])] passes, so that
    [_corr_hankl_richardson] raises no [AssertionError]. *)
Theorem upsampled_radii_match (g : R -> R) (func : R -> R)
    (logrmin logrmax : R) (samples_per_decade richardson_n : Z)
    (pad_low pad_high : R) (works : list (list R * list R))
    (rs0 xi0 : list R) (rest : list (list R * list R)) :
  P2xi_reversed g P2xi ->
  mapM (_work func (logrmin - pad_low) (logrmax + pad_high)
          (Float.int (IZR samples_per_decade
                      * (logrmax + pad_high - (logrmin - pad_low)))))
       (seq 0 (Z.to_nat richardson_n)) = Ok works ->
  works = (rs0, xi0) :: rest ->
  Forall (fun w => fst w = rs0) rest
  /\ assert_same_radii rs0 (map fst rest) = Ok tt
  /\ _corr_hankl_richardson func logrmin logrmax samples_per_decade richardson_n
       pad_low pad_high <> Raise AssertionError.
Proof.
  intros HP Hw ->.
  assert (Hall : Forall (fun w : list R * list R =>
                           fst w = coarse_radii g (logrmin - pad_low)
                                     (logrmax + pad_high)
                                     (Z.to_nat
                                        (Float.int
                                           (IZR samples_per_decade
                                            * (logrmax + pad_high
                                               - (logrmin - pad_low))))))
                        ((rs0, xi0) :: rest)).
  { apply (mapM_Forall _ _ _ _ Hw). intros ii [r xi] _ E.
    exact (work_radii g func _ _ _ ii r xi HP E). }
  inversion Hall as [| w ws H0 Hrest]; subst. cbn [fst] in H0.
  assert (Hsame : Forall (fun w : list R * list R => fst w = rs0) rest).
  { apply Forall_forall. intros w Hin.
    rewrite H0. exact (proj1 (Forall_forall _ _) Hrest w Hin). }
  assert (Hcheck : assert_same_radii rs0 (map fst rest) = Ok tt).
  { apply assert_same_radii_ok. apply Forall_forall. intros r Hin.
    apply in_map_iff in Hin. destruct Hin as [w [<- Hin]].
    exact (proj1 (Forall_forall _ _) Hsame w Hin). }
  split; [exact Hsame |]. split; [exact Hcheck |].
  unfold Corrfunc._corr_hankl_richardson. rewrite Hw. cbn [bind].
  rewrite Hcheck. cbn [bind].
  destruct (Np.select _ rs0) as [r |] eqn:Er; cbn [bind];
    [| rewrite (select_raise _ _ _ Er); discriminate].
  destruct (mapM (Np.select _) _) as [estimates |] eqn:Ee; cbn [bind].
  2:{ destruct (mapM_raise _ _ _ Ee) as [x [_ Hx]].
      rewrite (select_raise _ _ _ Hx). discriminate. }
  destruct (richardson estimates 2 1 false) as [[tbl | apex] |] eqn:ER;
    cbn [bind]; try discriminate.
  intros H. injection H as ->. exact (richardson_raise _ _ _ _ _ ER eq_refl).
Qed.

(** With a transform that returns on every grid, every [_work(ii)] returns
    as soon as the number of samples is not negative. *)
Lemma work_returns (func : R -> R) (rlow rhigh : R) (n : Z) (ii : nat) :
  (forall k pk, exists rx, P2xi k pk = Ok rx) -> (0 <= n)%Z ->
  exists w, _work func rlow rhigh n ii = Ok w.
Proof.
  intros HP Hn. unfold Corrfunc._work.
  unfold Np.logspace, Np.linspace.
  destruct (n * Z.of_nat (2 ^ ii) <? 0)%Z eqn:E; [apply Z.ltb_lt in E; nia |].
  cbn [bind].
  match goal with
  | |- context [P2xi ?k ?pk] => destruct (HP k pk) as [[r xi] ->]
  end.
  cbn [bind]. eexists. reflexivity.
Qed.

(** With a transform that returns as many values as it was given
    wavenumbers, [_work(ii)] returns the coarse radii and as many values. *)
Lemma work_ok (g : R -> R) (func : R -> R) (rlow rhigh : R) (n : Z) (ii : nat) :
  P2xi_reversed g P2xi -> P2xi_total P2xi -> (0 <= n)%Z ->
  exists xit,
    _work func rlow rhigh n ii = Ok (coarse_radii g rlow rhigh (Z.to_nat n), xit)
    /\ length xit = Z.to_nat n.
Proof.
  intros HP Htot Hn.
  assert (Hu : (1 <= 2 ^ ii)%nat).
  { pose proof (Nat.pow_nonzero 2 ii). lia. }
  destruct (logspace_ok (- rhigh) (- rlow) (n * Z.of_nat (2 ^ ii)) false)
    as [k [Ek [Lk _]]]; [nia |].
  destruct (Htot k (map func k) (length_map _ _)) as [r [xi [EP Lxi]]].
  assert (E : _work func rlow rhigh n ii
              = Ok (Np.stride (2 ^ ii - 1) (2 ^ ii) r,
                    Np.stride (2 ^ ii - 1) (2 ^ ii) xi)).
  { unfold Corrfunc._work. rewrite Ek. cbn [bind]. rewrite EP. reflexivity. }
  rewrite E, (work_radii g func rlow rhigh n ii _ _ HP E).
  eexists. split; [reflexivity |].
  apply stride_length; [exact Hu |].
  rewrite Lxi, Lk, Z2Nat.inj_mul, Nat2Z.id by lia. reflexivity.
Qed.

(** The whole large-r transform returns: for at least one upsampling
    factor and a number of samples that is not negative. *)
Lemma corr_hankl_richardson_returns (g : R -> R) (func : R -> R)
    (logrmin logrmax : R) (samples_per_decade richardson_n : Z)
    (pad_low pad_high : R) :
  P2xi_reversed g P2xi -> P2xi_total P2xi ->
  0 <= IZR samples_per_decade * (logrmax + pad_high - (logrmin - pad_low)) ->
  (1 <= richardson_n)%Z ->
  exists r xi,
    _corr_hankl_richardson func logrmin logrmax samples_per_decade richardson_n
      pad_low pad_high = Ok (r, xi).
Proof.
  intros HP Htot Hn Hrn. unfold Corrfunc._corr_hankl_richardson.
  set (n := Float.int (IZR samples_per_decade
                       * (logrmax + pad_high - (logrmin - pad_low)))).
  assert (Hn0 : (0 <= n)%Z) by (apply int_nonneg; exact Hn).
  set (rs := coarse_radii g (logrmin - pad_low) (logrmax + pad_high) (Z.to_nat n)).
  destruct (mapM_exists
              (_work func (logrmin - pad_low) (logrmax + pad_high) n)
              (seq 0 (Z.to_nat richardson_n))) as [works Hw].
  { intros ii _.
    destruct (work_ok g func (logrmin - pad_low) (logrmax + pad_high) n ii
                HP Htot Hn0) as [xit [E _]].
    eexists. exact E. }
  assert (Hall : Forall (fun w : list R * list R =>
                           fst w = rs /\ length (snd w) = Z.to_nat n) works).
  { apply (mapM_Forall _ _ _ _ Hw). intros ii w _ E.
    destruct (work_ok g func (logrmin - pad_low) (logrmax + pad_high) n ii
                HP Htot Hn0) as [xit [E' L]].
    rewrite E' in E. injection E as <-. split; [reflexivity | exact L]. }
  pose proof (mapM_length _ _ _ Hw) as Lw. rewrite length_seq in Lw.
  rewrite Hw. cbn [bind].
  destruct works as [| [rs0 xi0] rest]; [cbn in Lw; lia |].
  assert (Hrs0 : rs0 = rs).
  { inversion Hall as [| ? ? [H0 _] _]; subst. exact H0. }
  rewrite assert_same_radii_ok.
  2:{ apply Forall_forall. intros r Hin. apply in_map_iff in Hin.
      destruct Hin as [w [<- Hin]].
      inversion Hall as [| ? ? _ Hrest]; subst.
      exact (proj1 (proj1 (Forall_forall _ _) Hrest w Hin)). }
  cbn [bind].
  set (mask := map (Np.log10_between logrmin logrmax) rs0).
  assert (Lrs : length rs0 = Z.to_nat n).
  { rewrite Hrs0. unfold rs, coarse_radii. rewrite length_map, length_seq.
    reflexivity. }
  destruct (select_ok mask rs0) as [r [Er _]];
    [unfold mask; apply length_map |].
  rewrite Er. cbn [bind].
  destruct (mapM_exists (Np.select mask) (map snd ((rs0, xi0) :: rest)))
    as [estimates He].
  { intros x Hx. apply in_map_iff in Hx. destruct Hx as [w [<- Hin]].
    destruct (select_ok mask (snd w)) as [s [Es _]]; [| exists s; exact Es].
    unfold mask. rewrite length_map, Lrs.
    symmetry. exact (proj2 (proj1 (Forall_forall _ _) Hall w Hin)). }
  rewrite He. cbn [bind].
  destruct (richardson_arrays_ok estimates 2 1
              (length (filter (fun b => b) mask))) as [apex [Ea _]];
    [lra | lia | | |].
  - pose proof (mapM_length _ _ _ He) as Le. cbn [map length] in Le.
    intros ->. discriminate Le.
  - apply (mapM_Forall _ _ _ _ He). intros x s Hx Es.
    apply in_map_iff in Hx. destruct Hx as [w [<- Hin]].
    destruct (select_ok mask (snd w)) as [s' [Es' Ls]].
    { unfold mask. rewrite length_map, Lrs.
      symmetry. exact (proj2 (proj1 (Forall_forall _ _) Hall w Hin)). }
    rewrite Es' in Es. injection Es as <-. exact Ls.
  - rewrite Ea. cbn [bind]. eexists. eexists. reflexivity.
Qed.

End Resampling.

Lemma reciprocal_grid_reversed : P2xi_reversed Rinv reciprocal_grid.
Proof. intros k pk r xi H. injection H as <- _. reflexivity. Qed.

Lemma reciprocal_grid_total : P2xi_total reciprocal_grid.
Proof.
  intros k pk L. eexists. eexists. split; [reflexivity |].
  rewrite length_rev. exact L.
Qed.

(** The statement applied to a library that returns the reciprocals of the
    wavenumbers, last first: two upsampling factors, a flat spectrum.  The
    transform returns as well. *)
Lemma upsampled_radii_match_witness :
  (exists rs0 xi0 rest,
     mapM (_work reciprocal_grid (fun _ => 1) (0 - 2) (1 + 1)
             (Float.int (IZR 2 * (1 + 1 - (0 - 2)))))
          (seq 0 (Z.to_nat 2)) = Ok ((rs0, xi0) :: rest)
     /\ length rest = 1%nat
     /\ Forall (fun w => fst w = rs0) rest
     /\ assert_same_radii rs0 (map fst rest) = Ok tt
     /\ _corr_hankl_richardson reciprocal_grid (fun _ => 1) 0 1 2 2 2 1
        <> Raise AssertionError)
  /\ exists r xi,
       _corr_hankl_richardson reciprocal_grid (fun _ => 1) 0 1 2 2 2 1
       = Ok (r, xi).
Proof.
  split.
  - destruct (mapM_exists
                (_work reciprocal_grid (fun _ => 1) (0 - 2) (1 + 1)
                   (Float.int (IZR 2 * (1 + 1 - (0 - 2)))))
                (seq 0 (Z.to_nat 2))) as [works Hw].
    { intros ii _. apply work_returns.
      - intros k pk. eexists. reflexivity.
      - apply int_nonneg. lra. }
    pose proof (mapM_length _ _ _ Hw) as Hlen.
    destruct works as [| [rs0 xi0] [| w1 [| w2 rest]]]; try discriminate Hlen.
    exists rs0, xi0, [w1]. split; [exact Hw |]. split; [reflexivity |].
    exact (upsampled_radii_match reciprocal_grid Rinv (fun _ => 1) 0 1 2 2 2 1
             _ rs0 xi0 [w1] reciprocal_grid_reversed Hw eq_refl).
  - apply (corr_hankl_richardson_returns reciprocal_grid Rinv);
      [exact reciprocal_grid_reversed | exact reciprocal_grid_total | lra | lia].
Defined.

End ResamplingFacts.

Module PsToCorrFacts.

Import Spec.
Import PyFacts ArrayFacts SortedFacts ResamplingFacts.

Section PsToCorr.

Variable romb_weights : nat -> list R.
Variable P2xi : list R -> list R -> result (list R * list R).
Variable hankel_transform : R -> (R -> R) -> list R -> result (list R).

Local Abbreviation _corr_direct := (_corr_direct romb_weights).
Local Abbreviation _corr_hankel := (_corr_hankel hankel_transform).
Local Abbreviation _work := (_work P2xi).
Local Abbreviation _corr_hankl_richardson := (_corr_hankl_richardson P2xi).
Local Abbreviation ps_to_corr := (ps_to_corr romb_weights P2xi hankel_transform).

(** The grid the [hankel] path tabulates. *)
Lemma corr_hankel_radii (func : R -> R) (logrmin logrmax : R)
    (samples_per_decade : Z) (h : R) (r F : list R) :
  logrmin < logrmax ->
  _corr_hankel func logrmin logrmax samples_per_decade h = Ok (r, F) ->
  increasing r /\ forall v, In v r -> Rpower 10 logrmin <= v.
Proof.
  intros Hd H. unfold Corrfunc._corr_hankel in H.
  destruct (Float.div PI h); [| discriminate]. cbn [bind] in H.
  destruct (Np.logspace _ _ _ true) as [r' |] eqn:Er; [| discriminate].
  cbn [bind] in H.
  destruct (hankel_transform h func r'); [| discriminate]. cbn [bind] in H.
  injection H as <- _.
  destruct (logspace_closed _ _ _ _ Hd Er) as [Hs Hb].
  split; [exact Hs | intros v Hv; apply (Hb v Hv)].
Qed.

(** The grid the [hankl] path keeps. *)
Lemma corr_hankl_richardson_radii (func : R -> R) (logrmin logrmax : R)
    (samples_per_decade richardson_n : Z) (pad_low pad_high : R) (r xi : list R) :
  P2xi_increasing P2xi ->
  logrmin < logrmax -> 0 <= pad_low -> 0 <= pad_high ->
  _corr_hankl_richardson func logrmin logrmax samples_per_decade richardson_n
    pad_low pad_high = Ok (r, xi) ->
  increasing r /\ forall v, In v r -> Rpower 10 logrmin <= v.
Proof.
  intros HP Hd Hlo Hhi H. unfold Corrfunc._corr_hankl_richardson in H.
  destruct (mapM _ (seq 0 (Z.to_nat richardson_n))) as [works |] eqn:Ew;
    [| discriminate].
  cbn [bind] in H. destruct works as [| [rs0 e0] rest]; [discriminate |].
  destruct (assert_same_radii rs0 (map fst rest)); [| discriminate].
  cbn [bind] in H.
  destruct (Np.select _ rs0) as [r' |] eqn:Esel; [| discriminate].
  cbn [bind] in H.
  destruct (mapM _ (map snd _)); [| discriminate]. cbn [bind] in H.
  destruct (richardson _ 2 1 false) as [[tbl | apex] |]; try discriminate.
  cbn [bind] in H. injection H as <- _.
  assert (Hrs0 : increasing rs0).
  { destruct (Z.to_nat richardson_n) as [| N]; [discriminate |].
    cbn [seq mapM] in Ew.
    destruct (_work func (logrmin - pad_low) (logrmax + pad_high) _ 0)
      as [[rs0' e0'] |] eqn:E0; [| discriminate].
    cbn [bind] in Ew. destruct (mapM _ (seq 1 N)); [| discriminate].
    cbn [bind] in Ew. injection Ew as -> -> _.
    unfold Corrfunc._work in E0.
    destruct (Np.logspace _ _ _ false) as [k |] eqn:Ek; [| discriminate].
    cbn [bind] in E0.
    destruct (P2xi k (map func k)) as [[r0 xi0] |] eqn:EP; [| discriminate].
    cbn [bind] in E0. injection E0 as <- _.
    apply stride_increasing; [cbn; lia |].
    assert (Hpad : - (logrmax + pad_high) < - (logrmin - pad_low)) by lra.
    destruct (logspace_open _ _ _ _ Hpad Ek) as [Hks Hkb].
    apply (HP k (map func k) r0 xi0); [| exact Hks | exact EP].
    apply Forall_forall. intros v Hv. destruct (Hkb v Hv) as [Hv0 _].
    pose proof (Rpower_10_pos (- (logrmax + pad_high))). lra. }
  split.
  - apply (select_increasing _ _ _ Esel Hrs0).
  - intros v Hv. destruct (select_In _ _ _ Esel v Hv) as [_ Hmask].
    apply (log10_between_lower _ _ _ Hmask).
Qed.

(** C9.  For [minlogr < switchlogr < maxlogr], whichever large-r transform
    is chosen, the radii [ps_to_corr] returns start with the zero lag and
    are strictly increasing across the point where the two regimes join.
    The increase of hankl's own radii is taken from the library
    ([P2xi_increasing P2xi]), the padding is not negative. *)
Theorem ps_to_corr_radii_increasing (psfunc : R -> R)
    (minlogr maxlogr switchlogr : R) (samples_per_decade : Z) (fftlog : bool)
    (kw : kwargs) (ra Fr : list R) :
  P2xi_increasing P2xi ->
  minlogr < switchlogr < maxlogr -> (1 <= samples_per_decade)%Z ->
  0 <= get_default 2 (kw_pad_low kw) -> 0 <= get_default 1 (kw_pad_high kw) ->
  ps_to_corr psfunc minlogr maxlogr switchlogr samples_per_decade fftlog kw
  = Ok (ra, Fr) ->
  hd_error ra = Some 0 /\ increasing ra.
Proof.
  intros HP [Hlo Hhi] _ Hpl Hph H. unfold Corrfunc.ps_to_corr in H.
  (* the direct integration plays no part in the radii *)
  generalize dependent (_corr_direct psfunc (-5) 3). intros direct H.
  destruct (Np.logspace minlogr switchlogr _ false) as [rlow |] eqn:Elow;
    [| discriminate].
  cbn [bind] in H.
  match type of H with
  | bind ?high _ = _ => destruct high as [[rhigh Fhigh] |] eqn:Ehigh; [| discriminate]
  end.
  cbn [bind] in H.
  destruct (direct (0 :: rlow) 16%Z); [| discriminate].
  cbn [bind] in H. injection H as <- _.
  split; [reflexivity |].
  destruct (logspace_open _ _ _ _ Hlo Elow) as [Hls Hlb].
  assert (Hh : increasing rhigh /\ forall v, In v rhigh -> Rpower 10 switchlogr <= v).
  { destruct fftlog.
    - destruct (kw_h kw); [discriminate |].
      exact (corr_hankl_richardson_radii psfunc switchlogr maxlogr
               samples_per_decade _ _ _ rhigh Fhigh HP Hhi Hpl Hph Ehigh).
    - destruct (kw_richardson_n kw), (kw_pad_low kw), (kw_pad_high kw);
        try discriminate.
      exact (corr_hankel_radii psfunc switchlogr maxlogr samples_per_decade _
               rhigh Fhigh Hhi Ehigh). }
  destruct Hh as [Hhs Hhb].
  apply (increasing_app [0] (rlow ++ rhigh)).
  - constructor; [constructor | constructor].
  - apply increasing_app; [exact Hls | exact Hhs |].
    intros x y Hx Hy. destruct (Hlb x Hx) as [_ Hx']. specialize (Hhb y Hy). lra.
  - intros x y [<- | []] Hy. apply in_app_or in Hy.
    destruct Hy as [Hy | Hy].
    + destruct (Hlb y Hy) as [Hy' _]. pose proof (Rpower_10_pos minlogr). lra.
    + specialize (Hhb y Hy). pose proof (Rpower_10_pos switchlogr). lra.
Qed.

(** *** When the radii are returned *)

Lemma romb_samples_pow2 (k : nat) : romb_samples_ok (2 ^ k + 1) = true.
Proof.
  unfold romb_samples_ok. apply existsb_exists. exists k. split.
  - apply in_seq. pose proof (Nat.pow_gt_lin_r 2 k ltac:(lia)). lia.
  - apply Nat.eqb_refl.
Qed.

Lemma shift_samples (k : Z) :
  (0 <= k)%Z -> Z.to_nat (Z.shiftl 1 k + 1) = (2 ^ Z.to_nat k + 1)%nat.
Proof.
  intros Hk. rewrite Z.shiftl_1_l.
  assert (H2 : (0 <= 2 ^ k)%Z) by (apply Z.pow_nonneg; lia).
  rewrite Z2Nat.inj_add by lia. rewrite Z2Nat.inj_pow by lia. reflexivity.
Qed.

Lemma corr_direct_ok (psfunc : R -> R) (log_k0 log_k1 : R) (r : list R) (k : Z) :
  (0 <= k)%Z -> exists F, _corr_direct psfunc log_k0 log_k1 r k = Ok F
                          /\ length F = length r.
Proof.
  intros Hk. unfold Corrfunc._corr_direct.
  destruct (k <? 0)%Z eqn:E; [apply Z.ltb_lt in E; lia |].
  assert (Hpos : (0 <= Z.shiftl 1 k + 1)%Z).
  { rewrite Z.shiftl_1_l. pose proof (Z.pow_nonneg 2 k ltac:(lia)). lia. }
  destruct (logspace_ok log_k0 log_k1 _ true Hpos) as [ka [Eka [Lka Pka]]].
  rewrite Eka. cbn [bind]. rewrite shift_samples in Lka by exact Hk.
  assert (H1 : (1 <= 2 ^ Z.to_nat k)%nat).
  { pose proof (Nat.pow_nonzero 2 (Z.to_nat k) ltac:(lia)). lia. }
  change (index ka 1) with (index ka (Z.of_nat 1)).
  rewrite (index_nat ka 1 0) by lia. cbn [bind].
  change (index ka 0) with (index ka (Z.of_nat 0)).
  rewrite (index_nat ka 0 0) by lia. cbn [bind].
  assert (H0 : nth 0 ka 0 <> 0).
  { rewrite Forall_forall in Pka.
    assert (0 < nth 0 ka 0) by (apply Pka; apply nth_In; lia). lra. }
  rewrite FloatFacts.np_div_ok by exact H0. cbn [bind].
  match goal with
  | |- exists F, mapM ?f r = Ok F /\ _ =>
      destruct (mapM_exists f r) as [F EF]
  end.
  { intros ri _. unfold Corrfunc.romb. rewrite length_map, Lka, romb_samples_pow2.
    cbn [bind]. eexists; reflexivity. }
  exists F. split; [exact EF | exact (mapM_length _ _ _ EF)].
Qed.

(** With the [hankel] path and no keyword argument, the radii are returned
    as soon as the transform of the [hankel] package returns. *)
Lemma ps_to_corr_hankel_returns (psfunc : R -> R)
    (minlogr maxlogr switchlogr : R) (samples_per_decade : Z) :
  minlogr < switchlogr < maxlogr -> (1 <= samples_per_decade)%Z ->
  (forall h r, exists F, hankel_transform h psfunc r = Ok F) ->
  exists ra Fr,
    ps_to_corr psfunc minlogr maxlogr switchlogr samples_per_decade false no_kwargs
    = Ok (ra, Fr).
Proof.
  intros [Hlo Hhi] Hs Hht. unfold Corrfunc.ps_to_corr.
  assert (Hspd : 1 <= IZR samples_per_decade) by (apply IZR_le; exact Hs).
  destruct (logspace_ok minlogr switchlogr
              (Float.int ((switchlogr - minlogr) * IZR samples_per_decade)) false)
    as [rlow [Elow _]].
  { apply int_nonneg. nra. }
  rewrite Elow. cbn [bind no_kwargs kw_richardson_n kw_pad_low kw_pad_high kw_h
                     get_default].
  unfold Corrfunc._corr_hankel.
  rewrite FloatFacts.div_ok by lra. cbn [bind].
  destruct (logspace_ok switchlogr maxlogr
              (Float.int ((maxlogr - switchlogr) * IZR samples_per_decade) + 1) true)
    as [rhigh [Ehigh _]].
  { pose proof (int_nonneg ((maxlogr - switchlogr) * IZR samples_per_decade)
                  ltac:(nra)). lia. }
  rewrite Ehigh. cbn [bind].
  destruct (Hht (1 / 100000) rhigh) as [F EF]. rewrite EF. cbn [bind].
  destruct (corr_direct_ok psfunc (-5) 3 (0 :: rlow) 16 ltac:(lia)) as [Flow [EFl _]].
  rewrite EFl. cbn [bind]. eexists. eexists. reflexivity.
Qed.

(** With the default [fftlog] path and no keyword argument, the radii are
    returned as soon as the transform of hankl returns, on the grid that
    belongs to the wavenumbers. *)
Lemma ps_to_corr_hankl_returns (g : R -> R) (psfunc : R -> R)
    (minlogr maxlogr switchlogr : R) (samples_per_decade : Z) :
  minlogr < switchlogr < maxlogr -> (1 <= samples_per_decade)%Z ->
  P2xi_reversed g P2xi -> P2xi_total P2xi ->
  exists ra Fr,
    ps_to_corr psfunc minlogr maxlogr switchlogr samples_per_decade true no_kwargs
    = Ok (ra, Fr).
Proof.
  intros [Hlo Hhi] Hs HP Htot. unfold Corrfunc.ps_to_corr.
  assert (Hspd : 1 <= IZR samples_per_decade) by (apply IZR_le; exact Hs).
  destruct (logspace_ok minlogr switchlogr
              (Float.int ((switchlogr - minlogr) * IZR samples_per_decade)) false)
    as [rlow [Elow _]].
  { apply int_nonneg. nra. }
  rewrite Elow. cbn [bind no_kwargs kw_richardson_n kw_pad_low kw_pad_high kw_h
                     get_default].
  destruct (corr_hankl_richardson_returns P2xi g psfunc switchlogr maxlogr
              samples_per_decade 6 2 1 HP Htot) as [rhigh [Fhigh Ehigh]];
    [nra | lia |].
  rewrite Ehigh. cbn [bind].
  destruct (corr_direct_ok psfunc (-5) 3 (0 :: rlow) 16 ltac:(lia)) as [Flow [EFl _]].
  rewrite EFl. cbn [bind]. eexists. eexists. reflexivity.
Qed.

End PsToCorr.

Import Examples.

(** Reversing a decreasing array gives an increasing one. *)
Lemma rev_decreasing (l : list R) :
  StronglySorted (fun x y => y < x) l -> increasing (rev l).
Proof.
  induction 1 as [| a l _ IH Ha]; [constructor |].
  cbn [rev]. apply increasing_app.
  - exact IH.
  - constructor; constructor.
  - intros x y Hx Hy. apply in_rev in Hx.
    destruct Hy as [<- | []].
    exact (proj1 (Forall_forall _ _) Ha x Hx).
Qed.

(** The grid of reciprocals, last first, is increasing. *)
Lemma reciprocal_grid_increasing : P2xi_increasing reciprocal_grid.
Proof.
  intros k pk r xi Hpos Hinc H. injection H as <- _.
  apply rev_decreasing.
  induction Hinc as [| a l _ IH Ha]; [constructor |].
  inversion Hpos as [| ? ? Ha0 Hl0]; subst.
  cbn [map]. constructor; [exact (IH Hl0) |].
  apply Forall_forall. intros y Hy. apply in_map_iff in Hy.
  destruct Hy as [x [<- Hx]].
  pose proof (proj1 (Forall_forall _ _) Ha x Hx) as Hax.
  apply Rinv_lt_contravar; [| exact Hax].
  pose proof (proj1 (Forall_forall _ _) Hl0 x Hx). nra.
Qed.

(** The radii of a flat spectrum between [10^-1] and [10^2], switching at
    [10^0] to the transform of hankl (the default) or to the one of the
    [hankel] package: they are returned, start at 0 and increase. *)
Lemma ps_to_corr_radii_increasing_witness :
  (exists ra Fr,
     ps_to_corr unit_weights reciprocal_grid sampled (fun _ => 1) (-1) 2 0 10
       true no_kwargs = Ok (ra, Fr)
     /\ hd_error ra = Some 0 /\ increasing ra)
  /\ (exists ra Fr,
        ps_to_corr unit_weights reciprocal_grid sampled (fun _ => 1) (-1) 2 0 10
          false no_kwargs = Ok (ra, Fr)
        /\ hd_error ra = Some 0 /\ increasing ra).
Proof.
  assert (W : forall fftlog : bool,
             (exists ra Fr,
                ps_to_corr unit_weights reciprocal_grid sampled (fun _ => 1)
                  (-1) 2 0 10 fftlog no_kwargs = Ok (ra, Fr)) ->
             exists ra Fr,
               ps_to_corr unit_weights reciprocal_grid sampled (fun _ => 1)
                 (-1) 2 0 10 fftlog no_kwargs = Ok (ra, Fr)
               /\ hd_error ra = Some 0 /\ increasing ra).
  { intros fftlog [ra [Fr E]]. exists ra, Fr. split; [exact E |].
    apply (ps_to_corr_radii_increasing unit_weights reciprocal_grid sampled
             (fun _ => 1) (-1) 2 0 10 fftlog no_kwargs ra Fr).
    - exact reciprocal_grid_increasing.
    - lra.
    - lia.
    - cbn. lra.
    - cbn. lra.
    - exact E. }
  split; apply W.
  - apply (ps_to_corr_hankl_returns unit_weights reciprocal_grid sampled Rinv);
      [lra | lia | exact reciprocal_grid_reversed | exact reciprocal_grid_total].
  - apply ps_to_corr_hankel_returns; [lra | lia |].
    intros h r. eexists. reflexivity.
Defined.

End PsToCorrFacts.

(** * The Fingers-of-God kernel *)

Module KernelFacts.

Import Spec Examples.
Import PyFacts ArrayFacts.
Import Lss.

Lemma set_slice_length {A : Type} (start : nat) (vals l : list A) :
  length (set_slice start vals l) = length l.
Proof.
  revert start l. induction vals as [| v vals IH]; intros start l; cbn [set_slice].
  - reflexivity.
  - rewrite IH. apply set_nth_length.
Qed.

Lemma calculate_width_length (centres widths : list R) :
  _calculate_width centres = Ok widths -> length widths = length centres.
Proof.
  unfold _calculate_width. intros H.
  destruct (index centres 1); [| discriminate]. cbn [bind] in H.
  destruct (index _ 1); [| discriminate]. cbn [bind] in H.
  destruct (index centres 0); [| discriminate]. cbn [bind] in H.
  destruct (index centres (-1)); [| discriminate]. cbn [bind] in H.
  destruct (index _ (-2)); [| discriminate]. cbn [bind] in H.
  destruct (index centres (-2)); [| discriminate]. cbn [bind] in H.
  injection H as <-.
  rewrite length_map, set_nth_length.
  match goal with
  | |- length (match ?l with [] => [] | _ :: _ => _ end) = _ =>
      transitivity (length l); [destruct l; reflexivity |]
  end.
  rewrite set_slice_length. apply repeat_length.
Qed.

Lemma sinh_pos (x : R) : 0 < x -> 0 < sinh x.
Proof. intros H. rewrite <- sinh_0. apply sinh_lt. exact H. Qed.

Lemma sinhc_ok (x : R) : 0 < x -> sinhc x = Ok (sinh x / x) /\ 0 < sinh x / x.
Proof.
  intros H. unfold sinhc. rewrite FloatFacts.np_div_ok by lra. split; [reflexivity |].
  apply Rdiv_lt_0_compat; [apply sinh_pos; exact H | exact H].
Qed.

Lemma sum_pos (row : list R) : Forall (Rlt 0) row -> row <> [] -> 0 < Np.sum row.
Proof.
  intros H Hne. destruct row as [| x row]; [contradiction |].
  inversion H as [| ? ? Hx Hrow]; subst. clear H Hne. revert x Hx.
  induction Hrow as [| y row Hy _ IH]; intros x Hx.
  - rewrite sum_cons, sum_nil. lra.
  - rewrite sum_cons. specialize (IH y Hy). lra.
Qed.

(** The two tables of weights the kernel is assembled from. *)
Lemma table_ok {A B : Type} (f : A -> B -> result R) (g : A -> B -> R)
    (rows : list A) (cols : list B) :
  (forall a d, In a rows -> In d cols -> f a d = Ok (g a d) /\ 0 < g a d) ->
  mapM (fun a => mapM (fun d => f a d) cols) rows
  = Ok (map (fun a => map (g a) cols) rows)
  /\ Forall (weights (length cols)) (map (fun a => map (g a) cols) rows).
Proof.
  intros H. split.
  - apply mapM_ok_map. intros a Ha. apply mapM_ok_map. intros d Hd.
    apply (H a d Ha Hd).
  - apply Forall_forall. intros row Hrow. apply in_map_iff in Hrow.
    destruct Hrow as [a [<- Ha]]. split; [| apply length_map].
    apply Forall_forall. intros v Hv. apply in_map_iff in Hv.
    destruct Hv as [d [<- Hd]]. apply (H a d Ha Hd).
Qed.

Lemma raw_kernel_ok (a dchi chi : list R) :
  Forall (Rlt 0) a -> Forall (Rlt 0) dchi ->
  length a = length chi -> length dchi = length chi ->
  exists K, raw_kernel a dchi chi = Ok K
            /\ length K = length chi /\ Forall (weights (length chi)) K.
Proof.
  intros Ha Hd La Ld. unfold raw_kernel.
  destruct (table_ok
              (fun (p q : R * R) =>
                 s <- sinhc (fst p * fst q / 2) ;;
                 Ok (exp (- fst p * Rabs (snd p - snd q)) * s))
              (fun (p q : R * R) =>
                 exp (- fst p * Rabs (snd p - snd q))
                 * (sinh (fst p * fst q / 2) / (fst p * fst q / 2)))
              (combine a chi) (combine dchi chi)) as [E W].
  { intros [ai chi_i] [dchi_j chi_j] Hp Hq. cbn [fst snd].
    apply in_combine_l in Hp, Hq. rewrite Forall_forall in Ha, Hd.
    specialize (Ha ai Hp). specialize (Hd dchi_j Hq).
    assert (Hx : 0 < ai * dchi_j / 2) by nra.
    destruct (sinhc_ok _ Hx) as [Es Ps]. rewrite Es. cbn [bind].
    split; [reflexivity |]. apply Rmult_lt_0_compat; [apply exp_pos | exact Ps]. }
  eexists. split; [| split].
  - rewrite <- E. apply mapM_ext. intros [ai chi_i] _.
    apply mapM_ext. intros [dchi_j chi_j] _. reflexivity.
  - rewrite length_map, length_combine. lia.
  - rewrite length_combine in W. replace (Nat.min (length dchi) (length chi))
      with (length chi) in W by lia. exact W.
Qed.

Lemma zero_lag_ok (a dchi : list R) :
  Forall (Rlt 0) a -> Forall (Rlt 0) dchi ->
  exists V, zero_lag a dchi = Ok V
            /\ length V = length a /\ Forall (weights (length dchi)) V.
Proof.
  intros Ha Hd. unfold zero_lag.
  destruct (table_ok
              (fun ai dchi_j =>
                 s <- sinhc (ai * dchi_j / 4) ;;
                 Ok (exp (- ai * dchi_j / 4) * s))
              (fun ai dchi_j =>
                 exp (- ai * dchi_j / 4)
                 * (sinh (ai * dchi_j / 4) / (ai * dchi_j / 4)))
              a dchi) as [E W].
  { intros ai dchi_j Hp Hq. rewrite Forall_forall in Ha, Hd.
    specialize (Ha ai Hp). specialize (Hd dchi_j Hq).
    assert (Hx : 0 < ai * dchi_j / 4) by nra.
    destruct (sinhc_ok _ Hx) as [Es Ps]. rewrite Es. cbn [bind].
    split; [reflexivity |]. apply Rmult_lt_0_compat; [apply exp_pos | exact Ps]. }
  eexists. split; [exact E | split; [apply length_map | exact W]].
Qed.

Lemma fill_diagonal_weights (n : nat) (K V : list (list R)) :
  Forall (weights n) K -> Forall (weights n) V -> V <> [] -> (0 < n)%nat ->
  Forall (weights n) (fill_diagonal K V) /\ length (fill_diagonal K V) = length K.
Proof.
  intros HK HV Hne Hn. unfold fill_diagonal. split.
  - apply Forall_forall. intros row Hrow. apply in_map_iff in Hrow.
    destruct Hrow as [[i r] [<- Hin]]. cbn [fst snd].
    apply in_combine_r in Hin. rewrite Forall_forall in HK.
    destruct (HK r Hin) as [Hpos Hlen]. split.
    + apply set_nth_Forall; [| exact Hpos].
      assert (Hflat : Forall (Rlt 0) (concat V)).
      { apply concat_Forall. apply Forall_forall. intros v Hv.
        rewrite Forall_forall in HV. apply (HV v Hv). }
      assert (Hlen0 : length (concat V) <> 0%nat).
      { destruct V as [| v V]; [contradiction |]. cbn [concat].
        rewrite length_app. inversion HV as [| ? ? [_ Hv] _]; subst. lia. }
      rewrite Forall_forall in Hflat. apply Hflat. apply nth_In.
      apply Nat.mod_upper_bound. exact Hlen0.
    + rewrite set_nth_length. exact Hlen.
  - rewrite length_map, length_combine, length_seq. lia.
Qed.

(** After the normalisation every row is a row of weights of sum 1. *)
Lemma normalise_rows_ok (n : nat) (K : list (list R)) :
  Forall (weights n) K -> (0 < n)%nat ->
  exists N, normalise_rows K = Ok N /\ length N = length K
            /\ Forall (fun row => weights n row /\ Np.sum row = 1) N.
Proof.
  intros HK Hn. unfold normalise_rows.
  assert (Hs : forall row, In row K -> 0 < Np.sum row).
  { intros row Hrow. rewrite Forall_forall in HK. destruct (HK row Hrow) as [Hp Hl].
    apply sum_pos; [exact Hp |]. intros ->. cbn in Hl. lia. }
  exists (map (fun row => map (fun x => x / Np.sum row) row) K). split; [| split].
  - apply mapM_ok_map. intros row Hrow. apply mapM_ok_map. intros x _.
    apply FloatFacts.np_div_ok. specialize (Hs row Hrow). lra.
  - apply length_map.
  - apply Forall_forall. intros r Hr. apply in_map_iff in Hr.
    destruct Hr as [row [<- Hrow]]. specialize (Hs row Hrow).
    rewrite Forall_forall in HK. destruct (HK row Hrow) as [Hp Hl].
    split; [split |].
    + apply Forall_forall. intros v Hv. apply in_map_iff in Hv.
      destruct Hv as [x [<- Hx]]. rewrite Forall_forall in Hp.
      apply Rdiv_lt_0_compat; [apply Hp; exact Hx | exact Hs].
    + rewrite length_map. exact Hl.
    + replace (map (fun x => x / Np.sum row) row)
        with (map (fun x => / Np.sum row * (fun y => y) x) row)
        by (apply map_ext; intros x; unfold Rdiv; ring).
      rewrite sum_map_scale, map_id. field. lra.
Qed.

(** The growth-factor correction of one row: divided by [D] along the
    columns, multiplied by [d]. *)
Lemma corrected_row (row D : list R) (d : R) :
  Forall (Rlt 0) D -> length row = length D ->
  Np.dot (map (fun x => x * d) (map (fun p => fst p / snd p) (combine row D))) D
  = d * Np.sum row.
Proof.
  intros HD. revert row. induction HD as [| y D Hy _ IH]; intros [| x row] Hl;
    cbn in Hl; try lia; cbn [combine map Np.dot fst snd].
  - rewrite sum_nil. ring.
  - rewrite IH by lia. rewrite sum_cons. field. lra.
Qed.

Lemma dot_repeat (row : list R) (d : R) :
  Np.dot row (repeat d (length row)) = d * Np.sum row.
Proof.
  induction row as [| x row IH]; cbn [length repeat Np.dot].
  - rewrite sum_nil. ring.
  - rewrite IH, sum_cons. ring.
Qed.

(** The growth-factor correction of the normalised rows. *)
Lemma corrected_rows (n : nat) (N : list (list R)) (dall d : list R) :
  Forall (Rlt 0) dall -> length dall = n -> Forall (Rlt 0) d ->
  length N = length d ->
  Forall (fun row => weights n row /\ Np.sum row = 1) N ->
  Forall2 (fun row di => Np.dot row dall = di /\ weights n row)
    (multiply_rows
       (map (fun row => map (fun p => fst p / snd p) (combine row dall)) N) d)
    d.
Proof.
  intros Hall Lall Hd. unfold multiply_rows. revert N.
  induction Hd as [| di d Hdi Hd IH]; intros [| row N] LN WN; cbn in LN; try lia;
    cbn [map combine fst snd].
  - constructor.
  - inversion WN as [| ? ? [[Hpos Hlen] Hsum] WN']; subst. constructor.
    + split; [| split].
      * rewrite corrected_row by (try assumption; lia). rewrite Hsum. ring.
      * apply Forall_forall. intros v Hv. apply in_map_iff in Hv.
        destruct Hv as [x [<- Hx]]. apply in_map_iff in Hx.
        destruct Hx as [[a b] [<- Hab]]. cbn [fst snd].
        pose proof (in_combine_l _ _ _ _ Hab) as Ha.
        pose proof (in_combine_r _ _ _ _ Hab) as Hb.
        rewrite Forall_forall in Hpos, Hall.
        specialize (Hpos a Ha). specialize (Hall b Hb).
        apply Rmult_lt_0_compat; [apply Rdiv_lt_0_compat; assumption | exact Hdi].
      * rewrite !length_map, length_combine. lia.
    + apply IH; [lia | exact WN'].
Qed.

(** The kernel, row by row: with positive smoothing scales, growth factors
    and bin widths it is returned; every row is positive and, weighted by
    the growth factors of the columns, sums to the growth factor of its
    own bin. *)
Lemma kernel_rows (chi : list R) (sigmaP D : float_or_array)
    (s d dchi : list R) :
  as_array chi sigmaP = Ok s -> as_array chi D = Ok d ->
  length s = length chi -> length d = length chi ->
  Forall (Rlt 0) s -> Forall (Rlt 0) d ->
  _calculate_width chi = Ok dchi -> Forall (Rlt 0) dchi ->
  exists K, exponential_FoG_kernel chi sigmaP D = Ok K
            /\ Forall2 (fun row di => Np.dot row d = di
                                      /\ weights (length chi) row) K d.
Proof.
  intros Es Ed Ls Ld Hs Hd Ew Hw.
  pose proof (calculate_width_length _ _ Ew) as Lw.
  assert (Hn : (0 < length chi)%nat).
  { unfold _calculate_width in Ew.
    destruct (index chi 1) eqn:E1; [| discriminate].
    apply index_inv in E1. destruct chi; [contradiction | cbn; lia]. }
  unfold exponential_FoG_kernel. rewrite Es, Ed. cbn [bind].
  rewrite (mapM_ok_map _ (fun x => sqrt 2 / x)).
  2:{ intros x Hx. apply FloatFacts.np_div_ok. rewrite Forall_forall in Hs.
      specialize (Hs x Hx). lra. }
  cbn [bind]. rewrite Ew. cbn [bind].
  assert (Ha : Forall (Rlt 0) (map (fun x => sqrt 2 / x) s)).
  { apply Forall_forall. intros v Hv. apply in_map_iff in Hv.
    destruct Hv as [x [<- Hx]]. rewrite Forall_forall in Hs.
    apply Rdiv_lt_0_compat; [apply Rlt_sqrt2_0 | apply Hs; exact Hx]. }
  destruct (raw_kernel_ok _ dchi chi Ha Hw ltac:(rewrite length_map; exact Ls) Lw)
    as [K0 [EK0 [LK0 WK0]]].
  rewrite EK0. cbn [bind].
  destruct (zero_lag_ok _ dchi Ha Hw) as [V [EV [LV WV]]].
  rewrite EV. cbn [bind]. rewrite Lw in WV.
  assert (HVne : V <> []).
  { intros ->. cbn in LV. rewrite length_map in LV. lia. }
  destruct (fill_diagonal_weights _ K0 V WK0 WV HVne Hn) as [WK1 LK1].
  destruct (normalise_rows_ok _ _ WK1 Hn) as [N [EN [LN WN]]].
  rewrite EN. cbn [bind].
  unfold divide_columns.
  rewrite (mapM_ok_map _ (fun row => map (fun p => fst p / snd p) (combine row d))).
  2:{ intros row _. apply mapM_ok_map. intros [x y] Hp. cbn [fst snd].
      apply FloatFacts.np_div_ok. apply in_combine_r in Hp.
      rewrite Forall_forall in Hd. specialize (Hd y Hp). lra. }
  cbn [bind]. eexists. split; [reflexivity |].
  apply corrected_rows; try assumption. lia.
Qed.

(** C1, as the code has it.  For positive smoothing scales, growth factors
    and bin widths, [exponential_FoG_kernel] returns a matrix whose row [i]
    satisfies [sum_j K[i][j] * D[j] = D[i]]: the rows sum to 1 before the
    growth factor is divided out of the columns and multiplied into the
    rows.  Hence every row sums to 1 when [D] is constant over the bins. *)
Theorem FoG_kernel_row_sums (chi : list R) (sigmaP D : float_or_array)
    (s d dchi : list R) :
  as_array chi sigmaP = Ok s -> as_array chi D = Ok d ->
  length s = length chi -> length d = length chi ->
  Forall (Rlt 0) s -> Forall (Rlt 0) d ->
  _calculate_width chi = Ok dchi -> Forall (Rlt 0) dchi ->
  exists K, exponential_FoG_kernel chi sigmaP D = Ok K
            /\ Forall2 (fun row di => Np.dot row d = di) K d
            /\ (forall c, d = repeat c (length chi) ->
                          Forall (fun row => Np.sum row = 1) K).
Proof.
  intros Es Ed Ls Ld Hs Hd Ew Hw.
  destruct (kernel_rows chi sigmaP D s d dchi Es Ed Ls Ld Hs Hd Ew Hw)
    as [K [EK HK]].
  exists K. split; [exact EK |]. split.
  - eapply Forall2_impl; [| exact HK]. intros row di [H _]. exact H.
  - intros c Hc. apply Forall_forall. intros row Hrow.
    destruct (Forall2_In_l _ _ _ row HK Hrow) as [di [Hdi [Hdot [_ Hlen]]]].
    rewrite Forall_forall in Hd. specialize (Hd di Hdi).
    rewrite Hc in Hdi. apply repeat_spec in Hdi. subst di.
    rewrite Hc, <- Hlen, dot_repeat in Hdot. nra.
Qed.

Lemma example_widths_ok :
  _calculate_width [0; 1; 2] = Ok example_widths /\ Forall (Rlt 0) example_widths.
Proof.
  split; [reflexivity |].
  repeat constructor; apply Rabs_pos_lt; lra.
Qed.

Lemma FoG_kernel_row_sums_witness :
  exists K, exponential_FoG_kernel [0; 1; 2] (Scalar 1) (Scalar 1) = Ok K
            /\ Forall (fun row => Np.sum row = 1) K.
Proof.
  destruct (FoG_kernel_row_sums [0; 1; 2] (Scalar 1) (Scalar 1)
              [1 * 1; 1 * 1; 1 * 1] [1 * 1; 1 * 1; 1 * 1] example_widths
              eq_refl eq_refl eq_refl eq_refl
              ltac:(repeat constructor; lra) ltac:(repeat constructor; lra)
              (proj1 example_widths_ok) (proj2 example_widths_ok))
    as [K [E [_ H]]].
  exists K. split; [exact E | apply (H (1 * 1)); reflexivity].
Defined.

(** C1 as stated fails when the growth factor varies: over three equally
    spaced bins with growth factors 1, 2, 1 the first row of the kernel
    sums to less than 1. *)
Lemma FoG_kernel_row_sums_counterexample :
  exists K, exponential_FoG_kernel [0; 1; 2] (Scalar 1) (Array [1; 2; 1]) = Ok K
            /\ Np.sum (nth 0 K []) <> 1.
Proof.
  destruct (kernel_rows [0; 1; 2] (Scalar 1) (Array [1; 2; 1])
              [1 * 1; 1 * 1; 1 * 1] [1; 2; 1] example_widths
              eq_refl eq_refl eq_refl eq_refl
              ltac:(repeat constructor; lra) ltac:(repeat constructor; lra)
              (proj1 example_widths_ok) (proj2 example_widths_ok))
    as [K [E HK]].
  exists K. split; [exact E |].
  inversion HK as [| row0 d0 K' D' [Hdot [Hpos Hlen]] _]; subst.
  cbn [nth].
  destruct row0 as [| a [| b [| c [| ? ?]]]]; cbn in Hlen; try lia.
  cbn [Np.dot] in Hdot. rewrite !sum_cons, sum_nil.
  inversion Hpos as [| ? ? _ Hpos']; subst.
  inversion Hpos' as [| ? ? Hb _]; subst.
  lra.
Qed.

End KernelFacts.

(** * The lognormal transform *)

Module LognormalFacts.

Import Spec.
Import PyFacts ArrayFacts.
Import Lss.

Lemma var_ok (l : list R) : l <> [] -> Np.var l = Ok (variance l).
Proof.
  intros Hne. unfold Np.var, Np.mean, variance.
  assert (H : INR (length l) <> 0).
  { apply not_0_INR. destruct l; [contradiction | discriminate]. }
  rewrite FloatFacts.np_div_ok by exact H. cbn [bind].
  rewrite length_map. rewrite FloatFacts.np_div_ok by exact H. reflexivity.
Qed.

Lemma variance_zeros (l : list R) :
  l <> [] -> (forall x, In x l -> x = 0) -> variance l = 0.
Proof.
  intros Hne H. unfold variance.
  assert (Hn : INR (length l) <> 0).
  { apply not_0_INR. destruct l; [contradiction | discriminate]. }
  assert (Hs : Np.sum l = 0).
  { rewrite <- (map_id l). rewrite (sum_map_ext _ (fun _ => 0)) by exact H.
    apply sum_map_zero. }
  rewrite Hs.
  rewrite (sum_map_ext _ (fun _ => 0)).
  - rewrite sum_map_zero. field. exact Hn.
  - intros x Hx. rewrite (H x Hx). field. exact Hn.
Qed.

Lemma nth_combine_seq {A B : Type} (g : nat -> A -> B) (l : list A) (i : nat)
    (d : B) (d' : A) :
  (i < length l)%nat ->
  nth i (map (fun p => g (fst p) (snd p)) (combine (seq 0 (length l)) l)) d
  = g i (nth i l d').
Proof.
  intros Hi.
  rewrite (nth_map_lt _ _ i d (0%nat, d'))
    by (rewrite length_combine, length_seq; lia).
  rewrite combine_nth by (apply length_seq).
  cbn [fst snd]. rewrite seq_nth by exact Hi. reflexivity.
Qed.

Lemma row_length (n m : nat) (a : list (list R)) (i : nat) :
  has_shape n m a -> (i < n)%nat -> length (nth i a []) = m.
Proof.
  intros [Hn Hm] Hi. rewrite Forall_forall in Hm. apply Hm. apply nth_In. lia.
Qed.

(** The variance [var_keepdims] holds for entry [(i, j)]. *)
Lemma var_keepdims_entry (field : list (list R)) (axis : option Z) (n m : nat) :
  has_shape n m field -> (0 < n)%nat -> (0 < m)%nat ->
  axis = None \/ axis = Some 0%Z \/ axis = Some 1%Z ->
  exists var, var_keepdims field axis = Ok var
              /\ forall i j, (i < n)%nat -> (j < m)%nat ->
                             broadcast_get var i j = variance (lane field axis i j).
Proof.
  intros Hsh Hn Hm Hax. pose proof Hsh as [Ln Lm].
  assert (Hrow : forall i, (i < n)%nat -> nth i field [] <> []).
  { intros i Hi E. pose proof (row_length n m field i Hsh Hi) as L.
    rewrite E in L. cbn in L. lia. }
  destruct Hax as [-> | [-> | ->]]; cbn [var_keepdims lane].
  - rewrite var_ok.
    + cbn [bind]. eexists. split; [reflexivity |]. intros i j _ _. reflexivity.
    + destruct field as [| r field]; [cbn in Ln; lia |].
      specialize (Hrow 0%nat Hn). cbn in Hrow. cbn [concat].
      destruct r; [contradiction | discriminate].
  - rewrite (mapM_ok_map _ (fun j => variance (column 0 j field))).
    + cbn [bind]. eexists. split; [reflexivity |]. intros i j Hi Hj.
      unfold broadcast_get. cbn [length Nat.eqb nth].
      assert (Lh : length (hd [] field) = m).
      { destruct field as [| r field]; [cbn in Ln; lia |].
        inversion Lm; subst. reflexivity. }
      rewrite length_map, length_seq, Lh.
      rewrite nth_map_seq.
      destruct (Nat.eqb m 1) eqn:E1.
      * apply Nat.eqb_eq in E1. assert (Hj0 : j = 0%nat) by lia. rewrite Hj0.
        apply Nat.ltb_lt in Hm. rewrite Hm. reflexivity.
      * apply Nat.ltb_lt in Hj. rewrite Hj. reflexivity.
    + intros j _. apply var_ok. unfold column.
      destruct field; [cbn in Ln; lia | discriminate].
  - rewrite (mapM_ok_map _ (fun row => [variance row])).
    + cbn [bind]. eexists. split; [reflexivity |]. intros i j Hi Hj.
      unfold broadcast_get. rewrite length_map, Ln.
      destruct (Nat.eqb n 1) eqn:E1.
      * apply Nat.eqb_eq in E1. assert (Hi0 : i = 0%nat) by lia. rewrite Hi0.
        rewrite (nth_map_lt _ _ 0 [] []) by lia. reflexivity.
      * rewrite (nth_map_lt _ _ i [] []) by lia. reflexivity.
    + intros row Hr. rewrite var_ok; [reflexivity |].
      intros ->. rewrite Forall_forall in Lm. specialize (Lm [] Hr). cbn in Lm. lia.
Qed.

(** The transform, entry by entry. *)
Lemma lognormal_entries (field : list (list R)) (out : option (list (list R)))
    (axis : option Z) (n m : nat) :
  has_shape n m field -> (0 < n)%nat -> (0 < m)%nat ->
  match out with Some o => shape2 o = shape2 field | None => True end ->
  axis = None \/ axis = Some 0%Z \/ axis = Some 1%Z ->
  exists res, lognormal_transform field out axis = Ok res
    /\ has_shape n m res
    /\ forall i j, (i < n)%nat -> (j < m)%nat ->
         nth j (nth i res []) 0
         = exp (nth j (nth i field []) 0 - variance (lane field axis i j) / 2) - 1.
Proof.
  intros Hsh Hn Hm Hout Hax. pose proof Hsh as [Ln Lm].
  unfold lognormal_transform.
  assert (E : match out with
              | None => Ok tt
              | Some o =>
                  if shape2_eqb (shape2 field) (shape2 o) then Ok tt
                  else Raise (ValueError "Given output array is incompatible.")
              end = Ok tt).
  { destruct out as [o |]; [| reflexivity]. rewrite Hout.
    unfold shape2_eqb. rewrite !Nat.eqb_refl. reflexivity. }
  rewrite E. cbn [bind].
  destruct (var_keepdims_entry field axis n m Hsh Hn Hm Hax) as [var [Ev Hv]].
  rewrite Ev. cbn [bind]. eexists. split; [reflexivity |].
  assert (Hrow : forall i, (i < n)%nat ->
            nth i (map (fun p =>
                     map (fun q => exp (snd q - broadcast_get var (fst p) (fst q) / 2) - 1)
                         (combine (seq 0 (length (snd p))) (snd p)))
                   (combine (seq 0 (length field)) field)) []
            = map (fun q => exp (snd q - broadcast_get var i (fst q) / 2) - 1)
                  (combine (seq 0 (length (nth i field []))) (nth i field []))).
  { intros i Hi.
    apply (nth_combine_seq
             (fun i row => map (fun q => exp (snd q - broadcast_get var i (fst q) / 2) - 1)
                               (combine (seq 0 (length row)) row))
             field i [] []). lia. }
  split; [split |].
  - rewrite length_map, length_combine, length_seq. lia.
  - apply Forall_forall. intros r Hr. apply in_map_iff in Hr.
    destruct Hr as [[i row] [<- Hin]]. cbn [fst snd].
    rewrite length_map, length_combine, length_seq, Nat.min_id.
    apply in_combine_r in Hin. rewrite Forall_forall in Lm. apply Lm. exact Hin.
  - intros i j Hi Hj. rewrite (Hrow i Hi).
    pose proof (row_length n m field i Hsh Hi) as Lr.
    rewrite (nth_combine_seq
               (fun j x => exp (x - broadcast_get var i j / 2) - 1)
               (nth i field []) j 0 0) by lia.
    rewrite (Hv i j Hi Hj). reflexivity.
Qed.

Lemma all_zero_nth (field : list (list R)) (i j : nat) :
  all_zero field -> nth j (nth i field []) 0 = 0.
Proof.
  intros H. unfold all_zero in H. rewrite Forall_forall in H.
  destruct (Nat.lt_ge_cases i (length field)) as [Hi | Hi].
  - specialize (H (nth i field []) (nth_In _ _ Hi)). rewrite Forall_forall in H.
    destruct (Nat.lt_ge_cases j (length (nth i field []))) as [Hj | Hj].
    + apply H. apply nth_In. exact Hj.
    + apply nth_overflow. exact Hj.
  - rewrite (nth_overflow field) by exact Hi. destruct j; reflexivity.
Qed.

Lemma all_zero_lane (field : list (list R)) (axis : option Z) (i j : nat) (x : R) :
  all_zero field -> In x (lane field axis i j) -> x = 0.
Proof.
  intros H Hx. destruct axis as [[| [| |] |] |]; cbn [lane] in Hx.
  - unfold column in Hx. apply in_map_iff in Hx. destruct Hx as [row [<- Hrow]].
    destruct (In_nth _ _ [] Hrow) as [k [_ <-]]. apply all_zero_nth. exact H.
  - destruct (In_nth _ _ 0 Hx) as [k [_ <-]]. apply all_zero_nth. exact H.
  - destruct (In_nth _ _ 0 Hx) as [k [_ <-]]. apply all_zero_nth. exact H.
  - destruct (In_nth _ _ 0 Hx) as [k [_ <-]]. apply all_zero_nth. exact H.
  - destruct (In_nth _ _ 0 Hx) as [k [_ <-]]. apply all_zero_nth. exact H.
  - unfold all_zero in H. apply concat_Forall in H.
    rewrite Forall_forall in H. apply H. exact Hx.
Qed.

Lemma lane_nonempty (field : list (list R)) (axis : option Z) (n m i j : nat) :
  has_shape n m field -> (i < n)%nat -> (j < m)%nat -> lane field axis i j <> [].
Proof.
  intros Hsh Hi Hj. pose proof (row_length n m field i Hsh Hi) as Lr.
  destruct Hsh as [Ln Lm].
  assert (Hrow : nth i field [] <> []).
  { intros E. rewrite E in Lr. cbn in Lr. lia. }
  destruct axis as [[| [| |] |] |]; cbn [lane]; try exact Hrow.
  - unfold column. destruct field; [cbn in Ln; lia | discriminate].
  - intros E. apply Hrow.
    assert (Hin : In (nth i field []) field) by (apply nth_In; lia).
    destruct (nth i field []) as [| x r]; [reflexivity |].
    assert (Hx : In x (concat field)).
    { apply in_concat. exists (x :: r). split; [exact Hin | left; reflexivity]. }
    rewrite E in Hx. contradiction.
Qed.

(** C2, as the code has it.  For a field of at least one row and one
    column and a transform axis (none, 0 or 1), the array returned is
    [exp(field - var / 2) - 1] entry by entry, with [var] the variance
    [np.var] takes along the axis; every entry exceeds -1.  When the field
    is zero everywhere, [exp(out)] is 1 everywhere, and so is its mean. *)
Theorem lognormal_transform_entries (field : list (list R)) (axis : option Z)
    (n m : nat) :
  has_shape n m field -> (0 < n)%nat -> (0 < m)%nat ->
  axis = None \/ axis = Some 0%Z \/ axis = Some 1%Z ->
  exists out, lognormal_transform field None axis = Ok out
    /\ has_shape n m out
    /\ (forall i j, (i < n)%nat -> (j < m)%nat ->
          nth j (nth i out []) 0
          = exp (nth j (nth i field []) 0 - variance (lane field axis i j) / 2) - 1
          /\ -1 < nth j (nth i out []) 0)
    /\ (all_zero field ->
        forall i j, (i < n)%nat -> (j < m)%nat -> exp (nth j (nth i out []) 0) = 1).
Proof.
  intros Hsh Hn Hm Hax.
  destruct (lognormal_entries field None axis n m Hsh Hn Hm I Hax)
    as [out [E [Hout Hent]]].
  exists out. split; [exact E |]. split; [exact Hout |]. split.
  - intros i j Hi Hj. rewrite (Hent i j Hi Hj). split; [reflexivity |].
    match goal with |- -1 < exp ?x - 1 => pose proof (exp_pos x) end. lra.
  - intros Hz i j Hi Hj. rewrite (Hent i j Hi Hj).
    rewrite (all_zero_nth field i j Hz).
    rewrite (variance_zeros (lane field axis i j)).
    + replace (0 - 0 / 2) with 0 by field. rewrite exp_0.
      replace (1 - 1) with 0 by ring. apply exp_0.
    + apply (lane_nonempty field axis n m i j Hsh Hi Hj).
    + intros x Hx. apply (all_zero_lane field axis i j x Hz Hx).
Qed.

Lemma lognormal_transform_entries_witness :
  exists out, lognormal_transform [[0; 0]; [0; 0]] None (Some 1%Z) = Ok out
              /\ exp (nth 0 (nth 1 out []) 0) = 1.
Proof.
  destruct (lognormal_transform_entries [[0; 0]; [0; 0]] (Some 1%Z) 2 2
              ltac:(split; [reflexivity | repeat constructor])
              ltac:(lia) ltac:(lia) ltac:(right; right; reflexivity))
    as [out [E [_ [_ H]]]].
  exists out. split; [exact E |].
  apply H; [repeat constructor | lia | lia].
Defined.

(** C2 as stated fails: for the row [0, 2], of variance 1, the mean of
    [exp(out)] over the row exceeds 1. *)
Lemma lognormal_transform_mean_counterexample :
  exists out, lognormal_transform [[0; 2]] None (Some 1%Z) = Ok out
              /\ Np.mean (map exp (nth 0 out [])) <> Ok 1.
Proof.
  destruct (lognormal_entries [[0; 2]] None (Some 1%Z) 1 2
              ltac:(split; [reflexivity | repeat constructor])
              ltac:(lia) ltac:(lia) I ltac:(right; right; reflexivity))
    as [out [E [[Ln Lm] Hent]]].
  exists out. split; [exact E |].
  pose proof (Hent 0%nat 0%nat ltac:(lia) ltac:(lia)) as H0.
  pose proof (Hent 0%nat 1%nat ltac:(lia) ltac:(lia)) as H1.
  destruct out as [| row [| ? ?]]; cbn in Ln; try lia.
  inversion Lm as [| ? ? Lrow _]; subst.
  destruct row as [| a [| b [| ? ?]]]; cbn in Lrow; try lia.
  cbn [nth lane] in H0, H1. cbn [nth map].
  assert (Hv : variance [0; 2] = 1).
  { unfold variance. cbn [length INR]. rewrite !sum_cons, sum_nil.
    cbn [map]. rewrite !sum_cons, sum_nil. field. }
  rewrite Hv in H0, H1.
  unfold Np.mean. cbn [length INR]. rewrite !sum_cons, sum_nil.
  rewrite FloatFacts.np_div_ok by lra.
  intros Heq. injection Heq as Heq.
  pose proof (exp_pos a) as Ha.
  assert (Hb : 3 / 2 < b).
  { rewrite H1. pose proof (exp_ineq1 (2 - 1 / 2) ltac:(lra)). lra. }
  pose proof (exp_increasing _ _ Hb) as Hb'.
  pose proof (exp_ineq1 (3 / 2) ltac:(lra)) as H32.
  lra.
Qed.

End LognormalFacts.

(** * The shape contract of the mass assignment *)

Module ZaFacts.

Import Spec PyFacts StateFacts.
Import Za.

Lemma assert_shape_ok (arr : ndarray) (shape : list nat) (name : string) :
  nd_shape arr = shape -> _assert_shape arr shape name = Ok tt.
Proof.
  intros H. unfold _assert_shape. rewrite H, Nat.eqb_refl. cbn [negb].
  destruct (list_eq_dec Nat.eq_dec shape shape); [reflexivity | contradiction].
Qed.

Lemma assert_shape_error (arr : ndarray) (shape : list nat) (name : string) :
  nd_shape arr <> shape ->
  _assert_shape arr shape name = Raise (wrong_ndim name)
  \/ _assert_shape arr shape name = Raise (wrong_shape name).
Proof.
  intros H. unfold _assert_shape.
  destruct (negb (length (nd_shape arr) =? length shape)%nat); [left; reflexivity |].
  destruct (list_eq_dec Nat.eq_dec (nd_shape arr) shape); [contradiction |].
  right. reflexivity.
Qed.

Lemma shape_dec (arr : ndarray) (shape : list nat) :
  {nd_shape arr = shape} + {nd_shape arr <> shape}.
Proof. apply (list_eq_dec Nat.eq_dec). Qed.

(** The error of [healpy.npix2nside] names no array. *)
Lemma pixel_error_not_shape :
  ~ is_shape_error (ValueError "Wrong pixel number (it is not 12*nside**2)").
Proof. intros [name [H | H]]; discriminate H. Qed.

Lemma IndexError_not_shape : ~ is_shape_error IndexError.
Proof. intros [name [H | H]]; discriminate H. Qed.

Lemma NonFinite_not_shape : ~ is_shape_error NonFinite.
Proof. intros [name [H | H]]; discriminate H. Qed.

Lemma extend_chi_error (chi : list R) (e : exn) :
  extend_chi chi = Raise e -> e = IndexError.
Proof.
  unfold extend_chi. intros H.
  destruct (index chi 0) eqn:E0; [| injection H as <-; apply (index_error _ _ _ E0)].
  cbn [bind] in H.
  destruct (index chi 1) eqn:E1; [| injection H as <-; apply (index_error _ _ _ E1)].
  cbn [bind] in H.
  destruct (index chi (-1)) eqn:E2; [| injection H as <-; apply (index_error _ _ _ E2)].
  cbn [bind] in H.
  destruct (index chi (-2)) eqn:E3; [| injection H as <-; apply (index_error _ _ _ E3)].
  cbn [bind] in H. discriminate.
Qed.

Lemma npix2nside_error (npix : nat) (e : exn) :
  npix2nside npix = Raise e ->
  e = ValueError "Wrong pixel number (it is not 12*nside**2)".
Proof.
  unfold npix2nside. destruct (_ =? _)%nat; [discriminate |].
  intros H. injection H as <-. reflexivity.
Qed.

Section MassAssignment.

Variable grid_slice :
  nat -> ndarray -> ndarray -> ndarray -> list R -> nat -> ndarray -> ndarray.
Variable sph_slice :
  nat -> ndarray -> ndarray -> ndarray -> ndarray -> R -> nat -> ndarray -> ndarray.

Local Abbreviation za_density_grid := (za_density_grid grid_slice).
Local Abbreviation za_density_sph := (za_density_sph sph_slice).

Lemma validate_spec (psi delta_m chi out : ndarray) (nchi npix : nat) :
  fst (validate psi delta_m chi nchi npix out) = out
  /\ ((conforming psi delta_m chi out nchi npix
       /\ snd (validate psi delta_m chi nchi npix out) = Ok tt)
      \/ (~ conforming psi delta_m chi out nchi npix
          /\ exists e, snd (validate psi delta_m chi nchi npix out) = Raise e
                       /\ names_offender e psi delta_m chi out nchi npix)).
Proof.
  split.
  { unfold validate, SE.bind, SE.lift, SE.get.
    destruct (_assert_shape psi _ _); [| reflexivity].
    destruct (_assert_shape delta_m _ _); [| reflexivity].
    destruct (_assert_shape chi _ _); reflexivity. }
  unfold validate, SE.bind, SE.lift, SE.get.
  destruct (shape_dec psi [3%nat; nchi; npix]) as [H1 | H1].
  2:{ right. split; [intros [C _]; contradiction |].
      destruct (assert_shape_error psi _ "psi" H1) as [E | E]; rewrite E;
        eexists; (split; [reflexivity |]); exists "psi"%string;
        (split; [auto | left; auto]). }
  rewrite (assert_shape_ok psi _ "psi" H1).
  destruct (shape_dec delta_m [nchi; npix]) as [H2 | H2].
  2:{ right. split; [intros [_ [C _]]; contradiction |].
      destruct (assert_shape_error delta_m _ "delta_m" H2) as [E | E]; rewrite E;
        eexists; (split; [reflexivity |]); exists "delta_m"%string;
        (split; [auto | right; left; auto]). }
  rewrite (assert_shape_ok delta_m _ "delta_m" H2).
  destruct (shape_dec chi [nchi]) as [H3 | H3].
  2:{ right. split; [intros [_ [_ [C _]]]; contradiction |].
      destruct (assert_shape_error chi _ "chi" H3) as [E | E]; rewrite E;
        eexists; (split; [reflexivity |]); exists "chi"%string;
        (split; [auto | right; right; left; auto]). }
  rewrite (assert_shape_ok chi _ "chi" H3).
  destruct (shape_dec out [nchi; npix]) as [H4 | H4].
  - left. split; [repeat split; assumption |].
    rewrite (assert_shape_ok out _ "out" H4). reflexivity.
  - right. split; [intros [_ [_ [_ C]]]; contradiction |].
    destruct (assert_shape_error out _ "out" H4) as [E | E]; cbn [snd]; rewrite E;
      eexists; (split; [reflexivity |]); exists "out"%string;
      (split; [auto | right; right; right; auto]).
Qed.

(** Both functions are their validation followed by the rest. *)
Lemma za_density_grid_unfold (psi delta_bias delta_m chi out : ndarray)
    (nchi npix : nat) :
  nd_shape delta_bias = [nchi; npix] ->
  za_density_grid psi delta_bias delta_m chi out
  = (validate psi delta_m chi nchi npix ;;;
     nside <~ SE.lift (npix2nside npix) ;;
     chi_ext <~ SE.lift (extend_chi (nd_data chi)) ;;
     SE.for_range 0 nchi
       (fun ii => SE.modify (grid_slice nside psi delta_bias chi chi_ext ii)) ;;;
     SE.modify subtract_one) out.
Proof.
  intros H. unfold Za.za_density_grid, validate. rewrite H.
  unfold SE.bind, SE.lift, SE.get. cbn [unpack2].
  destruct (_assert_shape psi _ _); [| reflexivity].
  destruct (_assert_shape delta_m _ _); [| reflexivity].
  destruct (_assert_shape chi _ _); [| reflexivity].
  destruct (_assert_shape out _ _); reflexivity.
Qed.

Lemma za_density_sph_unfold (psi delta_bias delta_m chi out : ndarray)
    (nchi npix nside : nat) :
  nd_shape delta_bias = [nchi; npix] -> npix2nside npix = Ok nside ->
  za_density_sph psi delta_bias delta_m chi out
  = (validate psi delta_m chi nchi npix ;;;
     m <~ SE.lift (Np.mean (map Rabs (diff (nd_data chi)))) ;;
     SE.for_range 0 nchi
       (fun ii => SE.modify
                    (sph_slice nside psi delta_bias delta_m chi (m / 2) ii)) ;;;
     SE.modify subtract_one) out.
Proof.
  intros H Hn. unfold Za.za_density_sph, validate. rewrite H.
  unfold SE.bind, SE.lift, SE.get. cbn [unpack2]. rewrite Hn.
  destruct (_assert_shape psi _ _); [| reflexivity].
  destruct (_assert_shape delta_m _ _); [| reflexivity].
  destruct (_assert_shape chi _ _); [| reflexivity].
  destruct (_assert_shape out _ _); reflexivity.
Qed.

(** X18.  The shape contract of [za_density_grid]: a shape-mismatch error
    that names an offending array is raised, with [out] untouched, exactly
    when the shapes do not conform. *)
Lemma za_density_grid_shape_contract (psi delta_bias delta_m chi out : ndarray)
    (nchi npix : nat) :
  nd_shape delta_bias = [nchi; npix] ->
  let r := za_density_grid psi delta_bias delta_m chi out in
  (~ conforming psi delta_m chi out nchi npix ->
   fst r = out
   /\ exists e, snd r = Raise e /\ names_offender e psi delta_m chi out nchi npix)
  /\ (conforming psi delta_m chi out nchi npix ->
      forall e, snd r = Raise e -> ~ is_shape_error e).
Proof.
  intros H r. subst r. rewrite (za_density_grid_unfold _ _ _ _ _ _ _ H).
  destruct (validate_spec psi delta_m chi out nchi npix) as [Hfst Hv].
  rewrite bind_run.
  destruct (validate psi delta_m chi nchi npix out) as [s v] eqn:Ev.
  cbn [fst snd] in Hfst, Hv. subst s.
  destruct Hv as [[Hc ->] | [Hnc [e [-> He]]]].
  - split; [intros C; contradiction |]. intros _ e.
    unfold SE.bind, SE.lift.
    destruct (npix2nside npix) as [nside |] eqn:En.
    2:{ cbn [snd]. intros Heq. injection Heq as <-.
        rewrite (npix2nside_error _ _ En). apply pixel_error_not_shape. }
    destruct (extend_chi (nd_data chi)) as [chi_ext |] eqn:Ec.
    2:{ cbn [snd]. intros Heq. injection Heq as <-.
        rewrite (extend_chi_error _ _ Ec). apply IndexError_not_shape. }
    pose proof (for_range_modify
                  (fun ii => grid_slice nside psi delta_bias chi chi_ext ii)
                  0 nchi out) as Hloop.
    destruct (SE.for_range 0 nchi _ out) as [s' l] eqn:El.
    cbn [snd] in Hloop. subst l. cbn. discriminate.
  - split; [| intros C; contradiction].
    intros _. split; [reflexivity |]. exists e. split; [reflexivity | exact He].
Qed.

(** X19.  The same contract for [za_density_sph], for a number of pixels
    HEALPix accepts: a shape-mismatch error that names an offending array
    is raised, with [out] untouched, exactly when the shapes do not
    conform. *)
Lemma za_density_sph_shape_contract (psi delta_bias delta_m chi out : ndarray)
    (nchi npix nside : nat) :
  nd_shape delta_bias = [nchi; npix] -> npix2nside npix = Ok nside ->
  let r := za_density_sph psi delta_bias delta_m chi out in
  (~ conforming psi delta_m chi out nchi npix ->
   fst r = out
   /\ exists e, snd r = Raise e /\ names_offender e psi delta_m chi out nchi npix)
  /\ (conforming psi delta_m chi out nchi npix ->
      forall e, snd r = Raise e -> ~ is_shape_error e).
Proof.
  intros H Hn r. subst r. rewrite (za_density_sph_unfold _ _ _ _ _ _ _ _ H Hn).
  destruct (validate_spec psi delta_m chi out nchi npix) as [Hfst Hv].
  rewrite bind_run.
  destruct (validate psi delta_m chi nchi npix out) as [s v] eqn:Ev.
  cbn [fst snd] in Hfst, Hv. subst s.
  destruct Hv as [[Hc ->] | [Hnc [e [-> He]]]].
  - split; [intros C; contradiction |]. intros _ e.
    unfold SE.bind, SE.lift.
    destruct (Np.mean _) as [m |] eqn:Em.
    2:{ cbn [snd]. intros Heq. injection Heq as <-.
        unfold Np.mean, Float.np_div in Em.
        destruct (Req_dec_T _ 0); [| discriminate].
        injection Em as <-. apply NonFinite_not_shape. }
    pose proof (for_range_modify
                  (fun ii => sph_slice nside psi delta_bias delta_m chi (m / 2) ii)
                  0 nchi out) as Hloop.
    destruct (SE.for_range 0 nchi _ out) as [s' l] eqn:El.
    cbn [snd] in Hloop. subst l. cbn. discriminate.
  - split; [| intros C; contradiction].
    intros _. split; [reflexivity |]. exists e. split; [reflexivity | exact He].
Qed.

(** C8 fails for [za_density_sph]: the number of pixels is checked by
    HEALPix before any shape.  With [delta_bias] of shape (1, 5) and [psi]
    of shape (3, 1, 4) the error raised is the one of [npix2nside], which
    names no array; [out] is untouched. *)
Theorem za_density_sph_pixel_count_first :
  let psi := {| nd_shape := [3; 1; 4]%nat; nd_data := repeat 0 12 |} in
  let delta := {| nd_shape := [1; 5]%nat; nd_data := repeat 0 5 |} in
  let chi := {| nd_shape := [1%nat]; nd_data := [1] |} in
  ~ conforming psi delta chi delta 1 5
  /\ za_density_sph psi delta delta chi delta
     = (delta, Raise (ValueError "Wrong pixel number (it is not 12*nside**2)"))
  /\ ~ is_shape_error (ValueError "Wrong pixel number (it is not 12*nside**2)").
Proof.
  cbv zeta. split; [| split].
  - intros [C _]. discriminate C.
  - reflexivity.
  - apply pixel_error_not_shape.
Qed.

End MassAssignment.

(** A distance array of two entries where one is expected is named by the
    error, and [out] is left as it was. *)
Lemma za_density_grid_shape_contract_witness :
  let psi := {| nd_shape := [3; 1; 12]%nat; nd_data := repeat 0 36 |} in
  let delta := {| nd_shape := [1; 12]%nat; nd_data := repeat 0 12 |} in
  let chi := {| nd_shape := [2%nat]; nd_data := [1; 2] |} in
  let r := Za.za_density_grid (fun _ _ _ _ _ _ out => out) psi delta delta chi delta in
  fst r = delta
  /\ exists e, snd r = Raise e /\ names_offender e psi delta chi delta 1 12.
Proof.
  intros psi delta chi.
  apply (proj1 (za_density_grid_shape_contract (fun _ _ _ _ _ _ out => out)
                  psi delta delta chi delta 1 12 eq_refl)).
  intros [_ [_ [C _]]]. discriminate C.
Defined.

Lemma za_density_sph_shape_contract_witness :
  let psi := {| nd_shape := [3; 1; 12]%nat; nd_data := repeat 0 36 |} in
  let delta := {| nd_shape := [1; 12]%nat; nd_data := repeat 0 12 |} in
  let chi := {| nd_shape := [2%nat]; nd_data := [1; 2] |} in
  let r := Za.za_density_sph (fun _ _ _ _ _ _ _ out => out) psi delta delta chi delta in
  fst r = delta
  /\ exists e, snd r = Raise e /\ names_offender e psi delta chi delta 1 12.
Proof.
  intros psi delta chi.
  apply (proj1 (za_density_sph_shape_contract (fun _ _ _ _ _ _ _ out => out)
                  psi delta delta chi delta 1 12 1 eq_refl eq_refl)).
  intros [_ [_ [C _]]]. discriminate C.
Defined.

End ZaFacts.

(** * The pipeline tasks *)

Module HeapFacts.

Import Spec StateFacts.
Import Tasks.

Lemma nth_error_new (h : heap) (c : Container) :
  nth_error (h ++ [c]) (length h) = Some c.
Proof.
  rewrite nth_error_app2 by lia. rewrite Nat.sub_diag. reflexivity.
Qed.

Lemma nth_error_old (h : heap) (c : Container) (r : ref) :
  (r < length h)%nat -> nth_error (h ++ [c]) r = nth_error h r.
Proof. intros H. apply nth_error_app1. exact H. Qed.

Lemma set_nth_new {A : Type} (h : list A) (c c' : A) :
  Np.set_nth (length h) c' (h ++ [c]) = h ++ [c'].
Proof.
  induction h as [| x h IH]; cbn; [reflexivity | rewrite IH; reflexivity].
Qed.

Lemma run_deref (h : heap) (r : ref) (c : Container) :
  nth_error h r = Some c -> deref r h = (h, Ok c).
Proof. intros H. unfold deref. rewrite H. reflexivity. Qed.

Lemma run_deref_new (h : heap) (c : Container) :
  deref (length h) (h ++ [c]) = (h ++ [c], Ok c).
Proof. apply run_deref. apply nth_error_new. Qed.

Lemma run_set_delta_new (h : heap) (c : Container) (d : list (list R)) :
  set_delta (length h) d (h ++ [c]) = (h ++ [with_delta c d], Ok tt).
Proof.
  unfold set_delta, SE.modify. rewrite nth_error_new, set_nth_new. reflexivity.
Qed.

Lemma run_add_to_delta_new (h : heap) (c : Container) (term d : list (list R)) :
  add2 (delta c) term = Ok d ->
  add_to_delta (length h) term (h ++ [c]) = (h ++ [with_delta c d], Ok tt).
Proof.
  intros H. unfold add_to_delta.
  rewrite bind_run, run_deref_new.
  rewrite bind_run. unfold SE.lift at 1. rewrite H.
  apply run_set_delta_new.
Qed.

(** *** Computations that touch nothing but the newest object

    [frame n m]: run on a store of [n + 1] objects, [m] leaves the first
    [n] as they are and creates none.  [fresh n m]: moreover the reference
    [m] returns is the one of object [n]. *)

Lemma frame_ret {A : Type} (n : nat) (a : A) : frame n (SE.ret a).
Proof. intros h Hh. split; [exact Hh | reflexivity]. Qed.

Lemma frame_lift {A : Type} (n : nat) (r : result A) : frame n (SE.lift r).
Proof. intros h Hh. split; [exact Hh | reflexivity]. Qed.

Lemma frame_deref (n : nat) (r : ref) : frame n (deref r).
Proof. intros h Hh. split; [exact Hh | reflexivity]. Qed.

Lemma frame_bind {A B : Type} (n : nat) (m : SE.t heap A) (k : A -> SE.t heap B) :
  frame n m -> (forall a, frame n (k a)) -> frame n (SE.bind m k).
Proof.
  intros Hm Hk h Hh. rewrite bind_run.
  destruct (Hm h Hh) as [L F]. destruct (m h) as [h' [a | e]]; cbn [fst] in L, F.
  - destruct (Hk a h' L) as [L' F']. split; [exact L' | congruence].
  - split; assumption.
Qed.

Lemma firstn_set_nth {A : Type} (n : nat) (v : A) (l : list A) :
  firstn n (Np.set_nth n v l) = firstn n l.
Proof.
  revert l. induction n as [| n IH]; intros [| x l]; cbn; try reflexivity.
  rewrite IH. reflexivity.
Qed.

Lemma frame_set_delta (n : nat) (d : list (list R)) : frame n (set_delta n d).
Proof.
  intros h Hh. unfold set_delta, SE.modify. cbn [fst].
  destruct (nth_error h n); [| split; [exact Hh | reflexivity]].
  split; [rewrite ArrayFacts.set_nth_length; exact Hh | apply firstn_set_nth].
Qed.

Lemma frame_add_to_delta (n : nat) (term : list (list R)) :
  frame n (add_to_delta n term).
Proof.
  unfold add_to_delta. apply frame_bind; [apply frame_deref |]. intros c.
  apply frame_bind; [apply frame_lift |]. intros d. apply frame_set_delta.
Qed.

Lemma frame_except (n : nat) (body : SE.t heap unit) :
  frame n body -> frame n (except_NotImplementedError body).
Proof.
  intros H h Hh. unfold except_NotImplementedError.
  destruct (H h Hh) as [L F]. destruct (body h) as [h' [a | []]]; split; assumption.
Qed.

Lemma fresh_ret (n : nat) : fresh n (SE.ret n).
Proof.
  split; [apply frame_ret |]. intros h r _ H. cbn in H. injection H as <-. reflexivity.
Qed.

Lemma fresh_bind {A : Type} (n : nat) (m : SE.t heap A) (k : A -> SE.t heap ref) :
  frame n m -> (forall a, fresh n (k a)) -> fresh n (SE.bind m k).
Proof.
  intros Hm Hk. split.
  - apply frame_bind; [exact Hm |]. intros a. apply (Hk a).
  - intros h r Hh. rewrite bind_run.
    destruct (Hm h Hh) as [L _]. destruct (m h) as [h' [a | e]]; cbn [fst] in L.
    + apply (proj2 (Hk a) h' r L).
    + cbn. discriminate.
Qed.

(** What a fresh computation run after an allocation leaves. *)
Lemma fresh_after_alloc (h : heap) (c : Container) (m : SE.t heap ref)
    (h' : heap) (r : ref) :
  fresh (length h) m -> m (h ++ [c]) = (h', Ok r) ->
  r = length h /\ exists c', h' = h ++ [c'].
Proof.
  intros [Hf Hr] E.
  assert (L : length (h ++ [c]) = S (length h)) by (rewrite length_app; cbn; lia).
  destruct (Hf _ L) as [L' F]. rewrite E in L', F. cbn [fst] in L', F.
  split; [apply (Hr _ r L); rewrite E; reflexivity |].
  rewrite firstn_app, firstn_all, Nat.sub_diag in F. cbn [firstn] in F.
  rewrite app_nil_r in F.
  rewrite <- (firstn_skipn (length h) h'), F.
  assert (Ls : length (skipn (length h) h') = 1%nat) by (rewrite length_skipn; lia).
  destruct (skipn (length h) h') as [| c' [| ? ?]]; cbn in Ls; try lia.
  exists c'. reflexivity.
Qed.

End HeapFacts.

Module BiasFacts.

Import Spec StateFacts.
Import PyFacts ArrayFacts HeapFacts.
Import Tasks.

Lemma nth_zip_with (f : R -> R -> R) (a b : list R) (i : nat) :
  (i < length a)%nat -> length a = length b ->
  nth i (zip_with f a b) 0 = f (nth i a 0) (nth i b 0) .
Proof.
  intros Hi Hl. unfold zip_with.
  rewrite (nth_map_lt _ _ i 0 (0, 0)) by (rewrite length_combine; lia).
  rewrite combine_nth by exact Hl. reflexivity.
Qed.

Lemma zip_with_length (f : R -> R -> R) (a b : list R) :
  length a = length b -> length (zip_with f a b) = length a.
Proof. intros H. unfold zip_with. rewrite length_map, length_combine. lia. Qed.

Lemma mul_ok (a b : list R) :
  length a = length b -> mul a b = Ok (zip_with Rmult a b).
Proof. intros H. unfold mul. rewrite H, Nat.eqb_refl. reflexivity. Qed.

Lemma broadcast_ok (n : nat) (a : list R) : length a = n -> Lss.broadcast n a = Ok a.
Proof. intros H. unfold Lss.broadcast. rewrite H, Nat.eqb_refl. reflexivity. Qed.

Lemma scale_rows_ok (v : list R) (m : list (list R)) :
  length v = length m ->
  scale_rows v m = Ok (map (fun p => map (Rmult (fst p)) (snd p)) (combine v m)).
Proof.
  intros H. unfold scale_rows. rewrite broadcast_ok by exact H. reflexivity.
Qed.

Lemma add2_ok (a b : list (list R)) :
  same_shape a b ->
  add2 a b = Ok (map (fun p => zip_with Rplus (fst p) (snd p)) (combine a b)).
Proof.
  intros H. induction H as [| x y a b Hxy _ IH]; cbn [add2 combine map fst snd].
  - reflexivity.
  - rewrite Hxy, Nat.eqb_refl, IH. reflexivity.
Qed.

Lemma same_shape_nth (n m : nat) (a b : list (list R)) :
  length a = n -> length b = n ->
  (forall i, (i < n)%nat -> length (nth i a []) = m /\ length (nth i b []) = m) ->
  same_shape a b.
Proof.
  revert n b. induction a as [| x a IH]; intros n [| y b] La Lb H; cbn in La, Lb;
    try (subst n; discriminate); [constructor |].
  destruct n as [| n]; [discriminate |]. constructor.
  - destruct (H 0%nat ltac:(lia)) as [H1 H2]. cbn in H1, H2. lia.
  - apply (IH n); [lia | lia |]. intros i Hi. apply (H (S i)). lia.
Qed.

Lemma nth_combine_map {A B C : Type} (g : A * B -> C) (a : list A) (b : list B)
    (i : nat) (d : C) (da : A) (db : B) :
  (i < length a)%nat -> length a = length b ->
  nth i (map g (combine a b)) d = g (nth i a da, nth i b db).
Proof.
  intros Hi Hl.
  rewrite (nth_map_lt _ _ i d (da, db)) by (rewrite length_combine; lia).
  rewrite combine_nth by exact Hl. reflexivity.
Qed.

(** The code computes the formula of the specification. *)
Lemma biased_delta_code_spec (growth_factor : R -> R) (z b1 b2 : list R)
    (delta_L : list (list R)) (npix : nat) :
  length z = length delta_L -> length b1 = length z -> length b2 = length z ->
  Forall (fun row => length row = npix) delta_L ->
  biased_delta_code (map (fun zi => growth_factor zi / growth_factor 0) z)
    b1 b2 delta_L npix
  = biased_delta_spec growth_factor z b1 b2 delta_L.
Proof.
  intros Lz L1 L2 Hrows. unfold biased_delta_code, biased_delta_spec.
  set (n := length delta_L).
  set (D := map (fun zi => growth_factor zi / growth_factor 0) z).
  assert (LD : length D = n) by (unfold D; rewrite length_map; exact Lz).
  assert (Hrow : forall i, (i < n)%nat -> length (nth i delta_L []) = npix).
  { intros i Hi. rewrite Forall_forall in Hrows. apply Hrows. apply nth_In. exact Hi. }
  set (term1 := map (fun p => map (Rmult (fst p)) (snd p))
                    (combine (zip_with Rmult D b1) delta_L)).
  set (d2m := map (fun row => Np.sum (map square row) / INR (length row)) delta_L).
  set (inner := map (fun p => map (fun x => square x - snd p) (fst p))
                    (combine delta_L d2m)).
  set (term2 := map (fun p => map (Rmult (fst p)) (snd p))
                    (combine (zip_with Rmult (map (fun d => d ^ 2) D) b2) inner)).
  set (delta1 := map (fun p => zip_with Rplus (fst p) (snd p))
                     (combine (zeros2 n npix) term1)).
  assert (Lt1 : length term1 = n).
  { unfold term1. rewrite length_map, length_combine, zip_with_length by lia. lia. }
  assert (Ld2 : length d2m = n) by (unfold d2m; apply length_map).
  assert (Lin : length inner = n).
  { unfold inner. rewrite length_map, length_combine. lia. }
  assert (Lt2 : length term2 = n).
  { unfold term2.
    rewrite length_map, length_combine, zip_with_length
      by (rewrite length_map; lia).
    rewrite length_map. lia. }
  assert (Lz0 : length (zeros2 n npix) = n) by (apply repeat_length).
  assert (Ld1 : length delta1 = n).
  { unfold delta1. rewrite length_map, length_combine. lia. }
  assert (Et1 : forall i, (i < n)%nat ->
            nth i term1 [] = map (Rmult (nth i D 0 * nth i b1 0)) (nth i delta_L [])).
  { intros i Hi. unfold term1.
    rewrite (nth_combine_map _ _ _ i [] 0 [])
      by (rewrite zip_with_length by lia; lia).
    cbn [fst snd]. rewrite nth_zip_with by lia. reflexivity. }
  assert (Ein : forall i, (i < n)%nat ->
            nth i inner [] = map (fun x => square x - nth i d2m 0) (nth i delta_L [])).
  { intros i Hi. unfold inner.
    rewrite (nth_combine_map _ _ _ i [] [] 0) by lia. reflexivity. }
  assert (Et2 : forall i, (i < n)%nat ->
            nth i term2 []
            = map (Rmult (nth i D 0 ^ 2 * nth i b2 0)) (nth i inner [])).
  { intros i Hi. unfold term2.
    rewrite (nth_combine_map _ _ _ i [] 0 [])
      by (rewrite zip_with_length by (rewrite length_map; lia);
          rewrite length_map; lia).
    cbn [fst snd]. rewrite nth_zip_with by (rewrite length_map; lia).
    rewrite (nth_map_lt _ D i 0 0) by lia. reflexivity. }
  assert (Ed1 : forall i, (i < n)%nat ->
            nth i delta1 [] = zip_with Rplus (repeat 0 npix) (nth i term1 [])).
  { intros i Hi. unfold delta1.
    rewrite (nth_combine_map _ _ _ i [] [] []) by lia.
    cbn [fst snd]. unfold zeros2.
    rewrite (nth_indep _ [] (repeat 0 npix)) by (rewrite repeat_length; lia).
    rewrite nth_repeat. reflexivity. }
  apply nth_ext with (d := []) (d' := []).
  - rewrite !length_map, length_combine, length_seq. lia.
  - intros i Hi. rewrite length_map, length_combine in Hi.
    assert (Hi' : (i < n)%nat) by lia. clear Hi.
    rewrite (nth_combine_map _ _ _ i [] [] []) by lia. cbn [fst snd].
    rewrite (nth_map_lt _ (seq 0 n) i [] 0%nat) by (rewrite length_seq; lia).
    rewrite seq_nth by lia. cbn [Nat.add].
    rewrite (Ed1 i Hi'), (Et2 i Hi'), (Et1 i Hi'), (Ein i Hi').
    pose proof (Hrow i Hi') as Lr.
    unfold d2m. rewrite (nth_map_lt _ delta_L i 0 []) by lia.
    unfold D. rewrite (nth_map_lt _ z i 0 0) by lia.
    set (row := nth i delta_L []) in *.
    match goal with
    | |- zip_with Rplus (zip_with Rplus ?zs ?t1) ?t2 = _ =>
        assert (LA : length (zip_with Rplus zs t1) = npix)
          by (rewrite zip_with_length; rewrite ?length_map, repeat_length; lia);
        assert (LB : length t2 = npix) by (rewrite !length_map; exact Lr)
    end.
    apply nth_ext with (d := 0) (d' := 0).
    + rewrite zip_with_length by lia. rewrite length_map. lia.
    + intros j Hj. rewrite zip_with_length in Hj by lia. rewrite LA in Hj.
      rewrite nth_zip_with by lia.
      rewrite nth_zip_with by (rewrite ?length_map, repeat_length; lia).
      rewrite nth_repeat.
      rewrite (nth_map_lt _ row j 0 0) by lia.
      rewrite (nth_map_lt _ (map _ row) j 0 0) by (rewrite length_map; lia).
      rewrite (nth_map_lt _ row j 0 0) by lia.
      rewrite (nth_map_lt _ row j 0 0) by lia.
      unfold square. ring.
Qed.

(** *** Shapes of the intermediate arrays *)

Lemma same_shape_rect (n m : nat) (a b : list (list R)) :
  has_shape n m a -> has_shape n m b -> same_shape a b.
Proof.
  intros [La Ha] [Lb Hb]. subst n. revert b Lb Hb.
  induction Ha as [| x a Hx _ IH]; intros [| y b] Lb Hb; cbn in Lb; try discriminate.
  - constructor.
  - inversion Hb; subst. constructor; [congruence | apply IH; [lia | assumption]].
Qed.

Lemma shape_zeros (n m : nat) : has_shape n m (zeros2 n m).
Proof.
  split; [apply repeat_length |]. apply Forall_forall. intros row Hr.
  apply repeat_spec in Hr. subst row. apply repeat_length.
Qed.

Lemma shape_combine_map {A : Type} (g : A -> list R -> list R) (n m : nat)
    (v : list A) (a : list (list R)) :
  (forall x row, length row = m -> length (g x row) = m) ->
  length v = n -> has_shape n m a ->
  has_shape n m (map (fun p => g (fst p) (snd p)) (combine v a)).
Proof.
  intros Hg Lv [La Ha]. split.
  - rewrite length_map, length_combine. lia.
  - apply Forall_forall. intros r Hr. apply in_map_iff in Hr.
    destruct Hr as [[x row] [<- Hin]]. cbn [fst snd]. apply Hg.
    apply in_combine_r in Hin. rewrite Forall_forall in Ha. apply Ha. exact Hin.
Qed.

Lemma shape_scaled (n m : nat) (v : list R) (a : list (list R)) :
  length v = n -> has_shape n m a ->
  has_shape n m (map (fun p => map (Rmult (fst p)) (snd p)) (combine v a)).
Proof.
  apply (shape_combine_map (fun x row => map (Rmult x) row)).
  intros x row H. rewrite length_map. exact H.
Qed.

Lemma shape_sum (n m : nat) (a b : list (list R)) :
  has_shape n m a -> has_shape n m b ->
  has_shape n m (map (fun p => zip_with Rplus (fst p) (snd p)) (combine a b)).
Proof.
  intros [La Ha] [Lb Hb]. split.
  - rewrite length_map, length_combine. lia.
  - apply Forall_forall. intros r Hr. apply in_map_iff in Hr.
    destruct Hr as [[x y] [<- Hin]]. cbn [fst snd].
    rewrite Forall_forall in Ha, Hb.
    pose proof (Ha x (in_combine_l _ _ _ _ Hin)).
    pose proof (Hb y (in_combine_r _ _ _ _ Hin)).
    rewrite zip_with_length; lia.
Qed.

Lemma shape_centred (n m : nat) (a : list (list R)) (d2m : list R) :
  length d2m = n -> has_shape n m a ->
  has_shape n m (map (fun p => map (fun x => square x - snd p) (fst p))
                     (combine a d2m)).
Proof.
  intros Ld [La Ha]. split.
  - rewrite length_map, length_combine. lia.
  - apply Forall_forall. intros r Hr. apply in_map_iff in Hr.
    destruct Hr as [[row x] [<- Hin]]. cbn [fst snd]. rewrite length_map.
    apply in_combine_l in Hin. rewrite Forall_forall in Ha. apply Ha. exact Hin.
Qed.

Section Bias.

Variable growth_factor : R -> R.

Local Abbreviation process := (GenerateBiasedFieldBase_process growth_factor).

(** The run of the task when both bias orders are implemented and the
    lognormal option is off: a new object is allocated and receives the
    dataset of the specification. *)
Lemma bias_process_run (self : BiasTask) (f_ref : ref) (h : heap)
    (f : Container) (z b1 b2 : list R) :
  nth_error h f_ref = Some f ->
  bias_lognormal self = false ->
  bias_z self f = Ok z -> well_formed f z ->
  growth_factor 0 <> 0 ->
  _bias_1 self z = Ok b1 -> _bias_2 self z = Ok b2 ->
  length b1 = length z -> length b2 = length z ->
  process self f_ref h
  = (h ++ [with_delta (BiasedLSS (bias_lightcone self) (bias_redshift self) f)
             (biased_delta_spec growth_factor z b1 b2 (delta f))],
     Ok (length h)).
Proof.
  intros Hf Hlog Hz [Lz [Lchi [Hrows Hpix]]] Hg0 Hb1 Hb2 L1 L2.
  set (n := length (delta f)) in *. set (npix := length (pixel f)) in *.
  set (D := map (fun zi => growth_factor zi / growth_factor 0) z).
  assert (LD : length D = n) by (unfold D; rewrite length_map; exact Lz).
  assert (Hdelta : has_shape n npix (delta f)) by (split; [reflexivity | exact Hrows]).
  unfold GenerateBiasedFieldBase_process.
  rewrite bind_run, (run_deref _ _ _ Hf).
  rewrite bind_run. unfold alloc at 1.
  set (B0 := BiasedLSS (bias_lightcone self) (bias_redshift self) f).
  rewrite bind_run, run_set_delta_new.
  rewrite bind_run. unfold SE.lift at 1. rewrite Hz.
  rewrite bind_run. unfold SE.lift at 1. unfold growth.
  rewrite (mapM_ok_map _ (fun zi => growth_factor zi / growth_factor 0))
    by (intros zi _; apply FloatFacts.np_div_ok; exact Hg0).
  fold D.
  (* first order *)
  rewrite bind_run.
  assert (E1 : except_NotImplementedError
                 (b0 <~ SE.lift (_bias_1 self z) ;;
                  Db1 <~ SE.lift (mul D b0) ;;
                  term <~ SE.lift (scale_rows (firstn (length (delta f)) Db1) (delta f)) ;;
                  add_to_delta (length h) term)
                 (h ++ [with_delta B0 (zeros2 (length (chi f)) npix)])
               = (h ++ [with_delta B0
                          (map (fun p => zip_with Rplus (fst p) (snd p))
                               (combine (zeros2 n npix)
                                  (map (fun p => map (Rmult (fst p)) (snd p))
                                       (combine (zip_with Rmult D b1) (delta f)))))],
                  Ok tt)).
  { unfold except_NotImplementedError.
    rewrite bind_run. unfold SE.lift at 1. rewrite Hb1.
    rewrite bind_run. unfold SE.lift at 1. rewrite mul_ok by lia.
    rewrite bind_run. unfold SE.lift at 1.
    rewrite firstn_all2 by (rewrite zip_with_length by lia; fold n; lia).
    rewrite scale_rows_ok by (rewrite zip_with_length by lia; fold n; lia).
    rewrite (run_add_to_delta_new h _ _
               (map (fun p => zip_with Rplus (fst p) (snd p))
                    (combine (zeros2 n npix)
                       (map (fun p => map (Rmult (fst p)) (snd p))
                            (combine (zip_with Rmult D b1) (delta f)))))).
    - reflexivity.
    - cbn [delta with_delta]. rewrite Lchi. fold n.
      apply add2_ok. apply (same_shape_rect n npix); [apply shape_zeros |].
      apply shape_scaled; [rewrite zip_with_length by lia; lia | exact Hdelta]. }
  fold npix. rewrite E1.
  (* second order *)
  rewrite bind_run.
  set (d2m := map (fun row => Np.sum (map square row) / INR (length row)) (delta f)).
  set (delta1 := map (fun p => zip_with Rplus (fst p) (snd p))
                     (combine (zeros2 n npix)
                        (map (fun p => map (Rmult (fst p)) (snd p))
                             (combine (zip_with Rmult D b1) (delta f))))).
  assert (E2 : except_NotImplementedError
                 (b0 <~ SE.lift (_bias_2 self z) ;;
                  d2m0 <~ SE.lift (mapM (fun row => Np.mean (map square row)) (delta f)) ;;
                  D2b2 <~ SE.lift (mul (map (fun d => d ^ 2) D) b0) ;;
                  term <~ SE.lift
                    (scale_rows D2b2
                       (map (fun p => map (fun x => square x - snd p) (fst p))
                            (combine (delta f) d2m0))) ;;
                  add_to_delta (length h) term)
                 (h ++ [with_delta B0 delta1])
               = (h ++ [with_delta B0 (biased_delta_code D b1 b2 (delta f) npix)],
                  Ok tt)).
  { unfold except_NotImplementedError.
    rewrite bind_run. unfold SE.lift at 1. rewrite Hb2.
    rewrite bind_run. unfold SE.lift at 1.
    rewrite (mapM_ok_map _ (fun row => Np.sum (map square row) / INR (length row))).
    2:{ intros row Hr. unfold Np.mean. rewrite length_map.
        apply FloatFacts.np_div_ok. apply not_0_INR.
        rewrite Forall_forall in Hrows. rewrite (Hrows row Hr). fold npix. lia. }
    fold d2m.
    rewrite bind_run. unfold SE.lift at 1.
    rewrite mul_ok by (rewrite length_map; lia).
    rewrite bind_run. unfold SE.lift at 1.
    assert (Lv : length (zip_with Rmult (map (fun d => d ^ 2) D) b2) = n).
    { rewrite zip_with_length; rewrite length_map; lia. }
    assert (Hin : has_shape n npix
                    (map (fun p => map (fun x => square x - snd p) (fst p))
                         (combine (delta f) d2m))).
    { apply shape_centred; [unfold d2m; apply length_map | exact Hdelta]. }
    rewrite scale_rows_ok by (rewrite Lv; symmetry; apply (proj1 Hin)).
    rewrite (run_add_to_delta_new h _ _ (biased_delta_code D b1 b2 (delta f) npix)).
    - reflexivity.
    - cbn [delta with_delta]. unfold biased_delta_code. fold n d2m delta1.
      apply add2_ok. apply (same_shape_rect n npix).
      + unfold delta1. apply shape_sum; [apply shape_zeros |].
        apply shape_scaled; [rewrite zip_with_length by lia; lia | exact Hdelta].
      + apply shape_scaled; assumption. }
  fold npix. rewrite E2.
  rewrite bind_run. rewrite Hlog. cbn [SE.ret].
  unfold D. rewrite (biased_delta_code_spec growth_factor z b1 b2 (delta f) npix)
    by assumption.
  reflexivity.
Qed.

End Bias.

End BiasFacts.

Module StageFacts.

Import Spec StateFacts.
Import PyFacts ArrayFacts HeapFacts BiasFacts.
Import Tasks.

Lemma new_instance_intro (h h' : heap) (inputs : list ref) (r' : ref)
    (res : result ref) :
  (res = Ok r' -> r' = length h /\ exists c', h' = h ++ [c']) ->
  (res = Ok r' -> forall r, In r inputs -> exists c, nth_error h r = Some c) ->
  (forall r'', res = Ok r'' -> r'' = r') ->
  returns_new_instance h inputs (h', res).
Proof.
  intros Hnew Hin Huniq r'' Hr. cbn [fst snd] in *.
  pose proof (Huniq r'' Hr) as ->.
  destruct (Hnew Hr) as [-> [c' ->]]. split; [| split].
  - apply nth_error_None. lia.
  - exists c'. apply nth_error_new.
  - intros r Hr'. destruct (Hin Hr r Hr') as [c Hc].
    assert (r < length h)%nat by (apply nth_error_Some; congruence).
    split; [lia |]. split; [exists c; exact Hc |]. apply nth_error_old. assumption.
Qed.

Ltac frame_auto :=
  repeat first
    [ apply frame_ret | apply frame_lift | apply frame_deref
    | apply frame_set_delta | apply frame_add_to_delta | apply frame_except
    | apply frame_bind; [| intros ?]
    | match goal with
      | |- frame _ (if ?b then _ else _) => destruct b
      end ].

Ltac fresh_auto :=
  repeat first
    [ apply fresh_ret
    | apply fresh_bind; [frame_auto | intros ?]
    | match goal with
      | |- fresh _ (if ?b then _ else _) => destruct b
      end ].

(** One step of the part of a task that precedes the allocation. *)
Ltac prefix_step :=
  rewrite bind_run;
  match goal with
  | |- context [deref ?r ?h] =>
      unfold deref at 1; destruct (nth_error h r) eqn:?; [| discriminate]
  | |- context [SE.lift ?x ?h] =>
      unfold SE.lift at 1; destruct x eqn:?; [| discriminate]
  end.

Section Stages.

Variable growth_factor : R -> R.
Variable growth_rate : R -> R.
Variable gradient : list (list R) -> list R -> list (list (list R)).
Variable diff2 : list (list R) -> list R -> list (list R).
Variable ang_theta : nat -> list R.
Variable nside2pixarea : nat -> R.
Variable grid_slice :
  nat -> Za.ndarray -> Za.ndarray -> Za.ndarray -> list R -> nat
  -> Za.ndarray -> Za.ndarray.
Variable sph_slice :
  nat -> Za.ndarray -> Za.ndarray -> Za.ndarray -> Za.ndarray -> R -> nat
  -> Za.ndarray -> Za.ndarray.
Variable _sigma_P : R -> R.
Variable rng_normal : list R -> nat * nat -> list (list R).

Local Abbreviation bias_process := (GenerateBiasedFieldBase_process growth_factor).
Local Abbreviation linear_process :=
  (LinearDynamics_process growth_factor growth_rate diff2).
Local Abbreviation zeldovich_process :=
  (ZeldovichDynamics_process growth_factor growth_rate gradient ang_theta
     grid_slice sph_slice).
Local Abbreviation fog_process := (FingersOfGod_process growth_factor _sigma_P).
Local Abbreviation shot_noise_process :=
  (AddCorrelatedShotNoise_process nside2pixarea rng_normal).

Lemma bias_process_fresh (self : BiasTask) (f_ref : ref) (h h' : heap) (r' : ref) :
  bias_process self f_ref h = (h', Ok r') ->
  (exists f, nth_error h f_ref = Some f)
  /\ r' = length h /\ exists c', h' = h ++ [c'].
Proof.
  unfold GenerateBiasedFieldBase_process.
  prefix_step. rewrite bind_run. unfold alloc at 1.
  intros E. split; [eexists; reflexivity |].
  eapply fresh_after_alloc; [| exact E]. fresh_auto.
Qed.

Lemma linear_process_fresh (redshift_space : bool) (i_ref b_ref : ref)
    (h h' : heap) (r' : ref) :
  linear_process redshift_space i_ref b_ref h = (h', Ok r') ->
  (exists i b, nth_error h i_ref = Some i /\ nth_error h b_ref = Some b)
  /\ r' = length h /\ exists c', h' = h ++ [c'].
Proof.
  unfold LinearDynamics_process.
  prefix_step. prefix_step. prefix_step. prefix_step.
  match goal with p : (nat * list R * list R)%type |- _ => destruct p as [[? ?] ?] end. rewrite bind_run. unfold alloc at 1.
  intros E. split; [eexists; eexists; split; reflexivity |].
  eapply fresh_after_alloc; [| exact E]. fresh_auto.
Qed.

Lemma zeldovich_process_fresh (self : ZeldovichTask) (i_ref b_ref : ref)
    (h h' : heap) (r' : ref) :
  zeldovich_process self i_ref b_ref h = (h', Ok r') ->
  (exists i b, nth_error h i_ref = Some i /\ nth_error h b_ref = Some b)
  /\ r' = length h /\ exists c', h' = h ++ [c'].
Proof.
  unfold ZeldovichDynamics_process.
  prefix_step. prefix_step. prefix_step. prefix_step.
  match goal with p : (nat * list R * list R)%type |- _ => destruct p as [[? ?] ?] end. prefix_step. prefix_step.
  rewrite bind_run. unfold alloc at 1.
  intros E. split; [eexists; eexists; split; reflexivity |].
  eapply fresh_after_alloc; [| exact E]. fresh_auto.
Qed.

Lemma fog_process_fresh (alpha_FoG : R) (f_ref : ref) (h h' : heap) (r' : ref) :
  alpha_FoG <> 0 ->
  fog_process alpha_FoG f_ref h = (h', Ok r') ->
  (exists f, nth_error h f_ref = Some f)
  /\ r' = length h /\ exists c', h' = h ++ [c'].
Proof.
  intros Ha. unfold FingersOfGod_process.
  destruct (Req_dec_T alpha_FoG 0); [contradiction |].
  prefix_step. prefix_step. prefix_step.
  rewrite bind_run. unfold alloc at 1.
  intros E. split; [eexists; reflexivity |].
  eapply fresh_after_alloc; [| exact E]. fresh_auto.
Qed.

(** With [alpha_FoG = 0] the task hands back its input. *)
Lemma fog_process_off (f_ref : ref) (h : heap) :
  fog_process 0 f_ref h = (h, Ok f_ref).
Proof.
  unfold FingersOfGod_process.
  destruct (Req_dec_T 0 0) as [_ | H]; [reflexivity | now elim H].
Qed.

(** The shot noise is added into the input, which is returned. *)
Lemma shot_noise_in_place (_n_eff_z : list R) (r : ref) (h h' : heap) (r' : ref) :
  shot_noise_process _n_eff_z r h = (h', Ok r') ->
  r' = r
  /\ exists c d, nth_error h r = Some c /\ h' = Np.set_nth r (with_delta c d) h.
Proof.
  unfold AddCorrelatedShotNoise_process.
  prefix_step. prefix_step. prefix_step. prefix_step.
  rewrite bind_run. unfold add_to_delta.
  prefix_step. prefix_step.
  match goal with
  | H : Some ?c0 = Some ?c, H' : nth_error h r = Some ?c0 |- _ =>
      injection H as ->; rename H' into Hr
  end.
  unfold set_delta, SE.modify. rewrite Hr. cbn.
  intros E. injection E as <- <-.
  split; [reflexivity |]. eexists. eexists. split; reflexivity.
Qed.

End Stages.

End StageFacts.

Module PipelineClaims.

Import Spec StateFacts.
Import PyFacts ArrayFacts HeapFacts BiasFacts StageFacts.
Import Tasks.

Section Claims.

Variable growth_factor : R -> R.
Variable growth_rate : R -> R.
Variable gradient : list (list R) -> list R -> list (list (list R)).
Variable diff2 : list (list R) -> list R -> list (list R).
Variable ang_theta : nat -> list R.
Variable nside2pixarea : nat -> R.
Variable grid_slice :
  nat -> Za.ndarray -> Za.ndarray -> Za.ndarray -> list R -> nat
  -> Za.ndarray -> Za.ndarray.
Variable sph_slice :
  nat -> Za.ndarray -> Za.ndarray -> Za.ndarray -> Za.ndarray -> R -> nat
  -> Za.ndarray -> Za.ndarray.
Variable _sigma_P : R -> R.
Variable rng_normal : list R -> nat * nat -> list (list R).

Local Abbreviation bias_process := (GenerateBiasedFieldBase_process growth_factor).
Local Abbreviation linear_process :=
  (LinearDynamics_process growth_factor growth_rate diff2).
Local Abbreviation zeldovich_process :=
  (ZeldovichDynamics_process growth_factor growth_rate gradient ang_theta
     grid_slice sph_slice).
Local Abbreviation fog_process := (FingersOfGod_process growth_factor _sigma_P).
Local Abbreviation shot_noise_process :=
  (AddCorrelatedShotNoise_process nside2pixarea rng_normal).

(** C5, as the code has it.  With both bias orders implemented and the
    lognormal option off, the task returns a new [BiasedLSS] whose dataset
    is [D b1 delta + D^2 b2 (delta^2 - <delta^2>)], where [z] is the
    redshift labels of the field on the lightcone and the fixed redshift of
    the task, the same for every shell, otherwise. *)
Theorem bias_process_formula (self : BiasTask) (f_ref : ref) (h : heap)
    (f : Container) (z b1 b2 : list R) :
  nth_error h f_ref = Some f ->
  bias_lognormal self = false ->
  bias_z self f = Ok z -> well_formed f z ->
  growth_factor 0 <> 0 ->
  _bias_1 self z = Ok b1 -> _bias_2 self z = Ok b2 ->
  length b1 = length z -> length b2 = length z ->
  (if bias_lightcone self then redshift_label f = Some z
   else exists z0, bias_redshift self = Some z0
                   /\ z = map (fun _ => z0 * 1) (chi f))
  /\ exists h' r out,
       bias_process self f_ref h = (h', Ok r)
       /\ nth_error h' r = Some out
       /\ delta out = biased_delta_spec growth_factor z b1 b2 (delta f).
Proof.
  intros Hf Hlog Hz Hwf Hg0 Hb1 Hb2 L1 L2. split.
  - unfold bias_z, redshift in Hz. destruct (bias_lightcone self).
    + destruct (redshift_label f); [injection Hz as ->; reflexivity | discriminate].
    + destruct (bias_redshift self) as [z0 |]; [| discriminate].
      injection Hz as <-. exists z0. split; reflexivity.
  - eexists. eexists. eexists. split; [| split].
    + apply (bias_process_run growth_factor self f_ref h f z b1 b2); assumption.
    + apply nth_error_new.
    + reflexivity.
Qed.

Lemma returns_new_instance_of_fresh (h : heap) (inputs : list ref)
    (run : heap * result ref) :
  (forall h' r', run = (h', Ok r') ->
     (forall r, In r inputs -> exists c, nth_error h r = Some c)
     /\ r' = length h /\ exists c', h' = h ++ [c']) ->
  returns_new_instance h inputs run.
Proof.
  intros H r' Hr. destruct run as [h' res]. cbn [fst snd] in *. subst res.
  destruct (H h' r' eq_refl) as [Hin [-> [c' ->]]]. split; [| split].
  - apply nth_error_None. lia.
  - exists c'. apply nth_error_new.
  - intros r Hr. destruct (Hin r Hr) as [c Hc].
    assert (r < length h)%nat by (apply nth_error_Some; congruence).
    split; [lia |]. split; [exists c; exact Hc |]. apply nth_error_old. assumption.
Qed.

(** C6, as the code has it.  The bias task, the two dynamics tasks and the
    Fingers-of-God task with [alpha_FoG <> 0] return an object that did not
    exist before and leave their inputs as they were; with [alpha_FoG = 0]
    the Fingers-of-God task returns its input itself, unchanged; the
    shot-noise task returns its input, of which it changes the dataset and
    nothing else. *)
Theorem stages_return_new_instance (h : heap) :
  (forall self f, returns_new_instance h [f] (bias_process self f h))
  /\ (forall rs i b, returns_new_instance h [i; b] (linear_process rs i b h))
  /\ (forall self i b, returns_new_instance h [i; b] (zeldovich_process self i b h))
  /\ (forall alpha f, alpha <> 0 ->
                      returns_new_instance h [f] (fog_process alpha f h))
  /\ (forall f, fog_process 0 f h = (h, Ok f))
  /\ (forall n_eff f h' r',
        shot_noise_process n_eff f h = (h', Ok r') ->
        r' = f /\ length h' = length h
        /\ forall r, r <> f -> nth_error h' r = nth_error h r).
Proof.
  split; [intros self f | split; [intros rs i b | split; [intros self i b |
    split; [intros alpha f Ha | split; [intros f | intros n_eff f h' r' H]]]]].
  - apply returns_new_instance_of_fresh. intros h' r' E.
    destruct (bias_process_fresh _ _ _ _ _ _ E) as [[c Hc] Hnew].
    split; [| exact Hnew]. intros r [<- | []]. exists c. exact Hc.
  - apply returns_new_instance_of_fresh. intros h' r' E.
    destruct (linear_process_fresh _ _ _ _ _ _ _ _ _ E) as [[ci [cb [Hi Hb]]] Hnew].
    split; [| exact Hnew]. intros r [<- | [<- | []]]; eexists; eassumption.
  - apply returns_new_instance_of_fresh. intros h' r' E.
    destruct (zeldovich_process_fresh _ _ _ _ _ _ _ _ _ _ _ _ E)
      as [[ci [cb [Hi Hb]]] Hnew].
    split; [| exact Hnew]. intros r [<- | [<- | []]]; eexists; eassumption.
  - apply returns_new_instance_of_fresh. intros h' r' E.
    destruct (fog_process_fresh _ _ _ _ _ _ _ Ha E) as [[c Hc] Hnew].
    split; [| exact Hnew]. intros r [<- | []]. exists c. exact Hc.
  - apply fog_process_off.
  - destruct (shot_noise_in_place _ _ _ _ _ _ _ H) as [-> [c [d [_ ->]]]].
    split; [reflexivity |]. split; [apply set_nth_length |].
    intros r Hr. apply nth_error_set_nth_other. congruence.
Qed.

End Claims.

Import Examples.

Lemma matter_growth_today : matter_growth 0 <> 0.
Proof. unfold matter_growth. apply Rinv_neq_0_compat. lra. Qed.

Lemma one_pixel_well_formed (z : R) : well_formed one_pixel [z].
Proof.
  split; [reflexivity |]. split; [reflexivity |]. split; [| cbn; lia].
  repeat constructor.
Qed.

Lemma bias_process_formula_witness :
  exists h' r out,
    GenerateBiasedFieldBase_process matter_growth (unit_bias true None) 0%nat
      [one_pixel] = (h', Ok r)
    /\ nth_error h' r = Some out
    /\ delta out = biased_delta_spec matter_growth [1] [1] [0] [[1]].
Proof.
  exact (proj2 (bias_process_formula matter_growth (unit_bias true None) 0%nat
                  [one_pixel] one_pixel [1] [1] [0]
                  eq_refl eq_refl eq_refl (one_pixel_well_formed 1)
                  matter_growth_today eq_refl eq_refl eq_refl eq_refl)).
Defined.

(** C5 as stated fails off the lightcone: with the fixed redshift 0 the
    task applies the growth factor of redshift 0 to a shell labelled with
    redshift 1, and the dataset is not the one the labels give. *)
Lemma bias_process_fixed_redshift_counterexample :
  exists h' r out,
    GenerateBiasedFieldBase_process matter_growth (unit_bias false (Some 0)) 0%nat
      [one_pixel] = (h', Ok r)
    /\ nth_error h' r = Some out
    /\ delta out <> biased_delta_spec matter_growth [1] [1] [0] [[1]].
Proof.
  eexists. eexists. eexists. split; [| split].
  - apply (bias_process_run matter_growth (unit_bias false (Some 0)) 0%nat
             [one_pixel] one_pixel [0 * 1] [1] [0]
             eq_refl eq_refl eq_refl (one_pixel_well_formed (0 * 1))
             matter_growth_today eq_refl eq_refl eq_refl eq_refl).
  - apply nth_error_new.
  - cbn [delta with_delta one_pixel]. unfold biased_delta_spec.
    cbn [length seq map nth]. intros H. injection H as H.
    unfold matter_growth, square in H. cbn [INR] in H.
    assert (E1 : / (1 + 0 * 1) / / (1 + 0) = 1) by (field; lra).
    assert (E2 : / (1 + 1) / / (1 + 0) = 1 / 2) by (field; lra).
    rewrite E1, E2 in H. lra.
Qed.

Lemma stages_return_new_instance_witness :
  exists h' r',
    GenerateBiasedFieldBase_process matter_growth (unit_bias true None) 0%nat
      [one_pixel] = (h', Ok r')
    /\ r' <> 0%nat /\ nth_error h' 0%nat = Some one_pixel.
Proof.
  pose proof (bias_process_run matter_growth (unit_bias true None) 0%nat
                [one_pixel] one_pixel [1] [1] [0]
                eq_refl eq_refl eq_refl (one_pixel_well_formed 1)
                matter_growth_today eq_refl eq_refl eq_refl eq_refl) as E.
  eexists. eexists. split; [exact E |].
  destruct (proj1 (stages_return_new_instance matter_growth (fun z => z)
                     (fun _ _ => []) (fun _ _ => []) (fun _ => [])
                     (fun _ => 1) (fun _ _ _ _ _ _ out => out)
                     (fun _ _ _ _ _ _ _ out => out) (fun _ => 1)
                     (fun _ _ => []) [one_pixel])
              (unit_bias true None) 0%nat 1%nat
              ltac:(rewrite E; reflexivity))
    as [_ [_ H]].
  destruct (H 0%nat (or_introl eq_refl)) as [Hne [_ Hsame]].
  split; [exact Hne |]. rewrite E in Hsame. exact Hsame.
Defined.

(** C6 as stated fails for the Fingers-of-God task with [alpha_FoG = 0]:
    the object returned is the input. *)
Lemma fog_process_off_counterexample :
  ~ returns_new_instance [one_pixel] [0%nat]
      (FingersOfGod_process matter_growth (fun _ => 1) 0 0%nat [one_pixel]).
Proof.
  intros H. rewrite fog_process_off in H.
  destruct (H 0%nat eq_refl) as [_ [_ H3]].
  destruct (H3 0%nat (or_introl eq_refl)) as [Hne _]. apply Hne. reflexivity.
Qed.

End PipelineClaims.

(** * Further properties of the code *)

(** ** Richardson extrapolation in general *)

Module RichardsonTable.

Import Corrfunc Series.
Import FloatFacts PyFacts ArrayFacts RichardsonFacts.

Lemma richardson_row_length (e : nat -> R) (t : R) (p : Z) (i : nat) :
  length (richardson_row e t p i) = S i.
Proof. unfold richardson_row. rewrite length_map, length_seq. reflexivity. Qed.

Lemma richardson_row_nth (e : nat -> R) (t : R) (p : Z) (i j : nat) :
  (j <= i)%nat -> nth j (richardson_row e t p i) 0 = richardson_entry e t p i j.
Proof.
  intros H. unfold richardson_row. rewrite nth_map_seq.
  destruct (j <? S i)%nat eqn:E; [reflexivity | apply Nat.ltb_ge in E; lia].
Qed.

Lemma richardson_table_nth (e : nat -> R) (t : R) (p : Z) (k i : nat) :
  (i < k)%nat -> nth i (richardson_table e t p k) [] = richardson_row e t p i.
Proof.
  intros H. unfold richardson_table. rewrite nth_map_seq.
  destruct (i <? k)%nat eqn:E; [reflexivity | apply Nat.ltb_ge in E; lia].
Qed.

(** The inner loop extends the first [col_ind] entries of row [row_ind] to
    the whole row. *)
Lemma cols_run (e : nat -> R) (t : R) (p : Z) (row_ind : nat) :
  t <> 0 ->
  (forall j, (1 <= j <= row_ind)%nat -> powerRZ t (Z.of_nat j * p) <> 1) ->
  forall todo col_ind : nat,
    (1 <= col_ind)%nat -> (col_ind + todo = row_ind + 1)%nat ->
    richardson_cols t p (richardson_table e t p row_ind) row_ind todo col_ind
      (map (richardson_entry e t p row_ind) (seq 0 col_ind))
    = Ok (richardson_row e t p row_ind).
Proof.
  intros Ht Hne. induction todo as [| todo IH]; intros col_ind H1 Hsum.
  - cbn [richardson_cols]. unfold richardson_row.
    replace (S row_ind) with col_ind by lia. reflexivity.
  - rewrite (richardson_cols_step t p _ row_ind todo col_ind _
               (richardson_row e t p (row_ind - 1))
               (richardson_entry e t p row_ind (col_ind - 1))
               (richardson_entry e t p (row_ind - 1) (col_ind - 1)) Ht).
    + replace (map (richardson_entry e t p row_ind) (seq 0 col_ind)
               ++ [(powerRZ t (Z.of_nat col_ind * p)
                    * richardson_entry e t p row_ind (col_ind - 1)
                    - richardson_entry e t p (row_ind - 1) (col_ind - 1))
                   / (powerRZ t (Z.of_nat col_ind * p) - 1)])
        with (map (richardson_entry e t p row_ind) (seq 0 (S col_ind))).
      { apply IH; lia. }
      rewrite seq_S, map_app. cbn [map Nat.add]. f_equal. f_equal.
      destruct col_ind as [| c]; [lia |].
      cbn [richardson_entry]. replace (S c - 1)%nat with c by lia. reflexivity.
    + replace (Z.of_nat col_ind - 1)%Z with (Z.of_nat (col_ind - 1)) by lia.
      rewrite (index_nat _ (col_ind - 1) 0)
        by (rewrite length_map, length_seq; lia).
      rewrite nth_map_seq.
      destruct (col_ind - 1 <? col_ind)%nat eqn:E;
        [reflexivity | apply Nat.ltb_ge in E; lia].
    + replace (Z.of_nat row_ind - 1)%Z with (Z.of_nat (row_ind - 1)) by lia.
      rewrite (index_nat _ (row_ind - 1) [])
        by (unfold richardson_table; rewrite length_map, length_seq; lia).
      rewrite richardson_table_nth by lia. reflexivity.
    + replace (Z.of_nat col_ind - 1)%Z with (Z.of_nat (col_ind - 1)) by lia.
      rewrite (index_nat _ (col_ind - 1) 0)
        by (rewrite richardson_row_length; lia).
      rewrite richardson_row_nth by lia. reflexivity.
    + apply Hne. lia.
Qed.

(** The outer loop extends the first [row_ind] rows to the whole table. *)
Lemma rows_run (estimates : list R) (t : R) (p : Z) :
  t <> 0 ->
  (forall j, (1 <= j < length estimates)%nat -> powerRZ t (Z.of_nat j * p) <> 1) ->
  forall todo row_ind : nat,
    (row_ind + todo = length estimates)%nat ->
    richardson_rows estimates t p todo row_ind
      (richardson_table (fun i => nth i estimates 0) t p row_ind)
    = Ok (richardson_table (fun i => nth i estimates 0) t p (length estimates)).
Proof.
  intros Ht Hne. induction todo as [| todo IH]; intros row_ind Hsum.
  - cbn [richardson_rows]. replace row_ind with (length estimates) by lia.
    reflexivity.
  - cbn [richardson_rows].
    rewrite (index_nat estimates row_ind 0) by lia. cbn [bind].
    change [nth row_ind estimates 0]
      with (map (richardson_entry (fun i => nth i estimates 0) t p row_ind)
                (seq 0 1)).
    rewrite (cols_run (fun i => nth i estimates 0) t p row_ind Ht
               ltac:(intros j Hj; apply Hne; lia) row_ind 1%nat
               ltac:(lia) ltac:(lia)).
    cbn [bind].
    replace (richardson_table (fun i => nth i estimates 0) t p row_ind
             ++ [richardson_row (fun i => nth i estimates 0) t p row_ind])
      with (richardson_table (fun i => nth i estimates 0) t p (S row_ind)).
    { apply IH. lia. }
    unfold richardson_table. rewrite seq_S, map_app. reflexivity.
Qed.

(** What [richardson] returns on floats, all divisors being non-zero. *)
Lemma richardson_runs (estimates : list R) (t : R) (base_pow : Z) :
  t <> 0 ->
  (forall j, (1 <= j < length estimates)%nat ->
             powerRZ t (Z.of_nat j * base_pow) <> 1) ->
  let e := fun i => nth i estimates 0 in
  let k := length estimates in
  richardson estimates t base_pow true
  = Ok (Table (richardson_table e t base_pow k))
  /\ ((1 <= k)%nat ->
      richardson estimates t base_pow false
      = Ok (Apex (richardson_entry e t base_pow (k - 1) (k - 1)))).
Proof.
  intros Ht Hne e k.
  pose proof (rows_run estimates t base_pow Ht Hne (length estimates) 0%nat eq_refl)
    as Hrows.
  change (richardson_table (fun i => nth i estimates 0) t base_pow 0) with
    (@nil (list R)) in Hrows.
  split.
  - unfold richardson. rewrite Hrows. reflexivity.
  - intros Hk. unfold richardson. rewrite Hrows. cbn [bind].
    replace (Z.of_nat (length estimates) - 1)%Z
      with (Z.of_nat (length estimates - 1)) by lia.
    rewrite (index_nat _ (length estimates - 1) [])
      by (unfold richardson_table; rewrite length_map, length_seq; lia).
    cbn [bind]. rewrite richardson_table_nth by lia.
    rewrite (index_nat _ (length estimates - 1) 0)
      by (rewrite richardson_row_length; lia).
    cbn [bind]. rewrite richardson_row_nth by lia. reflexivity.
Qed.

(** X1.  On floats, for a ratio [t <> 0] none of whose powers
    [t ** (j * base_pow)], [1 <= j < k], is 1, [richardson] returns: the
    table is triangular, row [i] has [i + 1] entries, its first column is
    the estimates and every other entry [(i, j)] is
    [(t^n T[i][j-1] - T[i-1][j-1]) / (t^n - 1)] with [n = j * base_pow];
    without [return_table] the value returned is the last entry of the last
    row. *)
Theorem richardson_table_recurrence (estimates : list R) (t : R) (base_pow : Z) :
  t <> 0 ->
  (forall j, (1 <= j < length estimates)%nat ->
             powerRZ t (Z.of_nat j * base_pow) <> 1) ->
  exists table,
    richardson estimates t base_pow true = Ok (Table table)
    /\ length table = length estimates
    /\ (forall i, (i < length estimates)%nat ->
          length (nth i table []) = S i
          /\ nth 0 (nth i table []) 0 = nth i estimates 0
          /\ forall j, (1 <= j <= i)%nat ->
               nth j (nth i table []) 0
               = (powerRZ t (Z.of_nat j * base_pow) * nth (j - 1) (nth i table []) 0
                  - nth (j - 1) (nth (i - 1) table []) 0)
                 / (powerRZ t (Z.of_nat j * base_pow) - 1))
    /\ ((1 <= length estimates)%nat ->
        richardson estimates t base_pow false
        = Ok (Apex (nth (length estimates - 1)
                        (nth (length estimates - 1) table []) 0))).
Proof.
  intros Ht Hne.
  destruct (richardson_runs estimates t base_pow Ht Hne) as [Htab Hapex].
  eexists. split; [exact Htab |]. split; [| split].
  - unfold richardson_table. rewrite length_map, length_seq. reflexivity.
  - intros i Hi. rewrite richardson_table_nth by exact Hi.
    split; [apply richardson_row_length |]. split.
    + rewrite richardson_row_nth by lia. reflexivity.
    + intros j Hj. rewrite richardson_table_nth by lia.
      rewrite !richardson_row_nth by lia.
      destruct j as [| j]; [lia |]. cbn [richardson_entry].
      replace (S j - 1)%nat with j by lia. reflexivity.
  - intros Hk. rewrite (Hapex Hk).
    rewrite richardson_table_nth by lia.
    rewrite richardson_row_nth by lia. reflexivity.
Qed.

Lemma richardson_table_recurrence_witness :
  exists table,
    richardson [3; 2] 2 1 true = Ok (Table table)
    /\ nth 1 (nth 1 table []) 0
       = (powerRZ 2 (Z.of_nat 1 * 1) * nth 0 (nth 1 table []) 0
          - nth 0 (nth 0 table []) 0) / (powerRZ 2 (Z.of_nat 1 * 1) - 1).
Proof.
  destruct (richardson_table_recurrence [3; 2] 2 1) as [table [E [_ [H _]]]].
  - lra.
  - intros j Hj. apply powerRZ_neq_1; [lra | lia].
  - exists table. split; [exact E |].
    exact (proj2 (proj2 (H 1%nat ltac:(cbn; lia))) 1%nat ltac:(lia)).
Defined.

(** *** Series with finitely many error terms *)

Lemma sum_map_lin {A : Type} (x y : R) (f g : A -> R) (l : list A) :
  Np.sum (map (fun q => x * f q + y * g q) l)
  = x * Np.sum (map f l) + y * Np.sum (map g l).
Proof.
  induction l as [| q l IH]; cbn [map].
  - rewrite !sum_nil. ring.
  - rewrite !sum_cons, IH. ring.
Qed.

Lemma remaining_zero (a : list R) (t : R) (p : Z) (j q : nat) :
  (q < j)%nat -> remaining a t p j q = 0.
Proof.
  induction j as [| j IH]; intros H; [lia |].
  cbn [remaining]. destruct (Nat.eq_dec q j) as [-> | Hq].
  - replace (powerRZ t (Z.of_nat (S j) * p) - powerRZ t (Z.of_nat (S j) * p))
      with 0 by ring.
    unfold Rdiv. ring.
  - rewrite IH by lia. ring.
Qed.

Lemma richardson_entry_ext (e e' : nat -> R) (t : R) (p : Z) (j i : nat) :
  (forall i', (i' <= i)%nat -> e i' = e' i') ->
  richardson_entry e t p i j = richardson_entry e' t p i j.
Proof.
  revert i. induction j as [| j IH]; intros i H; cbn [richardson_entry].
  - apply H. lia.
  - rewrite (IH i H), (IH (i - 1)%nat) by (intros; apply H; lia). reflexivity.
Qed.

(** Column [j] of the table of a series holds the series without its first
    [j] error terms. *)
Lemma entry_series (L : R) (a : list R) (h0 t : R) (p : Z) :
  1 < t -> p <> 0%Z ->
  forall j i : nat, (j <= i)%nat ->
    richardson_entry (fun i => error_series L a p (h0 / t ^ i)) t p i j
    = L + Np.sum (map (fun q => remaining a t p j q
                                * powerRZ (h0 / t ^ i) (Z.of_nat (S q) * p))
                      (seq 0 (length a))).
Proof.
  intros Ht Hp. induction j as [| j IH]; intros i Hi.
  - reflexivity.
  - cbn [richardson_entry remaining].
    rewrite (IH i) by lia. rewrite (IH (i - 1)%nat) by lia.
    set (s := powerRZ t (Z.of_nat (S j) * p)).
    assert (Hs : s <> 1) by (apply powerRZ_neq_1; [exact Ht | lia]).
    assert (Ht0 : t <> 0) by lra.
    assert (Hti : t ^ (i - 1) <> 0) by (apply pow_nonzero; exact Ht0).
    assert (Hx : forall q,
               powerRZ (h0 / t ^ (i - 1)) (Z.of_nat (S q) * p)
               = powerRZ t (Z.of_nat (S q) * p)
                 * powerRZ (h0 / t ^ i) (Z.of_nat (S q) * p)).
    { intros q. rewrite <- powerRZ_mult. f_equal.
      replace i with (S (i - 1)) at 2 by lia. simpl. field. split; assumption. }
    rewrite (sum_map_ext
               (fun q => remaining a t p j q
                         * powerRZ (h0 / t ^ (i - 1)) (Z.of_nat (S q) * p))
               (fun q => remaining a t p j q
                         * (powerRZ t (Z.of_nat (S q) * p)
                            * powerRZ (h0 / t ^ i) (Z.of_nat (S q) * p))))
      by (intros q _; rewrite Hx; reflexivity).
    rewrite (sum_map_ext
               (fun q => remaining a t p j q
                         * ((s - powerRZ t (Z.of_nat (S q) * p)) / (s - 1))
                         * powerRZ (h0 / t ^ i) (Z.of_nat (S q) * p))
               (fun q => (s / (s - 1))
                         * (remaining a t p j q
                            * powerRZ (h0 / t ^ i) (Z.of_nat (S q) * p))
                         + (- / (s - 1))
                           * (remaining a t p j q
                              * (powerRZ t (Z.of_nat (S q) * p)
                                 * powerRZ (h0 / t ^ i) (Z.of_nat (S q) * p)))))
      by (intros q _; field; lra).
    rewrite sum_map_lin. field. lra.
Qed.

(** X2.  A sequence of [k] estimates [f(h0 / t^i)] of a quantity [L] whose
    error series has at most [k - 1] terms, in the powers [p], [2 p], ... of
    the step, is extrapolated to [L] exactly: with [base_pow = p] and a
    ratio [t > 1] the apex of the table is [L]. *)
Theorem richardson_cancels_series (L : R) (a : list R) (h0 t : R) (p : Z) (k : nat) :
  1 < t -> p <> 0%Z -> (length a < k)%nat ->
  richardson (map (fun i => error_series L a p (h0 / t ^ i)) (seq 0 k)) t p false
  = Ok (Apex L).
Proof.
  intros Ht Hp Hk.
  set (estimates := map (fun i => error_series L a p (h0 / t ^ i)) (seq 0 k)).
  assert (Lk : length estimates = k)
    by (unfold estimates; rewrite length_map, length_seq; reflexivity).
  destruct (richardson_runs estimates t p ltac:(lra)) as [_ Hapex].
  { intros j Hj. apply powerRZ_neq_1; [exact Ht | lia]. }
  rewrite Hapex by lia. rewrite Lk. f_equal. f_equal.
  rewrite (richardson_entry_ext _ (fun i => error_series L a p (h0 / t ^ i))).
  2:{ intros i Hi. unfold estimates. rewrite nth_map_seq.
      destruct (i <? k)%nat eqn:E; [reflexivity | apply Nat.ltb_ge in E; lia]. }
  rewrite (entry_series L a h0 t p Ht Hp) by lia.
  rewrite (sum_map_ext _ (fun _ => 0)).
  - rewrite sum_map_zero. ring.
  - intros q Hq. apply in_seq in Hq. rewrite remaining_zero by lia. ring.
Qed.

Lemma richardson_cancels_series_witness :
  richardson (map (fun i => error_series 1 [1; 1] 1 (1 / 2 ^ i)) (seq 0 3)) 2 1 false
  = Ok (Apex 1).
Proof.
  exact (richardson_cancels_series 1 [1; 1] 1 2 1 3
           ltac:(lra) ltac:(discriminate) ltac:(cbn; lia)).
Defined.

End RichardsonTable.


(** ** Edge cases of [richardson] *)

Module RichardsonEdges.

Import Corrfunc.
Import FloatFacts PyFacts.

(** X3.  On floats: without estimates the table is empty and asking for
    its apex raises [IndexError]; a single estimate is returned as it is,
    whatever [t] and [base_pow]; with two estimates or more, a ratio
    [t <> 0] whose power [t ** base_pow] is 1 ([t = 1], or [base_pow = 0])
    makes the first divisor zero and the call raises
    [ZeroDivisionError]. *)
Theorem richardson_edge_cases :
  (forall (t : R) (base_pow : Z),
      richardson (@nil R) t base_pow true = Ok (Table [])
      /\ richardson (@nil R) t base_pow false = Raise IndexError)
  /\ (forall (e0 t : R) (base_pow : Z),
         richardson [e0] t base_pow false = Ok (Apex e0))
  /\ (forall (e0 e1 : R) (rest : list R) (t : R) (base_pow : Z)
             (return_table : bool),
         t <> 0 -> powerRZ t base_pow = 1 ->
         richardson (e0 :: e1 :: rest) t base_pow return_table
         = Raise ZeroDivisionError).
Proof.
  split; [| split].
  - intros t base_pow. split; reflexivity.
  - intros e0 t base_pow. reflexivity.
  - intros e0 e1 rest t base_pow return_table Ht Hp.
    unfold richardson. cbn [length richardson_rows].
    rewrite (index_nat (e0 :: e1 :: rest) 0 0) by (cbn [length]; lia).
    cbn [bind richardson_cols app nth].
    rewrite (index_nat (e0 :: e1 :: rest) 1 0) by (cbn [length]; lia).
    cbn [bind richardson_cols nth].
    rewrite pow_ok by exact Ht.
    replace (Z.of_nat 1 * base_pow)%Z with base_pow by lia.
    cbn [bind].
    change (index [e1] (Z.of_nat 1 - 1)) with (Ok e1).
    change (index [[e0]] (Z.of_nat 1 - 1)) with (Ok [e0]).
    change (index [e0] (Z.of_nat 1 - 1)) with (Ok e0).
    cbn [bind fal_sub fal_scale fal_div FloatArrayLike_float].
    rewrite Hp. unfold Float.div.
    destruct (Req_dec_T (1 - 1) 0) as [_ | C]; [reflexivity |].
    exfalso. apply C. ring.
Qed.

Lemma richardson_edge_cases_witness :
  richardson [3; 2] 1 1 false = Raise ZeroDivisionError.
Proof.
  exact (proj2 (proj2 richardson_edge_cases) 3 2 [] 1 1%Z false
           ltac:(lra) (powerRZ_1 1)).
Defined.

End RichardsonEdges.

(** ** Bin widths *)

Module WidthFacts.

Import Lss.
Import FloatFacts PyFacts ArrayFacts KernelFacts.

Lemma nth_set_slice {A : Type} (vals : list A) :
  forall (start : nat) (l : list A) (j : nat) (d : A),
    nth j (set_slice start vals l) d
    = if ((start <=? j) && (j <? start + length vals) && (j <? length l))%nat
      then nth (j - start) vals d else nth j l d.
Proof.
  induction vals as [| v vals IH]; intros start l j d; cbn [set_slice length].
  - replace (start + 0)%nat with start by lia.
    destruct (start <=? j)%nat eqn:E1, (j <? start)%nat eqn:E2; cbn [andb];
      try reflexivity.
    apply Nat.leb_le in E1. apply Nat.ltb_lt in E2. lia.
  - rewrite IH, set_nth_length, nth_set_nth.
    destruct (S start <=? j)%nat eqn:E1, (j <? S start + length vals)%nat eqn:E2,
             (j <? length l)%nat eqn:E3, (start <=? j)%nat eqn:E4,
             (j <? start + S (length vals))%nat eqn:E5,
             (start =? j)%nat eqn:E6, (start <? length l)%nat eqn:E7;
      cbn [andb];
      repeat match goal with
             | H : (_ <=? _)%nat = true |- _ => apply Nat.leb_le in H
             | H : (_ <=? _)%nat = false |- _ => apply Nat.leb_gt in H
             | H : (_ <? _)%nat = true |- _ => apply Nat.ltb_lt in H
             | H : (_ <? _)%nat = false |- _ => apply Nat.ltb_ge in H
             | H : (_ =? _)%nat = true |- _ => apply Nat.eqb_eq in H
             | H : (_ =? _)%nat = false |- _ => apply Nat.eqb_neq in H
             end;
      try lia; try reflexivity.
    + replace (j - start)%nat with (S (j - S start)) by lia. reflexivity.
    + subst j. replace (start - start)%nat with 0%nat by lia. reflexivity.
Qed.

(** [seq[-k]] for [1 <= k <= len(seq)]. *)
Lemma index_neg {A : Type} (l : list A) (k : nat) (d : A) :
  (1 <= k <= length l)%nat ->
  index l (- Z.of_nat k) = Ok (nth (length l - k) l d).
Proof.
  intros Hk. unfold index.
  destruct (- Z.of_nat k <? 0)%Z eqn:E; [| apply Z.ltb_ge in E; lia].
  replace (- Z.of_nat k + Z.of_nat (length l))%Z
    with (Z.of_nat (length l - k)) by lia.
  destruct ((Z.of_nat (length l - k) <? 0)
            || (Z.of_nat (length l) <=? Z.of_nat (length l - k)))%Z eqn:E2.
  { apply orb_prop in E2. destruct E2 as [E2 | E2];
      [apply Z.ltb_lt in E2 | apply Z.leb_le in E2]; lia. }
  rewrite Nat2Z.id.
  destruct (nth_error l (length l - k)) as [a |] eqn:En.
  - f_equal. symmetry. apply nth_error_nth. exact En.
  - apply nth_error_None in En. lia.
Qed.

Lemma nth_combine_lt {A B : Type} (a : list A) (b : list B) (i : nat)
    (da : A) (db : B) :
  (i < length a)%nat -> (i < length b)%nat ->
  nth i (combine a b) (da, db) = (nth i a da, nth i b db).
Proof.
  revert b i. induction a as [| x a IH]; intros [| y b] i Ha Hb;
    cbn [length] in *; try lia.
  destruct i as [| i]; [reflexivity |]. cbn [combine nth]. apply IH; lia.
Qed.

Lemma nth_interior (centres : list R) (j : nat) :
  (j + 2 < length centres)%nat ->
  nth j (map (fun p => (fst p - snd p) / 2) (combine (skipn 2 centres) centres)) 0
  = (nth (j + 2) centres 0 - nth j centres 0) / 2.
Proof.
  intros Hj.
  rewrite (nth_map_lt _ _ _ 0 (0, 0))
    by (rewrite length_combine, length_skipn; lia).
  rewrite nth_combine_lt by (rewrite ?length_skipn; lia).
  cbn [fst snd]. rewrite nth_skipn. f_equal. f_equal. f_equal. lia.
Qed.

(** The widths of three bins or more, entry by entry. *)
Lemma calculate_width_entries (centres : list R) :
  (3 <= length centres)%nat ->
  let c := fun i => nth i centres 0 in
  let n := length centres in
  exists w,
    _calculate_width centres = Ok w /\ length w = n
    /\ nth 0 w 0 = Rabs (2 * (c 1%nat - (c 2%nat - c 0%nat) / 2 / 2 - c 0%nat))
    /\ (forall j, (1 <= j <= n - 2)%nat ->
          nth j w 0 = Rabs ((c (j + 1)%nat - c (j - 1)%nat) / 2))
    /\ nth (n - 1) w 0
       = Rabs (2 * (c (n - 1)%nat - (c (n - 1)%nat - c (n - 3)%nat) / 2 / 2
                    - c (n - 2)%nat)).
Proof.
  intros Hn c n. unfold _calculate_width. fold n.
  set (interior := map (fun p => (fst p - snd p) / 2)
                       (combine (skipn 2 centres) centres)).
  assert (Li : length interior = (n - 2)%nat).
  { unfold interior. rewrite length_map, length_combine, length_skipn.
    fold n. lia. }
  set (W1 := set_slice 1 interior (repeat 0 n)).
  assert (L1 : length W1 = n)
    by (unfold W1; rewrite set_slice_length, repeat_length; reflexivity).
  assert (N1 : forall j, (1 <= j <= n - 2)%nat ->
                         nth j W1 0 = (c (j + 1)%nat - c (j - 1)%nat) / 2).
  { intros j Hj. unfold W1. rewrite nth_set_slice, repeat_length, Li.
    destruct (1 <=? j)%nat eqn:E1; [| apply Nat.leb_gt in E1; lia].
    destruct (j <? 1 + (n - 2))%nat eqn:E2; [| apply Nat.ltb_ge in E2; lia].
    destruct (j <? n)%nat eqn:E3; [| apply Nat.ltb_ge in E3; lia].
    cbn [andb]. unfold interior. rewrite nth_interior by (fold n; lia).
    unfold c. f_equal. f_equal; f_equal; lia. }
  change 1%Z with (Z.of_nat 1). change 0%Z with (Z.of_nat 0).
  rewrite (index_nat centres 1 0) by (fold n; lia). cbn [bind].
  rewrite (index_nat W1 1 0) by lia. cbn [bind].
  rewrite (index_nat centres 0 0) by (fold n; lia). cbn [bind].
  set (W2 := Np.set_nth 0 _ W1).
  assert (L2 : length W2 = n) by (unfold W2; rewrite set_nth_length; exact L1).
  change (-1)%Z with (- Z.of_nat 1)%Z. change (-2)%Z with (- Z.of_nat 2)%Z.
  rewrite (index_neg centres 1 0) by (fold n; lia). cbn [bind].
  rewrite (index_neg W2 2 0) by lia. cbn [bind].
  rewrite (index_neg centres 2 0) by (fold n; lia). cbn [bind].
  fold n. rewrite L2.
  set (W3 := Np.set_nth (n - 1) _ W2).
  eexists. split; [reflexivity |].
  assert (L3 : length W3 = n) by (unfold W3; rewrite set_nth_length; exact L2).
  split; [rewrite length_map; exact L3 |].
  assert (N2 : forall j, (1 <= j <= n - 2)%nat -> nth j W2 0 = nth j W1 0).
  { intros j Hj. unfold W2. rewrite nth_set_nth.
    destruct (0 =? j)%nat eqn:E; [apply Nat.eqb_eq in E; lia | reflexivity]. }
  split; [| split].
  - rewrite (nth_map_lt _ _ _ 0 0) by lia. f_equal.
    unfold W3. rewrite nth_set_nth.
    destruct (n - 1 =? 0)%nat eqn:E; [apply Nat.eqb_eq in E; lia |].
    cbn [andb]. unfold W2. rewrite nth_set_nth, L1.
    destruct (0 <? n)%nat eqn:E0; [| apply Nat.ltb_ge in E0; lia].
    cbn [Nat.eqb andb]. rewrite (N1 1%nat) by lia. reflexivity.
  - intros j Hj. rewrite (nth_map_lt _ _ _ 0 0) by lia. f_equal.
    unfold W3. rewrite nth_set_nth.
    destruct (n - 1 =? j)%nat eqn:E; [apply Nat.eqb_eq in E; lia |].
    cbn [andb]. rewrite N2 by lia. apply N1. lia.
  - rewrite (nth_map_lt _ _ _ 0 0) by lia. f_equal.
    unfold W3. rewrite nth_set_nth, L2, Nat.eqb_refl.
    destruct (n - 1 <? n)%nat eqn:E; [| apply Nat.ltb_ge in E; lia].
    cbn [andb]. rewrite (N2 (n - 2)%nat) by lia. rewrite (N1 (n - 2)%nat) by lia.
    unfold c. replace (n - 2 + 1)%nat with (n - 1)%nat by lia.
    replace (n - 2 - 1)%nat with (n - 3)%nat by lia. reflexivity.
Qed.

(** X4.  For three or more equally spaced centres [c0 + i h] every width is
    [|h|], the edge bins included. *)
Theorem calculate_width_uniform (c0 h : R) (n : nat) :
  (3 <= n)%nat ->
  _calculate_width (map (fun i => c0 + INR i * h) (seq 0 n))
  = Ok (repeat (Rabs h) n).
Proof.
  intros Hn.
  set (centres := map (fun i => c0 + INR i * h) (seq 0 n)).
  assert (Lc : length centres = n)
    by (unfold centres; rewrite length_map, length_seq; reflexivity).
  assert (Nc : forall i, (i < n)%nat -> nth i centres 0 = c0 + INR i * h).
  { intros i Hi. unfold centres. rewrite nth_map_seq.
    destruct (i <? n)%nat eqn:E; [reflexivity | apply Nat.ltb_ge in E; lia]. }
  destruct (calculate_width_entries centres ltac:(lia))
    as [w [Ew [Lw [H0 [Hmid Hlast]]]]].
  rewrite Ew. f_equal. rewrite Lc in *.
  apply (nth_ext _ _ 0 0); [rewrite repeat_length; exact Lw |].
  intros j Hj. rewrite Lw in Hj. rewrite nth_repeat_lt by exact Hj.
  destruct (Nat.eq_dec j 0) as [-> | Hj0].
  - rewrite H0, !Nc by lia. f_equal. cbn [INR]. field.
  - destruct (Nat.eq_dec j (n - 1)) as [-> | Hjl].
    + rewrite Hlast, !Nc by lia. f_equal.
      replace (n - 1)%nat with (S (S (n - 3))) by lia.
      replace (n - 2)%nat with (S (n - 3)) by lia.
      rewrite !S_INR. field.
    + rewrite Hmid, !Nc by lia. f_equal.
      replace (j + 1)%nat with (S (S (j - 1))) by lia.
      rewrite !S_INR. field.
Qed.

Lemma calculate_width_uniform_witness :
  _calculate_width (map (fun i => 1 + INR i * 2) (seq 0 4)) = Ok (repeat (Rabs 2) 4).
Proof. exact (calculate_width_uniform 1 2 4 ltac:(lia)). Defined.

(** X5.  With fewer than two centres the estimate raises [IndexError]; with
    exactly two the first width is twice their distance and the second
    one is zero. *)
Theorem calculate_width_short :
  _calculate_width [] = Raise IndexError
  /\ (forall a, _calculate_width [a] = Raise IndexError)
  /\ (forall a b, exists w0 w1 : R,
        _calculate_width [a; b] = Ok [w0; w1]
        /\ w0 = 2 * Rabs (b - a) /\ w1 = 0).
Proof.
  split; [reflexivity |]. split; [intros a; reflexivity |].
  intros a b. eexists. eexists. split; [reflexivity |]. split.
  - replace (2 * (b - 0 / 2 - a)) with (2 * (b - a)) by field.
    rewrite Rabs_mult, (Rabs_right 2) by lra. reflexivity.
  - replace (2 * (b - 2 * (b - 0 / 2 - a) / 2 - a)) with 0 by field.
    apply Rabs_R0.
Qed.

End WidthFacts.

(** ** The Fingers-of-God kernel, further *)

Module KernelMore.

Import Spec Lss Tasks.
Import FloatFacts PyFacts ArrayFacts KernelFacts.

(** The kernel is the row-normalised matrix [N], which the growth factor
    does not enter, with column [j] divided by [D[j]] and row [i]
    multiplied by [D[i]]. *)
Lemma kernel_form (chi : list R) (sigmaP : float_or_array) (s dchi : list R) :
  as_array chi sigmaP = Ok s -> length s = length chi -> Forall (Rlt 0) s ->
  _calculate_width chi = Ok dchi -> Forall (Rlt 0) dchi ->
  exists N,
    length N = length chi
    /\ Forall (fun row => weights (length chi) row /\ Np.sum row = 1) N
    /\ forall D d,
         as_array chi D = Ok d -> Forall (Rlt 0) d ->
         exponential_FoG_kernel chi sigmaP D
         = Ok (multiply_rows
                 (map (fun row => map (fun p => fst p / snd p) (combine row d)) N)
                 d).
Proof.
  intros Es Ls Hs Ew Hw.
  pose proof (calculate_width_length _ _ Ew) as Lw.
  assert (Hn : (0 < length chi)%nat).
  { unfold _calculate_width in Ew.
    destruct (index chi 1) eqn:E1; [| discriminate].
    apply index_inv in E1. destruct chi; [contradiction | cbn; lia]. }
  assert (Ha : Forall (Rlt 0) (map (fun x => sqrt 2 / x) s)).
  { apply Forall_forall. intros v Hv. apply in_map_iff in Hv.
    destruct Hv as [x [<- Hx]]. rewrite Forall_forall in Hs.
    apply Rdiv_lt_0_compat; [apply Rlt_sqrt2_0 | apply Hs; exact Hx]. }
  destruct (raw_kernel_ok _ dchi chi Ha Hw ltac:(rewrite length_map; exact Ls) Lw)
    as [K0 [EK0 [LK0 WK0]]].
  destruct (zero_lag_ok _ dchi Ha Hw) as [V [EV [LV WV]]].
  rewrite Lw in WV.
  assert (HVne : V <> []).
  { intros ->. cbn in LV. rewrite length_map in LV. lia. }
  destruct (fill_diagonal_weights _ K0 V WK0 WV HVne Hn) as [WK1 LK1].
  destruct (normalise_rows_ok _ _ WK1 Hn) as [N [EN [LN WN]]].
  exists N. split; [lia |]. split; [exact WN |].
  intros D d Ed Hd.
  unfold exponential_FoG_kernel. rewrite Es, Ed. cbn [bind].
  rewrite (mapM_ok_map _ (fun x => sqrt 2 / x)).
  2:{ intros x Hx. apply np_div_ok. rewrite Forall_forall in Hs.
      specialize (Hs x Hx). lra. }
  cbn [bind]. rewrite Ew. cbn [bind]. rewrite EK0. cbn [bind].
  rewrite EV. cbn [bind]. rewrite EN. cbn [bind].
  unfold divide_columns.
  rewrite (mapM_ok_map _ (fun row => map (fun p => fst p / snd p) (combine row d))).
  2:{ intros row _. apply mapM_ok_map. intros [x y] Hp. cbn [fst snd].
      apply np_div_ok. apply in_combine_r in Hp.
      rewrite Forall_forall in Hd. specialize (Hd y Hp). lra. }
  reflexivity.
Qed.

(** X6.  For positive smoothing scales, growth factors and bin widths the
    kernel is a square matrix, one row and one column per radial bin, and
    all its entries are positive. *)
Theorem FoG_kernel_positive (chi : list R) (sigmaP D : float_or_array)
    (s d dchi : list R) :
  as_array chi sigmaP = Ok s -> as_array chi D = Ok d ->
  length s = length chi -> length d = length chi ->
  Forall (Rlt 0) s -> Forall (Rlt 0) d ->
  _calculate_width chi = Ok dchi -> Forall (Rlt 0) dchi ->
  exists K, exponential_FoG_kernel chi sigmaP D = Ok K
            /\ length K = length chi
            /\ Forall (fun row => length row = length chi
                                  /\ Forall (Rlt 0) row) K.
Proof.
  intros Es Ed Ls Ld Hs Hd Ew Hw.
  destruct (kernel_rows chi sigmaP D s d dchi Es Ed Ls Ld Hs Hd Ew Hw)
    as [K [EK HK]].
  exists K. split; [exact EK |]. split.
  - rewrite (Forall2_length HK). exact Ld.
  - apply Forall_forall. intros row Hrow.
    destruct (Forall2_In_l _ _ _ row HK Hrow) as [di [_ [_ [Hpos Hlen]]]].
    split; assumption.
Qed.

Lemma FoG_kernel_positive_witness :
  exists K, exponential_FoG_kernel [0; 1; 2] (Scalar 1) (Array [1; 2; 1]) = Ok K
            /\ length K = 3%nat
            /\ Forall (fun row => length row = 3%nat /\ Forall (Rlt 0) row) K.
Proof.
  exact (FoG_kernel_positive [0; 1; 2] (Scalar 1) (Array [1; 2; 1])
           [1 * 1; 1 * 1; 1 * 1] [1; 2; 1] Examples.example_widths
           eq_refl eq_refl eq_refl eq_refl
           ltac:(repeat constructor; lra) ltac:(repeat constructor; lra)
           (proj1 example_widths_ok) (proj2 example_widths_ok)).
Defined.

Lemma divide_scaled (c : R) (row dc : list R) :
  c <> 0 ->
  map (fun p => fst p / snd p) (combine row (map (Rmult c) dc))
  = map (fun x => x / c) (map (fun p => fst p / snd p) (combine row dc)).
Proof.
  intros Hc. revert dc. induction row as [| x row IH]; intros [| y dc];
    cbn [map combine]; try reflexivity.
  rewrite IH. f_equal. cbn [fst snd]. unfold Rdiv.
  destruct (Req_dec_T y 0) as [-> | Hy].
  - rewrite Rmult_0_r, Rinv_0. ring.
  - field. split; assumption.
Qed.

Lemma multiply_scaled (c : R) (N : list (list R)) (dc dr : list R) :
  c <> 0 ->
  multiply_rows
    (map (fun row => map (fun p => fst p / snd p) (combine row (map (Rmult c) dc))) N)
    (map (Rmult c) dr)
  = multiply_rows
      (map (fun row => map (fun p => fst p / snd p) (combine row dc)) N) dr.
Proof.
  intros Hc. unfold multiply_rows. revert dr.
  induction N as [| row N IH]; intros [| y dr]; cbn [map combine];
    try reflexivity.
  rewrite IH. f_equal. cbn [fst snd]. rewrite divide_scaled by exact Hc.
  rewrite !map_map. apply map_ext. intros p.
  generalize (fst p / snd p). intros q. field. exact Hc.
Qed.

(** X7.  The kernel depends on the growth factor through its ratios only:
    multiplying every growth factor by one positive constant leaves the
    kernel as it is. *)
Theorem FoG_kernel_growth_scale (chi : list R) (sigmaP : float_or_array)
    (s d dchi : list R) (c : R) :
  as_array chi sigmaP = Ok s -> length s = length chi -> length d = length chi ->
  Forall (Rlt 0) s -> Forall (Rlt 0) d ->
  _calculate_width chi = Ok dchi -> Forall (Rlt 0) dchi -> 0 < c ->
  exponential_FoG_kernel chi sigmaP (Array (map (Rmult c) d))
  = exponential_FoG_kernel chi sigmaP (Array d)
  /\ exists K, exponential_FoG_kernel chi sigmaP (Array d) = Ok K.
Proof.
  intros Es Ls Ld Hs Hd Ew Hw Hc.
  destruct (kernel_form chi sigmaP s dchi Es Ls Hs Ew Hw) as [N [_ [_ HK]]].
  assert (Ed : as_array chi (Array d) = Ok d)
    by (cbn [as_array]; unfold broadcast; rewrite Ld, Nat.eqb_refl; reflexivity).
  assert (Ecd : as_array chi (Array (map (Rmult c) d)) = Ok (map (Rmult c) d)).
  { cbn [as_array]. unfold broadcast.
    rewrite length_map, Ld, Nat.eqb_refl. reflexivity. }
  assert (Hcd : Forall (Rlt 0) (map (Rmult c) d)).
  { apply Forall_forall. intros v Hv. apply in_map_iff in Hv.
    destruct Hv as [x [<- Hx]]. rewrite Forall_forall in Hd.
    apply Rmult_lt_0_compat; [exact Hc | apply Hd; exact Hx]. }
  rewrite (HK _ _ Ecd Hcd), (HK _ _ Ed Hd). split; [| eexists; reflexivity].
  f_equal. apply multiply_scaled. lra.
Qed.

Lemma FoG_kernel_growth_scale_witness :
  exponential_FoG_kernel [0; 1; 2] (Scalar 1) (Array (map (Rmult 5) [1; 2; 1]))
  = exponential_FoG_kernel [0; 1; 2] (Scalar 1) (Array [1; 2; 1]).
Proof.
  exact (proj1 (FoG_kernel_growth_scale [0; 1; 2] (Scalar 1)
                  [1 * 1; 1 * 1; 1 * 1] [1; 2; 1] Examples.example_widths 5
                  eq_refl eq_refl eq_refl
                  ltac:(repeat constructor; lra) ltac:(repeat constructor; lra)
                  (proj1 example_widths_ok) (proj2 example_widths_ok)
                  ltac:(lra))).
Defined.



End KernelMore.

(** ** What the Fingers-of-God task preserves *)

Module SmoothingFacts.

Import Spec Lss Tasks.
Import FloatFacts PyFacts ArrayFacts StateFacts KernelFacts HeapFacts.

Lemma dot_scaled (row d : list R) (v : R) :
  Np.dot row (map (fun di => di * v) d) = Np.dot row d * v.
Proof.
  revert d. induction row as [| x row IH]; intros [| y d]; cbn [map Np.dot];
    try ring.
  rewrite IH. ring.
Qed.

(** A field that is, in every shell, the growth factor of the shell times
    one angular pattern. *)
Lemma column_pattern (d v : list R) (j : nat) :
  (j < length v)%nat ->
  column 0 j (map (fun di => map (Rmult di) v) d)
  = map (fun di => di * nth j v 0) d.
Proof.
  intros Hj. unfold column. rewrite map_map. apply map_ext. intros di.
  rewrite (nth_map_lt _ _ _ 0 0) by exact Hj. reflexivity.
Qed.

Lemma matmul_pattern (K : list (list R)) (d v : list R) :
  Forall2 (fun row di => Np.dot row d = di /\ length row = length d) K d ->
  matmul K (map (fun di => map (Rmult di) v) d)
  = Ok (map (fun di => map (Rmult di) v) d).
Proof.
  intros HK. unfold matmul.
  assert (Hrow : forall row di,
             In di d -> Np.dot row d = di -> length row = length d ->
             (if Nat.eqb (length row)
                         (length (map (fun di => map (Rmult di) v) d))
              then Ok (map (fun j => Np.dot row
                                       (column 0 j (map (fun di => map (Rmult di) v) d)))
                           (seq 0 (length (hd [] (map (fun di => map (Rmult di) v) d)))))
              else Raise (ValueError "matmul: mismatch in its core dimension"))
             = Ok (map (Rmult di) v)).
  { intros row di Hin Hdot Hlen. rewrite length_map, Hlen, Nat.eqb_refl. f_equal.
    destruct d as [| d0 d']; [contradiction |]. cbn [map hd].
    rewrite length_map.
    apply (nth_ext _ _ 0 0); [rewrite !length_map, length_seq; reflexivity |].
    intros j Hj. rewrite length_map, length_seq in Hj.
    rewrite nth_map_seq.
    destruct (j <? length v)%nat eqn:E; [| apply Nat.ltb_ge in E; lia].
    change (map (Rmult d0) v :: map (fun di => map (Rmult di) v) d')
      with (map (fun di => map (Rmult di) v) (d0 :: d')).
    rewrite column_pattern by exact Hj. rewrite dot_scaled, Hdot.
    rewrite (nth_map_lt _ _ _ 0 0) by exact Hj. reflexivity. }
  assert (Hall : forall K' d', Forall2 (fun row di => Np.dot row d = di
                                            /\ length row = length d) K' d' ->
                     (forall di, In di d' -> In di d) ->
                     mapM (fun row =>
                             if Nat.eqb (length row)
                                  (length (map (fun di => map (Rmult di) v) d))
                             then Ok (map (fun j => Np.dot row
                                        (column 0 j (map (fun di => map (Rmult di) v) d)))
                                      (seq 0 (length (hd [] (map (fun di => map (Rmult di) v) d)))))
                             else Raise (ValueError "matmul: mismatch in its core dimension"))
                          K'
                     = Ok (map (fun di => map (Rmult di) v) d')).
  { induction 1 as [| row di K' d' [Hdot Hlen] _ IH]; intros Hsub;
      [reflexivity |].
    cbn [mapM map]. rewrite (Hrow row di (Hsub di (or_introl eq_refl)) Hdot Hlen).
    cbn [bind]. rewrite IH by (intros x Hx; apply Hsub; right; exact Hx).
    reflexivity. }
  apply Hall; [exact HK | tauto].
Qed.

Section Smoothing.

Variable growth_factor : R -> R.
Variable _sigma_P : R -> R.

Local Abbreviation fog_process := (FingersOfGod_process growth_factor _sigma_P).

(** X9.  For a positive [alpha_FoG], positive smoothing scales, growth
    factors and bin widths, a field that is in every shell the growth
    factor of the shell times one and the same angular pattern is left
    unchanged by the smoothing: the task returns a new container whose
    dataset equals the one of its input. *)
Theorem fog_preserves_grown_pattern (alpha_FoG : R) (f_ref : ref) (h : heap)
    (field : Container) (z dchi v : list R) :
  0 < alpha_FoG ->
  nth_error h f_ref = Some field -> redshift_label field = Some z ->
  length z = length (chi field) ->
  Forall (fun zi => 0 < growth_factor zi /\ 0 < _sigma_P zi) z ->
  _calculate_width (chi field) = Ok dchi -> Forall (Rlt 0) dchi ->
  delta field = map (fun zi => map (Rmult (growth_factor zi)) v) z ->
  exists out,
    fog_process alpha_FoG f_ref h = (h ++ [out], Ok (length h))
    /\ delta out = delta field.
Proof.
  intros Ha Hf Hz Lz Hpos Ew Hw Hdelta.
  unfold FingersOfGod_process.
  destruct (Req_dec_T alpha_FoG 0); [lra |].
  rewrite bind_run, (run_deref _ _ _ Hf).
  rewrite bind_run. unfold SE.lift at 1. unfold redshift. rewrite Hz.
  set (D := map growth_factor z).
  set (s := map (Rmult alpha_FoG) (map _sigma_P z)).
  assert (LD : length D = length (chi field))
    by (unfold D; rewrite length_map; exact Lz).
  assert (Ls : length s = length (chi field))
    by (unfold s; rewrite !length_map; exact Lz).
  assert (HD : Forall (Rlt 0) D).
  { apply Forall_forall. intros x Hx. apply in_map_iff in Hx.
    destruct Hx as [zi [<- Hzi]].
    exact (proj1 (proj1 (Forall_forall _ _) Hpos zi Hzi)). }
  assert (Hs : Forall (Rlt 0) s).
  { apply Forall_forall. intros x Hx. apply in_map_iff in Hx.
    destruct Hx as [y [<- Hy]]. apply in_map_iff in Hy.
    destruct Hy as [zi [<- Hzi]]. apply Rmult_lt_0_compat; [exact Ha |].
    exact (proj2 (proj1 (Forall_forall _ _) Hpos zi Hzi)). }
  destruct (kernel_rows (chi field) (Array s) (Array D) s D dchi)
    as [K [EK HK]]; try assumption.
  { cbn [as_array]. unfold broadcast. rewrite Ls, Nat.eqb_refl. reflexivity. }
  { cbn [as_array]. unfold broadcast. rewrite LD, Nat.eqb_refl. reflexivity. }
  rewrite bind_run. unfold SE.lift at 1. rewrite EK.
  rewrite bind_run. unfold alloc at 1.
  rewrite bind_run. unfold SE.lift at 1.
  assert (Em : matmul K (delta field) = Ok (delta field)).
  { rewrite Hdelta.
    replace (map (fun zi => map (Rmult (growth_factor zi)) v) z)
      with (map (fun di => map (Rmult di) v) D)
      by (unfold D; rewrite map_map; reflexivity).
    apply matmul_pattern.
    eapply Forall2_impl; [| exact HK]. intros row di [Hdot [_ Hlen]].
    split; [exact Hdot | lia]. }
  rewrite Em.
  rewrite bind_run, run_set_delta_new. cbn [SE.ret].
  eexists. split; [reflexivity | reflexivity].
Qed.

End Smoothing.

Lemma fog_preserves_grown_pattern_witness :
  exists out,
    FingersOfGod_process Examples.matter_growth (fun _ => 1) 1 0%nat
      [Examples.three_shells]
    = ([Examples.three_shells] ++ [out], Ok 1%nat)
    /\ delta out = delta Examples.three_shells.
Proof.
  apply (fog_preserves_grown_pattern Examples.matter_growth (fun _ => 1) 1 0%nat
           [Examples.three_shells] Examples.three_shells [0; 1; 2]
           Examples.example_widths [1]).
  - lra.
  - reflexivity.
  - reflexivity.
  - reflexivity.
  - unfold Examples.matter_growth.
    repeat constructor; try lra; apply Rinv_0_lt_compat; lra.
  - exact (proj1 example_widths_ok).
  - exact (proj2 example_widths_ok).
  - reflexivity.
Defined.

End SmoothingFacts.

(** ** The lognormal transform, further *)

Module LognormalMore.

Import Spec Lss.
Import FloatFacts PyFacts ArrayFacts LognormalFacts.



(** X11.  The transform keeps the order of the entries that share a
    variance: of two entries normalised by the variance of the same lane
    (any two entries without an axis, two of one column along axis 0, two of
    one row along axis 1), the larger one stays the larger one. *)
Theorem lognormal_transform_monotone (field res : list (list R))
    (axis : option Z) (n m i j i' j' : nat) :
  has_shape n m field ->
  axis = None \/ axis = Some 0%Z \/ axis = Some 1%Z ->
  lognormal_transform field None axis = Ok res ->
  (i < n)%nat -> (j < m)%nat -> (i' < n)%nat -> (j' < m)%nat ->
  lane field axis i j = lane field axis i' j' ->
  (nth j (nth i field []) 0 < nth j' (nth i' field []) 0
   <-> nth j (nth i res []) 0 < nth j' (nth i' res []) 0).
Proof.
  intros Hsh Hax E Hi Hj Hi' Hj' Hlane.
  destruct (lognormal_entries field None axis n m Hsh ltac:(lia) ltac:(lia) I Hax)
    as [res' [E' [_ Hent]]].
  rewrite E in E'. injection E' as <-.
  rewrite (Hent i j Hi Hj), (Hent i' j' Hi' Hj'), Hlane.
  set (v := variance (lane field axis i' j') / 2).
  split; intros H.
  - apply Rplus_lt_compat_r. apply exp_increasing. lra.
  - assert (H' : exp (nth j (nth i field []) 0 - v)
                 < exp (nth j' (nth i' field []) 0 - v)) by lra.
    apply exp_lt_inv in H'. lra.
Qed.

Lemma lognormal_transform_monotone_witness :
  exists res,
    lognormal_transform [[0; 2]] None (Some 1%Z) = Ok res
    /\ (nth 0 (nth 0 [[0; 2]] []) 0 < nth 1 (nth 0 [[0; 2]] []) 0
        <-> nth 0 (nth 0 res []) 0 < nth 1 (nth 0 res []) 0).
Proof.
  destruct (lognormal_entries [[0; 2]] None (Some 1%Z) 1 2
              ltac:(split; [reflexivity | repeat constructor])
              ltac:(lia) ltac:(lia) I ltac:(right; right; reflexivity))
    as [res [E _]].
  exists res. split; [exact E |].
  apply (lognormal_transform_monotone [[0; 2]] res (Some 1%Z) 1 2 0 0 0 1).
  - split; [reflexivity | repeat constructor].
  - right; right; reflexivity.
  - exact E.
  - lia.
  - lia.
  - lia.
  - lia.
  - reflexivity.
Defined.

End LognormalMore.

(** ** The radii of the correlation functions, further *)

Module RadiiMore.

Import Spec Series Corrfunc.
Import FloatFacts PyFacts ArrayFacts SortedFacts.

Section Radii.

Variable romb_weights : nat -> list R.
Variable P2xi : list R -> list R -> result (list R * list R).
Variable hankel_transform : R -> (R -> R) -> list R -> result (list R).

Local Abbreviation _corr_direct := (_corr_direct romb_weights).
Local Abbreviation _corr_hankel := (_corr_hankel hankel_transform).
Local Abbreviation _work := (_work P2xi).
Local Abbreviation _corr_hankl_richardson := (_corr_hankl_richardson P2xi).
Local Abbreviation ps_to_corr := (ps_to_corr romb_weights P2xi hankel_transform).

Lemma work_same_radii (f1 f2 : R -> R) (rlow rhigh : R) (n : Z) (ii : nat)
    (r1 x1 r2 x2 : list R) :
  P2xi_radii_of_grid P2xi ->
  _work f1 rlow rhigh n ii = Ok (r1, x1) ->
  _work f2 rlow rhigh n ii = Ok (r2, x2) -> r1 = r2.
Proof.
  intros HP H1 H2. unfold Corrfunc._work in H1, H2.
  destruct (Np.logspace _ _ _ false) as [k |]; [| discriminate].
  cbn [bind] in H1, H2.
  destruct (P2xi k (map f1 k)) as [[ra xa] |] eqn:E1; [| discriminate].
  destruct (P2xi k (map f2 k)) as [[rb xb] |] eqn:E2; [| discriminate].
  cbn [bind] in H1, H2. injection H1 as <- _. injection H2 as <- _.
  rewrite (HP _ _ _ _ _ _ _ E1 E2). reflexivity.
Qed.

Lemma first_work {f : R -> R} {rlow rhigh : R} {n : Z} {N : nat}
    {rs0 x0 : list R} {rest : list (list R * list R)} :
  mapM (_work f rlow rhigh n) (seq 0 N) = Ok ((rs0, x0) :: rest) ->
  _work f rlow rhigh n 0 = Ok (rs0, x0).
Proof.
  destruct N as [| N]; [discriminate |]. cbn [seq mapM].
  destruct (_work f rlow rhigh n 0) as [w |]; [| discriminate].
  cbn [bind]. destruct (mapM _ (seq 1 N)); [| discriminate].
  cbn [bind]. intros H. injection H as -> _. reflexivity.
Qed.

Lemma hankl_same_radii (f1 f2 : R -> R) (logrmin logrmax : R)
    (samples_per_decade richardson_n : Z) (pad_low pad_high : R)
    (r1 x1 r2 x2 : list R) :
  P2xi_radii_of_grid P2xi ->
  _corr_hankl_richardson f1 logrmin logrmax samples_per_decade richardson_n
    pad_low pad_high = Ok (r1, x1) ->
  _corr_hankl_richardson f2 logrmin logrmax samples_per_decade richardson_n
    pad_low pad_high = Ok (r2, x2) ->
  r1 = r2.
Proof.
  intros HP H1 H2. unfold Corrfunc._corr_hankl_richardson in H1, H2.
  destruct (mapM (_work f1 _ _ _) _) as [[| [ra ea] resta] |] eqn:E1;
    try discriminate.
  destruct (mapM (_work f2 _ _ _) _) as [[| [rb eb] restb] |] eqn:E2;
    try discriminate.
  cbn [bind] in H1, H2.
  assert (Hr : ra = rb)
    by exact (work_same_radii _ _ _ _ _ _ _ _ _ _ HP (first_work E1) (first_work E2)).
  subst rb.
  destruct (assert_same_radii ra (map fst resta)); [| discriminate].
  destruct (assert_same_radii ra (map fst restb)); [| discriminate].
  cbn [bind] in H1, H2.
  destruct (Np.select _ ra) as [r |]; [| discriminate]. cbn [bind] in H1, H2.
  destruct (mapM _ (map snd ((ra, ea) :: resta))) as [est1 |]; [| discriminate].
  destruct (mapM _ (map snd ((ra, eb) :: restb))) as [est2 |]; [| discriminate].
  cbn [bind] in H1, H2.
  destruct (richardson est1 2 1 false) as [[? | ?] |]; try discriminate.
  destruct (richardson est2 2 1 false) as [[? | ?] |]; try discriminate.
  cbn [bind] in H1, H2. injection H1 as <- _. injection H2 as <- _. reflexivity.
Qed.

(** X12.  The radii [ps_to_corr] returns do not depend on the power
    spectrum: two calls that differ in nothing but [psfunc] return the same
    radii (the radii hankl returns being those of its grid of wavenumbers).
    The three correlation functions of [CalculateCorrelations.process] are
    therefore sampled at the same radii. *)
Theorem ps_to_corr_radii_of_arguments (ps1 ps2 : R -> R)
    (minlogr maxlogr switchlogr : R) (samples_per_decade : Z) (fftlog : bool)
    (kw : kwargs) (ra1 Fr1 ra2 Fr2 : list R) :
  P2xi_radii_of_grid P2xi ->
  ps_to_corr ps1 minlogr maxlogr switchlogr samples_per_decade fftlog kw
  = Ok (ra1, Fr1) ->
  ps_to_corr ps2 minlogr maxlogr switchlogr samples_per_decade fftlog kw
  = Ok (ra2, Fr2) ->
  ra1 = ra2.
Proof.
  intros HP H1 H2. unfold Corrfunc.ps_to_corr in H1, H2.
  generalize dependent (_corr_direct ps1 (-5) 3). intros direct1 H1.
  generalize dependent (_corr_direct ps2 (-5) 3). intros direct2 H2.
  destruct (Np.logspace minlogr switchlogr _ false) as [rlow |];
    [| discriminate].
  cbn [bind] in H1, H2.
  assert (Hhigh : forall high1 high2 : list R * list R,
             (if fftlog then
                match kw_h kw with
                | Some _ => Raise TypeError
                | None =>
                    _corr_hankl_richardson ps1 switchlogr maxlogr samples_per_decade
                      (get_default 6%Z (kw_richardson_n kw))
                      (get_default 2 (kw_pad_low kw))
                      (get_default 1 (kw_pad_high kw))
                end
              else
                match kw_richardson_n kw, kw_pad_low kw, kw_pad_high kw with
                | None, None, None =>
                    _corr_hankel ps1 switchlogr maxlogr samples_per_decade
                      (get_default (1 / 100000) (kw_h kw))
                | _, _, _ => Raise TypeError
                end) = Ok high1 ->
             (if fftlog then
                match kw_h kw with
                | Some _ => Raise TypeError
                | None =>
                    _corr_hankl_richardson ps2 switchlogr maxlogr samples_per_decade
                      (get_default 6%Z (kw_richardson_n kw))
                      (get_default 2 (kw_pad_low kw))
                      (get_default 1 (kw_pad_high kw))
                end
              else
                match kw_richardson_n kw, kw_pad_low kw, kw_pad_high kw with
                | None, None, None =>
                    _corr_hankel ps2 switchlogr maxlogr samples_per_decade
                      (get_default (1 / 100000) (kw_h kw))
                | _, _, _ => Raise TypeError
                end) = Ok high2 ->
             fst high1 = fst high2).
  { intros [ra xa] [rb xb] Ea Eb. cbn [fst]. destruct fftlog.
    - destruct (kw_h kw); [discriminate |].
      exact (hankl_same_radii _ _ _ _ _ _ _ _ _ _ _ _ HP Ea Eb).
    - destruct (kw_richardson_n kw), (kw_pad_low kw), (kw_pad_high kw);
        try discriminate.
      unfold Corrfunc._corr_hankel in Ea, Eb.
      destruct (Float.div PI _); [| discriminate]. cbn [bind] in Ea, Eb.
      destruct (Np.logspace _ _ _ true) as [r |]; [| discriminate].
      cbn [bind] in Ea, Eb.
      destruct (hankel_transform _ ps1 r); [| discriminate].
      destruct (hankel_transform _ ps2 r); [| discriminate].
      cbn [bind] in Ea, Eb. injection Ea as <- _. injection Eb as <- _.
      reflexivity. }
  match type of H1 with
  | (high <- ?m ;; _) = _ => destruct m as [[rh1 Fh1] |] eqn:E1; [| discriminate]
  end.
  match type of H2 with
  | (high <- ?m ;; _) = _ => destruct m as [[rh2 Fh2] |] eqn:E2; [| discriminate]
  end.
  cbn [bind] in H1, H2.
  pose proof (Hhigh _ _ eq_refl eq_refl) as Hr. cbn [fst] in Hr. subst rh2.
  destruct (direct1 (0 :: rlow)); [| discriminate].
  destruct (direct2 (0 :: rlow)); [| discriminate].
  cbn [bind] in H1, H2. injection H1 as <- _. injection H2 as <- _. reflexivity.
Qed.

End Radii.

Lemma ps_to_corr_radii_of_arguments_witness :
  exists ra F1 F2,
    Corrfunc.ps_to_corr Examples.unit_weights Examples.reciprocal_grid
      Examples.sampled (fun _ => 1) (-1) 2 0 10 true no_kwargs = Ok (ra, F1)
    /\ Corrfunc.ps_to_corr Examples.unit_weights Examples.reciprocal_grid
         Examples.sampled (fun k => k) (-1) 2 0 10 true no_kwargs = Ok (ra, F2).
Proof.
  destruct (PsToCorrFacts.ps_to_corr_hankl_returns Examples.unit_weights
              Examples.reciprocal_grid Examples.sampled Rinv (fun _ => 1)
              (-1) 2 0 10) as [ra1 [F1 E1]];
    [lra | lia | exact ResamplingFacts.reciprocal_grid_reversed
     | exact ResamplingFacts.reciprocal_grid_total |].
  destruct (PsToCorrFacts.ps_to_corr_hankl_returns Examples.unit_weights
              Examples.reciprocal_grid Examples.sampled Rinv (fun k => k)
              (-1) 2 0 10) as [ra2 [F2 E2]];
    [lra | lia | exact ResamplingFacts.reciprocal_grid_reversed
     | exact ResamplingFacts.reciprocal_grid_total |].
  exists ra1, F1, F2. split; [exact E1 |].
  rewrite (ps_to_corr_radii_of_arguments Examples.unit_weights
             Examples.reciprocal_grid Examples.sampled (fun _ => 1) (fun k => k)
             (-1) 2 0 10 true no_kwargs ra1 F1 ra2 F2); [exact E2 | | exact E1 | exact E2].
  intros k pk pk' r xi r' xi' Ha Hb.
  injection Ha as <- _. injection Hb as <- _. reflexivity.
Defined.

End RadiiMore.

(** ** The bias models *)

Module BiasMore.

Import Spec Tasks Bias.
Import FloatFacts PyFacts ArrayFacts StateFacts LognormalFacts HeapFacts BiasFacts.

Lemma nth_zeros2 (n m i j : nat) : nth j (nth i (zeros2 n m) []) 0 = 0.
Proof.
  unfold zeros2.
  destruct (Nat.lt_ge_cases i n) as [Hi | Hi].
  - rewrite nth_repeat_lt by exact Hi.
    destruct (Nat.lt_ge_cases j m) as [Hj | Hj].
    + apply nth_repeat_lt. exact Hj.
    + apply nth_overflow. rewrite repeat_length. exact Hj.
  - rewrite (nth_overflow (repeat _ n)) by (rewrite repeat_length; exact Hi).
    destruct j; reflexivity.
Qed.

Section Bias.

Variable growth_factor : R -> R.

Local Abbreviation process := (GenerateBiasedFieldBase_process growth_factor).

(** The run of the task when only the first order is implemented. *)
Lemma first_order_run (self : BiasTask) (f_ref : ref) (h : heap)
    (f : Container) (z b1 : list R) :
  nth_error h f_ref = Some f ->
  bias_lognormal self = false ->
  bias_z self f = Ok z -> well_formed f z ->
  growth_factor 0 <> 0 ->
  _bias_1 self z = Ok b1 -> length b1 = length z ->
  _bias_2 self z = Raise NotImplementedError ->
  let D := map (fun zi => growth_factor zi / growth_factor 0) z in
  process self f_ref h
  = (h ++ [with_delta (BiasedLSS (bias_lightcone self) (bias_redshift self) f)
             (map (fun p => zip_with Rplus (fst p) (snd p))
                  (combine (zeros2 (length (delta f)) (length (pixel f)))
                     (map (fun p => map (Rmult (fst p)) (snd p))
                          (combine (zip_with Rmult D b1) (delta f)))))],
     Ok (length h)).
Proof.
  intros Hf Hlog Hz [Lz [Lchi [Hrows Hpix]]] Hg0 Hb1 L1 Hb2 D.
  set (n := length (delta f)) in *. set (npix := length (pixel f)) in *.
  assert (LD : length D = n) by (unfold D; rewrite length_map; exact Lz).
  assert (Hdelta : has_shape n npix (delta f)) by (split; [reflexivity | exact Hrows]).
  unfold GenerateBiasedFieldBase_process.
  rewrite bind_run, (run_deref _ _ _ Hf).
  rewrite bind_run. unfold alloc at 1.
  set (B0 := BiasedLSS (bias_lightcone self) (bias_redshift self) f).
  rewrite bind_run, run_set_delta_new.
  rewrite bind_run. unfold SE.lift at 1. rewrite Hz.
  rewrite bind_run. unfold SE.lift at 1. unfold growth.
  rewrite (mapM_ok_map _ (fun zi => growth_factor zi / growth_factor 0))
    by (intros zi _; apply np_div_ok; exact Hg0).
  fold D.
  rewrite bind_run. unfold except_NotImplementedError at 1.
  rewrite bind_run. unfold SE.lift at 1. rewrite Hb1.
  rewrite bind_run. unfold SE.lift at 1. rewrite mul_ok by lia.
  rewrite bind_run. unfold SE.lift at 1.
  rewrite firstn_all2 by (rewrite zip_with_length by lia; fold n; lia).
  rewrite scale_rows_ok by (rewrite zip_with_length by lia; fold n; lia).
  rewrite (run_add_to_delta_new h _ _
             (map (fun p => zip_with Rplus (fst p) (snd p))
                  (combine (zeros2 n npix)
                     (map (fun p => map (Rmult (fst p)) (snd p))
                          (combine (zip_with Rmult D b1) (delta f)))))).
  2:{ cbn [delta with_delta]. rewrite Lchi. fold n.
      apply add2_ok. apply (same_shape_rect n npix); [apply shape_zeros |].
      apply shape_scaled; [rewrite zip_with_length by lia; lia | exact Hdelta]. }
  rewrite bind_run. unfold except_NotImplementedError at 1.
  rewrite bind_run. unfold SE.lift at 1. rewrite Hb2.
  rewrite bind_run. rewrite Hlog. cbn [SE.ret]. reflexivity.
Qed.

(** The run of the task when no order is implemented. *)
Lemma no_order_run (self : BiasTask) (f_ref : ref) (h : heap)
    (f : Container) (z : list R) :
  nth_error h f_ref = Some f ->
  bias_lognormal self = false ->
  bias_z self f = Ok z -> growth_factor 0 <> 0 ->
  _bias_1 self z = Raise NotImplementedError ->
  _bias_2 self z = Raise NotImplementedError ->
  process self f_ref h
  = (h ++ [with_delta (BiasedLSS (bias_lightcone self) (bias_redshift self) f)
             (zeros2 (length (chi f)) (length (pixel f)))],
     Ok (length h)).
Proof.
  intros Hf Hlog Hz Hg0 Hb1 Hb2.
  unfold GenerateBiasedFieldBase_process.
  rewrite bind_run, (run_deref _ _ _ Hf).
  rewrite bind_run. unfold alloc at 1.
  rewrite bind_run, run_set_delta_new.
  rewrite bind_run. unfold SE.lift at 1. rewrite Hz.
  rewrite bind_run. unfold SE.lift at 1. unfold growth.
  rewrite (mapM_ok_map _ (fun zi => growth_factor zi / growth_factor 0))
    by (intros zi _; apply np_div_ok; exact Hg0).
  rewrite bind_run. unfold except_NotImplementedError at 1.
  rewrite bind_run. unfold SE.lift at 1. rewrite Hb1.
  rewrite bind_run. unfold except_NotImplementedError at 1.
  rewrite bind_run. unfold SE.lift at 1. rewrite Hb2.
  rewrite bind_run. rewrite Hlog. cbn [SE.ret]. reflexivity.
Qed.

(** X13.  A bias order that is not implemented is skipped.
    [GenerateConstantBias], which has no second order, returns a new field
    whose dataset is [D(z) * bias_L * delta] entry by entry, with
    [D(z) = growth_factor(z) / growth_factor(0)]; the base class, which has
    no order at all, returns a new field whose dataset is zero. *)
Theorem bias_orders_skipped (lc : bool) (fixed : option R) (bias_L : R)
    (f_ref : ref) (h : heap) (f : Container) (z : list R) :
  nth_error h f_ref = Some f ->
  bias_z (GenerateConstantBias lc fixed false bias_L) f = Ok z ->
  well_formed f z -> growth_factor 0 <> 0 ->
  (exists out,
      process (GenerateConstantBias lc fixed false bias_L) f_ref h
      = (h ++ [out], Ok (length h))
      /\ forall i j, (i < length (delta f))%nat -> (j < length (pixel f))%nat ->
           nth j (nth i (delta out) []) 0
           = growth_factor (nth i z 0) / growth_factor 0 * bias_L
             * nth j (nth i (delta f) []) 0)
  /\ (exists out,
         process (GenerateBiasedFieldBase lc fixed false) f_ref h
         = (h ++ [out], Ok (length h))
         /\ has_shape (length (chi f)) (length (pixel f)) (delta out)
         /\ forall i j, nth j (nth i (delta out) []) 0 = 0).
Proof.
  intros Hf Hz Hwf Hg0. split.
  - pose proof Hwf as [Lz [Lchi [Hrows Hpix]]].
    eexists. split.
    + apply (first_order_run _ f_ref h f z (map (fun _ => 1 * bias_L) z));
        try assumption; try reflexivity.
      apply length_map.
    + intros i j Hi Hj. cbn [delta with_delta].
      set (D := map (fun zi => growth_factor zi / growth_factor 0) z).
      assert (LD : length D = length (delta f))
        by (unfold D; rewrite length_map; exact Lz).
      assert (Lb : length (map (fun _ : R => 1 * bias_L) z) = length (delta f))
        by (rewrite length_map; exact Lz).
      assert (Lrow : length (nth i (delta f) []) = length (pixel f)).
      { apply (proj1 (Forall_forall _ _) Hrows). apply nth_In. exact Hi. }
      rewrite (nth_combine_map _ _ _ i [] [] [])
        by (unfold zeros2; rewrite ?repeat_length, ?length_map, ?length_combine,
              ?zip_with_length; lia).
      cbn [fst snd].
      rewrite (nth_combine_map _ _ _ i [] 0 [])
        by (rewrite zip_with_length; lia).
      cbn [fst snd].
      rewrite nth_zip_with.
      2:{ unfold zeros2. rewrite nth_repeat_lt by exact Hi.
          rewrite repeat_length. exact Hj. }
      2:{ unfold zeros2. rewrite nth_repeat_lt by exact Hi.
          rewrite repeat_length, length_map. lia. }
      rewrite nth_zeros2.
      rewrite (nth_map_lt _ _ _ 0 0) by lia.
      rewrite nth_zip_with by lia.
      unfold D. rewrite (nth_map_lt _ _ _ 0 0) by lia.
      rewrite (nth_map_lt _ _ _ 0 0) by lia. ring.
  - eexists. split; [| split].
    + apply (no_order_run _ f_ref h f z); try assumption; reflexivity.
    + cbn [delta with_delta]. apply shape_zeros.
    + intros i j. cbn [delta with_delta]. apply nth_zeros2.
Qed.

End Bias.

Lemma bias_orders_skipped_witness :
  exists out,
    GenerateBiasedFieldBase_process Examples.matter_growth
      (GenerateConstantBias true None false 3) 0%nat [Examples.one_pixel]
    = ([Examples.one_pixel] ++ [out], Ok 1%nat)
    /\ nth 0 (nth 0 (delta out) []) 0
       = Examples.matter_growth 1 / Examples.matter_growth 0 * 3 * 1.
Proof.
  destruct (proj1 (bias_orders_skipped Examples.matter_growth true None 3 0%nat
                     [Examples.one_pixel] Examples.one_pixel [1]
                     eq_refl eq_refl (PipelineClaims.one_pixel_well_formed 1)
                     PipelineClaims.matter_growth_today))
    as [out [E H]].
  exists out. split; [exact E |].
  exact (H 0%nat 0%nat ltac:(cbn; lia) ltac:(cbn; lia)).
Defined.

(** X14.  The scaling [alpha_b] of the polynomial bias acts on the Eulerian
    bias [b + 1]: the Lagrangian bias [b'] that [_bias_1] returns satisfies
    [b' + 1 = alpha_b * (b + 1)] at every redshift, and [alpha_b = 1]
    returns the bias of the model as it is. *)
Theorem polynomial_bias_scales_eulerian (alpha_b : R)
    (_bias : list R -> result (list R)) (z b : list R) :
  _bias z = Ok b ->
  exists b',
    polynomial_bias_1 alpha_b _bias z = Ok b'
    /\ length b' = length b
    /\ (forall i, (i < length b)%nat ->
          nth i b' 0 + 1 = alpha_b * (nth i b 0 + 1))
    /\ (alpha_b = 1 -> b' = b).
Proof.
  intros Hb. unfold polynomial_bias_1. rewrite Hb. cbn [bind].
  eexists. split; [reflexivity |]. split; [apply length_map |]. split.
  - intros i Hi. rewrite (nth_map_lt _ _ _ 0 0) by exact Hi. ring.
  - intros ->. rewrite <- (map_id b) at 2. apply map_ext. intros x. ring.
Qed.

Lemma polynomial_bias_scales_eulerian_witness :
  exists b',
    polynomial_bias_1 2 (fun z => Ok (map (fun _ => 1) z)) [0; 1] = Ok b'
    /\ nth 0 b' 0 + 1 = 2 * (1 + 1).
Proof.
  destruct (polynomial_bias_scales_eulerian 2 (fun z => Ok (map (fun _ => 1) z))
              [0; 1] [1; 1] eq_refl) as [b' [E [_ [H _]]]].
  exists b'. split; [exact E |]. exact (H 0%nat ltac:(cbn; lia)).
Defined.

(** X15.  [_crop_low] keeps the length of the array, leaves every entry
    that is not below the cut as it is, raises the others to the cut, so
    that no entry is below it afterwards, and cropping twice is cropping
    once. *)
Theorem crop_low_clips (x : list R) (cut : R) :
  length (_crop_low x cut) = length x
  /\ Forall (fun v => cut <= v) (_crop_low x cut)
  /\ (forall i, (i < length x)%nat ->
        nth i (_crop_low x cut) 0 = Rmax (nth i x 0) cut)
  /\ _crop_low (_crop_low x cut) cut = _crop_low x cut.
Proof.
  unfold _crop_low. split; [apply length_map |]. split; [| split].
  - apply Forall_forall. intros v Hv. apply in_map_iff in Hv.
    destruct Hv as [u [<- _]]. destruct (Rlt_dec u cut); lra.
  - intros i Hi. rewrite (nth_map_lt _ _ _ 0 0) by exact Hi.
    destruct (Rlt_dec (nth i x 0) cut).
    + rewrite Rmax_right by lra. reflexivity.
    + rewrite Rmax_left by lra. reflexivity.
  - rewrite map_map. apply map_ext. intros v.
    destruct (Rlt_dec v cut) as [H | H].
    + destruct (Rlt_dec cut cut); [lra | reflexivity].
    + destruct (Rlt_dec v cut); [contradiction | reflexivity].
Qed.

End BiasMore.

(** ** The dynamics tasks *)

Module DynamicsFacts.

Import Spec Tasks.
Import FloatFacts PyFacts ArrayFacts StateFacts LognormalFacts HeapFacts BiasFacts.

Lemma validate_ok (fi fb : Container) :
  chi fi = chi fb -> pixel fb = pixel fi -> _validate_fields fi fb = Ok tt.
Proof.
  intros Hc Hp. unfold _validate_fields.
  destruct (list_eq_dec Req_dec_T (chi fi) (chi fb)); [| contradiction].
  destruct (list_eq_dec Nat.eq_dec (pixel fb) (pixel fi)); [| contradiction].
  reflexivity.
Qed.

Section Dynamics.

Variable growth_factor : R -> R.
Variable growth_rate : R -> R.
Variable gradient : list (list R) -> list R -> list (list (list R)).
Variable diff2 : list (list R) -> list R -> list (list R).
Variable ang_theta : nat -> list R.
Variable grid_slice :
  nat -> Za.ndarray -> Za.ndarray -> Za.ndarray -> list R -> nat
  -> Za.ndarray -> Za.ndarray.
Variable sph_slice :
  nat -> Za.ndarray -> Za.ndarray -> Za.ndarray -> Za.ndarray -> R -> nat
  -> Za.ndarray -> Za.ndarray.

Local Abbreviation linear_process :=
  (LinearDynamics_process growth_factor growth_rate diff2).
Local Abbreviation zeldovich_process :=
  (ZeldovichDynamics_process growth_factor growth_rate gradient ang_theta
     grid_slice sph_slice).

(** X16.  On the lightcone, for two fields on the same axes,
    [LinearDynamics.process] returns a new field whose dataset is
    [delta_bias + D(z) * delta_initial], and in redshift space
    [delta_bias + D(z) * delta_initial - D(z) * f(z) * diff2(phi, chi)],
    entry by entry, with [D(z) = growth_factor(z) / growth_factor(0)] and
    [f] the growth rate. *)
Theorem linear_process_formula (redshift_space : bool) (i_ref b_ref : ref)
    (h : heap) (fi fb : Container) (za : list R) (nside n npix : nat) :
  nth_error h i_ref = Some fi -> nth_error h b_ref = Some fb ->
  chi fi = chi fb -> pixel fb = pixel fi ->
  lightcone fb = true -> redshift_label fb = Some za ->
  Za.npix2nside npix = Ok nside -> (0 < n)%nat ->
  has_shape n npix (delta fb) -> has_shape n npix (delta fi) ->
  length za = n -> length (chi fb) = n ->
  has_shape n npix (diff2 (phi fi) (chi fb)) ->
  growth_factor 0 <> 0 ->
  exists out,
    linear_process redshift_space i_ref b_ref h = (h ++ [out], Ok (length h))
    /\ forall i j, (i < n)%nat -> (j < npix)%nat ->
         nth j (nth i (delta out) []) 0
         = nth j (nth i (delta fb) []) 0
           + growth_factor (nth i za 0) / growth_factor 0
             * nth j (nth i (delta fi) []) 0
           + (if redshift_space
              then - (growth_factor (nth i za 0) / growth_factor 0
                      * growth_rate (nth i za 0))
                   * nth j (nth i (diff2 (phi fi) (chi fb)) []) 0
              else 0).
Proof.
  intros Hi Hb Hchi Hpix Hlc Hz Hns Hn Sb Si Lza Lchi Sv Hg0.
  set (D := map (fun zi => growth_factor zi / growth_factor 0) za).
  assert (LD : length D = n) by (unfold D; rewrite length_map; exact Lza).
  assert (Lb : length (delta fb) = n) by exact (proj1 Sb).
  assert (Lfi : length (delta fi) = n) by exact (proj1 Si).
  assert (Hhd : length (hd [] (delta fb)) = npix).
  { destruct (delta fb) as [| row rows] eqn:E; [cbn in Lb; lia |].
    cbn [hd]. destruct Sb as [_ Hrows].
    inversion Hrows as [| ? ? Hrow _]. exact Hrow. }
  assert (Rb : forall i, (i < n)%nat -> length (nth i (delta fb) []) = npix).
  { intros i Hi'. apply (proj1 (Forall_forall _ _) (proj2 Sb)).
    apply nth_In. lia. }
  assert (Ri : forall i, (i < n)%nat -> length (nth i (delta fi) []) = npix).
  { intros i Hi'. apply (proj1 (Forall_forall _ _) (proj2 Si)).
    apply nth_In. lia. }
  assert (Rv : forall i, (i < n)%nat ->
                         length (nth i (diff2 (phi fi) (chi fb)) []) = npix).
  { intros i Hi'. apply (proj1 (Forall_forall _ _) (proj2 Sv)).
    apply nth_In. rewrite (proj1 Sv). exact Hi'. }
  unfold LinearDynamics_process.
  rewrite bind_run, (run_deref _ _ _ Hi).
  rewrite bind_run, (run_deref _ _ _ Hb).
  rewrite bind_run. unfold SE.lift at 1. rewrite (validate_ok _ _ Hchi Hpix).
  rewrite bind_run. unfold SE.lift at 1. unfold _get_props.
  rewrite Hhd, Hns. cbn [bind]. rewrite Hlc, Hz. cbn [bind].
  rewrite bind_run. unfold alloc at 1.
  set (B0 := BiasedLSS (lightcone fb) (fixed_redshift fb) fb).
  rewrite bind_run. unfold SE.lift at 1. unfold growth.
  rewrite (mapM_ok_map _ (fun zi => growth_factor zi / growth_factor 0))
    by (intros zi _; apply np_div_ok; exact Hg0).
  fold D.
  rewrite bind_run, run_set_delta_new.
  rewrite bind_run. unfold SE.lift at 1.
  rewrite firstn_all2 by lia.
  rewrite scale_rows_ok by lia.
  set (term := map (fun p => map (Rmult (fst p)) (snd p)) (combine D (delta fi))).
  assert (St : has_shape n npix term) by (apply shape_scaled; assumption).
  set (d1 := map (fun p => zip_with Rplus (fst p) (snd p))
                 (combine (delta fb) term)).
  assert (S1 : has_shape n npix d1) by (apply shape_sum; assumption).
  rewrite bind_run.
  rewrite (run_add_to_delta_new h _ term d1)
    by (cbn [delta with_delta]; apply add2_ok;
        apply (same_shape_rect n npix); assumption).
  assert (N1 : forall i j, (i < n)%nat -> (j < npix)%nat ->
             nth j (nth i d1 []) 0
             = nth j (nth i (delta fb) []) 0
               + growth_factor (nth i za 0) / growth_factor 0
                 * nth j (nth i (delta fi) []) 0).
  { intros i j Hi' Hj. unfold d1.
    rewrite (nth_combine_map _ _ _ i [] [] [])
      by (rewrite ?(proj1 St); lia).
    cbn [fst snd].
    assert (Lt : length (nth i term []) = npix).
    { apply (proj1 (Forall_forall _ _) (proj2 St)). apply nth_In.
      rewrite (proj1 St). exact Hi'. }
    rewrite nth_zip_with by (rewrite ?Lt, Rb by lia; lia).
    f_equal. unfold term.
    rewrite (nth_combine_map _ _ _ i [] 0 []) by lia. cbn [fst snd].
    rewrite (nth_map_lt _ _ _ 0 0) by (rewrite Ri by lia; lia).
    unfold D. rewrite (nth_map_lt _ _ _ 0 0) by lia. reflexivity. }
  destruct redshift_space.
  - rewrite bind_run. rewrite bind_run. unfold SE.lift at 1.
    rewrite mul_ok by (rewrite length_map; lia).
    rewrite bind_run. unfold SE.lift at 1.
    rewrite !firstn_all2
      by (try rewrite length_map;
          try (rewrite zip_with_length by (rewrite length_map; lia)); lia).
    assert (Lv : length (map Ropp (zip_with Rmult D (map growth_rate za))) = n).
    { rewrite length_map, zip_with_length; rewrite ?length_map; lia. }
    rewrite scale_rows_ok by (rewrite Lv, (proj1 Sv); reflexivity).
    set (vterm := map (fun p => map (Rmult (fst p)) (snd p))
                      (combine (map Ropp (zip_with Rmult D (map growth_rate za)))
                               (diff2 (phi fi) (chi fb)))).
    assert (Svt : has_shape n npix vterm) by (apply shape_scaled; assumption).
    rewrite (run_add_to_delta_new h _ vterm
               (map (fun p => zip_with Rplus (fst p) (snd p)) (combine d1 vterm)))
      by (cbn [delta with_delta]; apply add2_ok;
          apply (same_shape_rect n npix); assumption).
    cbn [SE.ret]. eexists. split; [reflexivity |].
    intros i j Hi' Hj. cbn [delta with_delta].
    rewrite (nth_combine_map _ _ _ i [] [] [])
      by (rewrite ?(proj1 S1), ?(proj1 Svt); lia).
    cbn [fst snd].
    assert (L1 : length (nth i d1 []) = npix).
    { apply (proj1 (Forall_forall _ _) (proj2 S1)). apply nth_In.
      rewrite (proj1 S1). exact Hi'. }
    assert (Lvt : length (nth i vterm []) = npix).
    { apply (proj1 (Forall_forall _ _) (proj2 Svt)). apply nth_In.
      rewrite (proj1 Svt). exact Hi'. }
    rewrite nth_zip_with by lia.
    rewrite N1 by assumption. f_equal. unfold vterm.
    rewrite (nth_combine_map _ _ _ i [] 0 [])
      by (rewrite ?Lv, ?(proj1 Sv); lia).
    cbn [fst snd].
    rewrite (nth_map_lt _ _ _ 0 0) by (rewrite Rv by lia; lia).
    rewrite (nth_map_lt _ _ _ 0 0)
      by (rewrite zip_with_length; rewrite ?length_map; lia).
    rewrite nth_zip_with by (rewrite ?length_map; lia).
    unfold D. rewrite !(nth_map_lt _ _ _ 0 0) by lia. reflexivity.
  - rewrite bind_run. cbn [SE.ret]. eexists. split; [reflexivity |].
    intros i j Hi' Hj. cbn [delta with_delta]. rewrite N1 by assumption. ring.
Qed.


End Dynamics.

Lemma linear_process_formula_witness :
  exists out,
    LinearDynamics_process Examples.matter_growth (fun z => z) (fun phi _ => phi)
      false 0%nat 1%nat [Examples.twelve_pixels 2; Examples.twelve_pixels 3]
    = ([Examples.twelve_pixels 2; Examples.twelve_pixels 3] ++ [out], Ok 2%nat)
    /\ nth 0 (nth 0 (delta out) []) 0
       = 3 + Examples.matter_growth 1 / Examples.matter_growth 0 * 2 + 0.
Proof.
  destruct (linear_process_formula Examples.matter_growth (fun z => z)
              (fun phi _ => phi) false 0%nat 1%nat
              [Examples.twelve_pixels 2; Examples.twelve_pixels 3]
              (Examples.twelve_pixels 2) (Examples.twelve_pixels 3) [1]
              1 1 12 eq_refl eq_refl eq_refl eq_refl eq_refl eq_refl eq_refl
              ltac:(lia)
              ltac:(split; [reflexivity | repeat constructor])
              ltac:(split; [reflexivity | repeat constructor])
              eq_refl eq_refl
              ltac:(split; [reflexivity | repeat constructor])
              PipelineClaims.matter_growth_today) as [out [E H]].
  exists out. split; [exact E |].
  exact (H 0%nat 0%nat ltac:(lia) ltac:(lia)).
Defined.


End DynamicsFacts.

(** ** The mass assignment: the extended bins and the radial weights *)

Module MassAssignmentMore.

Import Spec PyFacts StateFacts ArrayFacts SortedFacts KernelFacts WidthFacts ZaFacts.
Import Za Weights.


(** The extended bins of two slices or more. *)
Lemma extend_chi_form (chi : list R) :
  (2 <= length chi)%nat ->
  extend_chi chi
  = Ok ((nth 0 chi 0 - (nth 1 chi 0 - nth 0 chi 0)) :: chi
        ++ [nth (length chi - 1) chi 0
            + (nth (length chi - 1) chi 0 - nth (length chi - 2) chi 0)]).
Proof.
  intros Hn. unfold extend_chi.
  change (index chi 0) with (index chi (Z.of_nat 0)).
  change (index chi 1) with (index chi (Z.of_nat 1)).
  change (index chi (-1)) with (index chi (- Z.of_nat 1)).
  change (index chi (-2)) with (index chi (- Z.of_nat 2)).
  rewrite (index_nat chi 0 0) by lia.
  rewrite (index_nat chi 1 0) by lia.
  rewrite (index_neg chi 1 0) by lia.
  rewrite (index_neg chi 2 0) by lia.
  cbn [bind]. f_equal.
  apply (nth_ext _ _ 0 0).
  - rewrite !set_nth_length, set_slice_length, repeat_length.
    cbn [length]. rewrite length_app. cbn [length]. lia.
  - intros j Hj.
    rewrite !set_nth_length, set_slice_length, repeat_length in Hj.
    rewrite !nth_set_nth, nth_set_slice, !set_nth_length, !set_slice_length,
      !repeat_length.
    destruct j as [| j].
    + destruct (length chi + 1 =? 0)%nat eqn:E; [apply Nat.eqb_eq in E; lia |].
      cbn [andb]. replace (0 <? length chi + 2)%nat with true
        by (symmetry; apply Nat.ltb_lt; lia).
      reflexivity.
    + cbn [nth].
      destruct (length chi + 1 =? S j)%nat eqn:E.
      * apply Nat.eqb_eq in E.
        replace (length chi + 1 <? length chi + 2)%nat with true
          by (symmetry; apply Nat.ltb_lt; lia).
        cbn [andb]. rewrite app_nth2 by lia.
        replace (j - length chi)%nat with 0%nat by lia. reflexivity.
      * apply Nat.eqb_neq in E. cbn [andb Nat.eqb].
        replace ((1 <=? S j) && (S j <? 1 + length chi) && (S j <? length chi + 2))%nat
          with true
          by (symmetry; rewrite !andb_true_iff; repeat split;
              (apply Nat.leb_le || apply Nat.ltb_lt); lia).
        rewrite app_nth1 by lia. f_equal. lia.
Qed.


Lemma sorted_nth (l : list R) :
  increasing l ->
  forall i j : nat, (i < j < length l)%nat -> nth i l 0 < nth j l 0.
Proof.
  unfold increasing. intros H. induction H as [| a l Hl IH Ha]; intros i j Hij.
  - cbn [length] in Hij. lia.
  - cbn [length] in Hij. destruct j as [| j]; [lia |]. cbn [nth].
    destruct i as [| i].
    + rewrite Forall_forall in Ha. apply Ha. apply nth_In. lia.
    + apply IH. lia.
Qed.

Lemma nth_sorted (l : list R) :
  (forall i j : nat, (i < j < length l)%nat -> nth i l 0 < nth j l 0) ->
  increasing l.
Proof.
  unfold increasing. induction l as [| a l IH]; intros H; constructor.
  - apply IH. intros i j Hij. apply (H (S i) (S j)). cbn [length]. lia.
  - apply Forall_forall. intros y Hy.
    destruct (In_nth _ _ 0 Hy) as [k [Hk <-]].
    apply (H 0%nat (S k)). cbn [length]. lia.
Qed.

(** One more bin below the first and one above the last keep the order. *)
Lemma extended_sorted (chi : list R) (lo hi : R) :
  (2 <= length chi)%nat -> increasing chi ->
  lo < nth 0 chi 0 -> nth (length chi - 1) chi 0 < hi ->
  increasing (lo :: chi ++ [hi]).
Proof.
  intros Hn Hinc Hlo Hhi.
  pose proof (sorted_nth chi Hinc) as Hs.
  constructor.
  - apply increasing_app; [exact Hinc | repeat constructor |].
    intros x y Hx [<- | []].
    destruct (In_nth _ _ 0 Hx) as [k [Hk <-]].
    destruct (Nat.eq_dec k (length chi - 1)) as [-> | Hne]; [lra |].
    pose proof (Hs k (length chi - 1)%nat ltac:(lia)). lra.
  - apply Forall_app. split.
    + apply Forall_forall. intros x Hx.
      destruct (In_nth _ _ 0 Hx) as [k [Hk <-]].
      destruct k as [| k]; [lra |].
      pose proof (Hs 0%nat (S k) ltac:(lia)). lra.
    + constructor; [| constructor].
      pose proof (Hs 0%nat (length chi - 1)%nat ltac:(lia)). lra.
Qed.

Lemma extend_chi_sorted (chi ext : list R) :
  (2 <= length chi)%nat -> increasing chi -> extend_chi chi = Ok ext ->
  increasing ext /\ length ext = (length chi + 2)%nat
  /\ (forall j, (j < length chi)%nat -> nth (S j) ext 0 = nth j chi 0).
Proof.
  intros Hn Hinc Hext. rewrite (extend_chi_form chi Hn) in Hext.
  injection Hext as <-.
  pose proof (sorted_nth chi Hinc) as Hs.
  pose proof (Hs 0%nat 1%nat ltac:(lia)) as H01.
  pose proof (Hs (length chi - 2)%nat (length chi - 1)%nat ltac:(lia)) as Hlast.
  split; [apply extended_sorted; try assumption; lra |].
  split.
  - cbn [length]. rewrite length_app. cbn [length]. lia.
  - intros j Hj. cbn [nth]. apply app_nth1. exact Hj.
Qed.

(** X20.  For two slices or more, [chi_ext] is [chi] with one more bin at
    each end, a mirror image of the first and of the last spacing; it is
    strictly increasing whenever [chi] is. *)
Theorem extend_chi_keeps_order (chi : list R) :
  (2 <= length chi)%nat -> increasing chi ->
  exists lo hi : R,
    extend_chi chi = Ok (lo :: chi ++ [hi])
    /\ nth 0 chi 0 - lo = nth 1 chi 0 - nth 0 chi 0
    /\ hi - nth (length chi - 1) chi 0
       = nth (length chi - 1) chi 0 - nth (length chi - 2) chi 0
    /\ increasing (lo :: chi ++ [hi]).
Proof.
  intros Hn Hinc.
  eexists. eexists. split; [apply extend_chi_form; exact Hn |].
  split; [lra |]. split; [lra |].
  pose proof (sorted_nth chi Hinc) as Hs.
  pose proof (Hs 0%nat 1%nat ltac:(lia)) as H01.
  pose proof (Hs (length chi - 2)%nat (length chi - 1)%nat ltac:(lia)) as Hlast.
  apply extended_sorted; try assumption; lra.
Qed.

Lemma extend_chi_keeps_order_witness :
  exists lo hi : R,
    extend_chi [1; 2; 4] = Ok (lo :: [1; 2; 4] ++ [hi])
    /\ nth 0 [1; 2; 4] 0 - lo = nth 1 [1; 2; 4] 0 - nth 0 [1; 2; 4] 0
    /\ hi - nth (length [1; 2; 4] - 1) [1; 2; 4] 0
       = nth (length [1; 2; 4] - 1) [1; 2; 4] 0
         - nth (length [1; 2; 4] - 2) [1; 2; 4] 0
    /\ increasing (lo :: [1; 2; 4] ++ [hi]).
Proof.
  apply (extend_chi_keeps_order [1; 2; 4]).
  - cbn [length]. lia.
  - unfold increasing. repeat constructor; lra.
Defined.







End MassAssignmentMore.

(** ** The radial weights of the grid scheme *)

Module RadialWeights.

Import Spec PyFacts ArrayFacts SortedFacts MassAssignmentMore.
Import Za Weights.

Local Abbreviation le_x x := (fun b : R => if Rle_dec b x then true else false).
Local Abbreviation outside n i := ((i <? 0) || (Z.of_nat n <=? i))%Z.

Lemma increasing_nondecreasing (l : list R) :
  increasing l -> nondecreasing l = true.
Proof.
  unfold increasing. intros H. induction H as [| a l Hl IH Ha]; [reflexivity |].
  destruct l as [| b l]; [reflexivity |].
  cbn [nondecreasing]. inversion Ha as [| ? ? Hab _]. subst.
  destruct (Rle_dec a b) as [_ | C]; [exact IH | exfalso; lra].
Qed.

Lemma count_none (x : R) (l : list R) :
  Forall (fun b => x < b) l -> count (le_x x) l = 0%nat.
Proof.
  unfold count. intros H. induction H as [| b l Hb _ IH]; [reflexivity |].
  cbn [filter].
  destruct (Rle_dec b x) as [C | _]; [exfalso; lra | exact IH].
Qed.

(** In increasing bins, the bins up to [x] are the first [count]. *)
Lemma count_spec (x : R) (l : list R) :
  increasing l ->
  (count (le_x x) l <= length l)%nat
  /\ (forall j, (j < count (le_x x) l)%nat -> nth j l 0 <= x)
  /\ (forall j, (count (le_x x) l <= j < length l)%nat -> x < nth j l 0).
Proof.
  unfold increasing. intros H. induction H as [| a l Hl IH Ha].
  - cbn. repeat split; intros; lia.
  - destruct IH as [IH0 [IH1 IH2]].
    destruct (Rle_dec a x) as [Hax | Hax].
    + assert (E : count (le_x x) (a :: l) = S (count (le_x x) l)).
      { unfold count. cbn [filter].
        destruct (Rle_dec a x); [reflexivity | contradiction]. }
      rewrite E. cbn [length]. repeat split.
      * lia.
      * intros [| j] Hj; cbn [nth]; [exact Hax | apply IH1; lia].
      * intros [| j] Hj; [lia |]. cbn [nth]. apply IH2. lia.
    + assert (Hall : Forall (fun b => x < b) (a :: l)).
      { constructor; [lra |]. eapply Forall_impl; [| exact Ha].
        cbn. intros b Hb. lra. }
      rewrite (count_none x _ Hall). cbn [length]. repeat split.
      * lia.
      * intros j Hj. lia.
      * intros j Hj. rewrite Forall_forall in Hall. apply Hall.
        apply nth_In. cbn [length]. lia.
Qed.

Lemma digitize_increasing (x : R) (bins : list R) :
  increasing bins -> digitize x bins = Ok (Z.of_nat (count (le_x x) bins)).
Proof.
  intros H. unfold digitize. rewrite (increasing_nondecreasing _ H). reflexivity.
Qed.

(** A position inside the cell [c] of the extended bins. *)
Lemma radial_weights_cell (ext : list R) (n : nat) (x : R) :
  increasing ext -> length ext = (n + 2)%nat ->
  let c := count (le_x x) ext in
  (1 <= c <= n + 1)%nat ->
  let lo := nth (c - 1) ext 0 in
  let hi := nth c ext 0 in
  let i0 := (Z.of_nat c - 2)%Z in
  let i1 := (Z.of_nat c - 1)%Z in
  lo <= x < hi
  /\ radial_weights ext n x
     = Ok ((i0, if outside n i0 then -1 else (hi - x) / (hi - lo)),
           (i1, if outside n i1 then -1 else (x - lo) / (hi - lo))).
Proof.
  intros Hinc Hlen c Hc lo hi i0 i1. subst i0 i1.
  destruct (count_spec x ext Hinc) as [_ [Hbelow Habove]].
  fold c in Hbelow, Habove.
  assert (Hlo : lo <= x) by (apply Hbelow; lia).
  assert (Hhi : x < hi) by (apply Habove; lia).
  split; [split; assumption |].
  unfold radial_weights. rewrite (digitize_increasing x ext Hinc). fold c.
  cbn [bind].
  rewrite !Z.mod_small by lia.
  replace (Z.of_nat c - 1)%Z with (Z.of_nat (c - 1)) by lia.
  rewrite (index_nat ext (c - 1) 0) by lia.
  rewrite (index_nat ext c 0) by lia.
  cbn [bind]. fold lo hi. unfold Float.np_div.
  destruct (Req_dec_T (hi - lo) 0) as [E | _]; [exfalso; lra |].
  cbn [bind].
  replace (Z.of_nat c - 1)%Z with (Z.of_nat (c - 1)) by lia.
  assert (H0 : 0 < (hi - x) / (hi - lo)).
  { apply Rdiv_lt_0_compat; lra. }
  assert (H1 : 0 <= (x - lo) / (hi - lo)).
  { apply Rmult_le_pos; [lra |]. apply Rlt_le, Rinv_0_lt_compat. lra. }
  rewrite (Rabs_pos_eq _ (Rlt_le _ _ H0)), (Rabs_pos_eq _ H1).
  reflexivity.
Qed.

(** X23.  A displaced position that stays between the first and the last
    slice is shared between the two slices [i] and [i + 1] around it, with
    the weights of a linear interpolation: they are non-negative, add up
    to one, and their centre of mass is the position. *)
Theorem radial_weights_interpolate (chi ext : list R) (x : R) :
  (2 <= length chi)%nat -> increasing chi -> extend_chi chi = Ok ext ->
  nth 0 chi 0 <= x < nth (length chi - 1) chi 0 ->
  exists (i : nat) (w0 w1 : R),
    radial_weights ext (length chi) x
    = Ok ((Z.of_nat i, w0), (Z.of_nat (S i), w1))
    /\ (S i < length chi)%nat
    /\ nth i chi 0 <= x < nth (S i) chi 0
    /\ 0 < w0 <= 1 /\ 0 <= w1 < 1 /\ w0 + w1 = 1
    /\ w0 * nth i chi 0 + w1 * nth (S i) chi 0 = x.
Proof.
  intros Hn Hinc Hext [Hx0 Hx1].
  destruct (extend_chi_sorted chi ext Hn Hinc Hext) as [Hsorted [Hlen Hnth]].
  destruct (count_spec x ext Hsorted) as [Hle [Hbelow Habove]].
  set (c := count (le_x x) ext) in *.
  assert (Hc2 : (2 <= c)%nat).
  { destruct (le_lt_dec 2 c) as [H | H]; [exact H | exfalso].
    pose proof (Habove 1%nat ltac:(lia)) as Hc.
    rewrite (Hnth 0%nat) in Hc by lia. lra. }
  assert (Hcn : (c <= length chi)%nat).
  { destruct (le_lt_dec c (length chi)) as [H | H]; [exact H | exfalso].
    pose proof (Hbelow (length chi) ltac:(lia)) as Hc.
    replace (length chi) with (S (length chi - 1)) in Hc at 1 by lia.
    rewrite (Hnth (length chi - 1)%nat) in Hc by lia. lra. }
  destruct (radial_weights_cell ext (length chi) x Hsorted Hlen ltac:(fold c; lia))
    as [[Hlo Hhi] Hrw].
  fold c in Hlo, Hhi, Hrw.
  replace (nth (c - 1) ext 0) with (nth (c - 2) chi 0) in *
    by (rewrite <- (Hnth (c - 2)%nat) by lia; f_equal; lia).
  replace (nth c ext 0) with (nth (S (c - 2)) chi 0) in *
    by (rewrite <- (Hnth (S (c - 2))) by lia; f_equal; lia).
  replace (Z.of_nat c - 2)%Z with (Z.of_nat (c - 2)) in Hrw by lia.
  replace (Z.of_nat c - 1)%Z with (Z.of_nat (S (c - 2))) in Hrw by lia.
  replace ((Z.of_nat (c - 2) <? 0) || (Z.of_nat (length chi) <=? Z.of_nat (c - 2)))%Z
    with false in Hrw
    by (symmetry; apply orb_false_intro; [apply Z.ltb_ge | apply Z.leb_gt]; lia).
  replace ((Z.of_nat (S (c - 2)) <? 0)
           || (Z.of_nat (length chi) <=? Z.of_nat (S (c - 2))))%Z
    with false in Hrw
    by (symmetry; apply orb_false_intro; [apply Z.ltb_ge | apply Z.leb_gt]; lia).
  set (a := nth (c - 2) chi 0) in *. set (b := nth (S (c - 2)) chi 0) in *.
  assert (Hab : 0 < b - a) by lra.
  assert (Ea : nth (c - 2) chi 0 = a) by reflexivity.
  assert (Eb : nth (S (c - 2)) chi 0 = b) by reflexivity.
  clearbody a b.
  exists (c - 2)%nat, ((b - x) / (b - a)), ((x - a) / (b - a)).
  rewrite Ea, Eb.
  split; [exact Hrw |]. split; [lia |]. split; [split; assumption |].
  assert (Hinv : 0 < / (b - a)) by (apply Rinv_0_lt_compat; exact Hab).
  repeat split.
  - apply Rdiv_lt_0_compat; lra.
  - apply (Rmult_le_reg_r (b - a)); [exact Hab |].
    unfold Rdiv. rewrite Rmult_assoc, Rinv_l by lra. lra.
  - apply Rmult_le_pos; lra.
  - apply (Rmult_lt_reg_r (b - a)); [exact Hab |].
    unfold Rdiv. rewrite Rmult_assoc, Rinv_l by lra. lra.
  - field. lra.
  - field. lra.
Qed.

Lemma radial_weights_interpolate_witness :
  exists (i : nat) (w0 w1 : R),
    radial_weights [0; 1; 2; 4; 6] (length [1; 2; 4]) 3
    = Ok ((Z.of_nat i, w0), (Z.of_nat (S i), w1))
    /\ (S i < length [1; 2; 4])%nat
    /\ nth i [1; 2; 4] 0 <= 3 < nth (S i) [1; 2; 4] 0
    /\ 0 < w0 <= 1 /\ 0 <= w1 < 1 /\ w0 + w1 = 1
    /\ w0 * nth i [1; 2; 4] 0 + w1 * nth (S i) [1; 2; 4] 0 = 3.
Proof.
  apply (radial_weights_interpolate [1; 2; 4] [0; 1; 2; 4; 6] 3).
  - cbn [length]. lia.
  - unfold increasing. repeat constructor; lra.
  - rewrite extend_chi_form by (cbn [length]; lia).
    cbn [length nth Nat.sub app]. repeat f_equal; lra.
  - cbn [length nth Nat.sub]. lra.
Defined.

(** X24.  Wherever the displaced position lies, each of the two slices the
    radial weights name is either a slice of the grid, with a weight
    between 0 and 1, or flagged by the weight -1; a position outside the
    extended bins has both flagged. *)
Theorem radial_weights_inside_or_flagged (chi ext : list R) (x : R) :
  (2 <= length chi)%nat -> increasing chi -> extend_chi chi = Ok ext ->
  exists (i0 : Z) (w0 w1 : R),
    radial_weights ext (length chi) x = Ok ((i0, w0), (i0 + 1, w1))%Z
    /\ (w0 = -1 \/ ((0 <= i0 < Z.of_nat (length chi))%Z /\ 0 <= w0 <= 1))
    /\ (w1 = -1 \/ ((0 <= i0 + 1 < Z.of_nat (length chi))%Z /\ 0 <= w1 <= 1))
    /\ (x < nth 0 ext 0 \/ nth (length chi + 1) ext 0 <= x ->
        w0 = -1 /\ w1 = -1).
Proof.
  intros Hn Hinc Hext.
  destruct (extend_chi_sorted chi ext Hn Hinc Hext) as [Hsorted [Hlen _]].
  set (n := length chi) in *.
  destruct (count_spec x ext Hsorted) as [Hle [Hbelow Habove]].
  pose proof (sorted_nth ext Hsorted 0%nat (n + 1)%nat ltac:(lia)) as Hends.
  assert (Hcases : (count (le_x x) ext = 0 \/ 1 <= count (le_x x) ext <= n + 1
                    \/ count (le_x x) ext = n + 2)%nat) by lia.
  destruct Hcases as [Hc | [Hc | Hc]].
  - (* below the extended bins *)
    exists (-2)%Z, (-1), (-1).
    split; [| split; [left; reflexivity | split; [left; reflexivity |]]].
    + unfold radial_weights. rewrite (digitize_increasing x ext Hsorted), Hc.
      cbn [bind]. change (Z.of_nat 0) with 0%Z.
      replace ((0 - 1) mod (Z.of_nat n + 2))%Z with (Z.of_nat (n + 1))
        by (apply Z.mod_unique with (q := (-1)%Z); lia).
      rewrite Z.mod_0_l by lia.
      rewrite (index_nat ext (n + 1) 0) by lia.
      change (index ext 0) with (index ext (Z.of_nat 0)).
      rewrite (index_nat ext 0 0) by lia.
      cbn [bind]. unfold Float.np_div.
      destruct (Req_dec_T (nth 0 ext 0 - nth (n + 1) ext 0) 0) as [E | _];
        [exfalso; lra |].
      cbn [bind].
      replace ((0 - 2 <? 0) || (Z.of_nat n <=? 0 - 2))%Z with true by reflexivity.
      replace ((0 - 1 <? 0) || (Z.of_nat n <=? 0 - 1))%Z with true by reflexivity.
      reflexivity.
    + intros _. split; reflexivity.
  - (* inside a cell *)
    destruct (radial_weights_cell ext n x Hsorted Hlen Hc) as [[Hlo Hhi] Hrw].
    set (c := count (le_x x) ext) in *.
    set (a := nth (c - 1) ext 0) in *. set (b := nth c ext 0) in *.
    assert (Hab : 0 < b - a) by lra.
    assert (Hinv : 0 < / (b - a)) by (apply Rinv_0_lt_compat; exact Hab).
    assert (H0 : 0 <= (b - x) / (b - a) <= 1).
    { split; [apply Rmult_le_pos; lra |].
      apply (Rmult_le_reg_r (b - a)); [exact Hab |].
      unfold Rdiv. rewrite Rmult_assoc, Rinv_l by lra. lra. }
    assert (H1 : 0 <= (x - a) / (b - a) <= 1).
    { split; [apply Rmult_le_pos; lra |].
      apply (Rmult_le_reg_r (b - a)); [exact Hab |].
      unfold Rdiv. rewrite Rmult_assoc, Rinv_l by lra. lra. }
    eexists. eexists. eexists.
    split; [rewrite Hrw; f_equal; f_equal; f_equal; lia |].
    split; [| split].
    + destruct ((Z.of_nat c - 2 <? 0) || (Z.of_nat n <=? Z.of_nat c - 2))%Z eqn:E;
        [left; reflexivity | right].
      apply orb_false_elim in E. destruct E as [E1 E2].
      apply Z.ltb_ge in E1. apply Z.leb_gt in E2. split; [lia | exact H0].
    + destruct ((Z.of_nat c - 1 <? 0) || (Z.of_nat n <=? Z.of_nat c - 1))%Z eqn:E;
        [left; reflexivity | right].
      apply orb_false_elim in E. destruct E as [E1 E2].
      apply Z.ltb_ge in E1. apply Z.leb_gt in E2. split; [lia | exact H1].
    + intros [Hout | Hout]; exfalso.
      * pose proof (Hbelow 0%nat ltac:(lia)). lra.
      * pose proof (Habove (n + 1)%nat ltac:(lia)). lra.
  - (* above the extended bins *)
    exists (Z.of_nat n), (-1), (-1).
    split; [| split; [left; reflexivity | split; [left; reflexivity |]]].
    + unfold radial_weights. rewrite (digitize_increasing x ext Hsorted), Hc.
      cbn [bind].
      replace ((Z.of_nat (n + 2) - 1) mod (Z.of_nat n + 2))%Z with (Z.of_nat (n + 1))
        by (rewrite Z.mod_small by lia; lia).
      replace (Z.of_nat (n + 2) mod (Z.of_nat n + 2))%Z with (Z.of_nat 0)
        by (replace (Z.of_nat (n + 2)) with (Z.of_nat n + 2)%Z by lia;
            rewrite Z.mod_same by lia; reflexivity).
      rewrite (index_nat ext (n + 1) 0) by lia.
      rewrite (index_nat ext 0 0) by lia.
      cbn [bind]. unfold Float.np_div.
      destruct (Req_dec_T (nth 0 ext 0 - nth (n + 1) ext 0) 0) as [E | _];
        [exfalso; lra |].
      cbn [bind].
      replace ((Z.of_nat (n + 2) - 2 <? 0) || (Z.of_nat n <=? Z.of_nat (n + 2) - 2))%Z
        with true
        by (symmetry; apply orb_true_intro; right; apply Z.leb_le; lia).
      replace ((Z.of_nat (n + 2) - 1 <? 0) || (Z.of_nat n <=? Z.of_nat (n + 2) - 1))%Z
        with true
        by (symmetry; apply orb_true_intro; right; apply Z.leb_le; lia).
      f_equal. f_equal; f_equal; lia.
    + intros _. split; reflexivity.
Qed.

Lemma radial_weights_inside_or_flagged_witness :
  exists (i0 : Z) (w0 w1 : R),
    radial_weights [0; 1; 2; 4; 6] (length [1; 2; 4]) 7 = Ok ((i0, w0), (i0 + 1, w1))%Z
    /\ (w0 = -1 \/ ((0 <= i0 < Z.of_nat (length [1; 2; 4]))%Z /\ 0 <= w0 <= 1))
    /\ (w1 = -1 \/ ((0 <= i0 + 1 < Z.of_nat (length [1; 2; 4]))%Z /\ 0 <= w1 <= 1))
    /\ (7 < nth 0 [0; 1; 2; 4; 6] 0
        \/ nth (length [1; 2; 4] + 1) [0; 1; 2; 4; 6] 0 <= 7 ->
        w0 = -1 /\ w1 = -1).
Proof.
  apply (radial_weights_inside_or_flagged [1; 2; 4] [0; 1; 2; 4; 6] 7).
  - cbn [length]. lia.
  - unfold increasing. repeat constructor; lra.
  - rewrite extend_chi_form by (cbn [length]; lia).
    cbn [length nth Nat.sub app]. repeat f_equal; lra.
Defined.

End RadialWeights.

(** ** The size of a particle in the SPH scheme *)

Module ParticleSize.

Import Weights.

Lemma clip_between (a lo hi : R) : lo <= hi -> lo <= clip a lo hi <= hi.
Proof.
  intros H. unfold clip, Rmin, Rmax.
  destruct (Rle_dec a lo); destruct (Rle_dec _ hi); lra.
Qed.

Lemma clip_monotone (a b lo hi : R) : a <= b -> clip a lo hi <= clip b lo hi.
Proof.
  intros H. unfold clip, Rmin, Rmax.
  destruct (Rle_dec a lo); destruct (Rle_dec b lo);
    repeat match goal with |- context [Rle_dec ?u ?v] => destruct (Rle_dec u v) end;
    lra.
Qed.

Lemma clip_inside (a lo hi : R) : lo <= a <= hi -> clip a lo hi = a.
Proof.
  intros H. unfold clip, Rmin, Rmax.
  destruct (Rle_dec a lo); destruct (Rle_dec _ hi); lra.
Qed.

(** A negative power decreases with its base. *)
Lemma Rpower_neg_decreasing (a b y : R) :
  0 < a -> a <= b -> y < 0 -> Rpower b y <= Rpower a y.
Proof.
  intros Ha Hab Hy. unfold Rpower.
  destruct (Rle_lt_or_eq_dec a b Hab) as [Hlt | ->]; [| lra].
  apply Rlt_le, exp_increasing.
  pose proof (ln_increasing a b Ha Hlt). nra.
Qed.

(** X25.  The change of size of a particle lies between [3 ** (-1/3)] and
    [0.1 ** (-1/3)] whatever the matter density; it does not increase with
    the density; and for a density contrast between -0.9 and 2 its cube
    times the density [1 + delta_m] is one: the volume of the particle is
    the inverse of its density. *)
Theorem scaling_clipped :
  (forall d : R, Rpower 3 (- 1 / 3) <= scaling d <= Rpower (1 / 10) (- 1 / 3))
  /\ (forall d1 d2 : R, d1 <= d2 -> scaling d2 <= scaling d1)
  /\ (forall d : R, - 9 / 10 <= d <= 2 -> scaling d ^ 3 * (1 + d) = 1).
Proof.
  split; [| split].
  - intros d. pose proof (clip_between (1 + d) (1 / 10) 3 ltac:(lra)) as [Hlo Hhi].
    unfold scaling. split; apply Rpower_neg_decreasing; lra.
  - intros d1 d2 H. unfold scaling.
    pose proof (clip_between (1 + d1) (1 / 10) 3 ltac:(lra)) as [Hlo _].
    apply Rpower_neg_decreasing; [lra | | lra].
    apply clip_monotone. lra.
  - intros d Hd. unfold scaling. rewrite clip_inside by lra.
    cbn [pow]. rewrite Rmult_1_r, <- !Rpower_plus.
    replace (- 1 / 3 + (- 1 / 3 + - 1 / 3)) with (- (1)) by field.
    rewrite Rpower_Ropp, Rpower_1 by lra. field. lra.
Qed.

Lemma scaling_clipped_witness :
  scaling 1 <= scaling (- 1 / 2) /\ scaling 1 ^ 3 * (1 + 1) = 1.
Proof.
  split.
  - apply (proj1 (proj2 scaling_clipped)). lra.
  - apply (proj2 (proj2 scaling_clipped)). lra.
Defined.

End ParticleSize.

(** ** The direct integration at small radii *)

Module DirectIntegral.

Import Spec PyFacts ArrayFacts SortedFacts PsToCorrFacts.
Import Corrfunc.

Lemma dot_linear {A : Type} (w : list R) (F G : A -> R) (a b : R) (s : list A) :
  Np.dot w (map (fun x => a * F x + b * G x) s)
  = a * Np.dot w (map F s) + b * Np.dot w (map G s).
Proof.
  revert s. induction w as [| c w IH]; intros [| x s]; cbn [Np.dot map];
    try ring.
  rewrite IH. ring.
Qed.

Section Direct.

Variable romb_weights : nat -> list R.

Local Abbreviation _corr_direct := (_corr_direct romb_weights).

(** For a non-negative [k] the integration returns, for every radius, the
    Romberg sum of the integrand over one grid of wavenumbers that does
    not depend on the power spectrum. *)
Lemma corr_direct_form (log_k0 log_k1 : R) (r : list R) (k : Z) :
  (0 <= k)%Z ->
  exists (ka : list R) (dlk : R),
    forall psfunc : R -> R,
      _corr_direct psfunc log_k0 log_k1 r k
      = Ok (map (fun ri =>
                   1 * Np.dot (romb_weights (length ka))
                         (map (fun kj => psfunc kj * kj ^ 3 / (2 * PI ^ 2)
                                         * Np.sinc (kj * ri / PI)) ka)
                   * dlk) r).
Proof.
  intros Hk.
  assert (Hpos : (0 <= Z.shiftl 1 k + 1)%Z).
  { rewrite Z.shiftl_1_l. pose proof (Z.pow_nonneg 2 k ltac:(lia)). lia. }
  destruct (logspace_ok log_k0 log_k1 _ true Hpos) as [ka [Eka [Lka Pka]]].
  rewrite shift_samples in Lka by exact Hk.
  assert (H1 : (1 <= 2 ^ Z.to_nat k)%nat).
  { pose proof (Nat.pow_nonzero 2 (Z.to_nat k) ltac:(lia)). lia. }
  exists ka, (ln (nth 1 ka 0 / nth 0 ka 0)). intros psfunc.
  unfold Corrfunc._corr_direct.
  destruct (k <? 0)%Z eqn:E; [apply Z.ltb_lt in E; lia |].
  rewrite Eka. cbn [bind].
  change (index ka 1) with (index ka (Z.of_nat 1)).
  rewrite (index_nat ka 1 0) by lia. cbn [bind].
  change (index ka 0) with (index ka (Z.of_nat 0)).
  rewrite (index_nat ka 0 0) by lia. cbn [bind].
  assert (H0 : nth 0 ka 0 <> 0).
  { rewrite Forall_forall in Pka.
    assert (0 < nth 0 ka 0) by (apply Pka; apply nth_In; lia). lra. }
  rewrite FloatFacts.np_div_ok by exact H0. cbn [bind].
  apply mapM_ok_map. intros ri _.
  unfold Corrfunc.romb. rewrite length_map, Lka, romb_samples_pow2.
  cbn [bind]. reflexivity.
Qed.

(** X26.  The direct integration is linear in the power spectrum: for a
    non-negative [k] it returns for two spectra, and what it returns for a
    linear combination of them is the same combination of the two
    results, radius by radius. *)
Theorem corr_direct_linear (f g : R -> R) (a b log_k0 log_k1 : R)
    (r : list R) (k : Z) :
  (0 <= k)%Z ->
  exists Ff Fg : list R,
    _corr_direct f log_k0 log_k1 r k = Ok Ff
    /\ _corr_direct g log_k0 log_k1 r k = Ok Fg
    /\ length Ff = length r /\ length Fg = length r
    /\ _corr_direct (fun x => a * f x + b * g x) log_k0 log_k1 r k
       = Ok (map (fun p => a * fst p + b * snd p) (combine Ff Fg)).
Proof.
  intros Hk. destruct (corr_direct_form log_k0 log_k1 r k Hk) as [ka [dlk H]].
  eexists. eexists.
  split; [apply H |]. split; [apply H |].
  split; [apply length_map |]. split; [apply length_map |].
  rewrite H. f_equal. clear H.
  induction r as [| ri r IH]; cbn [map combine fst snd]; [reflexivity |].
  rewrite IH. f_equal.
  rewrite (map_ext
             (fun kj => (a * f kj + b * g kj) * kj ^ 3 / (2 * PI ^ 2)
                        * Np.sinc (kj * ri / PI))
             (fun kj => a * (f kj * kj ^ 3 / (2 * PI ^ 2) * Np.sinc (kj * ri / PI))
                        + b * (g kj * kj ^ 3 / (2 * PI ^ 2)
                               * Np.sinc (kj * ri / PI))))
    by (intros kj; unfold Rdiv; ring).
  rewrite dot_linear. ring.
Qed.

End Direct.

Lemma corr_direct_linear_witness :
  exists Ff Fg : list R,
    _corr_direct (fun n => repeat 1 n) (fun x => x) 0 1 [1; 2] 2 = Ok Ff
    /\ _corr_direct (fun n => repeat 1 n) (fun _ => 1) 0 1 [1; 2] 2 = Ok Fg
    /\ length Ff = length [1; 2] /\ length Fg = length [1; 2]
    /\ _corr_direct (fun n => repeat 1 n) (fun x => 2 * x + 3 * 1) 0 1 [1; 2] 2
       = Ok (map (fun p => 2 * fst p + 3 * snd p) (combine Ff Fg)).
Proof.
  apply (corr_direct_linear (fun n => repeat 1 n) (fun x => x) (fun _ => 1)
           2 3 0 1 [1; 2] 2).
  lia.
Defined.

End DirectIntegral.

(** ** The angular covariance without radial integration *)

Module GaussLegendre.

Import Spec Quadrature.
Import PyFacts ArrayFacts ClArrayFacts WidthFacts.
Import Corrfunc.

Lemma firstn_split {A : Type} (s t : nat) (l : list A) :
  firstn s l ++ firstn t (skipn s l) = firstn (s + t) l.
Proof.
  revert l. induction s as [| s IH]; intros l; [reflexivity |].
  destruct l as [| x l]; cbn [firstn skipn Nat.add app].
  - rewrite firstn_nil. reflexivity.
  - rewrite IH. reflexivity.
Qed.

(** The pieces, one after the other, are the array they were cut from. *)
Lemma pieces_concat {A : Type} (sizes : list nat) (l : list A) :
  concat (Np.pieces sizes l) = firstn (list_sum sizes) l.
Proof.
  revert l. induction sizes as [| s sizes IH]; intros l; cbn [Np.pieces concat].
  - reflexivity.
  - change (list_sum (s :: sizes)) with (s + list_sum sizes)%nat.
    rewrite IH. apply firstn_split.
Qed.

Lemma list_sum_repeat (a n : nat) : list_sum (repeat a n) = (n * a)%nat.
Proof.
  induction n as [| n IH]; cbn [repeat]; [reflexivity |].
  change (list_sum (a :: repeat a n)) with (a + list_sum (repeat a n))%nat.
  rewrite IH. lia.
Qed.

Lemma array_split_concat {A : Type} (ary : list A) (Nsections : Z)
    (groups : list (list A)) :
  Np.array_split ary Nsections = Ok groups -> concat groups = ary.
Proof.
  unfold Np.array_split. destruct (Nsections <=? 0)%Z eqn:E; [discriminate |].
  apply Z.leb_gt in E. intros H. injection H as <-.
  rewrite pieces_concat. apply firstn_all2.
  rewrite list_sum_app, !list_sum_repeat.
  set (k := Z.to_nat Nsections).
  assert (Hk : (k <> 0)%nat) by (unfold k; lia).
  pose proof (Nat.div_mod_eq (length ary) k) as Hdm.
  pose proof (Nat.mod_upper_bound (length ary) k Hk) as Hlt.
  nia.
Qed.

Lemma assign_planes_length {A : Type} (msec : list nat) (planes arr : list A) :
  length (assign_planes msec planes arr) = length arr.
Proof.
  revert planes arr. induction msec as [| m msec IH]; intros planes arr;
    cbn [assign_planes]; [reflexivity |].
  destruct planes as [| p planes]; [reflexivity |].
  rewrite IH. apply set_nth_length.
Qed.

(** Planes that depend on their index only: after the assignment the
    plane [m] of a group is the one of [m], the others are as before. *)
Lemma assign_planes_nth {A : Type} (Pl : nat -> A) (msec : list nat)
    (arr : list A) (m : nat) (d : A) :
  (m < length arr)%nat ->
  nth m (assign_planes msec (map Pl msec) arr) d
  = if existsb (Nat.eqb m) msec then Pl m else nth m arr d.
Proof.
  revert arr. induction msec as [| a msec IH]; intros arr Hm;
    cbn [assign_planes map existsb]; [reflexivity |].
  rewrite IH by (rewrite set_nth_length; exact Hm).
  rewrite nth_set_nth.
  destruct (existsb (Nat.eqb m) msec); [rewrite orb_true_r; reflexivity |].
  rewrite orb_false_r. rewrite (Nat.eqb_sym m a).
  destruct (a =? m)%nat eqn:E.
  - apply Nat.eqb_eq in E. subst a.
    replace (m <? length arr)%nat with true by (symmetry; apply Nat.ltb_lt; exact Hm).
    reflexivity.
  - reflexivity.
Qed.

Lemma fill_groups_nth {A : Type} (Pl : nat -> A)
    (group : list nat -> result (list A)) (groups : list (list nat)) :
  (forall msec, In msec groups -> group msec = Ok (map Pl msec)) ->
  forall arr : list A,
  exists out,
    fill_groups group groups arr = Ok out
    /\ length out = length arr
    /\ forall (m : nat) (d : A),
         (m < length arr)%nat ->
         nth m out d
         = if existsb (Nat.eqb m) (concat groups) then Pl m else nth m arr d.
Proof.
  induction groups as [| msec groups IH]; intros Hg arr; cbn [fill_groups concat].
  - exists arr. repeat split. 
  - rewrite (Hg msec (or_introl eq_refl)). cbn [bind].
    destruct (IH ltac:(intros g Hin; apply Hg; right; exact Hin)
                 (assign_planes msec (map Pl msec) arr)) as [out [E [L N]]].
    exists out. split; [exact E |]. rewrite assign_planes_length in L, N.
    split; [exact L |].
    intros m d Hm. rewrite (N m d Hm), existsb_app.
    rewrite (assign_planes_nth Pl msec arr m d Hm).
    destruct (existsb (Nat.eqb m) (concat groups));
      [rewrite orb_true_r | rewrite orb_false_r]; reflexivity.
Qed.

Lemma existsb_seq (m n : nat) : (m < n)%nat -> existsb (Nat.eqb m) (seq 0 n) = true.
Proof.
  intros H. apply existsb_exists. exists m. split; [| apply Nat.eqb_refl].
  apply in_seq. lia.
Qed.

(** [np.dot] of two arrays of [n] entries as a sum over the indices. *)
Lemma dot_sum_nth (a b : list R) (n : nat) :
  length a = n -> length b = n ->
  Np.dot a b = Np.sum (map (fun m => nth m a 0 * nth m b 0) (seq 0 n)).
Proof.
  revert b n. induction a as [| x a IH]; intros b n Ha Hb; cbn [length] in Ha;
    subst n.
  - reflexivity.
  - destruct b as [| y b]; [discriminate Hb |]. cbn [length] in Hb.
    cbn [Np.dot seq map nth]. rewrite sum_cons.
    rewrite (IH b (length a) eq_refl ltac:(lia)).
    rewrite <- seq_shift, map_map. reflexivity.
Qed.

Lemma separation_value (x1 x2 ms : R) :
  -1 <= ms <= 1 -> separation x1 x2 ms = Ok (chord x1 x2 ms).
Proof.
  intros Hms. destruct (separation_ok x1 x2 ms Hms) as [rc E].
  unfold separation in *. destruct (Rlt_dec _ 0); [discriminate E | reflexivity].
Qed.

Lemma corr_matrix_value (corr : R -> R) (xa : list R) (ms : R) :
  -1 <= ms <= 1 ->
  corr_matrix corr xa ms
  = Ok (map (fun x1 => map (fun x2 => corr (chord x1 x2 ms)) xa) xa).
Proof.
  intros Hms. unfold corr_matrix.
  apply mapM_ok_map. intros x1 _. apply mapM_ok_map. intros x2 _.
  rewrite (separation_value x1 x2 ms Hms). reflexivity.
Qed.

Section Formula.

Variable romb_weights : nat -> list R.
Variable roots_legendre : Z -> result (list R * list R * R).
Variable lpn : Z -> R -> result (list R).

Local Abbreviation corr_group := (corr_group romb_weights).
Local Abbreviation corr_to_clarray := (corr_to_clarray romb_weights roots_legendre lpn).

Lemma corr_group_value (corr : R -> R) (mu : list R) (xlen : nat) (xa : list R)
    (msec : list nat) :
  Forall (fun m => -1 <= m <= 1) mu ->
  (forall m, In m msec -> (m < length mu)%nat) ->
  corr_group corr mu xlen xa None msec
  = Ok (map (fun m => map (fun x1 => map (fun x2 => corr (chord x1 x2 (nth m mu 0)))
                                         xa) xa) msec).
Proof.
  intros Hmu Hm. unfold Corrfunc.corr_group.
  apply mapM_ok_map. intros m Hin.
  rewrite (index_nat mu m 0 (Hm m Hin)). cbn [bind].
  rewrite corr_matrix_value; [reflexivity |].
  rewrite Forall_forall in Hmu. apply Hmu. apply nth_In. apply Hm. exact Hin.
Qed.

(** X27.  Without radial integration ([xromb <= 0]), given at least 50
    Gauss-Legendre nodes inside [-1, 1] with weights of a non-zero sum and
    the Legendre polynomials up to [lmax] at every node, [corr_to_clarray]
    returns [lmax + 1] slices, and entry [(l, i, j)] is the quadrature sum
    over the nodes of [P_l(mu) * w * 4 pi / wsum] times the correlation
    function at the separation of the distances [i] and [j] seen under
    the angle of cosine [mu]. *)
Theorem corr_to_clarray_gauss_legendre (corr : R -> R) (lmax : Z)
    (xarray : list R) (xromb : Z) (xwidth : option R) (q : Z)
    (mu w : list R) (wsum : R) (P : R -> list R) :
  roots_legendre (q * lmax) = Ok (mu, w, wsum) ->
  length mu = Z.to_nat (q * lmax) -> length w = length mu -> wsum <> 0 ->
  Forall (fun m => -1 <= m <= 1) mu ->
  (forall v, In v mu ->
             lpn lmax v = Ok (P v) /\ length (P v) = Z.to_nat (lmax + 1)) ->
  (50 <= q * lmax)%Z -> (0 <= lmax + 1)%Z -> (xromb <= 0)%Z ->
  exists clxx,
    corr_to_clarray corr lmax xarray xromb xwidth q = Ok clxx
    /\ length clxx = Z.to_nat (lmax + 1)
    /\ forall l i j : nat,
         (l < Z.to_nat (lmax + 1))%nat ->
         (i < length xarray)%nat -> (j < length xarray)%nat ->
         nth j (nth i (nth l clxx []) []) 0
         = gauss_legendre_cl corr P mu w wsum xarray l i j.
Proof.
  intros Hrl Hmu Hw Hwsum Hnodes Hlpn HM Hl Hx.
  unfold Corrfunc.corr_to_clarray. rewrite Hrl. cbn [bind].
  destruct (q * lmax <? 0)%Z eqn:E; [apply Z.ltb_lt in E; lia |].
  unfold extended_distances.
  destruct (0 <? xromb)%Z eqn:Ex; [apply Z.ltb_lt in Ex; lia |].
  cbn [bind].
  destruct (Np.array_split (Np.arange (q * lmax)) (q * lmax / 50))
    as [groups | e] eqn:Esplit.
  2:{ unfold Np.array_split in Esplit.
      destruct (q * lmax / 50 <=? 0)%Z eqn:Ediv; [| discriminate Esplit].
      apply Z.leb_le in Ediv.
      assert (1 <= q * lmax / 50)%Z by (apply Z.div_le_lower_bound; lia). lia. }
  cbn [bind].
  pose proof (array_split_concat _ _ _ Esplit) as Hcat.
  set (Pl := fun m : nat =>
               map (fun x1 => map (fun x2 => corr (chord x1 x2 (nth m mu 0)))
                                  xarray) xarray).
  destruct (fill_groups_nth Pl
              (corr_group corr mu (length xarray) xarray None) groups
              ltac:(intros msec Hin; apply corr_group_value; [exact Hnodes |];
                    intros m Hm;
                    assert (Hc : In m (concat groups))
                      by (apply in_concat; exists msec; split; assumption);
                    rewrite Hcat in Hc; unfold Np.arange in Hc;
                    apply in_seq in Hc; lia)
              (repeat (repeat (repeat 0 (length xarray)) (length xarray))
                      (Z.to_nat (q * lmax))))
    as [corr_array [Efill [Lfill Nfill]]].
  rewrite Efill. cbn [bind].
  rewrite repeat_length in Lfill, Nfill.
  unfold legendre_array.
  destruct (lmax + 1 <? 0)%Z eqn:E1; [apply Z.ltb_lt in E1; lia |].
  rewrite (mapM_ok_map _ P)
    by (intros v Hv; destruct (Hlpn v Hv) as [Ep Lp]; rewrite Ep; cbn [bind];
        rewrite Lp, Nat.eqb_refl; reflexivity).
  cbn [bind].
  rewrite (mapM_ok_map _ (fun wm => wm * 4 * PI / wsum))
    by (intros wm _; apply FloatFacts.np_div_ok; exact Hwsum).
  cbn [bind]. rewrite length_map, Hw, Nat.eqb_refl. cbn [negb].
  rewrite Hmu, Nat.eqb_refl. cbn [negb].
  eexists. split; [reflexivity |]. split.
  - rewrite !length_map, length_seq. reflexivity.
  - intros l i j Hl' Hi Hj.
    rewrite map_map.
    rewrite (nth_map_lt _ _ l [] (map (fun col => nth l col 0) (map P mu)))
      by (rewrite length_map, length_seq; exact Hl').
    cbv beta.
    rewrite nth_map_seq.
    replace (i <? length xarray)%nat with true
      by (symmetry; apply Nat.ltb_lt; exact Hi).
    rewrite nth_map_seq.
    replace (j <? length xarray)%nat with true
      by (symmetry; apply Nat.ltb_lt; exact Hj).
    rewrite nth_map_seq.
    replace (l <? Z.to_nat (lmax + 1))%nat with true
      by (symmetry; apply Nat.ltb_lt; exact Hl').
    unfold gauss_legendre_cl.
    rewrite (dot_sum_nth _ _ (length mu)).
    + apply sum_map_ext. intros m Hm. apply in_seq in Hm.
      rewrite (nth_map_lt _ _ m 0 (0, 0))
        by (rewrite length_combine, !length_map, Hw; lia).
      rewrite nth_combine_lt by (rewrite ?length_map; lia).
      cbn [fst snd].
      rewrite (nth_map_lt _ (map P mu) m 0 [])
        by (rewrite length_map; lia).
      rewrite (nth_map_lt _ mu m [] 0) by lia.
      rewrite (nth_map_lt _ w m 0 0) by lia.
      rewrite (nth_map_lt _ corr_array m 0 []) by lia.
      rewrite (Nfill m [] ltac:(lia)).
      rewrite Hcat. unfold Np.arange. rewrite existsb_seq by lia.
      unfold Pl.
      rewrite (nth_map_lt _ xarray i [] 0) by exact Hi.
      rewrite (nth_map_lt _ xarray j 0 0) by exact Hj.
      reflexivity.
    + rewrite length_map, length_combine, !length_map, Hw. lia.
    + rewrite length_map. lia.
Qed.

End Formula.

Import Examples.

(** Fifty flat nodes and two distances: the entries are the sums. *)
Lemma corr_to_clarray_gauss_legendre_witness :
  exists clxx,
    corr_to_clarray unit_weights flat_nodes flat_lpn (fun r => r) 25 [1; 2] 0
      None 2 = Ok clxx
    /\ length clxx = Z.to_nat (25 + 1)
    /\ forall l i j : nat,
         (l < Z.to_nat (25 + 1))%nat ->
         (i < length [1; 2])%nat -> (j < length [1; 2])%nat ->
         nth j (nth i (nth l clxx []) []) 0
         = gauss_legendre_cl (fun r => r) (fun _ => repeat 1 (Z.to_nat (25 + 1)))
             (repeat 0 (Z.to_nat 50)) (repeat 1 (Z.to_nat 50)) 1 [1; 2] l i j.
Proof.
  apply (corr_to_clarray_gauss_legendre unit_weights flat_nodes flat_lpn
           (fun r => r) 25 [1; 2] 0 None 2
           (repeat 0 (Z.to_nat 50)) (repeat 1 (Z.to_nat 50)) 1
           (fun _ => repeat 1 (Z.to_nat (25 + 1)))).
  - reflexivity.
  - apply repeat_length.
  - rewrite !repeat_length. reflexivity.
  - lra.
  - apply Forall_forall. intros m Hm. apply repeat_spec in Hm. subst m. lra.
  - intros v _. split; [reflexivity | apply repeat_length].
  - lia.
  - lia.
  - lia.
Defined.

End GaussLegendre.

(** ** The level of the shot noise *)

Module ShotNoiseFacts.

Import Spec Tasks.
Import FloatFacts PyFacts ArrayFacts StateFacts WidthFacts.

Lemma zip_with_nth (f : R -> R -> R) (a b : list R) (i : nat) :
  (i < length a)%nat -> (i < length b)%nat ->
  nth i (zip_with f a b) 0 = f (nth i a 0) (nth i b 0).
Proof.
  intros Ha Hb. unfold zip_with.
  rewrite (nth_map_lt _ _ _ 0 (0, 0)) by (rewrite length_combine; lia).
  rewrite nth_combine_lt by assumption. reflexivity.
Qed.

Lemma zip_with_len (f : R -> R -> R) (a b : list R) :
  length a = length b -> length (zip_with f a b) = length a.
Proof.
  intros H. unfold zip_with. rewrite length_map, length_combine. lia.
Qed.

Lemma mul_same_length (a b : list R) :
  length a = length b -> mul a b = Ok (zip_with Rmult a b).
Proof. intros H. unfold mul. rewrite H, Nat.eqb_refl. reflexivity. Qed.

Section ShotNoise.

Variable nside2pixarea : nat -> R.
Variable rng_normal : list R -> nat * nat -> list (list R).

Local Abbreviation shot_noise_process :=
  (AddCorrelatedShotNoise_process nside2pixarea rng_normal).


(** X29.  When every shell has a positive expected number of sources
    [pixarea * chi ** 2 * width * n_eff], the noise is drawn with the
    level [1 / sqrt] of that number for each shell and added to [delta] of
    the input, which is returned. *)
Theorem shot_noise_level (_n_eff_z width : list R) (h : heap) (r : ref)
    (c : Container) (d' : list (list R)) :
  nth_error h r = Some c ->
  Lss._calculate_width (chi c) = Ok width ->
  length _n_eff_z = length (chi c) ->
  let sources := fun i =>
    nside2pixarea (nside c) * nth i (chi c) 0 ^ 2 * nth i width 0
    * nth i _n_eff_z 0 in
  (forall i, (i < length (chi c))%nat -> 0 < sources i) ->
  let std := map (fun i => / sqrt (sources i)) (seq 0 (length (chi c))) in
  add2 (delta c) (rng_normal std (Lss.shape2 (delta c))) = Ok d' ->
  shot_noise_process _n_eff_z r h = (Np.set_nth r (with_delta c d') h, Ok r).
Proof.
  intros Hr Hw Hl sources Hpos std Hadd.
  pose proof (KernelFacts.calculate_width_length _ _ Hw) as Lw.
  unfold AddCorrelatedShotNoise_process, SE.bind, deref, SE.lift.
  rewrite Hr, Hw.
  set (volume := zip_with Rmult _ width).
  assert (Lv : length volume = length (chi c)).
  { unfold volume. rewrite zip_with_len by (rewrite length_map; lia).
    apply length_map. }
  rewrite (mul_same_length volume _n_eff_z) by lia.
  set (vn := zip_with Rmult volume _n_eff_z).
  assert (Evn : forall i, (i < length (chi c))%nat -> nth i vn 0 = sources i).
  { intros i Hi. unfold vn. rewrite zip_with_nth by lia.
    unfold volume. rewrite zip_with_nth by (rewrite ?length_map; lia).
    rewrite (nth_map_lt _ _ _ 0 0) by exact Hi. reflexivity. }
  assert (Lvn : length vn = length (chi c)).
  { unfold vn. rewrite zip_with_len; lia. }
  assert (Estd : mapM inv_sqrt vn = Ok std).
  { replace std with (map (fun x => / sqrt x) vn).
    - apply mapM_ok_map. intros x Hx. unfold inv_sqrt.
      destruct (In_nth _ _ 0 Hx) as [i [Hi <-]].
      rewrite Evn by lia.
      destruct (Rlt_dec 0 (sources i)) as [_ | C];
        [reflexivity | exfalso; apply C, Hpos; lia].
    - apply (nth_ext _ _ 0 0).
      + unfold std. rewrite !length_map, length_seq. exact Lvn.
      + intros i Hi. rewrite length_map in Hi.
        rewrite (nth_map_lt _ _ _ 0 0) by exact Hi.
        unfold std. rewrite nth_map_seq.
        replace (i <? length (chi c))%nat with true
          by (symmetry; apply Nat.ltb_lt; lia).
        rewrite Evn by lia. reflexivity. }
  rewrite Estd.
  unfold add_to_delta, SE.bind, deref, SE.lift. rewrite Hr, Hadd.
  unfold set_delta, SE.modify, SE.ret. rewrite Hr. reflexivity.
Qed.

End ShotNoise.


Lemma shot_noise_level_witness :
  let c := {| delta := [[0]; [0]; [0]]; phi := []; chi := [1; 2; 3];
              redshift_label := Some [1; 2; 3]; pixel := [0%nat]; nside := 1;
              lightcone := true; fixed_redshift := None |} in
  let noise := fun (std : list R) (_ : nat * nat) => map (fun s => [s]) std in
  exists d' : list (list R),
    AddCorrelatedShotNoise_process (fun _ => 1) noise [1; 1; 1] 0%nat [c]
    = (Np.set_nth 0 (with_delta c d') [c], Ok 0%nat).
Proof.
  intros c noise.
  destruct (calculate_width_entries [1; 2; 3] ltac:(cbn [length]; lia))
    as [w [Ew [Lw [H0 [Hmid Hlast]]]]].
  cbn [length nth Nat.sub] in Lw, H0, Hmid, Hlast.
  specialize (Hmid 1%nat ltac:(lia)). cbn [nth Nat.add Nat.sub] in Hmid.
  destruct w as [| w0 [| w1 [| w2 [| ? ?]]]]; try discriminate Lw.
  cbn [nth] in H0, Hmid, Hlast.
  assert (E0 : w0 = 1).
  { rewrite H0. replace (2 * (2 - (3 - 1) / 2 / 2 - 1)) with 1 by field.
    apply Rabs_R1. }
  assert (E1 : w1 = 1).
  { rewrite Hmid. replace ((3 - 1) / 2) with 1 by field. apply Rabs_R1. }
  assert (E2 : w2 = 1).
  { rewrite Hlast. replace (2 * (3 - (3 - 1) / 2 / 2 - 2)) with 1 by field.
    apply Rabs_R1. }
  rewrite E0, E1, E2 in Ew. clear H0 Hmid Hlast E0 E1 E2 Lw.
  eexists.
  apply (shot_noise_level (fun _ => 1) noise [1; 1; 1] [1; 1; 1] [c] 0%nat c _
           eq_refl Ew eq_refl).
  - intros i Hi. cbn [chi c length] in Hi.
    destruct i as [| [| [| i]]]; cbn [nth chi c nside]; try lia; lra.
  - cbn [chi delta c length seq map noise add2 Nat.eqb bind zip_with combine
         fst snd]. reflexivity.
Defined.

End ShotNoiseFacts.

(** ** The covariance of the initial fields *)

Module InitialCovariance.

Import Spec Blocks.
Import PyFacts ArrayFacts ClArrayFacts WidthFacts.
Import Corrfunc Initial.

(** A square table of a symmetric function of two indices. *)
Lemma table_symmetric (F : nat -> nat -> R) (n : nat) :
  (forall a b, F a b = F b a) ->
  symmetric (map (fun i => map (fun j => F i j) (seq 0 n)) (seq 0 n)).
Proof.
  intros HF i j. rewrite !nth_map_seq.
  destruct (i <? n)%nat eqn:Ei, (j <? n)%nat eqn:Ej.
  - rewrite !nth_map_seq, Ei, Ej. apply HF.
  - rewrite nth_map_seq, Ej. destruct i; reflexivity.
  - rewrite nth_map_seq, Ei. destruct j; reflexivity.
  - destruct i, j; reflexivity.
Qed.

Lemma table_shape (F : nat -> nat -> R) (n : nat) :
  has_shape n n (map (fun i => map (fun j => F i j) (seq 0 n)) (seq 0 n)).
Proof.
  split; [rewrite length_map; apply length_seq |].
  apply Forall_forall. intros row Hrow. apply in_map_iff in Hrow.
  destruct Hrow as [i [<- _]]. rewrite length_map. apply length_seq.
Qed.

Lemma pick_nth {A : Type} (i n : nat) (x : list A) (d : A) :
  length x = n -> (i < n)%nat -> pick i x d = nth i x d.
Proof.
  intros Hx Hi. unfold pick. destruct (length x =? 1)%nat eqn:E; [| reflexivity].
  apply Nat.eqb_eq in E. replace i with 0%nat by lia. reflexivity.
Qed.

Lemma fits_same (n : nat) : fits n n = true.
Proof. unfold fits. rewrite Nat.eqb_refl. reflexivity. Qed.

Lemma shape3_nth (a b c : nat) (x : list (list (list R))) (l : nat) :
  shape3 a b c x -> (l < a)%nat -> has_shape b c (nth l x []).
Proof.
  intros [Hx Hp] Hl. rewrite Forall_forall in Hp. apply Hp. apply nth_In. lia.
Qed.

Lemma has_shape_nth (b c : nat) (p : list (list R)) (i : nat) :
  has_shape b c p -> (i < b)%nat -> length (nth i p []) = c.
Proof.
  intros [Hp Hr] Hi. rewrite Forall_forall in Hr. apply Hr. apply nth_In. lia.
Qed.

(** The assignment of a block of the shape of the slice. *)
Lemma set_block_entries (r0 c0 n a b c : nat) (block cla : list (list (list R))) :
  shape3 a n n block -> shape3 a b c cla ->
  (r0 + n <= b)%nat -> (c0 + n <= c)%nat ->
  exists cla',
    set_block r0 c0 n block cla = Ok cla'
    /\ shape3 a b c cla'
    /\ forall l i j : nat,
         (l < a)%nat -> (i < b)%nat -> (j < c)%nat ->
         entry cla' l i j
         = if ((r0 <=? i) && (i <? r0 + n) && (c0 <=? j) && (j <? c0 + n))%nat
           then entry block l (i - r0) (j - c0)
           else entry cla l i j.
Proof.
  intros Hb Hc Hr Hcol. unfold set_block.
  destruct Hb as [Lb Sb]. destruct Hc as [Lc Sc].
  assert (Hfit : fits (length cla) (length block)
                 && forallb (fun p => fits n (length p)
                                      && forallb (fun row => fits n (length row)) p)
                      block = true).
  { rewrite Lb, Lc, fits_same. cbn [andb]. apply forallb_forall.
    intros p Hp. rewrite Forall_forall in Sb. destruct (Sb p Hp) as [Lp Rp].
    rewrite Lp, fits_same. cbn [andb]. apply forallb_forall. intros row Hrow.
    rewrite Forall_forall in Rp. rewrite (Rp row Hrow). apply fits_same. }
  rewrite Hfit. eexists. split; [reflexivity |].
  assert (Hplane : forall l, (l < a)%nat ->
            has_shape n n (nth l block []) /\ has_shape b c (nth l cla [])).
  { intros l Hl. split.
    - apply (shape3_nth a n n block l (conj Lb Sb) Hl).
    - apply (shape3_nth a b c cla l (conj Lc Sc) Hl). }
  split; [split |].
  - rewrite length_map, length_seq. exact Lc.
  - apply Forall_forall. intros p Hp. apply in_map_iff in Hp.
    destruct Hp as [l [<- Hl]]. apply in_seq in Hl. rewrite Lc in Hl.
    destruct (Hplane l ltac:(lia)) as [_ [Lcp Rcp]].
    split; [rewrite length_map, length_seq; exact Lcp |].
    apply Forall_forall. intros row Hrow. apply in_map_iff in Hrow.
    destruct Hrow as [i [<- Hi]]. apply in_seq in Hi. rewrite Lcp in Hi.
    assert (Lrow : length (nth i (nth l cla []) []) = c).
    { rewrite Forall_forall in Rcp. apply Rcp. apply nth_In. lia. }
    destruct ((r0 <=? i) && (i <? r0 + n))%nat; [| exact Lrow].
    rewrite KernelFacts.set_slice_length. exact Lrow.
  - intros l i j Hl Hi Hj. unfold entry.
    destruct (Hplane l Hl) as [[Lbp Rbp] [Lcp Rcp]].
    rewrite nth_map_seq.
    replace (l <? length cla)%nat with true by (symmetry; apply Nat.ltb_lt; lia).
    cbv zeta. rewrite nth_map_seq, Lcp.
    replace (i <? b)%nat with true by (symmetry; apply Nat.ltb_lt; lia).
    assert (Lrow : length (nth i (nth l cla []) []) = c)
      by (apply (has_shape_nth b c _ i (conj Lcp Rcp) Hi)).
    destruct ((r0 <=? i) && (i <? r0 + n))%nat eqn:Erow; cbn [andb];
      [| reflexivity].
    apply andb_prop in Erow. destruct Erow as [E1 E2].
    apply Nat.leb_le in E1. apply Nat.ltb_lt in E2.
    rewrite nth_set_slice, length_map, length_seq, Lrow.
    replace (j <? c)%nat with true by (symmetry; apply Nat.ltb_lt; lia).
    rewrite andb_true_r.
    destruct ((c0 <=? j) && (j <? c0 + n))%nat eqn:Ecol; [| reflexivity].
    apply andb_prop in Ecol. destruct Ecol as [E3 E4].
    apply Nat.leb_le in E3. apply Nat.ltb_lt in E4.
    rewrite nth_map_seq.
    replace (j - c0 <? n)%nat with true by (symmetry; apply Nat.ltb_lt; lia).
    rewrite (pick_nth l a block []) by (assumption || lia).
    rewrite (pick_nth (i - r0) n (nth l block []) []) by (assumption || lia).
    apply (pick_nth (j - c0) n).
    + apply (has_shape_nth n n _ (i - r0) (conj Lbp Rbp)). lia.
    + lia.
Qed.

Lemma zeros3_shape (a b c : nat) : shape3 a b c (zeros3 a b c).
Proof.
  unfold zeros3. split; [apply repeat_length |].
  apply Forall_forall. intros p Hp. apply repeat_spec in Hp. subst p.
  split; [apply repeat_length |].
  apply Forall_forall. intros row Hrow. apply repeat_spec in Hrow. subst row.
  apply repeat_length.
Qed.

Section Covariance.

Variable romb_weights : nat -> list R.
Variable roots_legendre : Z -> result (list R * list R * R).
Variable lpn : Z -> R -> result (list R).
Variable comoving_distance : R -> R.

Local Abbreviation corr_to_clarray := (corr_to_clarray romb_weights roots_legendre lpn).
Local Abbreviation initial_covariance :=
  (initial_covariance romb_weights roots_legendre lpn comoving_distance).

(** The slices of an array of [corr_to_clarray]: [lmax + 1] square,
    symmetric matrices over the distances. *)
Lemma corr_to_clarray_slices (corr : R -> R) (lmax : Z) (xarray : list R)
    (xromb : Z) (xwidth : option R) (q : Z) (clxx : list (list (list R))) :
  corr_to_clarray corr lmax xarray xromb xwidth q = Ok clxx ->
  shape3 (Z.to_nat (lmax + 1)) (length xarray) (length xarray) clxx
  /\ Forall symmetric clxx.
Proof.
  unfold Corrfunc.corr_to_clarray.
  destruct (roots_legendre (q * lmax)) as [[[mu w] wsum] |]; [| discriminate].
  cbn [bind].
  destruct (q * lmax <? 0)%Z; [discriminate |].
  destruct (extended_distances xarray xromb xwidth) as [[xa integ] |];
    [| discriminate].
  cbn [bind].
  destruct (Np.array_split _ _) as [groups |]; [| discriminate]. cbn [bind].
  destruct (fill_groups _ groups _) as [corr_array |] eqn:Efill; [| discriminate].
  cbn [bind].
  destruct (legendre_array lpn lmax mu) as [lm |] eqn:Elm; [| discriminate].
  cbn [bind].
  destruct (mapM _ w) as [scale |]; [| discriminate]. cbn [bind].
  destruct (negb (length scale =? length mu)%nat); [discriminate |].
  destruct (negb (length mu =? Z.to_nat (q * lmax))%nat); [discriminate |].
  intros H. injection H as <-.
  assert (Hsym : Forall symmetric corr_array).
  { apply (fill_groups_Forall symmetric _ _ _ _
             (corr_group_symmetric romb_weights corr mu (length xarray) xa integ)
             ltac:(apply Forall_forall; intros p Hp;
                   apply repeat_spec in Hp; subst p; apply zeros_symmetric)
             Efill). }
  assert (Llm : length lm = Z.to_nat (lmax + 1)).
  { unfold legendre_array in Elm.
    destruct (lmax + 1 <? 0)%Z; [discriminate |].
    destruct (mapM _ mu); [| discriminate]. cbn [bind] in Elm.
    injection Elm as <-. rewrite length_map, length_seq. reflexivity. }
  split; [split |].
  - rewrite !length_map. exact Llm.
  - apply Forall_forall. intros p Hp. apply in_map_iff in Hp.
    destruct Hp as [row [<- _]].
    apply (table_shape
             (fun i j => Np.dot row (map (fun plane : list (list R) =>
                                            nth j (nth i plane []) 0) corr_array))).
  - apply Forall_forall. intros p Hp. apply in_map_iff in Hp.
    destruct Hp as [row [<- _]].
    apply (table_symmetric
             (fun i j => Np.dot row (map (fun plane : list (list R) =>
                                            nth j (nth i plane []) 0) corr_array))).
    intros a b. apply dot_ext. intros plane Hin.
    rewrite Forall_forall in Hsym. apply (Hsym plane Hin).
Qed.

(** Without a bin width, the radial integration needs two distances. *)
Lemma corr_to_clarray_one_distance (corr : R -> R) (lmax : Z) (xarray : list R)
    (xromb q : Z) :
  (length xarray < 2)%nat -> (0 < xromb)%Z ->
  exists e, corr_to_clarray corr lmax xarray xromb None q = Raise e.
Proof.
  intros Hn Hx. unfold Corrfunc.corr_to_clarray.
  destruct (roots_legendre (q * lmax)) as [[[mu w] wsum] | e]; cbn [bind];
    [| exists e; reflexivity].
  destruct (q * lmax <? 0)%Z; [eexists; reflexivity |].
  unfold extended_distances.
  replace (0 <? xromb)%Z with true by (symmetry; apply Z.ltb_lt; exact Hx).
  destruct xarray as [| x [| y rest]]; cbn [length] in Hn; try lia;
    eexists; reflexivity.
Qed.

(** X30.  The extended covariance of [GenerateInitialLSS.process].  With
    fewer than 50 quadrature nodes, [leg_q * (3 * nside - 1) < 50] (with
    the default [leg_q = 4]: [nside <= 4]), or with fewer than two
    redshifts and a radial integration ([xromb > 0]), no covariance is
    computed and the task raises.  When it is computed, it has
    [3 * nside] slices of [2 nz] rows and columns, each of them symmetric
    and made of four blocks: the potential array [cla4], the cross array
    [cla2] twice, and the density array [cla0]. *)
Theorem initial_covariance_blocks (corr0 corr2 corr4 : R -> R) (nside : Z)
    (redshift : list R) (xromb leg_q : Z) :
  let lmax := (3 * nside - 1)%Z in
  let xa := map comoving_distance redshift in
  let nz := length redshift in
  ((leg_q * lmax < 50)%Z \/ ((nz < 2)%nat /\ (0 < xromb)%Z) ->
   exists e,
     initial_covariance corr0 corr2 corr4 nside redshift xromb leg_q = Raise e)
  /\ (forall cla,
        initial_covariance corr0 corr2 corr4 nside redshift xromb leg_q = Ok cla ->
        exists cla0 cla2 cla4,
          corr_to_clarray corr0 lmax xa xromb None leg_q = Ok cla0
          /\ corr_to_clarray corr2 lmax xa xromb None leg_q = Ok cla2
          /\ corr_to_clarray corr4 lmax xa xromb None leg_q = Ok cla4
          /\ shape3 (Z.to_nat (3 * nside)) (2 * nz) (2 * nz) cla
          /\ Forall symmetric cla
          /\ forall l i j : nat,
               (l < Z.to_nat (3 * nside))%nat -> (i < nz)%nat -> (j < nz)%nat ->
               entry cla l i j = entry cla4 l i j
               /\ entry cla l i (nz + j) = entry cla2 l i j
               /\ entry cla l (nz + i) j = entry cla2 l i j
               /\ entry cla l (nz + i) (nz + j) = entry cla0 l i j).
Proof.
  intros lmax xa nz. split.
  - intros Hbad. unfold Initial.initial_covariance. fold lmax xa.
    assert (H0 : exists e, corr_to_clarray corr0 lmax xa xromb None leg_q = Raise e).
    { destruct Hbad as [HM | [Hn Hx]].
      - unfold Corrfunc.corr_to_clarray.
        destruct (roots_legendre (leg_q * lmax)) as [[[mu w] wsum] | e];
          cbn [bind]; [| exists e; reflexivity].
        destruct (leg_q * lmax <? 0)%Z; [eexists; reflexivity |].
        destruct (extended_distances xa xromb None) as [[xa' integ] | e];
          cbn [bind]; [| exists e; reflexivity].
        unfold Np.array_split. rewrite (no_group _ HM). eexists; reflexivity.
      - apply corr_to_clarray_one_distance; [| exact Hx].
        unfold xa. rewrite length_map. exact Hn. }
    destruct H0 as [e E]. rewrite E. exists e. reflexivity.
  - intros cla. unfold Initial.initial_covariance. fold lmax xa nz.
    destruct (corr_to_clarray corr0 lmax xa xromb None leg_q) as [cla0 |] eqn:E0;
      [| discriminate].
    destruct (corr_to_clarray corr2 lmax xa xromb None leg_q) as [cla2 |] eqn:E2;
      [| discriminate].
    destruct (corr_to_clarray corr4 lmax xa xromb None leg_q) as [cla4 |] eqn:E4;
      [| discriminate].
    cbn [bind].
    destruct (lmax + 1 <? 0)%Z eqn:El; [discriminate |].
    apply Z.ltb_ge in El.
    destruct (corr_to_clarray_slices _ _ _ _ _ _ _ E0) as [S0 Y0].
    destruct (corr_to_clarray_slices _ _ _ _ _ _ _ E2) as [S2 Y2].
    destruct (corr_to_clarray_slices _ _ _ _ _ _ _ E4) as [S4 Y4].
    assert (Lxa : length xa = nz) by (unfold xa, nz; apply length_map).
    rewrite Lxa in S0, S2, S4.
    set (L := Z.to_nat (lmax + 1)) in *.
    assert (EL : Z.to_nat (3 * nside) = L) by (unfold L, lmax; f_equal; lia).
    rewrite EL.
    destruct (set_block_entries 0 0 nz L (2 * nz) (2 * nz) cla4 _
                S4 (zeros3_shape L (2 * nz) (2 * nz)) ltac:(lia) ltac:(lia))
      as [c1 [B1 [Sh1 N1]]].
    rewrite B1. cbn [bind].
    destruct (set_block_entries 0 nz nz L (2 * nz) (2 * nz) cla2 c1
                S2 Sh1 ltac:(lia) ltac:(lia)) as [c2 [B2 [Sh2 N2]]].
    rewrite B2. cbn [bind].
    destruct (set_block_entries nz 0 nz L (2 * nz) (2 * nz) cla2 c2
                S2 Sh2 ltac:(lia) ltac:(lia)) as [c3 [B3 [Sh3 N3]]].
    rewrite B3. cbn [bind].
    destruct (set_block_entries nz nz nz L (2 * nz) (2 * nz) cla0 c3
                S0 Sh3 ltac:(lia) ltac:(lia)) as [c4 [B4 [Sh4 N4]]].
    rewrite B4. intros H. injection H as <-.
    exists cla0, cla2, cla4.
    split; [reflexivity |]. split; [reflexivity |]. split; [reflexivity |].
    split; [exact Sh4 |].
    assert (Hblocks : forall l i j : nat,
               (l < L)%nat -> (i < nz)%nat -> (j < nz)%nat ->
               entry c4 l i j = entry cla4 l i j
               /\ entry c4 l i (nz + j) = entry cla2 l i j
               /\ entry c4 l (nz + i) j = entry cla2 l i j
               /\ entry c4 l (nz + i) (nz + j) = entry cla0 l i j).
    { intros l i j Hl Hi Hj.
      assert (T : forall u v : nat, (u <= v)%nat -> (u <=? v)%nat = true)
        by (intros u v Huv; apply Nat.leb_le; exact Huv).
      assert (F : forall u v : nat, (v < u)%nat -> (u <=? v)%nat = false)
        by (intros u v Huv; apply Nat.leb_gt; exact Huv).
      assert (T' : forall u v : nat, (u < v)%nat -> (u <? v)%nat = true)
        by (intros u v Huv; apply Nat.ltb_lt; exact Huv).
      assert (F' : forall u v : nat, (v <= u)%nat -> (u <? v)%nat = false)
        by (intros u v Huv; apply Nat.ltb_ge; exact Huv).
      repeat split.
      - rewrite N4, N3, N2, N1 by lia.
        rewrite (F nz i), (F nz j) by lia. cbn [andb].
        rewrite (T 0%nat i), (T' i (0 + nz)%nat), (T 0%nat j),
          (T' j (0 + nz)%nat) by lia.
        cbn [andb]. rewrite !Nat.sub_0_r. reflexivity.
      - rewrite N4, N3, N2 by lia.
        rewrite (F nz i) by lia. cbn [andb].
        rewrite (T 0%nat i), (T' i (0 + nz)%nat), (T nz (nz + j)%nat),
          (T' (nz + j)%nat (nz + nz)%nat) by lia.
        cbn [andb]. rewrite Nat.sub_0_r.
        replace (nz + j - nz)%nat with j by lia. reflexivity.
      - rewrite N4, N3 by lia.
        rewrite (T nz (nz + i)%nat), (T' (nz + i)%nat (nz + nz)%nat),
          (F nz j) by lia.
        cbn [andb].
        rewrite (T 0%nat j), (T' j (0 + nz)%nat) by lia. cbn [andb].
        rewrite Nat.sub_0_r.
        replace (nz + i - nz)%nat with i by lia. reflexivity.
      - rewrite N4 by lia.
        rewrite (T nz (nz + i)%nat), (T' (nz + i)%nat (nz + nz)%nat),
          (T nz (nz + j)%nat), (T' (nz + j)%nat (nz + nz)%nat) by lia.
        cbn [andb].
        replace (nz + i - nz)%nat with i by lia.
        replace (nz + j - nz)%nat with j by lia. reflexivity. }
    split; [| exact Hblocks].
    (* symmetry, block by block *)
    apply Forall_forall. intros p Hp.
    destruct (In_nth _ _ [] Hp) as [l [Hl <-]].
    destruct Sh4 as [L4 P4]. rewrite L4 in Hl.
    assert (Sp : has_shape (2 * nz) (2 * nz) (nth l c4 []))
      by (apply (shape3_nth L _ _ c4 l (conj L4 P4) Hl)).
    assert (Y : forall (x : list (list (list R))) (u v : nat),
               Forall symmetric x -> entry x l u v = entry x l v u).
    { intros x u v Hx. unfold entry.
      destruct (le_lt_dec (length x) l) as [Hout | Hin].
      - rewrite (nth_overflow x) by exact Hout. destruct u, v; reflexivity.
      - rewrite Forall_forall in Hx. apply (Hx (nth l x [])). apply nth_In. exact Hin. }
    intros u v. change (entry c4 l u v = entry c4 l v u).
    destruct (le_lt_dec (2 * nz) u) as [Hu | Hu];
      destruct (le_lt_dec (2 * nz) v) as [Hv | Hv].
    + unfold entry. destruct Sp as [Lp _].
      rewrite (nth_overflow (nth l c4 []) [] (n := u)) by lia.
      rewrite (nth_overflow (nth l c4 []) [] (n := v)) by lia.
      destruct u, v; reflexivity.
    + unfold entry.
      rewrite (nth_overflow (nth l c4 []) [] (n := u)) by (destruct Sp; lia).
      rewrite (nth_overflow (nth v (nth l c4 []) []) 0 (n := u))
        by (rewrite (has_shape_nth _ _ _ v Sp Hv); lia).
      destruct v; reflexivity.
    + unfold entry.
      rewrite (nth_overflow (nth l c4 []) [] (n := v)) by (destruct Sp; lia).
      rewrite (nth_overflow (nth u (nth l c4 []) []) 0 (n := v))
        by (rewrite (has_shape_nth _ _ _ u Sp Hu); lia).
      destruct u; reflexivity.
    + destruct (le_lt_dec nz u) as [Hun | Hun];
        destruct (le_lt_dec nz v) as [Hvn | Hvn].
      * destruct (Hblocks l (u - nz)%nat (v - nz)%nat Hl ltac:(lia) ltac:(lia))
          as [_ [_ [_ Ha]]].
        destruct (Hblocks l (v - nz)%nat (u - nz)%nat Hl ltac:(lia) ltac:(lia))
          as [_ [_ [_ Hb]]].
        replace (nz + (u - nz))%nat with u in * by lia.
        replace (nz + (v - nz))%nat with v in * by lia.
        rewrite Ha, Hb. apply Y. exact Y0.
      * destruct (Hblocks l (u - nz)%nat v Hl ltac:(lia) ltac:(lia))
          as [_ [_ [Ha _]]].
        destruct (Hblocks l v (u - nz)%nat Hl ltac:(lia) ltac:(lia))
          as [_ [Hb _]].
        replace (nz + (u - nz))%nat with u in * by lia.
        rewrite Ha, Hb. apply Y. exact Y2.
      * destruct (Hblocks l u (v - nz)%nat Hl ltac:(lia) ltac:(lia))
          as [_ [Ha _]].
        destruct (Hblocks l (v - nz)%nat u Hl ltac:(lia) ltac:(lia))
          as [_ [_ [Hb _]]].
        replace (nz + (v - nz))%nat with v in * by lia.
        rewrite Ha, Hb. apply Y. exact Y2.
      * destruct (Hblocks l u v Hl ltac:(lia) ltac:(lia)) as [Ha _].
        destruct (Hblocks l v u Hl ltac:(lia) ltac:(lia)) as [Hb _].
        rewrite Ha, Hb. apply Y. exact Y4.
Qed.

(** The covariance is computed as soon as the three arrays are. *)
Lemma initial_covariance_returns (corr0 corr2 corr4 : R -> R) (nside : Z)
    (redshift : list R) (xromb leg_q : Z) (cla0 cla2 cla4 : list (list (list R))) :
  let lmax := (3 * nside - 1)%Z in
  let xa := map comoving_distance redshift in
  corr_to_clarray corr0 lmax xa xromb None leg_q = Ok cla0 ->
  corr_to_clarray corr2 lmax xa xromb None leg_q = Ok cla2 ->
  corr_to_clarray corr4 lmax xa xromb None leg_q = Ok cla4 ->
  (0 <= lmax + 1)%Z ->
  exists cla,
    initial_covariance corr0 corr2 corr4 nside redshift xromb leg_q = Ok cla.
Proof.
  intros lmax xa E0 E2 E4 Hl.
  unfold Initial.initial_covariance. fold lmax xa. rewrite E0, E2, E4. cbn [bind].
  destruct (lmax + 1 <? 0)%Z eqn:El; [apply Z.ltb_lt in El; lia |].
  destruct (corr_to_clarray_slices _ _ _ _ _ _ _ E0) as [S0 _].
  destruct (corr_to_clarray_slices _ _ _ _ _ _ _ E2) as [S2 _].
  destruct (corr_to_clarray_slices _ _ _ _ _ _ _ E4) as [S4 _].
  assert (Lxa : length xa = length redshift) by (unfold xa; apply length_map).
  rewrite Lxa in S0, S2, S4.
  set (nz := length redshift) in *. set (L := Z.to_nat (lmax + 1)) in *.
  destruct (set_block_entries 0 0 nz L (2 * nz) (2 * nz) cla4 _
              S4 (zeros3_shape L (2 * nz) (2 * nz)) ltac:(lia) ltac:(lia))
    as [c1 [B1 [Sh1 _]]].
  rewrite B1. cbn [bind].
  destruct (set_block_entries 0 nz nz L (2 * nz) (2 * nz) cla2 c1
              S2 Sh1 ltac:(lia) ltac:(lia)) as [c2 [B2 [Sh2 _]]].
  rewrite B2. cbn [bind].
  destruct (set_block_entries nz 0 nz L (2 * nz) (2 * nz) cla2 c2
              S2 Sh2 ltac:(lia) ltac:(lia)) as [c3 [B3 [Sh3 _]]].
  rewrite B3. cbn [bind].
  destruct (set_block_entries nz nz nz L (2 * nz) (2 * nz) cla0 c3
              S0 Sh3 ltac:(lia) ltac:(lia)) as [c4 [B4 _]].
  rewrite B4. exists c4. reflexivity.
Qed.

End Covariance.

Import Examples.

(** At [nside = 4] the default accuracy gives 44 nodes and the task
    raises; at [nside = 8] the covariance of two redshifts is computed,
    and it is symmetric. *)
Lemma initial_covariance_blocks_witness :
  (exists e,
     initial_covariance unit_weights flat_nodes flat_lpn (fun z => 1 + z)
       (fun r => r) (fun r => r) (fun r => r) 4 [1; 2] 0 4 = Raise e)
  /\ exists cla,
       initial_covariance unit_weights flat_nodes flat_lpn (fun z => 1 + z)
         (fun r => r) (fun r => r) (fun r => r) 8 [1; 2] 0 4 = Ok cla
       /\ shape3 (Z.to_nat (3 * 8)) (2 * 2) (2 * 2) cla
       /\ Forall symmetric cla.
Proof.
  split.
  - apply (proj1 (initial_covariance_blocks unit_weights flat_nodes flat_lpn
                    (fun z => 1 + z) (fun r => r) (fun r => r) (fun r => r)
                    4 [1; 2] 0 4)).
    left. reflexivity.
  - assert (Hret : exists clxx,
               corr_to_clarray unit_weights flat_nodes flat_lpn (fun r => r)
                 (3 * 8 - 1) (map (fun z => 1 + z) [1; 2]) 0 None 4 = Ok clxx).
    { eapply (corr_to_clarray_returns unit_weights flat_nodes flat_lpn
                (fun r => r) (3 * 8 - 1) (map (fun z => 1 + z) [1; 2]) 0 None 4
                (repeat 0 (Z.to_nat 92)) (repeat 1 (Z.to_nat 92)) 1).
      - reflexivity.
      - apply repeat_length.
      - rewrite !repeat_length. reflexivity.
      - lra.
      - apply Forall_forall. intros m Hm. apply repeat_spec in Hm. subst m. lra.
      - intros v _. eexists. split; [reflexivity | apply repeat_length].
      - lia.
      - lia.
      - reflexivity.
      - exact I. }
    destruct Hret as [clxx E].
    destruct (initial_covariance_returns unit_weights flat_nodes flat_lpn
                (fun z => 1 + z) (fun r => r) (fun r => r) (fun r => r)
                8 [1; 2] 0 4 clxx clxx clxx E E E ltac:(lia)) as [cla Ecla].
    exists cla. split; [exact Ecla |].
    destruct (proj2 (initial_covariance_blocks unit_weights flat_nodes flat_lpn
                       (fun z => 1 + z) (fun r => r) (fun r => r) (fun r => r)
                       8 [1; 2] 0 4) cla Ecla)
      as [_ [_ [_ [_ [_ [_ [Hs [Hy _]]]]]]]].
    split; [exact Hs | exact Hy].
Defined.

End InitialCovariance.
